(** * SLATE API server: cluster lifecycle, access policy and ID generation

    A shallow embedding of [src/Entities.cpp] (the ID generator) and
    [src/ClusterCommands.cpp] (cluster registration, update, deletion,
    access grants, reachability and the consistency check), with the
    properties of the specification stated and proved over it. *)

From Stdlib Require Import ZArith Lia Ascii String List Bool.
From stdpp Require Import base option list gmap strings.

Local Open Scope Z_scope.

#[local] Set Warnings "-register-all,-clear-no-such-hyp".

(** ** std::string helpers *)

Module Str.

(** [std::string::find(needle)] from position 0; [None] is [npos]. *)
Definition find (hay needle : string) : option nat := String.index 0 needle hay.

(** [hay.find(needle) != npos] *)
Definition contains (hay needle : string) : bool :=
  match find hay needle with Some _ => true | None => false end.

(** [hay.find(needle) == 0] *)
Definition starts_with (hay needle : string) : bool :=
  match find hay needle with Some O => true | _ => false end.

(** [std::string::find(char)] *)
Fixpoint find_char (c : ascii) (s : string) : option nat :=
  match s with
  | EmptyString => None
  | String d s' => if Ascii.eqb c d then Some O else S <$> find_char c s'
  end.

(** [s.substr(pos)] *)
Fixpoint drop (n : nat) (s : string) : string :=
  match n, s with
  | O, _ => s
  | S n', String _ s' => drop n' s'
  | S _, EmptyString => EmptyString
  end.

(** [s.substr(0,n)] *)
Fixpoint take (n : nat) (s : string) : string :=
  match n, s with
  | S n', String c s' => String c (take n' s')
  | _, _ => EmptyString
  end.

Fixpoint forallb (p : ascii -> bool) (s : string) : bool :=
  match s with
  | EmptyString => true
  | String c s' => p c && forallb p s'
  end.

Fixpoint map (f : ascii -> ascii) (s : string) : string :=
  match s with
  | EmptyString => EmptyString
  | String c s' => String (f c) (map f s')
  end.

Fixpoint of_list (l : list ascii) : string :=
  match l with
  | [] => EmptyString
  | c :: l' => String c (of_list l')
  end.

End Str.

(** ** Entities.cpp: the ID generator *)

Module IDGenerator.

Definition userIDPrefix : string := "user_".
Definition clusterIDPrefix : string := "cluster_".
Definition groupIDPrefix : string := "group_".
Definition instanceIDPrefix : string := "instance_".
Definition secretIDPrefix : string := "secret_".

(** The object representation of a [uint64_t] read through
    [(char* )&value]: eight bytes, least significant first (the server
    targets x86-64). *)
Definition bytes_of_uint64 (value : Z) : list Z :=
  List.map (fun i => Z.land (Z.shiftr value (8 * i)) 255) [0; 1; 2; 3; 4; 5; 6; 7].

(** boost's [transform_width<const unsigned char*,6,8>]: the bits of the
    input bytes, most significant first, regrouped six at a time; the
    last group is filled with zero bits. *)
Definition bits_of_byte (b : Z) : list bool :=
  List.map (Z.testbit b) [7; 6; 5; 4; 3; 2; 1; 0].

Fixpoint regroup (acc : list bool) (bits : list bool) : list (list bool) :=
  match bits with
  | [] =>
      match acc with
      | [] => []
      | _ => [acc ++ repeat false (6 - length acc)]
      end
  | b :: bs =>
      if Nat.eqb (length acc) 5 then (acc ++ [b]) :: regroup [] bs
      else regroup (acc ++ [b]) bs
  end.

Definition value_of_bits (bits : list bool) : nat :=
  fold_left (fun n (b : bool) => (2 * n + (if b then 1 else 0))%nat) bits O.

Definition transform_width_6_8 (bytes : list Z) : list nat :=
  List.map value_of_bits (regroup [] (concat (List.map bits_of_byte bytes))).

(** boost's [base64_from_binary]: the lookup table of the standard
    base64 alphabet. *)
Definition base64_table : string :=
  "ABCDEFGHIJKLMNOPQRSTUVWXYZabcdefghijklmnopqrstuvwxyz0123456789+/".

Definition base64_char (v : nat) : ascii :=
  match String.get v base64_table with
  | Some c => c
  | None => "A"%char
  end.

Definition base64_text (bytes : list Z) : string :=
  Str.of_list (List.map base64_char (transform_width_6_8 bytes)).

(** The loop converting to RFC 4648 URL- and filename-safe base64. *)
Definition url_safe_char (c : ascii) : ascii :=
  let c := if Ascii.eqb c "+" then "-"%char else c in
  if Ascii.eqb c "/" then "_"%char else c.

(** [IDGenerator::generateRawID], as a function of the value drawn from
    [std::uniform_int_distribution<uint64_t>]. *)
Definition generateRawID (value : Z) : string :=
  let result := base64_text (bytes_of_uint64 value) in
  Str.map url_safe_char result.

(** Modelled from the spec: the per-kind generators of Entities.h
    ([generateUserID], [generateClusterID], ...), which are not part of the
    sources at hand; the spec says an ID is the raw ID prefixed with the
    kind tag. *)
Inductive Kind := UserKind | ClusterKind | GroupKind | InstanceKind | SecretKind.

Definition prefix_of (k : Kind) : string :=
  match k with
  | UserKind => userIDPrefix
  | ClusterKind => clusterIDPrefix
  | GroupKind => groupIDPrefix
  | InstanceKind => instanceIDPrefix
  | SecretKind => secretIDPrefix
  end.

Definition generateID (k : Kind) (value : Z) : string :=
  prefix_of k +:+ generateRawID value.

(** The character class [[A-Za-z0-9_-]]. *)
Definition in_url_alphabet (c : ascii) : bool :=
  let n := nat_of_ascii c in
  ((65 <=? n) && (n <=? 90))%nat || ((97 <=? n) && (n <=? 122))%nat
  || ((48 <=? n) && (n <=? 57))%nat || Ascii.eqb c "_" || Ascii.eqb c "-".

(** A matcher for the regular expression [^<prefix>[A-Za-z0-9_-]{11}$]. *)
Definition matches_id_pattern (pre s : string) : bool :=
  String.eqb (Str.take (String.length pre) s) pre
  && Nat.eqb (String.length (Str.drop (String.length pre) s)) 11
  && Str.forallb in_url_alphabet (Str.drop (String.length pre) s).

End IDGenerator.

(** ** RFC 4648, section 5: base64 with the URL- and filename-safe alphabet *)

Module RFC4648.

Definition alphabet : string :=
  "ABCDEFGHIJKLMNOPQRSTUVWXYZabcdefghijklmnopqrstuvwxyz0123456789-_".

(** The character that stands for a number of six bits. *)
Definition digit (v : Z) : ascii :=
  match String.get (Z.to_nat v) alphabet with
  | Some c => c
  | None => "A"%char
  end.

(** The text of a sequence of octets, without padding characters: three
    octets, read as one number of 24 bits, give four digits of six bits
    each, the most significant first; two octets that are left over give
    three digits and one octet gives two, the bits that are missing being
    zero. *)
Fixpoint encode (octets : list Z) : string :=
  match octets with
  | a :: b :: c :: rest =>
      let n := (a * 256 + b) * 256 + c in
      String (digit (n / 262144))
        (String (digit (n / 4096 mod 64))
           (String (digit (n / 64 mod 64))
              (String (digit (n mod 64)) (encode rest))))
  | [a; b] =>
      let n := (a * 256 + b) * 4 in
      String (digit (n / 4096))
        (String (digit (n / 64 mod 64)) (String (digit (n mod 64)) EmptyString))
  | [a] =>
      let n := a * 16 in
      String (digit (n / 64)) (String (digit (n mod 64)) EmptyString)
  | [] => EmptyString
  end.

(** The octets of a number of 64 bits as they lie in memory, the least
    significant first. *)
Definition octets_of_uint64 (value : Z) : list Z :=
  List.map (fun i => value / 256 ^ i mod 256) [0; 1; 2; 3; 4; 5; 6; 7].

End RFC4648.

(** ** Utilities.h: splitting command output *)

Module Utilities.

(** The pieces of [s] between occurrences of [delim], as the successive
    [std::getline(ss,item,delim)] calls deliver them: a final piece is
    delivered only when it is not empty. [cur] holds the characters of
    the piece being read, last one first. *)
Fixpoint getline_all (delim : ascii) (s : string) (cur : list ascii) : list string :=
  match s with
  | EmptyString =>
      match cur with
      | [] => []
      | _ => [Str.of_list (rev cur)]
      end
  | String c s' =>
      if Ascii.eqb c delim then Str.of_list (rev cur) :: getline_all delim s' []
      else getline_all delim s' (c :: cur)
  end.

Definition newline : ascii := ascii_of_nat 10.

(** Modelled from the spec: [string_split_lines] is declared in
    Utilities.h ("Split a string into separate strings delimited by
    newlines"); its body is not part of the sources at hand. *)
Definition string_split_lines (text : string) : list string :=
  getline_all newline text [].

(** Modelled from the spec: [string_split_columns] is declared in
    Utilities.h ("Split a string at delimiter characters", with
    [keepEmpty] telling "whether to output empty tokens when two
    delimiter characters are encountered in a row"); its body is not part
    of the sources at hand. *)
Definition string_split_columns (line : string) (delim : ascii) (keepEmpty : bool) : list string :=
  List.filter (fun item => keepEmpty || negb (String.eqb item ""))
              (getline_all delim line []).

Definition is_digit (c : ascii) : bool :=
  let n := nat_of_ascii c in ((48 <=? n) && (n <=? 57))%nat.

(** [isspace] in the "C" locale. *)
Definition is_space (c : ascii) : bool :=
  let n := nat_of_ascii c in (Nat.eqb n 32 || ((9 <=? n) && (n <=? 13)))%nat.

Fixpoint skip_spaces (s : string) : string :=
  match s with
  | String c s' => if is_space c then skip_spaces s' else s
  | EmptyString => s
  end.

(** The digits at the front of [s], read in base ten onto [acc];
    [None] when [s] does not start with a digit and [first] is set. *)
Fixpoint read_digits (first : bool) (acc : Z) (s : string) : option Z :=
  match s with
  | String c s' =>
      if is_digit c then read_digits false (10 * acc + (Z.of_nat (nat_of_ascii c) - 48)) s'
      else if first then None else Some acc
  | EmptyString => if first then None else Some acc
  end.

Definition ULONG_MAX : Z := 2 ^ 64 - 1.

(** [std::stoul(s)] on a 64-bit [unsigned long]: leading white space, an
    optional sign, then decimal digits; [None] stands for either exception
    ([std::invalid_argument] when there is no digit, [std::out_of_range]
    when the magnitude exceeds [ULONG_MAX]). A minus sign negates modulo
    2^64, as [strtoul] does. *)
Definition stoul (s : string) : option Z :=
  let s := skip_spaces s in
  let '(neg, digits) :=
    match s with
    | String c s' =>
        if Ascii.eqb c "-" then (true, s')
        else if Ascii.eqb c "+" then (false, s')
        else (false, s)
    | EmptyString => (false, s)
    end in
  match read_digits true 0 digits with
  | None => None
  | Some v =>
      if ULONG_MAX <? v then None
      else Some (if neg then (2 ^ 64 - v) mod 2 ^ 64 else v)
  end.

End Utilities.

(** ** Entities *)

(** The data members of Entities.h that the cluster commands and the
    stream operators of Entities.cpp use. A lookup that yields an invalid
    (default-constructed) entity in the source yields [None] here. *)

Record User := {
  user_id : string;
  user_name : string;
  user_admin : bool;
  user_token : string;
}.

Record Group := {
  group_id : string;
  group_name : string;
}.

Record Cluster := {
  cluster_id : string;
  cluster_name : string;
  cluster_config : string;
  cluster_systemNamespace : string;
  cluster_owningGroup : string;
  cluster_owningOrganization : string;
  cluster_valid : bool;
}.

Record ApplicationInstance := {
  instance_id : string;
  instance_name : string;
  instance_application : string;
  instance_owningGroup : string;
  instance_cluster : string;
  instance_ctime : string;
}.

Record Secret := {
  secret_id : string;
  secret_name : string;
  secret_group : string;
  secret_cluster : string;
  secret_ctime : string;
}.

(** A JSON number, [mantissa * 10 ^ exponent]; rounding to [double] is
    not modelled, coordinates are only stored. *)
Record Decimal := { mantissa : Z; exponent : Z }.

Record GeoLocation := { lat : Decimal; lon : Decimal }.

(** [operator<<] for [Cluster] and [Group] of Entities.cpp, on valid
    entities. *)
Definition show_cluster (c : Cluster) : string :=
  if negb (cluster_valid c) then "invalid cluster"
  else cluster_id c +:+
       (if String.eqb (cluster_name c) "" then "" else " (" +:+ cluster_name c +:+ ")").

Definition show_group (g : Group) : string :=
  group_id g +:+
  (if String.eqb (group_name g) "" then "" else " (" +:+ group_name g +:+ ")").

(** ** Documents: rapidjson values and yaml-cpp nodes *)

Inductive JSON :=
| JNull
| JBool (b : bool)
| JNumber (d : Decimal)
| JString (s : string)
| JArray (items : list JSON)
| JObject (members : list (string * JSON)).

Module Json.

Fixpoint assoc {A} (key : string) (l : list (string * A)) : option A :=
  match l with
  | [] => None
  | (k, v) :: l' => if String.eqb k key then Some v else assoc key l'
  end.

(** [v[key]] where the member exists; rapidjson requires [v] to be an
    object, other values have no members here. *)
Definition member (key : string) (v : JSON) : option JSON :=
  match v with
  | JObject ms => assoc key ms
  | _ => None
  end.

Definition HasMember (key : string) (v : JSON) : bool :=
  match member key v with Some _ => true | None => false end.

Definition IsNull (v : JSON) : bool := match v with JNull => true | _ => false end.
Definition IsObject (v : JSON) : bool := match v with JObject _ => true | _ => false end.
Definition IsString (v : JSON) : bool := match v with JString _ => true | _ => false end.
Definition IsArray (v : JSON) : bool := match v with JArray _ => true | _ => false end.
Definition IsNumber (v : JSON) : bool := match v with JNumber _ => true | _ => false end.

Definition GetString (v : JSON) : string := match v with JString s => s | _ => "" end.
Definition GetArray (v : JSON) : list JSON := match v with JArray l => l | _ => [] end.
Definition GetDouble (v : JSON) : Decimal :=
  match v with JNumber d => d | _ => {| mantissa := 0; exponent := 0 |} end.

(** [body[a][b]], with [JNull] where a member is missing. *)
Definition at2 (a b : string) (v : JSON) : JSON :=
  match member a v with
  | Some x => match member b x with Some y => y | None => JNull end
  | None => JNull
  end.

End Json.

Inductive YAML :=
| YNull
| YScalar (s : string)
| YSeq (items : list YAML)
| YMap (entries : list (string * YAML)).

Module Yaml.

Definition IsMap (n : YAML) : bool := match n with YMap _ => true | _ => false end.
Definition IsSequence (n : YAML) : bool := match n with YSeq _ => true | _ => false end.
Definition IsScalar (n : YAML) : bool := match n with YScalar _ => true | _ => false end.

(** [node[key]]; [None] is the undefined node, which converts to false. *)
Definition get (key : string) (n : YAML) : option YAML :=
  match n with
  | YMap es => Json.assoc key es
  | _ => None
  end.

Definition first (n : YAML) : option YAML :=
  match n with
  | YSeq (x :: _) => Some x
  | _ => None
  end.

End Yaml.

(** ** The persistent store *)

(** Modelled from the spec: [PersistentStore] (PersistentStore.h and its
    implementation are not part of the sources at hand). The spec gives
    one keyed table per kind with [id] as primary key, by-name lookups,
    the membership and access relations as sets, and a reachability cache
    with a time to live. Every operation returns success or a failure:
    [online] tells whether the backing database answers; a write on a
    store that is not online fails and changes nothing. *)
Record PersistentStore := {
  online : bool;
  users : gmap string User;
  groups : gmap string Group;
  clusters : gmap string Cluster;
  instances : gmap string ApplicationInstance;
  secrets : gmap string Secret;
  memberships : gset (string * string);      (* (user id, group id) *)
  access : gset (string * string);           (* (cluster id, group id or wildcard) *)
  locations : gmap string (list GeoLocation);
  reachability : gmap string (bool * Z);     (* cluster id -> (reachable, expiry) *)
}.

Module Store.

(** Modelled from the spec: [PersistentStore::wildcard] and
    [PersistentStore::wildcardName], the pseudo-group [{id:"*",
    name:"<all>"}] of the spec and of the tests. *)
Definition wildcard : string := "*".
Definition wildcardName : string := "<all>".

Definition with_clusters (f : gmap string Cluster -> gmap string Cluster)
    (st : PersistentStore) : PersistentStore :=
  {| online := online st; users := users st; groups := groups st;
     clusters := f (clusters st); instances := instances st;
     secrets := secrets st; memberships := memberships st;
     access := access st; locations := locations st;
     reachability := reachability st |}.

Definition with_instances (f : gmap string ApplicationInstance -> gmap string ApplicationInstance)
    (st : PersistentStore) : PersistentStore :=
  {| online := online st; users := users st; groups := groups st;
     clusters := clusters st; instances := f (instances st);
     secrets := secrets st; memberships := memberships st;
     access := access st; locations := locations st;
     reachability := reachability st |}.

Definition with_secrets (f : gmap string Secret -> gmap string Secret)
    (st : PersistentStore) : PersistentStore :=
  {| online := online st; users := users st; groups := groups st;
     clusters := clusters st; instances := instances st;
     secrets := f (secrets st); memberships := memberships st;
     access := access st; locations := locations st;
     reachability := reachability st |}.

Definition with_access (f : gset (string * string) -> gset (string * string))
    (st : PersistentStore) : PersistentStore :=
  {| online := online st; users := users st; groups := groups st;
     clusters := clusters st; instances := instances st;
     secrets := secrets st; memberships := memberships st;
     access := f (access st); locations := locations st;
     reachability := reachability st |}.

Definition with_locations (f : gmap string (list GeoLocation) -> gmap string (list GeoLocation))
    (st : PersistentStore) : PersistentStore :=
  {| online := online st; users := users st; groups := groups st;
     clusters := clusters st; instances := instances st;
     secrets := secrets st; memberships := memberships st;
     access := access st; locations := f (locations st);
     reachability := reachability st |}.

Definition with_reachability (f : gmap string (bool * Z) -> gmap string (bool * Z))
    (st : PersistentStore) : PersistentStore :=
  {| online := online st; users := users st; groups := groups st;
     clusters := clusters st; instances := instances st;
     secrets := secrets st; memberships := memberships st;
     access := access st; locations := locations st;
     reachability := f (reachability st) |}.

(** The first record of a table that satisfies [p], in key order. *)
Definition find_in {V} (p : V -> bool) (table : gmap string V) : option V :=
  List.find p (snd <$> map_to_list table).

Definition select {V} (p : V -> bool) (table : gmap string V) : list V :=
  List.filter p (snd <$> map_to_list table).

(** *** Reads *)

Definition findUserByToken (st : PersistentStore) (token : string) : option User :=
  find_in (fun u => String.eqb (user_token u) token) (users st).

Definition findGroupByID (st : PersistentStore) (id : string) : option Group :=
  groups st !! id.

Definition findGroupByName (st : PersistentStore) (name : string) : option Group :=
  find_in (fun g => String.eqb (group_name g) name) (groups st).

(** [getGroup] accepts an ID or a name, told apart by the ID prefix (the
    normalisation that [createCluster] writes out for the owning group). *)
Definition getGroup (st : PersistentStore) (idOrName : string) : option Group :=
  if Str.starts_with idOrName IDGenerator.groupIDPrefix then findGroupByID st idOrName
  else findGroupByName st idOrName.

Definition findClusterByID (st : PersistentStore) (id : string) : option Cluster :=
  clusters st !! id.

Definition findClusterByName (st : PersistentStore) (name : string) : option Cluster :=
  find_in (fun c => String.eqb (cluster_name c) name) (clusters st).

Definition getCluster (st : PersistentStore) (idOrName : string) : option Cluster :=
  if Str.starts_with idOrName IDGenerator.clusterIDPrefix then findClusterByID st idOrName
  else findClusterByName st idOrName.

Definition userInGroup (st : PersistentStore) (uID groupID : string) : bool :=
  bool_decide ((uID, groupID) ∈ memberships st).

Definition listgroups (st : PersistentStore) : list Group :=
  select (fun _ => true) (groups st).

Definition listApplicationInstances (st : PersistentStore) : list ApplicationInstance :=
  select (fun _ => true) (instances st).

(** An empty group or cluster argument places no restriction. *)
Definition listApplicationInstancesByClusterOrGroup (st : PersistentStore)
    (group cluster : string) : list ApplicationInstance :=
  select (fun i =>
            (String.eqb group "" || String.eqb (instance_owningGroup i) group)
            && (String.eqb cluster "" || String.eqb (instance_cluster i) cluster))
         (instances st).

Definition listSecrets (st : PersistentStore) (group cluster : string) : list Secret :=
  select (fun s =>
            (String.eqb group "" || String.eqb (secret_group s) group)
            && (String.eqb cluster "" || String.eqb (secret_cluster s) cluster))
         (secrets st).

Definition listgroupsAllowedOnCluster (st : PersistentStore) (cID : string) : list string :=
  snd <$> List.filter (fun p => String.eqb (fst p) cID) (elements (access st)).

Definition getLocationsForCluster (st : PersistentStore) (cID : string) : list GeoLocation :=
  default [] (locations st !! cID).

(** The kubeconfig file that [configPathForCluster] materialises is
    identified with its contents: the stored kubeconfig of the cluster. *)
Definition configPathForCluster (st : PersistentStore) (cID : string) : string :=
  match clusters st !! cID with
  | Some c => cluster_config c
  | None => ""
  end.

(** A cached reachability is usable until its expiry time. *)
Definition getCachedClusterReachability (st : PersistentStore) (now : Z) (cID : string)
    : option bool :=
  match reachability st !! cID with
  | Some (r, expiry) => if now <=? expiry then Some r else None
  | None => None
  end.

(** *** Writes: the success flag and the store afterwards *)

Definition write (st : PersistentStore) (f : PersistentStore -> PersistentStore)
    : bool * PersistentStore :=
  if online st then (true, f st) else (false, st).

Definition addCluster (st : PersistentStore) (c : Cluster) :=
  write st (with_clusters (insert (cluster_id c) c)).

Definition updateCluster (st : PersistentStore) (c : Cluster) :=
  write st (with_clusters (insert (cluster_id c) c)).

Definition removeCluster (st : PersistentStore) (cID : string) :=
  write st (with_clusters (delete cID)).

Definition removeApplicationInstance (st : PersistentStore) (id : string) :=
  write st (with_instances (delete id)).

Definition removeSecret (st : PersistentStore) (id : string) :=
  write st (with_secrets (delete id)).

Definition addGroupToCluster (st : PersistentStore) (groupID cID : string) :=
  write st (with_access (fun a => {[ (cID, groupID) ]} ∪ a)).

Definition removeGroupFromCluster (st : PersistentStore) (groupID cID : string) :=
  write st (with_access (fun a => a ∖ {[ (cID, groupID) ]})).

Definition setLocationsForCluster (st : PersistentStore) (cID : string)
    (ls : list GeoLocation) :=
  write st (with_locations (insert cID ls)).

(** The cache lives in the server process, not in the database. *)
Definition cacheClusterReachability (st : PersistentStore) (now ttl : Z) (cID : string)
    (reachable : bool) : PersistentStore :=
  with_reachability (insert cID (reachable, now + ttl)) st.

End Store.

(** ** The server's surroundings: sub-processes, time, the request *)

(** What the server runs outside itself; a kubeconfig file is identified
    with its contents. *)
Inductive Command :=
| Kubectl (config : string) (args : list string)
| Helm (config : string) (tillerNamespace : string) (args : list string)
| RunCommand (command : string) (args : list string) (environment : list (string * string))
| KubectlDeleteNamespace (config : string) (namespaceName : string).

Record CommandResult := {
  status : Z;
  output : string;
  error : string;
}.

(** [if(result.status)]: the command did not exit with 0. *)
Definition failed (r : CommandResult) : bool := negb (status r =? 0).

Inductive Task :=
| SecretDeletion (secretID : string)
| NamespaceDeletion (groupID : string).

Inductive StoreWrite :=
| AddCluster (cID : string)
| UpdateCluster (cID : string)
| RemoveCluster (cID : string)
| RemoveApplicationInstance (id : string)
| RemoveSecret (id : string)
| AddGroupToCluster (groupID cID : string)
| RemoveGroupFromCluster (groupID cID : string)
| SetLocationsForCluster (cID : string).

(** What a request does that can be observed from outside, oldest first:
    commands run, writes the store accepted, [std::async] tasks launched
    and joined, sleeps, and [log_error] lines. *)
Inductive Event :=
| Ran (c : Command)
| Wrote (w : StoreWrite)
| Launched (t : Task)
| Joined (t : Task)
| Slept (ms : Z)
| LoggedError (msg : string).

Record World := {
  store : PersistentStore;
  now : Z;                 (* the steady clock, in milliseconds *)
  draws : nat;             (* values drawn from [idSource] so far *)
  trace : list Event;
}.

(** The collaborators the sources call but do not contain: the answers
    of the sub-processes (which may depend on everything that happened
    before), the YAML parser, [unescape], the random source of the ID
    generator, and two constants of headers that are not at hand; and the
    scheduler of the threads: [schedule evs n] names the tasks that take a
    step, one after another, at the [n]-th place at which the calling
    thread lets them, in a stage of tasks that starts after the events
    [evs]. *)
Record Env := {
  execute : list Event -> Command -> CommandResult;
  schedule : list Event -> nat -> list nat;
  unescape : string -> string;
  yamlLoadAll : string -> option (list YAML);
  idSource : nat -> Z;
  clusterCacheValidity : Z;
  namespacePrefix : string;
}.

Record Request := {
  url_params : list (string * string);
  body : JSON;             (* the document rapidjson parses; [JNull] when it cannot *)
}.

Definition url_param (req : Request) (key : string) : option string :=
  Json.assoc key (url_params req).

Record Response := {
  code : Z;
  payload : JSON;          (* [JNull] for an empty body *)
}.

Definition generateError (message : string) : JSON :=
  JObject [("kind", JString "Error"); ("message", JString message)].

Definition response (c : Z) (p : JSON) : Response := {| code := c; payload := p |}.

(** ** Control flow: statements that may [return] *)

(** A statement of a function whose result type is [R] either returns
    from the function, or falls through with a value, or is cut off
    because a loop ran out of fuel. *)
Inductive Outcome (R A : Type) :=
| Returned (r : R)
| Continue (a : A)
| OutOfFuel.
Arguments Returned {R A} r.
Arguments Continue {R A} a.
Arguments OutOfFuel {R A}.

Definition M (R A : Type) : Type := World -> Outcome R A * World.

Module Stmt.

Definition pure {R A} (a : A) : M R A := fun w => (Continue a, w).

Definition bind {R A B} (m : M R A) (k : A -> M R B) : M R B :=
  fun w =>
    match m w with
    | (Returned r, w') => (Returned r, w')
    | (Continue a, w') => k a w'
    | (OutOfFuel, w') => (OutOfFuel, w')
    end.

Definition return_ {R A} (r : R) : M R A := fun w => (Returned r, w).

Definition diverge {R A} : M R A := fun w => (OutOfFuel, w).

Definition get {R} : M R World := fun w => (Continue w, w).

Definition emit {R} (e : Event) : M R unit :=
  fun w => (Continue tt,
            {| store := store w; now := now w; draws := draws w;
               trace := trace w ++ [e] |}).

Definition set_store {R} (st : PersistentStore) : M R unit :=
  fun w => (Continue tt,
            {| store := st; now := now w; draws := draws w; trace := trace w |}).

(** The body of a function, run to its result. *)
Definition run {R} (m : M R R) (w : World) : option R * World :=
  match m w with
  | (Returned r, w') => (Some r, w')
  | (Continue r, w') => (Some r, w')
  | (OutOfFuel, w') => (None, w')
  end.

(** A call of a function with result type [A] from a function with
    result type [R]. *)
Definition call {R A} (m : M A A) : M R A :=
  fun w =>
    match run m w with
    | (Some a, w') => (Continue a, w')
    | (None, w') => (OutOfFuel, w')
    end.

End Stmt.

#[global] Instance M_ret {R} : MRet (M R) := fun A => @Stmt.pure R A.
#[global] Instance M_bind {R} : MBind (M R) := fun A B k m => @Stmt.bind R A B m k.

Fixpoint for_each {R A} (l : list A) (body : A -> M R unit) : M R unit :=
  match l with
  | [] => mret tt
  | x :: l' => body x ;; for_each l' body
  end.

Section Effects.

Context {R : Type}.
Variable env : Env.

Definition read {A} (f : PersistentStore -> A) : M R A :=
  w ← Stmt.get; mret (f (store w)).

(** A write: the store is replaced and the write recorded when the store
    accepts it. *)
Definition write (f : PersistentStore -> bool * PersistentStore) (w : StoreWrite) : M R bool :=
  st ← read (fun st => st);
  let '(ok, st') := f st in
  Stmt.set_store st' ;;
  (if ok then Stmt.emit (Wrote w) else mret tt) ;;
  mret ok.

Definition exec (c : Command) : M R CommandResult :=
  w ← Stmt.get;
  Stmt.emit (Ran c) ;;
  mret (execute env (trace w) c).

Definition log_error (msg : string) : M R unit := Stmt.emit (LoggedError msg).

(** [std::this_thread::sleep_for]: the clock moves on. *)
Definition sleep_for (ms : Z) : M R unit :=
  fun w => (Continue tt,
            {| store := store w; now := now w + ms; draws := draws w;
               trace := trace w ++ [Slept ms] |}).

(** One value of the random source, behind the generator's mutex. *)
Definition draw : M R Z :=
  fun w => (Continue (idSource env (draws w)),
            {| store := store w; now := now w; draws := S (draws w);
               trace := trace w |}).

Definition kubectl (config : string) (args : list string) : M R CommandResult :=
  exec (Kubectl config args).

Definition helm (config tillerNamespace : string) (args : list string) : M R CommandResult :=
  exec (Helm config tillerNamespace args).

Definition runCommand (command : string) (args : list string)
    (environment : list (string * string)) : M R CommandResult :=
  exec (RunCommand command args environment).

Definition namespaceName (g : Group) : string := namespacePrefix env +:+ group_name g.

(** Modelled from the spec: [authenticateUser] is declared in
    Utilities.h, its body is not at hand; a missing or unknown token
    yields no user. *)
Definition authenticateUser (token : option string) : M R (option User) :=
  match token with
  | None => mret None
  | Some t => read (fun st => Store.findUserByToken st t)
  end.

End Effects.

(** ** Tasks that run beside the calling thread *)

(** What is left of a task launched with [std::async]. Its steps are the
    accesses to the store, the commands and the log lines that its body
    comes to, one at a time: between two of them the other threads may
    take steps of theirs. [next] is given the world in which the step is
    taken. *)
Inductive Thread (A : Type) : Type :=
| Finished (result : A)
| Step (effect : World -> World) (next : World -> Thread A).
Arguments Finished {A} result.
Arguments Step {A} effect next.

Module Thread.

(** One step, which delivers a value. *)
Definition atomic {A} (act : World -> A * World) : Thread A :=
  Step (fun w => snd (act w)) (fun w => Finished (fst (act w))).

Fixpoint bind {A B} (t : Thread A) (k : A -> Thread B) : Thread B :=
  match t with
  | Finished a => k a
  | Step effect next => Step effect (fun w => bind (next w) k)
  end.

(** The task takes all the steps it has left. *)
Fixpoint finish {A} (t : Thread A) (w : World) : A * World :=
  match t with
  | Finished a => (a, w)
  | Step effect next => finish (next w) (effect w)
  end.

(** Task [i] of the pool takes one step, if there is such a task and it
    has a step left. *)
Fixpoint step_at {A} (i : nat) (pool : list (Thread A)) (w : World)
    : list (Thread A) * World :=
  match pool with
  | [] => ([], w)
  | t :: rest =>
      match i with
      | O =>
          match t with
          | Finished _ => (pool, w)
          | Step effect next => (next w :: rest, effect w)
          end
      | S i' => let '(rest', w') := step_at i' rest w in (t :: rest', w')
      end
  end.

(** The tasks named take a step each, one after another. *)
Fixpoint interleave {A} (picks : list nat) (pool : list (Thread A)) (w : World)
    : list (Thread A) * World :=
  match picks with
  | [] => (pool, w)
  | i :: picks' => let '(pool', w') := step_at i pool w in interleave picks' pool' w'
  end.

Section WithEnv.

Variable env : Env.

(** The accesses of [Effects], each as one step of a task. *)
Definition read {A} (f : PersistentStore -> A) : Thread A :=
  atomic (fun w => (f (store w), w)).

Definition write (f : PersistentStore -> bool * PersistentStore) (ev : StoreWrite)
    : Thread bool :=
  atomic (fun w =>
    let '(ok, st') := f (store w) in
    (ok, {| store := st'; now := now w; draws := draws w;
            trace := if ok then trace w ++ [Wrote ev] else trace w |})).

Definition exec (c : Command) : Thread CommandResult :=
  atomic (fun w =>
    (execute env (trace w) c,
     {| store := store w; now := now w; draws := draws w; trace := trace w ++ [Ran c] |})).

Definition log_error (msg : string) : Thread unit :=
  atomic (fun w =>
    (tt, {| store := store w; now := now w; draws := draws w;
            trace := trace w ++ [LoggedError msg] |})).

Definition kubectl (config : string) (args : list string) : Thread CommandResult :=
  exec (Kubectl config args).

End WithEnv.

End Thread.

#[global] Instance Thread_ret : MRet Thread := fun A => @Finished A.
#[global] Instance Thread_bind : MBind Thread := fun A B k t => @Thread.bind A B t k.

(** The tasks of one [std::vector] of futures that have not been joined,
    in the order of the vector, and the number of places at which the
    calling thread has let them take steps so far. *)
Record Pool (A : Type) := {
  tasks : list (Thread A);
  yields : nat;
}.
Arguments tasks {A} p.
Arguments yields {A} p.

(** ** namespace internal *)

Module internal.
Section WithEnv.

Variable env : Env.

Definition getServiceAccounts : list string :=
  ["get"; "serviceaccounts"; "-o=jsonpath={.items[*].metadata.name}"].

(** [internal::pingCluster] *)
Definition pingCluster (cluster : Cluster) : M bool bool :=
  configPath ← read (fun st => Store.configPathForCluster st (cluster_id cluster));
  clusterInfo ← kubectl env configPath getServiceAccounts;
  if failed clusterInfo || negb (Str.contains (output clusterInfo) "default")
  then Stmt.return_ false
  else Stmt.return_ true.

(** Modelled from the spec: [internal::deleteApplicationInstance]
    (ApplicationInstanceCommands is not part of the sources at hand).
    "Delete mirrors install: helm delete -> store remove. [force] lets the
    store remove succeed even if helm fails." *)
Definition deleteApplicationInstance (instance : ApplicationInstance) (force : bool)
    : M string string :=
  configPath ← read (fun st => Store.configPathForCluster st (instance_cluster instance));
  systemNamespace ← read (fun st =>
    default "" (cluster_systemNamespace <$> Store.findClusterByID st (instance_cluster instance)));
  helmResult ← helm env configPath systemNamespace ["delete"; "--purge"; instance_name instance];
  (if failed helmResult then
     let message := "helm delete failed: " +:+ error helmResult in
     log_error message ;;
     if negb force then Stmt.return_ message else mret tt
   else mret tt) ;;
  removed ← write (fun st => Store.removeApplicationInstance st (instance_id instance))
                  (RemoveApplicationInstance (instance_id instance));
  if negb removed then
    log_error ("Failed to delete " +:+ instance_id instance +:+ " from persistent store") ;;
    Stmt.return_ "Failed to delete instance from database"
  else Stmt.return_ "".

(** Modelled from the spec: [internal::deleteSecret] (SecretCommands is
    not part of the sources at hand), as the task that [deleteCluster]
    makes of it. "Delete removes from Kubernetes first, then from the
    store; with [force], store removal proceeds regardless of Kubernetes
    outcome." *)
Definition deleteSecret (secret : Secret) (force : bool) : Thread string :=
  configPath ← Thread.read (fun st => Store.configPathForCluster st (secret_cluster secret));
  groupName ← Thread.read (fun st =>
    default "" (group_name <$> Store.findGroupByID st (secret_group secret)));
  result ← Thread.kubectl env configPath
             ["delete"; "secret"; secret_name secret;
              "--namespace"; namespacePrefix env +:+ groupName];
  let remove : Thread string :=
    removed ← Thread.write (fun st => Store.removeSecret st (secret_id secret))
                           (RemoveSecret (secret_id secret));
    if negb removed then
      Thread.log_error ("Failed to delete " +:+ secret_id secret +:+ " from persistent store") ;;
      mret "Failed to delete secret from database"
    else mret "" in
  if failed result then
    let message := "Failed to delete secret from kubernetes: " +:+ error result in
    Thread.log_error message ;;
    if negb force then mret message else remove
  else remove.

(** Modelled from the spec: [kubernetes::kubectl_delete_namespace]
    (KubeInterface is not part of the sources at hand); it throws when
    the deletion fails. [None] is normal completion, [Some what] the
    exception. *)
Definition kubectl_delete_namespace (configPath : string) (group : Group)
    : Thread (option string) :=
  result ← Thread.exec env (KubectlDeleteNamespace configPath (namespaceName env group));
  if failed result then mret (Some (error result)) else mret None.

(** The body of the task that [deleteCluster] launches for one group. *)
Definition namespaceDeletionTask (cluster : Cluster) (configPath : string) (group : Group)
    : Thread unit :=
  thrown ← kubectl_delete_namespace configPath group;
  match thrown with
  | Some what =>
      Thread.log_error ("Failed to delete namespace " +:+ namespaceName env group
                        +:+ " from " +:+ show_cluster cluster +:+ ": " +:+ what)
  | None => mret tt
  end.

(** Between two steps of the calling thread the tasks of the pool take
    the steps that the schedule gives them. *)
Definition yield {R A} (plan : nat -> list nat) (pool : Pool A) : M R (Pool A) :=
  fun w =>
    let '(tasks', w') := Thread.interleave (plan (yields pool)) (tasks pool) w in
    (Continue {| tasks := tasks'; yields := S (yields pool) |}, w').

(** [std::async(std::launch::async, body)]: the task starts, beside those
    that run already. *)
Definition launch {R A} (plan : nat -> list nat) (task : Task) (body : Thread A)
    (pool : Pool A) : M R (Pool A) :=
  pool ← yield plan pool;
  Stmt.emit (Launched task) ;;
  mret {| tasks := tasks pool ++ [body]; yields := yields pool |}.

(** [get()] or [wait()] on the first future of the pool, or the
    destructor of that future: the calling thread goes on when the task
    has taken its last step; the others run meanwhile. [None] when the
    pool holds no future. *)
Definition join {R A} (plan : nat -> list nat) (task : Task) (pool : Pool A)
    : M R (option A * Pool A) :=
  pool ← yield plan pool;
  match tasks pool with
  | [] => mret (None, pool)
  | t :: rest =>
      result ← (fun w => let '(a, w') := Thread.finish t w in (Continue a, w'));
      pool ← yield plan {| tasks := rest; yields := yields pool |};
      Stmt.emit (Joined task) ;;
      mret (Some result, pool)
  end.

(** The futures of the pool joined one after another: the loop of
    [wait()] over [namespaceDeletions], and the destructors of the
    futures of [secretDeletions] that are left when the function returns
    early. *)
Fixpoint joinAll {R A} (plan : nat -> list nat) (pending : list Task) (pool : Pool A)
    : M R unit :=
  match pending with
  | [] => mret tt
  | task :: rest =>
      '(_, pool) ← join plan task pool;
      joinAll plan rest pool
  end.

Definition secretTask (secret : Secret) : Task := SecretDeletion (secret_id secret).
Definition namespaceTask (group : Group) : Task := NamespaceDeletion (group_id group).

(** The loops "Delete any remaining secrets present on the cluster" and
    "Delete namespaces remaining on the cluster": one task is launched
    per item, in the order of the list. *)
Fixpoint launchAll {R A X} (plan : nat -> list nat) (task : X -> Task) (body : X -> Thread A)
    (items : list X) (pool : Pool A) : M R (Pool A) :=
  match items with
  | [] => mret pool
  | item :: rest =>
      pool ← launch plan (task item) (body item) pool;
      launchAll plan task body rest pool
  end.

(** The loop "Ensure secret deletions are complete before deleting
    namespaces". *)
Fixpoint awaitSecretDeletions (plan : nat -> list nat) (force : bool)
    (pending : list Secret) (secretDeletions : Pool string) : M string unit :=
  match pending with
  | [] => mret tt
  | secret :: rest =>
      '(result, secretDeletions) ← join plan (secretTask secret) secretDeletions;
      match result with
      | None => mret tt
      | Some result =>
          if negb force && negb (String.eqb result "") then
            joinAll plan (secretTask <$> rest) secretDeletions ;;
            Stmt.return_ ("Failed to delete cluster due to failure deleting secret: "
                          +:+ result)
          else awaitSecretDeletions plan force rest secretDeletions
      end
  end.

(** The loop "Delete any remaining instances that are present on the
    cluster". *)
Definition deleteInstances (cluster : Cluster) (force : bool)
    (instances : list ApplicationInstance) : M string unit :=
  for_each instances (fun instance =>
    if String.eqb (instance_cluster instance) (cluster_id cluster) then
      result ← Stmt.call (deleteApplicationInstance instance force);
      if negb force && negb (String.eqb result "") then
        Stmt.return_ ("Failed to delete cluster due to failure deleting instance: " +:+ result)
      else mret tt
    else mret tt).

(** [internal::deleteCluster]. The tasks of a stage run from their launch
    on, beside the calling thread and beside each other: they take steps
    wherever the calling thread is between two steps of its own. *)
Definition deleteCluster (cluster : Cluster) (force : bool) : M string string :=
  configPath ← read (fun st => Store.configPathForCluster st (cluster_id cluster));
  instances ← read Store.listApplicationInstances;
  deleteInstances cluster force instances ;;
  secrets ← read (fun st => Store.listSecrets st "" (cluster_id cluster));
  w ← Stmt.get;
  let plan := schedule env (trace w) in
  secretDeletions ← launchAll plan secretTask (fun secret => deleteSecret secret true)
                       secrets {| tasks := []; yields := 0 |};
  awaitSecretDeletions plan force secrets secretDeletions ;;
  vos ← read Store.listgroups;
  w ← Stmt.get;
  let plan := schedule env (trace w) in
  namespaceDeletions ← launchAll plan namespaceTask
                         (namespaceDeletionTask cluster configPath) vos
                         {| tasks := []; yields := 0 |};
  joinAll plan (namespaceTask <$> vos) namespaceDeletions ;;
  removed ← write (fun st => Store.removeCluster st (cluster_id cluster))
                  (RemoveCluster (cluster_id cluster));
  if negb removed then Stmt.return_ "Cluster deletion failed"
  else Stmt.return_ "".

End WithEnv.
End internal.

(** ** ClusterCommands.cpp: the request handlers *)

Module ClusterCommands.
Section WithEnv.

Variable env : Env.

Definition reject_if (cond : bool) (r : Response) : M Response unit :=
  if cond then Stmt.return_ r else mret tt.

Definition require {A} (o : option A) (r : Response) : M Response A :=
  match o with
  | Some a => mret a
  | None => Stmt.return_ r
  end.

Definition notAuthorized : Response := response 403 (generateError "Not authorized").

Definition apiVersion : string * JSON := ("apiVersion", JString "v1alpha3").

(** *** createCluster *)

(** The namespace of the first context of the first document that has
    one; the loop over [parsedConfig]. *)
Definition contextNamespace (document : YAML) : option string :=
  if Yaml.IsMap document then
    match Yaml.get "contexts" document with
    | Some contexts =>
        if Yaml.IsSequence contexts then
          match Yaml.first contexts with
          | Some context0 =>
              if Yaml.IsMap context0 then
                match Yaml.get "context" context0 with
                | Some context =>
                    if Yaml.IsMap context then
                      match Yaml.get "namespace" context with
                      | Some (YScalar ns) => Some ns
                      | _ => None
                      end
                    else None
                | None => None
                end
              else None
          | None => None
          end
        else None
    | None => None
    end
  else None.

Fixpoint findSystemNamespace (parsedConfig : list YAML) : string :=
  match parsedConfig with
  | [] => ""
  | document :: rest =>
      match contextNamespace document with
      | Some ns => ns
      | None => findSystemNamespace rest
      end
  end.

(** The loop over the lines of [kubectl describe serviceaccount]:
    [(okay, badline)] after the lines, starting from the given values. *)
Fixpoint checkNamespaceLines (systemNamespace : string) (lines : list string)
    (okay : bool) (badline : string) : bool * string * list string :=
  match lines with
  | [] => (okay, badline, [])
  | line :: rest =>
      let items := Utilities.string_split_columns line " " false in
      match items with
      | [item0; item1] =>
          if String.eqb item0 "Namespace:" then
            if String.eqb item1 systemNamespace
            then checkNamespaceLines systemNamespace rest true badline
            else
              let '(o, b, logged) := checkNamespaceLines systemNamespace rest okay line in
              (o, b,
               ("Default namespace does not appear to match SeviceAccount: " +:+ line) :: logged)
          else checkNamespaceLines systemNamespace rest okay badline
      | _ => checkNamespaceLines systemNamespace rest okay badline
      end
  end.

(** The loop over the lines of [kubectl get pods]: whether a line of a
    [tiller-deploy] pod reports all of its containers ready. A malformed
    ready column ends the scan. *)
Fixpoint tillerReady (lines : list string) : bool :=
  match lines with
  | [] => false
  | line :: rest =>
      match Utilities.string_split_columns line " " false with
      | token0 :: token1 :: _ :: _ =>
          if negb (Str.contains token0 "tiller-deploy") then tillerReady rest
          else
            match Str.find_char "/" token1 with
            | None => false
            | Some slashPos =>
                if Nat.eqb slashPos 0 || Nat.eqb (slashPos + 1) (String.length token1)
                then false
                else
                  let numers := Str.take slashPos token1 in
                  let denoms := Str.drop (slashPos + 1) token1 in
                  match Utilities.stoul numers with
                  | None => false
                  | Some numer =>
                      match Utilities.stoul denoms with
                      | None => false
                      | Some denom =>
                          if (0 <? numer) && (numer =? denom) then true
                          else tillerReady rest
                      end
                  end
            end
      | _ => tillerReady rest
      end
  end.

Definition maxDelay : Z := 120000.
Definition delay : Z := 500.

(** The loop [while(!tillerRunning)]; one unit of fuel per iteration. The
    result is [tillerRunning] when the loop is left. *)
Fixpoint waitForTiller (fuel : nat) (configPath : string) (cluster : Cluster)
    (delaySoFar : Z) : M Response bool :=
  match fuel with
  | O => Stmt.diverge
  | S fuel' =>
      commandResult ← kubectl env configPath
                        ["get"; "pods"; "--namespace"; cluster_systemNamespace cluster];
      if failed commandResult then
        log_error ("Checking tiller status on " +:+ show_cluster cluster +:+ " failed") ;;
        mret false
      else if tillerReady (Utilities.string_split_lines (output commandResult)) then
        mret true
      else if delaySoFar <? maxDelay then
        sleep_for delay ;;
        waitForTiller fuel' configPath cluster (delaySoFar + delay)
      else
        log_error ("Waiting for tiller readiness on " +:+ show_cluster cluster +:+ "("
                   +:+ cluster_systemNamespace cluster +:+ ") timed out") ;;
        mret false
  end.

(** Iterations that the loop can make at most: one per sleep, one more
    to time out. *)
Definition tillerFuel : nat := 242.

Definition registrationFailed (why : string) : Response :=
  response 500 (generateError ("Cluster registration failed: " +:+ why)).

Definition createCluster (req : Request) : M Response Response :=
  user ← authenticateUser (url_param req "token");
  user ← require user notAuthorized;
  let body := body req in
  reject_if (Json.IsNull body)
    (response 400 (generateError "Invalid JSON in request body")) ;;
  reject_if (negb (Json.HasMember "metadata" body))
    (response 400 (generateError "Missing user metadata in request")) ;;
  let metadata := default JNull (Json.member "metadata" body) in
  reject_if (negb (Json.IsObject metadata))
    (response 400 (generateError "Incorrect type for metadata")) ;;
  reject_if (negb (Json.HasMember "name" metadata))
    (response 400 (generateError "Missing cluster name in request")) ;;
  reject_if (negb (Json.IsString (Json.at2 "metadata" "name" body)))
    (response 400 (generateError "Incorrect type for cluster name")) ;;
  reject_if (negb (Json.HasMember "group" metadata))
    (response 400 (generateError "Missing Group ID in request")) ;;
  reject_if (negb (Json.IsString (Json.at2 "metadata" "group" body)))
    (response 400 (generateError "Incorrect type for Group ID")) ;;
  reject_if (negb (Json.HasMember "owningOrganization" metadata))
    (response 400 (generateError "Missing organization name in request")) ;;
  reject_if (negb (Json.IsString (Json.at2 "metadata" "owningOrganization" body)))
    (response 400 (generateError "Incorrect type for organization")) ;;
  reject_if (negb (Json.HasMember "kubeconfig" metadata))
    (response 400 (generateError "Missing kubeconfig in request")) ;;
  reject_if (negb (Json.IsString (Json.at2 "metadata" "kubeconfig" body)))
    (response 400 (generateError "Incorrect type for kubeconfig")) ;;
  let sentConfig := Json.GetString (Json.at2 "metadata" "kubeconfig" body) in
  let config := unescape env sentConfig in
  parsedConfig ← require (yamlLoadAll env config)
    (response 400 (generateError "Unable to parse kubeconfig as YAML"));
  let systemNamespace := findSystemNamespace parsedConfig in
  reject_if (String.eqb systemNamespace "")
    (response 400 (generateError "Unable to determine kubernetes namespace from kubeconfig")) ;;
  value ← draw env;
  let id := IDGenerator.generateID IDGenerator.ClusterKind value in
  let name := Json.GetString (Json.at2 "metadata" "name" body) in
  let sentGroup := Json.GetString (Json.at2 "metadata" "group" body) in
  let owningOrganization := Json.GetString (Json.at2 "metadata" "owningOrganization" body) in
  owningGroup ←
    (if negb (Str.starts_with sentGroup IDGenerator.groupIDPrefix) then
       group ← read (fun st => Store.findGroupByName st sentGroup);
       group ← require group notAuthorized;
       mret (group_id group)
     else mret sentGroup);
  let cluster := {| cluster_id := id; cluster_name := name; cluster_config := config;
                    cluster_systemNamespace := systemNamespace;
                    cluster_owningGroup := owningGroup;
                    cluster_owningOrganization := owningOrganization;
                    cluster_valid := true |} in
  member ← read (fun st => Store.userInGroup st (user_id user) owningGroup);
  reject_if (negb member) notAuthorized ;;
  reject_if (match Str.find_char "/" name with Some _ => true | None => false end)
    (response 400 (generateError "Cluster names may not contain slashes")) ;;
  reject_if (Str.starts_with name IDGenerator.clusterIDPrefix)
    (response 400 (generateError ("Cluster names may not begin with "
                                  +:+ IDGenerator.clusterIDPrefix))) ;;
  existing ← read (fun st => Store.findClusterByName st name);
  reject_if (match existing with Some _ => true | None => false end)
    (response 400 (generateError "Cluster name is already in use")) ;;
  created ← write (fun st => Store.addCluster st cluster) (AddCluster id);
  (if negb created then
     log_error ("Failed to create " +:+ show_cluster cluster) ;;
     Stmt.return_ (response 500 (generateError "Cluster registration failed"))
   else mret tt) ;;
  configPath ← read (fun st => Store.configPathForCluster st id);
  clusterInfo ← kubectl env configPath internal.getServiceAccounts;
  (if failed clusterInfo || negb (Str.contains (output clusterInfo) "default") then
     log_error ("Error was: " +:+ error clusterInfo) ;;
     write (fun st => Store.removeCluster st id) (RemoveCluster id) ;;
     Stmt.return_ (registrationFailed "Unable to contact cluster with kubectl")
   else mret tt) ;;
  let serviceAccounts := Utilities.string_split_columns (output clusterInfo) " " false in
  (match serviceAccounts with
   | [] =>
       log_error ("Found no ServiceAccounts: " +:+ error clusterInfo) ;;
       write (fun st => Store.removeCluster st id) (RemoveCluster id) ;;
       Stmt.return_ (registrationFailed "Found no SeviceAccounts in the default namespace")
   | _ => mret tt
   end) ;;
  reject_if (negb (existsb (String.eqb systemNamespace) serviceAccounts))
    (registrationFailed "Unable to find matching service account in default namespace") ;;
  namespaceCheck ← kubectl env configPath ["describe"; "serviceaccount"; systemNamespace];
  (if failed namespaceCheck then
     log_error ("Failure confirming namespace name: " +:+ error namespaceCheck) ;;
     write (fun st => Store.removeCluster st id) (RemoveCluster id) ;;
     Stmt.return_ (registrationFailed "Checking default namespace name failed")
   else mret tt) ;;
  let '(okay, badline, logged) :=
    checkNamespaceLines systemNamespace
      (Utilities.string_split_lines (output namespaceCheck)) false "" in
  for_each logged log_error ;;
  (if negb okay then
     let error := "Default namespace does not appear to match default SeviceAccount: "
                  +:+ badline +:+ ", SeviceAccount: " +:+ systemNamespace in
     log_error error ;;
     write (fun st => Store.removeCluster st id) (RemoveCluster id) ;;
     Stmt.return_ (registrationFailed error)
   else mret tt) ;;
  write (fun st => Store.updateCluster st cluster) (UpdateCluster id) ;;
  commandResult ← runCommand env "helm"
    ["init"; "--service-account"; systemNamespace; "--tiller-namespace"; systemNamespace]
    [("KUBECONFIG", configPath)];
  let expected := "Tiller (the Helm server-side component) has been installed" in
  let already := "Tiller is already installed" in
  (if failed commandResult
      || (negb (Str.contains (output commandResult) expected)
          && negb (Str.contains (output commandResult) already)) then
     write (fun st => Store.removeCluster st id) (RemoveCluster id) ;;
     Stmt.return_ (registrationFailed "Unable to initialize helm")
   else mret tt) ;;
  (if Str.contains (output commandResult) "Warning: Tiller is already installed in the cluster" then
     deployments ← kubectl env configPath
       ["get"; "deployments"; "--namespace"; systemNamespace;
        "-o=jsonpath={.items[*].metadata.name}"];
     let okay :=
       negb (failed deployments)
       && existsb (String.eqb "tiller-deploy")
            (Utilities.string_split_columns (output deployments) " " false) in
     if negb okay then
       write (fun st => Store.removeCluster st id) (RemoveCluster id) ;;
       Stmt.return_ (registrationFailed "Unable to initialize helm")
     else mret tt
   else mret tt) ;;
  waitForTiller tillerFuel configPath cluster 0 ;;
  Stmt.return_
    (response 200
       (JObject [apiVersion; ("kind", JString "Cluster");
                 ("metadata", JObject [("id", JString id); ("name", JString name)])])).

(** *** deleteCluster *)

Definition deleteCluster (req : Request) (clusterID : string) : M Response Response :=
  user ← authenticateUser (url_param req "token");
  user ← require user notAuthorized;
  cluster ← read (fun st => Store.getCluster st clusterID);
  cluster ← require cluster (response 404 (generateError "Cluster not found"));
  member ← read (fun st => Store.userInGroup st (user_id user) (cluster_owningGroup cluster));
  reject_if (negb member) notAuthorized ;;
  let force := match url_param req "force" with Some _ => true | None => false end in
  err ← Stmt.call (internal.deleteCluster env cluster force);
  reject_if (negb (String.eqb err "")) (response 500 (generateError err)) ;;
  Stmt.return_ (response 200 JNull).

(** *** updateCluster *)

Definition set_config (config : string) (c : Cluster) : Cluster :=
  {| cluster_id := cluster_id c; cluster_name := cluster_name c; cluster_config := config;
     cluster_systemNamespace := cluster_systemNamespace c;
     cluster_owningGroup := cluster_owningGroup c;
     cluster_owningOrganization := cluster_owningOrganization c;
     cluster_valid := cluster_valid c |}.

Definition set_owningOrganization (org : string) (c : Cluster) : Cluster :=
  {| cluster_id := cluster_id c; cluster_name := cluster_name c;
     cluster_config := cluster_config c;
     cluster_systemNamespace := cluster_systemNamespace c;
     cluster_owningGroup := cluster_owningGroup c;
     cluster_owningOrganization := org;
     cluster_valid := cluster_valid c |}.

(** The loop over the entries of [metadata.location]; [None] when an
    entry has the wrong shape. *)
Fixpoint parseLocations (entries : list JSON) : option (list GeoLocation) :=
  match entries with
  | [] => Some []
  | entry :: rest =>
      if negb (Json.IsObject entry) || negb (Json.HasMember "lat" entry)
         || negb (Json.HasMember "lon" entry)
         || negb (Json.IsNumber (default JNull (Json.member "lat" entry)))
         || negb (Json.IsNumber (default JNull (Json.member "lon" entry)))
      then None
      else
        match parseLocations rest with
        | Some ls =>
            Some ({| lat := Json.GetDouble (default JNull (Json.member "lat" entry));
                     lon := Json.GetDouble (default JNull (Json.member "lon" entry)) |} :: ls)
        | None => None
        end
  end.

Definition updateCluster (req : Request) (clusterID : string) : M Response Response :=
  user ← authenticateUser (url_param req "token");
  user ← require user notAuthorized;
  cluster ← read (fun st => Store.getCluster st clusterID);
  cluster ← require cluster (response 404 (generateError "Cluster not found"));
  member ← read (fun st => Store.userInGroup st (user_id user) (cluster_owningGroup cluster));
  reject_if (negb (user_admin user) && negb member) notAuthorized ;;
  let body := body req in
  reject_if (Json.IsNull body)
    (response 400 (generateError "Invalid JSON in request body")) ;;
  reject_if (negb (Json.HasMember "metadata" body))
    (response 400 (generateError "Missing cluster metadata in request")) ;;
  let metadata := default JNull (Json.member "metadata" body) in
  reject_if (negb (Json.IsObject metadata))
    (response 400 (generateError "Incorrect type for metadata")) ;;
  '((cluster, updateMainRecord, updateConfig) : Cluster * bool * bool) ←
    match Json.member "kubeconfig" metadata return M Response (Cluster * bool * bool) with
    | Some kubeconfig =>
        reject_if (negb (Json.IsString kubeconfig))
          (response 400 (generateError "Incorrect type for kubeconfig")) ;;
        mret (set_config (Json.GetString kubeconfig) cluster, true, true)
    | None => mret (cluster, false, false)
    end;
  '((cluster, updateMainRecord) : Cluster * bool) ←
    match Json.member "owningOrganization" metadata return M Response (Cluster * bool) with
    | Some org =>
        reject_if (negb (Json.IsString org))
          (response 400 (generateError "Incorrect type for owningOrganization")) ;;
        mret (set_owningOrganization (Json.GetString org) cluster, true)
    | None => mret (cluster, updateMainRecord)
    end;
  '((locations, updateLocation) : list GeoLocation * bool) ←
    match Json.member "location" metadata return M Response (list GeoLocation * bool) with
    | Some location =>
        reject_if (negb (Json.IsArray location))
          (response 400 (generateError "Incorrect type for location")) ;;
        locations ← require (parseLocations (Json.GetArray location))
          (response 400 (generateError "Incorrect type for location"));
        mret (locations, true)
    | None => mret ([], false)
    end;
  reject_if (negb updateMainRecord && negb updateLocation) (response 200 JNull) ;;
  mainOK ← (if updateMainRecord
            then write (fun st => Store.updateCluster st cluster)
                       (UpdateCluster (cluster_id cluster))
            else mret true);
  locationOK ← (if updateLocation
                then write (fun st => Store.setLocationsForCluster st (cluster_id cluster) locations)
                           (SetLocationsForCluster (cluster_id cluster))
                else mret true);
  (if negb (mainOK && locationOK) then
     log_error ("Failed to update " +:+ show_cluster cluster) ;;
     Stmt.return_ (response 500 (generateError "Cluster update failed"))
   else mret tt) ;;
  (if updateConfig then
     configPath ← read (fun st => Store.configPathForCluster st (cluster_id cluster));
     clusterInfo ← kubectl env configPath internal.getServiceAccounts;
     if failed clusterInfo || negb (Str.contains (output clusterInfo) "default") then
       log_error ("Error was: " +:+ error clusterInfo) ;;
       Stmt.return_
         (response 400 (generateError
            "Unable to contact cluster with kubectl after configuration update"))
     else mret tt
   else mret tt) ;;
  Stmt.return_ (response 200 JNull).

(** *** listClusterAllowedgroups *)

Definition groupResult (id name : string) : JSON :=
  JObject [apiVersion; ("kind", JString "Group");
           ("metadata", JObject [("id", JString id); ("name", JString name)])].

(** The loop over [groupIDs]: the entries of the groups that exist. *)
Fixpoint listedGroups (cluster : Cluster) (groupIDs : list string) : M Response (list JSON) :=
  match groupIDs with
  | [] => mret []
  | groupID :: rest =>
      group ← read (fun st => Store.findGroupByID st groupID);
      match group with
      | None =>
          log_error ("Apparently invalid Group ID " +:+ groupID
                     +:+ " listed for access to " +:+ show_cluster cluster) ;;
          listedGroups cluster rest
      | Some group =>
          items ← listedGroups cluster rest;
          mret (groupResult groupID (group_name group) :: items)
      end
  end.

Definition listClusterAllowedgroups (req : Request) (clusterID : string)
    : M Response Response :=
  user ← authenticateUser (url_param req "token");
  user ← require user notAuthorized;
  cluster ← read (fun st => Store.getCluster st clusterID);
  cluster ← require cluster (response 404 (generateError "Cluster not found"));
  groupIDs ← read (fun st => Store.listgroupsAllowedOnCluster st (cluster_id cluster));
  resultItems ←
    match groupIDs with
    | [groupID] =>
        if String.eqb groupID Store.wildcard
        then mret [groupResult Store.wildcard Store.wildcardName]
        else listedGroups cluster (groupIDs ++ [cluster_owningGroup cluster])
    | _ => listedGroups cluster (groupIDs ++ [cluster_owningGroup cluster])
    end;
  Stmt.return_ (response 200 (JObject [apiVersion; ("items", JArray resultItems)])).

(** *** grantGroupClusterAccess and revokeGroupClusterAccess *)

Definition isWildcard (groupID : string) : bool :=
  String.eqb groupID Store.wildcard || String.eqb groupID Store.wildcardName.

Definition grantGroupClusterAccess (req : Request) (clusterID groupID : string)
    : M Response Response :=
  user ← authenticateUser (url_param req "token");
  user ← require user notAuthorized;
  cluster ← read (fun st => Store.getCluster st clusterID);
  cluster ← require cluster (response 404 (generateError "Cluster not found"));
  member ← read (fun st => Store.userInGroup st (user_id user) (cluster_owningGroup cluster));
  reject_if (negb (user_admin user) && negb member) notAuthorized ;;
  success ←
    (if isWildcard groupID then
       write (fun st => Store.addGroupToCluster st Store.wildcard (cluster_id cluster))
             (AddGroupToCluster Store.wildcard (cluster_id cluster))
     else
       group ← read (fun st => Store.getGroup st groupID);
       group ← require group (response 404 (generateError "Group not found"));
       reject_if (String.eqb (group_id group) (cluster_owningGroup cluster))
         (response 200 JNull) ;;
       write (fun st => Store.addGroupToCluster st (group_id group) (cluster_id cluster))
             (AddGroupToCluster (group_id group) (cluster_id cluster)));
  reject_if (negb success)
    (response 500 (generateError "Granting Group access to cluster failed")) ;;
  Stmt.return_ (response 200 JNull).

Definition revokeGroupClusterAccess (req : Request) (clusterID groupID : string)
    : M Response Response :=
  user ← authenticateUser (url_param req "token");
  user ← require user notAuthorized;
  cluster ← read (fun st => Store.getCluster st clusterID);
  cluster ← require cluster (response 404 (generateError "Cluster not found"));
  member ← read (fun st => Store.userInGroup st (user_id user) (cluster_owningGroup cluster));
  reject_if (negb (user_admin user) && negb member) notAuthorized ;;
  success ←
    (if isWildcard groupID then
       write (fun st => Store.removeGroupFromCluster st Store.wildcard (cluster_id cluster))
             (RemoveGroupFromCluster Store.wildcard (cluster_id cluster))
     else
       group ← read (fun st => Store.getGroup st groupID);
       group ← require group (response 404 (generateError "Group not found"));
       reject_if (String.eqb (group_id group) (cluster_owningGroup cluster))
         (response 400 (generateError "Cannot deny cluster access to owning Group")) ;;
       write (fun st => Store.removeGroupFromCluster st (group_id group) (cluster_id cluster))
             (RemoveGroupFromCluster (group_id group) (cluster_id cluster)));
  reject_if (negb success)
    (response 500 (generateError "Removing Group access to cluster failed")) ;;
  Stmt.return_ (response 200 JNull).

(** *** pingCluster *)

Definition pingCluster (req : Request) (clusterID : string) : M Response Response :=
  user ← authenticateUser (url_param req "token");
  user ← require user notAuthorized;
  cluster ← read (fun st => Store.getCluster st clusterID);
  cluster ← require cluster (response 404 (generateError "Cluster not found"));
  let useCache := match url_param req "cache" with Some _ => true | None => false end in
  w ← Stmt.get;
  let cacheResult :=
    if useCache then Store.getCachedClusterReachability (store w) (now w) (cluster_id cluster)
    else None in
  reachable ←
    match cacheResult with
    | Some record => mret record
    | None =>
        reachable ← Stmt.call (internal.pingCluster env cluster);
        w ← Stmt.get;
        Stmt.set_store (Store.cacheClusterReachability (store w) (now w)
                          (clusterCacheValidity env) (cluster_id cluster) reachable) ;;
        mret reachable
    end;
  Stmt.return_ (response 200 (JObject [apiVersion; ("reachable", JBool reachable)])).

End WithEnv.
End ClusterCommands.

(** ** ClusterConsistencyResult *)

Inductive ClusterConsistencyState :=
| Unreachable
| HelmFailure
| Inconsistent
| Consistent.

Module ClusterConsistencyResult.

Record t := {
  status : ClusterConsistencyState;
  expectedInstances : list ApplicationInstance;
  existingInstanceNames : gset string;
  expectedInstancesByName : gmap string ApplicationInstance;
  missingInstances : gset string;
  unexpectedInstances : gset string;
  expectedSecrets : list Secret;
  existingSecretNames : gset string;
  expectedSecretsByName : gmap string Secret;
  missingSecrets : gset string;
  unexpectedSecrets : gset string;
}.

(** The members as default-initialised, with the given status. *)
Definition initial (s : ClusterConsistencyState) : t :=
  {| status := s;
     expectedInstances := []; existingInstanceNames := ∅;
     expectedInstancesByName := ∅; missingInstances := ∅; unexpectedInstances := ∅;
     expectedSecrets := []; existingSecretNames := ∅;
     expectedSecretsByName := ∅; missingSecrets := ∅; unexpectedSecrets := ∅ |}.

(** [std::map::emplace]: an existing entry is kept. *)
Definition emplace {V} (k : string) (v : V) (m : gmap string V) : gmap string V :=
  match m !! k with
  | Some _ => m
  | None => <[k := v]> m
  end.

Definition tab : ascii := ascii_of_nat 9.

(** The loop over the lines of [helm list], after its header line. *)
Fixpoint releaseNames (lines : list string) (names : gset string) : gset string :=
  match lines with
  | [] => names
  | line :: rest =>
      match Utilities.string_split_columns line tab false with
      | [] => releaseNames rest names
      | front :: _ => releaseNames rest ({[ front ]} ∪ names)
      end
  end.

(** The inner loop over the secrets that kubectl lists in one namespace. *)
Fixpoint secretNames (groupName : string) (listed : list string) (names : gset string)
    : gset string :=
  match listed with
  | [] => names
  | secretName :: rest =>
      if Str.starts_with secretName "default-token-" then secretNames groupName rest names
      else secretNames groupName rest ({[ groupName +:+ ":" +:+ secretName ]} ∪ names)
  end.

(** The name under which an expected secret is compared: the name of its
    group, a colon, its own name. *)
Definition secretKey (st : PersistentStore) (secret : Secret) : string :=
  default "" (group_name <$> Store.findGroupByID st (secret_group secret))
  +:+ ":" +:+ secret_name secret.

Section WithEnv.

Variable env : Env.

(** The loop over the namespaces of the cluster. *)
Fixpoint observedSecrets (configPath : string) (namespaceNames : list string)
    (names : gset string) : M t (gset string) :=
  match namespaceNames with
  | [] => mret names
  | namespaceName :: rest =>
      if negb (Str.starts_with namespaceName (namespacePrefix env)) then
        log_error ("Found peculiar namespace: " +:+ namespaceName) ;;
        observedSecrets configPath rest names
      else
        let groupName := Str.drop (String.length (namespacePrefix env)) namespaceName in
        secretsInfo ← kubectl env configPath
          ["get"; "secrets"; "-n"; namespaceName; "-o=jsonpath={.items[*].metadata.name}"];
        observedSecrets configPath rest
          (secretNames groupName
             (Utilities.string_split_columns (output secretsInfo) " " false) names)
  end.

(** The constructor [ClusterConsistencyResult(store, cluster)]. *)
Definition make (cluster : Cluster) : M t t :=
  configPath ← read (fun st => Store.configPathForCluster st (cluster_id cluster));
  reachable ← Stmt.call (internal.pingCluster env cluster);
  (if negb reachable then Stmt.return_ (initial Unreachable) else mret tt) ;;
  instanceInfo ← helm env configPath (cluster_systemNamespace cluster) ["list"];
  (if failed instanceInfo
   then Stmt.return_ (initial HelmFailure) else mret tt) ;;
  let existingInstanceNames :=
    releaseNames (tail (Utilities.string_split_lines (output instanceInfo))) ∅ in
  expectedInstances ← read (fun st =>
    Store.listApplicationInstancesByClusterOrGroup st "" (cluster_id cluster));
  let expectedInstanceNames : gset string :=
    list_to_set (instance_name <$> expectedInstances) in
  let expectedInstancesByName :=
    fold_left (fun m instance => emplace (instance_name instance) instance m)
              expectedInstances ∅ in
  let missingInstances := expectedInstanceNames ∖ existingInstanceNames in
  let unexpectedInstances := existingInstanceNames ∖ expectedInstanceNames in
  let status1 :=
    if negb (bool_decide (missingInstances = ∅)) || negb (bool_decide (unexpectedInstances = ∅))
    then Inconsistent else Consistent in
  namespaceInfo ← kubectl env configPath
    ["get"; "clusternamespaces"; "-o=jsonpath={.items[*].metadata.name}"];
  let namespaceNames := Utilities.string_split_columns (output namespaceInfo) " " false in
  existingSecretNames ← observedSecrets configPath namespaceNames ∅;
  expectedSecrets ← read (fun st => Store.listSecrets st "" (cluster_id cluster));
  st ← read (fun st => st);
  let expectedSecretNames : gset string := list_to_set (secretKey st <$> expectedSecrets) in
  let expectedSecretsByName :=
    fold_left (fun m secret => emplace (secretKey st secret) secret m) expectedSecrets ∅ in
  let missingSecrets := expectedSecretNames ∖ existingSecretNames in
  let unexpectedSecrets := existingSecretNames ∖ expectedSecretNames in
  let status2 :=
    if negb (bool_decide (missingSecrets = ∅)) || negb (bool_decide (unexpectedSecrets = ∅))
    then Inconsistent else status1 in
  Stmt.return_
    {| status := status2;
       expectedInstances := expectedInstances;
       existingInstanceNames := existingInstanceNames;
       expectedInstancesByName := expectedInstancesByName;
       missingInstances := missingInstances;
       unexpectedInstances := unexpectedInstances;
       expectedSecrets := expectedSecrets;
       existingSecretNames := existingSecretNames;
       expectedSecretsByName := expectedSecretsByName;
       missingSecrets := missingSecrets;
       unexpectedSecrets := unexpectedSecrets |}.

End WithEnv.
End ClusterConsistencyResult.

(** ** Vocabulary of the specification *)

Module Spec.

(** The user a request authenticates as. *)
Definition requester (st : PersistentStore) (req : Request) : option User :=
  match url_param req "token" with
  | Some token => Store.findUserByToken st token
  | None => None
  end.

(** The requester is an administrator or a member of the group that owns
    the cluster. *)
Definition mayAdminister (st : PersistentStore) (req : Request) (cluster : Cluster) : bool :=
  match requester st req with
  | Some user =>
      user_admin user || Store.userInGroup st (user_id user) (cluster_owningGroup cluster)
  | None => false
  end.

(** The requester is a member of the group that owns the cluster. *)
Definition isOwner (st : PersistentStore) (req : Request) (cluster : Cluster) : bool :=
  match requester st req with
  | Some user => Store.userInGroup st (user_id user) (cluster_owningGroup cluster)
  | None => false
  end.

(** Every record is filed under its own ID, and group IDs carry the
    group prefix. *)
Definition keyed {V} (key : V -> string) (table : gmap string V) : bool :=
  forallb (fun kv => String.eqb (key (snd kv)) (fst kv)) (map_to_list table).

Definition wellFormed (st : PersistentStore) : bool :=
  keyed cluster_id (clusters st) && keyed instance_id (instances st)
  && keyed secret_id (secrets st) && keyed group_id (groups st)
  && forallb (fun kv => Str.starts_with (fst kv) IDGenerator.groupIDPrefix)
             (map_to_list (groups st)).

(** The answer to the ServiceAccount probe that makes the server take
    the cluster for unreachable: [clusterInfo.status ||
    clusterInfo.output.find("default")==std::string::npos]. *)
Definition probeFails (answer : CommandResult) : bool :=
  failed answer || negb (Str.contains (output answer) "default").

(** The probe of a cluster, with the kubeconfig the store holds for it. *)
Definition probeOf (st : PersistentStore) (cluster : Cluster) : Command :=
  Kubectl (Store.configPathForCluster st (cluster_id cluster)) internal.getServiceAccounts.

(** The body of a successful ping. *)
Definition pingResponse (reachable : bool) : Response :=
  response 200 (JObject [ClusterCommands.apiVersion; ("reachable", JBool reachable)]).

(** The world at a later reading of the clock, nothing else changed. *)
Definition at_time (t : Z) (w : World) : World :=
  {| store := store w; now := t; draws := draws w; trace := trace w |}.

(** The group IDs that a response of [listClusterAllowedgroups] lists. *)
Definition idOf (item : JSON) : string := Json.GetString (Json.at2 "metadata" "id" item).

Definition listedIDs (r : Response) : list string :=
  idOf <$> Json.GetArray (default JNull (Json.member "items" (payload r))).

(** Requests to the access policy of one cluster, and the world after a
    sequence of them. *)
Inductive AccessRequest :=
| GrantAccess (groupID : string)
| RevokeAccess (groupID : string).

Definition serve (req : Request) (clusterID : string) (w : World) (a : AccessRequest) : World :=
  match a with
  | GrantAccess groupID =>
      snd (Stmt.run (ClusterCommands.grantGroupClusterAccess req clusterID groupID) w)
  | RevokeAccess groupID =>
      snd (Stmt.run (ClusterCommands.revokeGroupClusterAccess req clusterID groupID) w)
  end.

Definition after (req : Request) (clusterID : string) (history : list AccessRequest)
    (w : World) : World :=
  fold_left (serve req clusterID) history w.

(** The wildcard was granted and has not been revoked since. *)
Definition standingStep (standing : bool) (a : AccessRequest) : bool :=
  match a with
  | GrantAccess groupID => if ClusterCommands.isWildcard groupID then true else standing
  | RevokeAccess groupID => if ClusterCommands.isWildcard groupID then false else standing
  end.

(** A grant or a revocation as a client sends it: who asks, for which
    cluster (by ID or by name), and what. *)
Record AccessCall := {
  caller : Request;
  target : string;
  asked : AccessRequest;
}.

Definition answerTo (w : World) (c : AccessCall) : option Response * World :=
  match asked c with
  | GrantAccess groupID =>
      Stmt.run (ClusterCommands.grantGroupClusterAccess (caller c) (target c) groupID) w
  | RevokeAccess groupID =>
      Stmt.run (ClusterCommands.revokeGroupClusterAccess (caller c) (target c) groupID) w
  end.

(** The request was carried out: it was answered 200. *)
Definition accepted (r : option Response) : bool :=
  match r with
  | Some r => code r =? 200
  | None => false
  end.

(** The request is for [cluster]. *)
Definition isOn (st : PersistentStore) (cluster : Cluster) (target : string) : bool :=
  match Store.getCluster st target with
  | Some found => String.eqb (cluster_id found) (cluster_id cluster)
  | None => false
  end.

(** Whether universal access to [cluster] has been granted and not
    revoked since, and the world, after one more request: only a request
    for the cluster that was carried out counts. *)
Definition policyStep (cluster : Cluster) (s : bool * World) (c : AccessCall)
    : bool * World :=
  let '(r, w') := answerTo (snd s) c in
  (if isOn (store (snd s)) cluster (target c) && accepted r
   then standingStep (fst s) (asked c) else fst s,
   w').

Definition policyAfter (cluster : Cluster) (history : list AccessCall) (w0 : World)
    : bool * World :=
  fold_left (policyStep cluster) history (false, w0).

(** The stages of the deletion cascade, by the events that belong to
    them. An instance is deleted by the calling thread alone: no task is
    launched or joined in that stage. *)
Definition instanceEvent (e : Event) : bool :=
  match e with
  | Ran (Helm _ _ _) | Wrote (RemoveApplicationInstance _) | LoggedError _ => true
  | _ => false
  end.

Definition secretEvent (e : Event) : bool :=
  match e with
  | Launched (SecretDeletion _) | Joined (SecretDeletion _)
  | Ran (Kubectl _ _) | Wrote (RemoveSecret _) | LoggedError _ => true
  | _ => false
  end.

Definition namespaceEvent (e : Event) : bool :=
  match e with
  | Launched (NamespaceDeletion _) | Joined (NamespaceDeletion _)
  | Ran (KubectlDeleteNamespace _ _) | LoggedError _ => true
  | _ => false
  end.

(** What a grant or a revocation does to the set of grants. *)
Definition accessStep (st : PersistentStore) (cluster : Cluster) (a : AccessRequest)
    (acc : gset (string * string)) : gset (string * string) :=
  let cid := cluster_id cluster in
  match a with
  | GrantAccess groupID =>
      if ClusterCommands.isWildcard groupID then {[ (cid, Store.wildcard) ]} ∪ acc
      else match Store.getGroup st groupID with
           | Some group =>
               if String.eqb (group_id group) (cluster_owningGroup cluster) then acc
               else {[ (cid, group_id group) ]} ∪ acc
           | None => acc
           end
  | RevokeAccess groupID =>
      if ClusterCommands.isWildcard groupID then acc ∖ {[ (cid, Store.wildcard) ]}
      else match Store.getGroup st groupID with
           | Some group =>
               if String.eqb (group_id group) (cluster_owningGroup cluster) then acc
               else acc ∖ {[ (cid, group_id group) ]}
           | None => acc
           end
  end.

(** The conditions under which the access requests of a requester on a
    cluster are carried out. *)
Definition Ready (req : Request) (clusterID : string) (cluster : Cluster) (w : World) : Prop :=
  wellFormed (store w) = true
  /\ online (store w) = true
  /\ Store.getCluster (store w) clusterID = Some cluster
  /\ mayAdminister (store w) req cluster = true.

(** A statement that never runs out of fuel. *)
Definition returns {R A} (m : M R A) : Prop :=
  forall w, fst (m w) <> OutOfFuel.

(** Every event of a list belongs to a stage. *)
Definition events (P : Event -> bool) (evs : list Event) : Prop :=
  Forall (fun e => P e = true) evs.

(** The launches and the joins of the two concurrent stages, in the order
    of the lists that the store returned. *)
Definition launchedSecrets (l : list Secret) : list Event :=
  (fun s => Launched (internal.secretTask s)) <$> l.

Definition joinedSecrets (l : list Secret) : list Event :=
  (fun s => Joined (internal.secretTask s)) <$> l.

Definition launchedNamespaces (l : list Group) : list Event :=
  (fun g => Launched (internal.namespaceTask g)) <$> l.

Definition joinedNamespaces (l : list Group) : list Event :=
  (fun g => Joined (internal.namespaceTask g)) <$> l.

(** What the calling thread does to its tasks, among the events of a
    stage. *)
Definition isMarker (e : Event) : bool :=
  match e with
  | Launched _ | Joined _ => true
  | _ => false
  end.

Definition markers (evs : list Event) : list Event := List.filter isMarker evs.

(** The commands among the events, in their order. *)
Definition commandsRun (evs : list Event) : list Command :=
  omap (fun e => match e with Ran c => Some c | _ => None end) evs.

(** The instances of a listing that are on cluster [cID], in the order of
    the listing. *)
Definition instancesOn (cID : string) (l : list ApplicationInstance)
    : list ApplicationInstance :=
  List.filter (fun i => String.eqb (instance_cluster i) cID) l.

(** The commands that delete an instance, a secret and the namespace of a
    group, on store [st]. *)
Definition helmDelete (st : PersistentStore) (i : ApplicationInstance) : Command :=
  Helm (Store.configPathForCluster st (instance_cluster i))
       (default "" (cluster_systemNamespace <$> Store.findClusterByID st (instance_cluster i)))
       ["delete"; "--purge"; instance_name i].

Definition secretDelete (env : Env) (st : PersistentStore) (s : Secret) : Command :=
  Kubectl (Store.configPathForCluster st (secret_cluster s))
          ["delete"; "secret"; secret_name s; "--namespace";
           namespacePrefix env
           +:+ default "" (group_name <$> Store.findGroupByID st (secret_group s))].

Definition namespaceDelete (env : Env) (configPath : string) (g : Group) : Command :=
  KubectlDeleteNamespace configPath (namespaceName env g).

(** Among the events [evs] of the secret stage: the task of secret [s] is
    launched, then its command is run, then the task is joined. *)
Definition secretDeleted (env : Env) (st : PersistentStore) (s : Secret)
    (evs : list Event) : Prop :=
  sublist [Launched (internal.secretTask s); Ran (secretDelete env st s);
           Joined (internal.secretTask s)] evs.

(** The line that is logged when the deletion of the namespace of group
    [g] has failed with [answer]. *)
Definition failureLine (env : Env) (cluster : Cluster) (g : Group)
    (answer : CommandResult) : string :=
  "Failed to delete namespace " +:+ namespaceName env g +:+ " from "
  +:+ show_cluster cluster +:+ ": " +:+ error answer.

(** Among the events [evs] of the namespace stage, which starts after the
    events [before]: the task of group [g] is launched, then its command
    is run, then, if the command fails, the failure is logged, and then
    the task is joined. *)
Definition namespaceDeleted (env : Env) (before : list Event) (cluster : Cluster)
    (configPath : string) (g : Group) (evs : list Event) : Prop :=
  let command := namespaceDelete env configPath g in
  exists pre post,
    evs = pre ++ Ran command :: post
    /\ In (Launched (internal.namespaceTask g)) pre
    /\ let answer := execute env (before ++ pre) command in
       if failed answer
       then sublist [LoggedError (failureLine env cluster g answer);
                     Joined (internal.namespaceTask g)] post
       else In (Joined (internal.namespaceTask g)) post.

(** What a stage may do to the store: replace one table. *)
Definition instancesOnly (st st' : PersistentStore) : Prop :=
  exists m, st' = Store.with_instances (fun _ => m) st.

(** The secret stage only takes secrets away. *)
Definition secretsOnly (st st' : PersistentStore) : Prop :=
  exists m, st' = Store.with_secrets (fun _ => m) st /\ m ⊆ secrets st.

(** The tables after the forced deletion of a record. *)
Definition removeOnCluster (cID : string)
    (m : gmap string ApplicationInstance) (i : ApplicationInstance)
    : gmap string ApplicationInstance :=
  if String.eqb (instance_cluster i) cID then delete (instance_id i) m else m.






End Spec.

(** ** A small deployment, for running the handlers *)

Module Example.

Definition alice : User :=
  {| user_id := "user_alice"; user_name := "Alice"; user_admin := false;
     user_token := "alice-token" |}.

Definition owner : Group := {| group_id := "group_owner"; group_name := "owner" |}.
Definition guest : Group := {| group_id := "group_guest"; group_name := "guest" |}.

Definition c1 : Cluster :=
  {| cluster_id := "cluster_1"; cluster_name := "c1"; cluster_config := "kubeconfig-1";
     cluster_systemNamespace := "kube-system"; cluster_owningGroup := "group_owner";
     cluster_owningOrganization := "Department of Labor"; cluster_valid := true |}.

Definition i1 : ApplicationInstance :=
  {| instance_id := "instance_1"; instance_name := "guest-nginx";
     instance_application := "nginx"; instance_owningGroup := "group_guest";
     instance_cluster := "cluster_1"; instance_ctime := "2019-Jan-01 00:00:00 UTC" |}.

Definition s1 : Secret :=
  {| secret_id := "secret_1"; secret_name := "db-password"; secret_group := "group_guest";
     secret_cluster := "cluster_1"; secret_ctime := "2019-Jan-01 00:00:00 UTC" |}.

Definition s2 : Secret :=
  {| secret_id := "secret_2"; secret_name := "api-key"; secret_group := "group_owner";
     secret_cluster := "cluster_1"; secret_ctime := "2019-Jan-01 00:00:00 UTC" |}.

(** Users and groups, no cluster yet. *)
Definition registry : PersistentStore :=
  {| online := true;
     users := {[ "user_alice" := alice ]};
     groups := {[ "group_owner" := owner; "group_guest" := guest ]};
     clusters := ∅; instances := ∅; secrets := ∅;
     memberships := {[ ("user_alice", "group_owner") ]};
     access := ∅; locations := ∅; reachability := ∅ |}.

(** The same with cluster [c1], one instance and two secrets on it. *)
Definition populated : PersistentStore :=
  {| online := true;
     users := {[ "user_alice" := alice ]};
     groups := {[ "group_owner" := owner; "group_guest" := guest ]};
     clusters := {[ "cluster_1" := c1 ]};
     instances := {[ "instance_1" := i1 ]};
     secrets := {[ "secret_1" := s1; "secret_2" := s2 ]};
     memberships := {[ ("user_alice", "group_owner") ]};
     access := ∅; locations := ∅; reachability := ∅ |}.

(** The same again, with the guest group granted access to [c1]. *)
Definition shared : PersistentStore :=
  Store.with_access (fun _ => {[ ("cluster_1", "group_guest") ]}) populated.

Definition world (st : PersistentStore) : World :=
  {| store := st; now := 0; draws := 0; trace := [] |}.

Definition ok (out : string) : CommandResult :=
  {| status := 0; output := out; error := "" |}.

Definition refused : CommandResult :=
  {| status := 1; output := ""; error := "connection refused" |}.

Definition newline : string := String Utilities.newline "".

(** A cluster whose default namespace holds the given ServiceAccounts and
    whose system namespace lists the given pods; [down] picks the
    commands that fail. The tasks of a stage take no step before they
    are joined. *)
Definition answers (serviceAccounts pods : string) (down : Command -> bool)
    (c : Command) : CommandResult :=
  if down c then refused
  else
    match c with
    | Kubectl _ ("get" :: "serviceaccounts" :: _) => ok serviceAccounts
    | Kubectl _ ("describe" :: _) =>
        ok ("Name: kube-system" +:+ newline +:+ "Namespace: kube-system" +:+ newline)
    | Kubectl _ ("get" :: "pods" :: _) => ok pods
    | RunCommand _ _ _ =>
        ok "Tiller (the Helm server-side component) has been installed into your cluster."
    | _ => ok ""
    end.

Definition kubeconfig : YAML :=
  YMap [("contexts",
         YSeq [YMap [("context", YMap [("namespace", YScalar "kube-system")])]])].

Definition cluster (serviceAccounts pods : string) (down : Command -> bool) : Env :=
  {| execute := fun _ c => answers serviceAccounts pods down c;
     schedule := fun _ _ => [];
     unescape := fun s => s;
     yamlLoadAll := fun _ => Some [kubeconfig];
     idSource := fun n => Z.of_nat n;
     clusterCacheValidity := 60000;
     namespacePrefix := "slate-group-" |}.

Definition tillerPending : string :=
  "NAME READY STATUS" +:+ newline +:+ "tiller-deploy-5c9b8f6d5-abcde 0/1 Pending" +:+ newline.

Definition tillerRunning : string :=
  "NAME READY STATUS" +:+ newline +:+ "tiller-deploy-5c9b8f6d5-abcde 1/1 Running" +:+ newline.

Definition isHelm (c : Command) : bool :=
  match c with Helm _ _ _ => true | _ => false end.

Definition usesConfig (config : string) (c : Command) : bool :=
  match c with Kubectl cfg _ => String.eqb cfg config | _ => false end.

Definition nothing (c : Command) : bool := false.

Definition healthy : Env := cluster "default kube-system" tillerRunning nothing.
Definition stuck : Env := cluster "default kube-system" tillerPending nothing.
Definition unmatched : Env := cluster "default builder" tillerRunning nothing.
Definition helmDown : Env := cluster "default kube-system" tillerRunning isHelm.

Definition isNamespaceDeletion (c : Command) : bool :=
  match c with KubectlDeleteNamespace _ _ => true | _ => false end.

(** No namespace can be deleted, and wherever the calling thread lets
    them, the second task of the stage takes three steps and then the
    first one takes three. *)
Definition interleaved : Env :=
  {| execute := fun _ c => answers "default kube-system" tillerRunning isNamespaceDeletion c;
     schedule := fun _ _ => [1; 1; 1; 0; 0; 0]%nat;
     unescape := fun s => s;
     yamlLoadAll := fun _ => Some [kubeconfig];
     idSource := fun n => Z.of_nat n;
     clusterCacheValidity := 60000;
     namespacePrefix := "slate-group-" |}.

Definition asAlice (params : list (string * string)) (body : JSON) : Request :=
  {| url_params := ("token", "alice-token") :: params; body := body |}.

(** Reaching the cluster with the kubeconfig ["kubeconfig-2"] fails. *)
Definition unreachableWithNew : Env :=
  cluster "default kube-system" tillerRunning (usesConfig "kubeconfig-2").

Definition reconfiguration : Request :=
  asAlice [] (JObject [("metadata", JObject [("kubeconfig", JString "kubeconfig-2")])]).

Definition noChanges : JSON := JObject [("metadata", JObject [])].

(** Reaching the cluster with the kubeconfig that the store holds for
    [c1] fails, and a request that submits that same kubeconfig again. *)
Definition unreachableWithOld : Env :=
  cluster "default kube-system" tillerRunning (usesConfig "kubeconfig-1").

Definition resubmission : Request :=
  asAlice [] (JObject [("metadata", JObject [("kubeconfig", JString "kubeconfig-1")])]).

(** The world after the deletion of [i1] has failed on helm. *)
Definition afterHelmFailure : World :=
  {| store := populated; now := 0; draws := 0;
     trace := [Ran (Helm "kubeconfig-1" "kube-system" ["delete"; "--purge"; "guest-nginx"]);
               LoggedError "helm delete failed: connection refused"] |}.

Definition registration : Request :=
  asAlice []
    (JObject [("metadata",
               JObject [("name", JString "c1"); ("group", JString "group_owner");
                        ("owningOrganization", JString "Department of Labor");
                        ("kubeconfig", JString "kubeconfig-1")])]).

End Example.

(** ** client/Client.cpp: the checks of IDs *)

Module Client.

Definition base64Chars : string :=
  "0123456789abcdefghijklmnopqrstuvwxyzABCDEFGHIJKLMNOPQRSTUVWXYZ-_".

(** [s.find_first_not_of(chars,pos)]; [None] is [npos]. *)
Fixpoint find_first_not_of (chars : string) (pos : nat) (s : string) : option nat :=
  match s with
  | EmptyString => None
  | String c s' =>
      match pos with
      | S pos' => S <$> find_first_not_of chars pos' s'
      | O =>
          match Str.find_char c chars with
          | Some _ => S <$> find_first_not_of chars 0 s'
          | None => Some O
          end
      end
  end.

Definition verifyInstanceID (id : string) : bool :=
  if negb (Nat.eqb (String.length id) 20) then false
  else if negb (Str.starts_with id "instance_") then false
  else if (match find_first_not_of base64Chars 9 id with Some _ => true | None => false end)
  then false
  else true.

Definition verifySecretID (id : string) : bool :=
  if negb (Nat.eqb (String.length id) 18) then false
  else if negb (Str.starts_with id "secret_") then false
  else if (match find_first_not_of base64Chars 7 id with Some _ => true | None => false end)
  then false
  else true.

End Client.

(** ** client/Client.cpp: wrapping text *)

Module ClientText.

(** [std::size_t] of the 64-bit targets: arithmetic is modulo [2^64]. *)
Definition SIZE_MODULUS : Z := 2 ^ 64.

(** [s.substr(pos,n)] *)
Definition substr (s : string) (pos n : Z) : string :=
  Str.take (Z.to_nat n) (Str.drop (Z.to_nat pos) s).

Definition newline : string := String Utilities.newline "".

(** The loop [while(remaining)] of [wrapWithIndent]; one unit of fuel per
    iteration, [None] when the fuel runs out. *)
Fixpoint wrapLoop (fuel : nat) (orig indent : string) (maxWidth : Z)
    (pos remaining : Z) (result : string) (firstLine : bool) : option string :=
  match fuel with
  | O => None
  | S fuel' =>
      if remaining =? 0 then Some result
      else
        let indentWidth := Z.of_nat (String.length indent) in
        let chunkSize :=
          if firstLine then maxWidth else (maxWidth - indentWidth) mod SIZE_MODULUS in
        let chunkSize := if remaining <? chunkSize then remaining else chunkSize in
        let result := if firstLine then result else result +:+ newline +:+ indent in
        let result := result +:+ substr orig pos chunkSize in
        wrapLoop fuel' orig indent maxWidth (pos + chunkSize) (remaining - chunkSize)
                 result false
  end.

Definition wrapWithIndent (fuel : nat) (orig indent : string) (maxWidth : Z) : option string :=
  wrapLoop fuel orig indent maxWidth 0 (Z.of_nat (String.length orig)) "" true.

(** The text of lines that are laid out with the indent before every
    line but the first. *)
Fixpoint continued (indent : string) (chunks : list string) : string :=
  match chunks with
  | [] => ""
  | c :: cs => newline +:+ indent +:+ c +:+ continued indent cs
  end.

Definition laidOut (indent : string) (chunks : list string) : string :=
  match chunks with
  | [] => ""
  | c :: cs => c +:+ continued indent cs
  end.

Fixpoint joined (chunks : list string) : string :=
  match chunks with
  | [] => ""
  | c :: cs => c +:+ joined cs
  end.

End ClientText.

(** ** ClusterCommands.cpp: queries, permitted applications, verification *)

(** The operations of [PersistentStore] on what the store above does not
    hold: the listings of clusters and the applications that a group may
    use on a cluster. Their implementation is not part of the sources at
    hand; they are left open, and what is proved of their callers holds
    for every implementation. *)
Module Catalogue.

Record t := {
  listClusters : PersistentStore -> list Cluster;
  listClustersByGroup : PersistentStore -> string -> list Cluster;
  listApplicationsGroupMayUseOnCluster : PersistentStore -> string -> string -> list string;
  allowVoToUseApplication :
    PersistentStore -> string -> string -> string -> bool * PersistentStore;
  denyGroupUseOfApplication :
    PersistentStore -> string -> string -> string -> bool * PersistentStore;
}.

End Catalogue.

(** The elements of a [std::set<std::string>] in the order of its
    iteration: by [operator<] of [std::string], bytewise. *)
Fixpoint insert_sorted (x : string) (l : list string) : list string :=
  match l with
  | [] => [x]
  | y :: l' => if String.leb x y then x :: l else y :: insert_sorted x l'
  end.

Definition ordered (s : gset string) : list string :=
  foldr insert_sorted [] (elements s).

Definition number (n : Z) : JSON := JNumber {| mantissa := n; exponent := 0 |}.

Module ClusterQueries.
Import ClusterCommands.

Section WithEnv.

Variable env : Env.
Variable catalogue : Catalogue.t.

(** A store operation of the catalogue that answers with a success flag. *)
Definition update (f : PersistentStore -> bool * PersistentStore) : M Response bool :=
  w ← Stmt.get;
  let '(ok, st') := f (store w) in
  Stmt.set_store st' ;;
  mret ok.

Definition locationEntry (location : GeoLocation) : JSON :=
  JObject [("lat", JNumber (lat location)); ("lon", JNumber (lon location))].

(** The [clusterResult] that [listClusters] and [getClusterInfo] build;
    the name of an owning group that the store does not know is the
    empty name of an invalid [Group]. *)
Definition clusterResult (st : PersistentStore) (cluster : Cluster) : JSON :=
  JObject [apiVersion; ("kind", JString "Cluster");
           ("metadata",
            JObject [("id", JString (cluster_id cluster));
                     ("name", JString (cluster_name cluster));
                     ("owningGroup",
                      JString (default "" (group_name
                                 <$> Store.findGroupByID st (cluster_owningGroup cluster))));
                     ("owningOrganization", JString (cluster_owningOrganization cluster));
                     ("location",
                      JArray (locationEntry
                              <$> Store.getLocationsForCluster st (cluster_id cluster)))])].

Definition listClusters (req : Request) : M Response Response :=
  user ← authenticateUser (url_param req "token");
  user ← require user notAuthorized;
  clusters ← read (fun st =>
    match url_param req "group" with
    | Some group => Catalogue.listClustersByGroup catalogue st group
    | None => Catalogue.listClusters catalogue st
    end);
  st ← read (fun st => st);
  Stmt.return_
    (response 200 (JObject [apiVersion; ("items", JArray (clusterResult st <$> clusters))])).

Definition getClusterInfo (req : Request) (clusterID : string) : M Response Response :=
  user ← authenticateUser (url_param req "token");
  user ← require user notAuthorized;
  cluster ← read (fun st => Store.getCluster st clusterID);
  cluster ← require cluster (response 404 (generateError "Cluster not found"));
  st ← read (fun st => st);
  Stmt.return_ (response 200 (clusterResult st cluster)).

Definition listClusterGroupAllowedApplications (req : Request) (clusterID groupID : string)
    : M Response Response :=
  user ← authenticateUser (url_param req "token");
  user ← require user notAuthorized;
  cluster ← read (fun st => Store.getCluster st clusterID);
  cluster ← require cluster (response 404 (generateError "Cluster not found"));
  group ← read (fun st => Store.getGroup st groupID);
  group ← require group (response 404 (generateError "Group not found"));
  owner ← read (fun st => Store.userInGroup st (user_id user) (cluster_owningGroup cluster));
  member ← read (fun st => Store.userInGroup st (user_id user) (group_id group));
  reject_if (negb (user_admin user) && negb owner && negb member) notAuthorized ;;
  allowed ← read (fun st =>
    Catalogue.listApplicationsGroupMayUseOnCluster catalogue st (group_id group) (cluster_id cluster));
  Stmt.return_
    (response 200 (JObject [apiVersion; ("items", JArray (JString <$> allowed))])).

Definition allowGroupUseOfApplication (req : Request)
    (clusterID groupID applicationName : string) : M Response Response :=
  user ← authenticateUser (url_param req "token");
  user ← require user notAuthorized;
  cluster ← read (fun st => Store.getCluster st clusterID);
  cluster ← require cluster (response 404 (generateError "Cluster not found"));
  group ← read (fun st => Store.getGroup st groupID);
  group ← require group (response 404 (generateError "Group not found"));
  owner ← read (fun st => Store.userInGroup st (user_id user) (cluster_owningGroup cluster));
  reject_if (negb (user_admin user) && negb owner) notAuthorized ;;
  success ← update (fun st =>
    Catalogue.allowVoToUseApplication catalogue st groupID clusterID applicationName);
  reject_if (negb success)
    (response 500 (generateError "Granting Group permission to use application failed")) ;;
  Stmt.return_ (response 200 JNull).

Definition denyGroupUseOfApplication (req : Request)
    (clusterID groupID applicationName : string) : M Response Response :=
  user ← authenticateUser (url_param req "token");
  user ← require user notAuthorized;
  cluster ← read (fun st => Store.getCluster st clusterID);
  cluster ← require cluster (response 404 (generateError "Cluster not found"));
  group ← read (fun st => Store.getGroup st groupID);
  group ← require group (response 404 (generateError "Group not found"));
  owner ← read (fun st => Store.userInGroup st (user_id user) (cluster_owningGroup cluster));
  reject_if (negb (user_admin user) && negb owner) notAuthorized ;;
  success ← update (fun st =>
    Catalogue.denyGroupUseOfApplication catalogue st groupID clusterID applicationName);
  reject_if (negb success)
    (response 500 (generateError "Removing Group permission to use application failed")) ;;
  Stmt.return_ (response 200 JNull).

(** *** ClusterConsistencyResult::toJSON *)

Definition statusName (s : ClusterConsistencyState) : string :=
  match s with
  | Unreachable => "Unreachable"
  | HelmFailure => "HelmFailure"
  | Inconsistent => "Inconsistent"
  | Consistent => "Consistent"
  end.

Definition missingResult (instance : ApplicationInstance) : JSON :=
  JObject [apiVersion; ("kind", JString "ApplicationInstance");
           ("metadata",
            JObject [("id", JString (instance_id instance));
                     ("name", JString (instance_name instance));
                     ("application", JString (instance_application instance));
                     ("group", JString (instance_owningGroup instance));
                     ("cluster", JString (instance_cluster instance));
                     ("created", JString (instance_ctime instance))])].

(** The loop over [missingInstances]; [expectedInstancesByName.find(missing)]
    is dereferenced unchecked, [None] stands for the dereference of
    [end()]. *)
Fixpoint missingResults (byName : gmap string ApplicationInstance) (missing : list string)
    : option (list JSON) :=
  match missing with
  | [] => Some []
  | name :: rest =>
      match byName !! name with
      | Some instance =>
          match missingResults byName rest with
          | Some items => Some (missingResult instance :: items)
          | None => None
          end
      | None => None
      end
  end.

Definition toJSON (r : ClusterConsistencyResult.t) : option JSON :=
  match missingResults (ClusterConsistencyResult.expectedInstancesByName r)
          (ordered (ClusterConsistencyResult.missingInstances r)) with
  | Some missing =>
      Some (JObject
              [apiVersion;
               ("status", JString (statusName (ClusterConsistencyResult.status r)));
               ("missingInstances", JArray missing);
               ("unexpectedInstances",
                JArray (JString <$> ordered (ClusterConsistencyResult.unexpectedInstances r)));
               ("missingSecrets",
                number (Z.of_nat (size (ClusterConsistencyResult.missingSecrets r))));
               ("unexpectedSecrets",
                number (Z.of_nat (size (ClusterConsistencyResult.unexpectedSecrets r))))])
  | None => None
  end.

(** *** verifyCluster and repairCluster *)

(** A result whose [toJSON] would dereference [end()] has no defined
    answer; it is an outcome of its own, not a response. *)
Definition verifyCluster (req : Request) (clusterID : string)
    : M (option Response) (option Response) :=
  user ← authenticateUser (url_param req "token");
  (match user with
   | None => Stmt.return_ (Some notAuthorized)
   | Some _ => mret tt
   end) ;;
  cluster ← read (fun st => Store.getCluster st clusterID);
  match cluster with
  | None => Stmt.return_ (Some (response 404 (generateError "Cluster not found")))
  | Some cluster =>
      result ← Stmt.call (ClusterConsistencyResult.make env cluster);
      Stmt.return_ (response 200 <$> toJSON result)
  end.

Definition repairCluster (req : Request) (clusterID : string) : M Response Response :=
  user ← authenticateUser (url_param req "token");
  reject_if (match user with Some user => negb (user_admin user) | None => true end)
    notAuthorized ;;
  cluster ← read (fun st => Store.getCluster st clusterID);
  cluster ← require cluster (response 404 (generateError "Cluster not found"));
  state ← Stmt.call (ClusterConsistencyResult.make env cluster);
  Stmt.return_ (response 200 JNull).

End WithEnv.
End ClusterQueries.

(** ** Reasoning about statements *)

(** What holds after a statement that is run in [w]: [Qc] of the value
    and the world if it falls through, [Qr] of the result and the world
    if it returns from the function, [cut] if it is cut off for lack of
    fuel. *)
Definition wpc {R A} (cut : Prop) (m : M R A) (Qc : A -> World -> Prop)
    (Qr : R -> World -> Prop) (w : World) : Prop :=
  match m w with
  | (Continue a, w') => Qc a w'
  | (Returned r, w') => Qr r w'
  | (OutOfFuel, _) => cut
  end.


(** The world with one more event. *)
Definition record (e : Event) (w : World) : World :=
  {| store := store w; now := now w; draws := draws w; trace := trace w ++ [e] |}.

Definition with_store (st : PersistentStore) (w : World) : World :=
  {| store := st; now := now w; draws := draws w; trace := trace w |}.

(** The world after lines have been logged. *)
Definition logged (lines : list string) (w : World) : World :=
  {| store := store w; now := now w; draws := draws w;
     trace := trace w ++ (LoggedError <$> lines) |}.

(** ** Reasoning about tasks *)

Module Tasks.

(** From [w] to [w']: events of the stage [P] have been added to the
    trace, among them the launches and joins [ms], and the store has
    changed as [Fr] allows. *)
Definition passes (P : Event -> bool) (Fr : PersistentStore -> PersistentStore -> Prop)
    (ms : list Event) (w w' : World) : Prop :=
  exists es,
    trace w' = trace w ++ es /\ Spec.events P es /\ Spec.markers es = ms
    /\ Fr (store w) (store w').

(** The worlds of a stage that starts in [w0]. *)
Definition reached (P : Event -> bool) (Fr : PersistentStore -> PersistentStore -> Prop)
    (w0 w : World) : Prop :=
  exists ms, passes P Fr ms w0 w.

Section Steps.

Context {A : Type}.

(** The worlds in which the task may find itself. *)
Variable I : World -> Prop.

(** Every step that the task has left takes such a world to one that [G]
    allows. *)
Inductive Confined (G : World -> World -> Prop) : Thread A -> Prop :=
| confined_finished a : Confined G (Finished a)
| confined_step effect next :
    (forall w, I w -> G w (effect w)) ->
    (forall w, I w -> Confined G (next w)) ->
    Confined G (Step effect next).

(** The task has a step left that [Q] describes: [Q w w' t] of the world
    in which the step is taken, the world that it leaves and what is then
    left of the task. *)
Inductive Owes (Q : World -> World -> Thread A -> Prop) : Thread A -> Prop :=
| owes_now effect next :
    (forall w, I w -> Q w (effect w) (next w)) -> Owes Q (Step effect next)
| owes_later effect next :
    (forall w, I w -> Owes Q (next w)) -> Owes Q (Step effect next).

End Steps.

End Tasks.

(** What the tasks of the two concurrent stages of the deletion cascade
    have done and have yet to do. *)
Module Stages.
Section WithEnv.

Variable env : Env.

(** The world in which the stage starts. *)
Variable w0 : World.

Definition inSecretStage : World -> Prop :=
  Tasks.reached Spec.secretEvent Spec.secretsOnly w0.

Definition secretStep : World -> World -> Prop :=
  Tasks.passes Spec.secretEvent Spec.secretsOnly [].

Definition runsSecretDelete (s : Secret) : World -> World -> Thread string -> Prop :=
  fun w w' _ => trace w' = trace w ++ [Ran (Spec.secretDelete env (store w0) s)].

Definition removesSecret (s : Secret) : World -> World -> Thread string -> Prop :=
  fun w w' _ => online (store w) = true -> secrets (store w') !! secret_id s = None.

(** The task of secret [s] between its launch and its join. *)
Definition secretPending (s : Secret) (w : World) (t : Thread string) : Prop :=
  Tasks.Confined inSecretStage secretStep t
  /\ (exists es,
        trace w = trace w0 ++ es
        /\ (In (Launched (internal.secretTask s)) es
            /\ Tasks.Owes inSecretStage (runsSecretDelete s) t
            \/ sublist [Launched (internal.secretTask s);
                        Ran (Spec.secretDelete env (store w0) s)] es))
  /\ (Tasks.Owes inSecretStage (removesSecret s) t
      \/ (online (store w0) = true -> secrets (store w) !! secret_id s = None)).

(** The task of secret [s] once it is joined. *)
Definition secretDone (s : Secret) (w : World) : Prop :=
  (exists es, trace w = trace w0 ++ es /\ Spec.secretDeleted env (store w0) s es)
  /\ (online (store w0) = true -> secrets (store w) !! secret_id s = None).

Variable cluster : Cluster.
Variable configPath : string.

Definition inNamespaceStage : World -> Prop :=
  Tasks.reached Spec.namespaceEvent eq w0.

Definition namespaceStep : World -> World -> Prop :=
  Tasks.passes Spec.namespaceEvent eq [].

Definition logsFailure (g : Group) (answer : CommandResult)
    : World -> World -> Thread unit -> Prop :=
  fun w w' _ => trace w' = trace w ++ [LoggedError (Spec.failureLine env cluster g answer)].

Definition runsNamespaceDelete (g : Group) : World -> World -> Thread unit -> Prop :=
  fun w w' t =>
    let command := Spec.namespaceDelete env configPath g in
    let answer := execute env (trace w) command in
    trace w' = trace w ++ [Ran command]
    /\ (failed answer = true -> Tasks.Owes inNamespaceStage (logsFailure g answer) t).

(** The task of group [g] between its launch and its join. *)
Definition namespacePending (g : Group) (w : World) (t : Thread unit) : Prop :=
  let command := Spec.namespaceDelete env configPath g in
  Tasks.Confined inNamespaceStage namespaceStep t
  /\ exists es,
       trace w = trace w0 ++ es
       /\ (In (Launched (internal.namespaceTask g)) es
           /\ Tasks.Owes inNamespaceStage (runsNamespaceDelete g) t
           \/ exists pre post,
                es = pre ++ Ran command :: post
                /\ In (Launched (internal.namespaceTask g)) pre
                /\ let answer := execute env (trace w0 ++ pre) command in
                   failed answer = true ->
                   Tasks.Owes inNamespaceStage (logsFailure g answer) t
                   \/ In (LoggedError (Spec.failureLine env cluster g answer)) post).

(** The task of group [g] once it is joined. *)
Definition namespaceDone (g : Group) (w : World) : Prop :=
  exists es,
    trace w = trace w0 ++ es
    /\ Spec.namespaceDeleted env (trace w0) cluster configPath g es.

End WithEnv.
End Stages.

(** ** What a registration and an update come to *)

Module Registration.
Import ClusterCommands Spec.

(** Two stores that differ at most in the record of cluster [id]. *)
Definition onlyAt (id : string) (st st' : PersistentStore) : Prop :=
  exists m, st' = Store.with_clusters (fun _ => m) st
            /\ forall k, k <> id -> m !! k = clusters st !! k.

(** What a request for registration is about. *)
Definition sentName (req : Request) : string :=
  Json.GetString (Json.at2 "metadata" "name" (body req)).

Definition sentConfig (req : Request) : string :=
  Json.GetString (Json.at2 "metadata" "kubeconfig" (body req)).

Definition sentOrganization (req : Request) : string :=
  Json.GetString (Json.at2 "metadata" "owningOrganization" (body req)).

(** The ID that the next registration gives out. *)
Definition nextID (env : Env) (w : World) : string :=
  IDGenerator.generateID IDGenerator.ClusterKind (idSource env (draws w)).

(** The answer to a registration and the world after it, against the
    world before it. *)
Record outcome (env : Env) (req : Request) (w : World) (r : Response) (w' : World) : Prop := {
  codes : code r = 200 \/ code r = 400 \/ code r = 403 \/ code r = 500;
  duration : now w <= now w' <= now w + maxDelay;
  refusal : code r = 400 \/ code r = 403 -> store w' = store w /\ trace w' = trace w;
  frame : onlyAt (nextID env w) (store w) (store w');
  success :
    code r = 200 ->
    exists user cluster,
      requester (store w) req = Some user
      /\ clusters (store w') !! nextID env w = Some cluster
      /\ cluster_id cluster = nextID env w
      /\ cluster_name cluster = sentName req
      /\ cluster_config cluster = unescape env (sentConfig req)
      /\ cluster_owningOrganization cluster = sentOrganization req
      /\ Store.userInGroup (store w) (user_id user) (cluster_owningGroup cluster) = true
      /\ Store.findClusterByName (store w) (sentName req) = None
      /\ Str.find_char "/" (sentName req) = None
      /\ Str.starts_with (sentName req) IDGenerator.clusterIDPrefix = false
      /\ payload r
         = JObject [apiVersion; ("kind", JString "Cluster");
                    ("metadata", JObject [("id", JString (nextID env w));
                                          ("name", JString (sentName req))])];
}.

End Registration.

Module Updating.
Import ClusterCommands Spec.

(** What an update leaves of a cluster record: all but the kubeconfig
    and the organization. *)
Definition sameIdentity (c c' : Cluster) : Prop :=
  cluster_id c' = cluster_id c /\ cluster_name c' = cluster_name c
  /\ cluster_owningGroup c' = cluster_owningGroup c
  /\ cluster_systemNamespace c' = cluster_systemNamespace c
  /\ cluster_valid c' = cluster_valid c.

(** Two stores that differ at most in the record and the locations of
    one cluster, whose record has kept its identity. *)
Definition updatedAt (c : Cluster) (st st' : PersistentStore) : Prop :=
  online st' = online st /\ users st' = users st /\ groups st' = groups st
  /\ instances st' = instances st /\ secrets st' = secrets st
  /\ memberships st' = memberships st /\ access st' = access st
  /\ reachability st' = reachability st
  /\ (forall k, k <> cluster_id c -> clusters st' !! k = clusters st !! k)
  /\ (forall k, k <> cluster_id c -> locations st' !! k = locations st !! k)
  /\ (clusters st' !! cluster_id c = clusters st !! cluster_id c
      \/ exists c', clusters st' !! cluster_id c = Some c' /\ sameIdentity c c').

(** The answer when the cluster cannot be reached with its new
    kubeconfig. *)
Definition probeFailure : Response :=
  response 400 (generateError
                  "Unable to contact cluster with kubectl after configuration update").

(** The [location] member of the metadata of a request. *)
Definition sentLocation (req : Request) : option JSON :=
  Json.member "location" (default JNull (Json.member "metadata" (body req))).

(** The answer to an update of the cluster that the store finds for
    [clusterID], and the world after it. *)
Record outcome (req : Request) (cluster : Cluster) (w : World) (r : Response) (w' : World)
    : Prop := {
  codes : code r = 200 \/ code r = 400 \/ code r = 403 \/ code r = 500;
  untouched : code r = 403 \/ code r = 500 \/ (code r = 400 /\ r <> probeFailure) ->
              store w' = store w;
  silent : code r = 403 \/ (code r = 400 /\ r <> probeFailure) -> w' = w;
  frame : updatedAt cluster (store w) (store w');
  located : code r = 200 ->
            forall location, sentLocation req = Some location ->
            exists ls, parseLocations (Json.GetArray location) = Some ls
                       /\ locations (store w') !! cluster_id cluster = Some ls;
}.

End Updating.

(** ** The lines that the scans of createCluster look for *)

Module Scans.

(** A line of [kubectl get pods] that shows a tiller pod with all of its
    containers ready: at least three columns, the first naming
    [tiller-deploy], the second of the form [n/n] with [n > 0]. *)
Definition readyLine (line : string) : Prop :=
  exists token0 token1 token2 rest slashPos n,
    Utilities.string_split_columns line " " false = token0 :: token1 :: token2 :: rest
    /\ Str.contains token0 "tiller-deploy" = true
    /\ Str.find_char "/" token1 = Some slashPos
    /\ Utilities.stoul (Str.take slashPos token1) = Some n
    /\ Utilities.stoul (Str.drop (slashPos + 1) token1) = Some n
    /\ 0 < n.

(** A line of a tiller pod whose second column cannot be read as
    [numerator/denominator]. *)
Definition unreadableLine (line : string) : Prop :=
  exists token0 token1 token2 rest,
    Utilities.string_split_columns line " " false = token0 :: token1 :: token2 :: rest
    /\ Str.contains token0 "tiller-deploy" = true
    /\ (Str.find_char "/" token1 = None
        \/ exists slashPos,
             Str.find_char "/" token1 = Some slashPos
             /\ (slashPos = 0%nat \/ (slashPos + 1)%nat = String.length token1
                 \/ Utilities.stoul (Str.take slashPos token1) = None
                 \/ Utilities.stoul (Str.drop (slashPos + 1) token1) = None)).

(** A line of [kubectl describe serviceaccount] that gives the namespace
    [ns]: exactly the two columns [Namespace:] and [ns]. *)
Definition namespaceLine (ns line : string) : Prop :=
  Utilities.string_split_columns line " " false = ["Namespace:"; ns].

End Scans.

(** ** More people and requests, for running the other commands *)

Module Visitors.

(** An administrator who belongs to no group. *)
Definition root : User :=
  {| user_id := "user_root"; user_name := "Root"; user_admin := true;
     user_token := "root-token" |}.

(** A member of the guest group. *)
Definition bob : User :=
  {| user_id := "user_bob"; user_name := "Bob"; user_admin := false;
     user_token := "bob-token" |}.

(** The deployment of [Example.populated] with the two of them. *)
Definition staffed : PersistentStore :=
  {| online := true;
     users := {[ "user_alice" := Example.alice; "user_root" := root; "user_bob" := bob ]};
     groups := {[ "group_owner" := Example.owner; "group_guest" := Example.guest ]};
     clusters := {[ "cluster_1" := Example.c1 ]};
     instances := {[ "instance_1" := Example.i1 ]};
     secrets := {[ "secret_1" := Example.s1; "secret_2" := Example.s2 ]};
     memberships := {[ ("user_alice", "group_owner"); ("user_bob", "group_guest") ]};
     access := ∅; locations := ∅; reachability := ∅ |}.

Definition asRoot (params : list (string * string)) (body : JSON) : Request :=
  {| url_params := ("token", "root-token") :: params; body := body |}.

Definition asBob (params : list (string * string)) (body : JSON) : Request :=
  {| url_params := ("token", "bob-token") :: params; body := body |}.

Definition anonymous : Request := {| url_params := []; body := JNull |}.

(** A catalogue in which every group may use nginx and nothing can be
    changed. *)
Definition catalogue : Catalogue.t :=
  {| Catalogue.listClusters := fun st => Store.select (fun _ => true) (clusters st);
     Catalogue.listClustersByGroup := fun st group =>
       Store.select (fun c => String.eqb (cluster_owningGroup c) group) (clusters st);
     Catalogue.listApplicationsGroupMayUseOnCluster := fun _ _ _ => ["nginx"];
     Catalogue.allowVoToUseApplication := fun st _ _ _ => (false, st);
     Catalogue.denyGroupUseOfApplication := fun st _ _ _ => (false, st) |}.

(** An update with a new kubeconfig and a location that is not a pair
    of numbers. *)
Definition misplaced : JSON :=
  JObject [("metadata",
            JObject [("kubeconfig", JString "kubeconfig-2");
                     ("location", JArray [JObject [("lat", JString "north")]])])].

(** An update of the location alone. *)
Definition chicago : GeoLocation :=
  {| lat := {| mantissa := 4188; exponent := -2 |};
     lon := {| mantissa := -8763; exponent := -2 |} |}.

Definition relocation : JSON :=
  JObject [("metadata",
            JObject [("location",
                      JArray [JObject [("lat", JNumber (lat chicago));
                                       ("lon", JNumber (lon chicago))]])])].

End Visitors.

(** ** client/Client.cpp: the endpoint of the API *)

Module ClientEndpoint.

Inductive PermState := VALID | INVALID | DOES_NOT_EXIST.

(** What [getEndpoint] reads of the machine it runs on.
    [getHomeDirectory] and [checkPermissions] are defined outside the
    sources at hand: their results are taken as they come, [None] when
    they throw. [ifstream path] is the content of the file when the
    stream opens. *)
Record Machine := {
  getHomeDirectory : option string;
  checkPermissions : string -> option PermState;
  ifstream : string -> option string
}.

(** The data members of [Client] that [getEndpoint] uses. *)
Record Client := {
  endpointPath : string;
  apiEndpoint : string
}.

(** The [throw] statements of [getEndpoint], in the order of the source,
    each with the end of its message; [Passed] is an exception of
    [getHomeDirectory] or [checkPermissions]. The first and the last check
    of slashes throw the same message. *)
Inductive Thrown :=
| Passed
| CannotOpen          (* Failed to open endpoint file ... for reading *)
| CannotRead          (* Failed to read endpoint file ... *)
| NoSeparator         (* does not look like a valid URL *)
| NoScheme            (* does not look like it has a valid URL scheme *)
| InvalidScheme       (* does not look like it has a valid URL scheme *)
| NothingAfterScheme  (* does not look like a valid URL *)
| Query               (* does not look valid; no query is permitted *)
| Fragment            (* does not look valid; no fragment is permitted *)
| NoHost              (* does not look like a valid URL *)
| SlashBeforePort     (* no path (including a trailing slash) is permitted *)
| NoPort              (* does not look like a valid URL *)
| InvalidPort         (* port number may contain only digits and no path ... *)
| TrailingSlash.      (* no path (including a trailing slash) is permitted *)

(** [s.find(c,pos)]; [None] is [npos]. *)
Definition find_from (c : ascii) (pos : nat) (s : string) : option nat :=
  (fun i => (pos + i)%nat) <$> Str.find_char c (Str.drop pos s).

(** [a != npos] *)
Definition found (a : option nat) : bool :=
  match a with Some _ => true | None => false end.

(** [a < b] on [std::size_t], [npos] being the largest value. *)
Definition before (a b : option nat) : bool :=
  match a, b with
  | Some a, Some b => (a <? b)%nat
  | Some _, None => true
  | None, _ => false
  end.

(** The characters up to the first white space. *)
Fixpoint word (s : string) : string :=
  match s with
  | String c s' => if Utilities.is_space c then "" else String c (word s')
  | EmptyString => ""
  end.

(** [stream >> target] into a [std::string] on a stream that has just been
    opened: white space is skipped and the characters up to the next white
    space are read; [None] when the stream fails, which is when there is
    no such character. *)
Definition extract (content : string) : option string :=
  match word (Utilities.skip_spaces content) with
  | EmptyString => None
  | w => Some w
  end.

Definition getDefaultEndpointFilePath (m : Machine) : option string :=
  (fun path => path +:+ ".slate/endpoint") <$> getHomeDirectory m.

Definition schemeChars : string := "abcdefghijklmnopqrstuvwxzy0123456789+.-".

(** The checks that [getEndpoint] makes of [apiEndpoint] once it has one:
    the first [throw] reached, if any. *)
Definition checks (apiEndpoint : string) : option Thrown :=
  match Str.find apiEndpoint "://" with
  | None => Some NoSeparator
  | Some schemeSepPos =>
      if Nat.eqb schemeSepPos 0 then Some NoScheme
      else if before (Client.find_first_not_of schemeChars 0 apiEndpoint) (Some schemeSepPos)
      then Some InvalidScheme
      else if (String.length apiEndpoint <=? schemeSepPos + 3)%nat then Some NothingAfterScheme
      else if found (Str.find_char "?" apiEndpoint) then Some Query
      else if found (Str.find_char "#" apiEndpoint) then Some Fragment
      else
        let hostPos := (schemeSepPos + 3)%nat in
        let hostPos :=
          match find_from "@" hostPos apiEndpoint with
          | Some at_ => (at_ + 1)%nat
          | None => hostPos
          end in
        if (String.length apiEndpoint <=? hostPos)%nat then Some NoHost
        else
          let portPos := find_from ":" hostPos apiEndpoint in
          if before (find_from "/" hostPos apiEndpoint) portPos then Some SlashBeforePort
          else
            let port :=
              match portPos with
              | Some portPos =>
                  let portPos := S portPos in
                  if (String.length apiEndpoint <=? portPos)%nat then Some NoPort
                  else if found (Client.find_first_not_of "0123456789" portPos apiEndpoint)
                  then Some InvalidPort
                  else None
              | None => None
              end in
            match port with
            | Some t => Some t
            | None =>
                (* the text has a character at [hostPos], so that its size is
                   not zero *)
                match String.get (String.length apiEndpoint - 1) apiEndpoint with
                | Some c => if Ascii.eqb c "/" then Some TrailingSlash else None
                | None => None
                end
            end
  end.

(** The end of [getEndpoint]: the checks, and the text returned when they
    pass. *)
Definition checked (c : Client) : (Thrown + string) * Client :=
  match checks (apiEndpoint c) with
  | Some t => (inl t, c)
  | None => (inr (apiEndpoint c), c)
  end.

(** [Client::getEndpoint]: what is returned or thrown, and the client as
    it is left. *)
Definition getEndpoint (m : Machine) (c : Client) : (Thrown + string) * Client :=
  if String.eqb (apiEndpoint c) "" then
    let path :=
      if String.eqb (endpointPath c) "" then getDefaultEndpointFilePath m
      else Some (endpointPath c) in
    match path with
    | None => (inl Passed, c)
    | Some path =>
        let c := {| endpointPath := path; apiEndpoint := apiEndpoint c |} in
        match checkPermissions m path with
        | None => (inl Passed, c)
        | Some DOES_NOT_EXIST =>
            checked {| endpointPath := path; apiEndpoint := "http://localhost:18080" |}
        | Some _ =>
            match ifstream m path with
            | None => (inl CannotOpen, c)
            | Some content =>
                match extract content with
                | None => (inl CannotRead, c)
                | Some w => checked {| endpointPath := path; apiEndpoint := w |}
                end
            end
        end
    end
  else checked c.

(** The characters of [s] are none of [chars]. *)
Definition free_of (chars : string) (s : string) : bool :=
  Str.forallb (fun c => negb (found (Str.find_char c chars))) s.

(** The characters of [s] are all among [chars]. *)
Definition made_of (chars : string) (s : string) : bool :=
  Str.forallb (fun c => found (Str.find_char c chars)) s.

(** [!s.empty()] *)
Definition nonempty (s : string) : bool := negb (String.eqb s "").

(** The parts of an endpoint, to tell which texts [getEndpoint] accepts:
    [scheme://user@name:port], where the user and the port may be
    missing. *)
Record Parts := {
  scheme : string;
  user : option string;
  name : string;
  port : option string
}.

(** The user with the [@] that ends it, and the port with the [:] that
    starts it. *)
Definition userPart (u : Parts) : string :=
  match user u with Some w => w +:+ "@" | None => "" end.

Definition portPart (u : Parts) : string :=
  match port u with Some p => ":" +:+ p | None => "" end.

(** The text that the parts make. *)
Definition text (u : Parts) : string :=
  scheme u +:+ "://" +:+ userPart u +:+ name u +:+ portPart u.

(** The parts that [getEndpoint] takes: a scheme that is not empty, made
    of the characters of [schemeChars]; a user without [@], [?] and [#];
    a name without [/], [:], [?] and [#], and without [@] where no user
    comes before it; a port of one or more digits, in the absence of
    which the name is not empty. *)
Definition well_formed (u : Parts) : bool :=
  nonempty (scheme u) && made_of schemeChars (scheme u)
  && match user u with
     | Some w => free_of "@?#" w
     | None => free_of "@" (name u)
     end
  && free_of "/:?#" (name u)
  && match port u with
     | Some p => nonempty p && made_of "0123456789" p
     | None => nonempty (name u)
     end.

(** What the checks have found of a text that passes them, place by
    place. *)
Record passed (s : string) (schemeSepPos hostPos : nat) : Prop := {
  separator : Str.find s "://" = Some schemeSepPos;
  scheme_present : (0 < schemeSepPos)%nat;
  scheme_chars : before (Client.find_first_not_of schemeChars 0 s) (Some schemeSepPos) = false;
  continues : (schemeSepPos + 3 < String.length s)%nat;
  no_query : Str.find_char "?" s = None;
  no_fragment : Str.find_char "#" s = None;
  host_start :
    hostPos = match find_from "@" (schemeSepPos + 3)%nat s with
              | Some at_ => (at_ + 1)%nat
              | None => (schemeSepPos + 3)%nat
              end;
  host_present : (hostPos < String.length s)%nat;
  no_slash : find_from "/" hostPos s = None;
  port_digits :
    match find_from ":" hostPos s with
    | Some portPos =>
        (S portPos < String.length s)%nat
        /\ Client.find_first_not_of "0123456789" (S portPos) s = None
    | None => True
    end
}.

(** A machine on which nothing has been set up, one with an endpoint
    file, a client that holds nothing yet, and parts in which the user
    holds slashes and the name is empty. *)
Definition bare : Machine := {|
  getHomeDirectory := Some "/home/ada/";
  checkPermissions := fun _ => Some DOES_NOT_EXIST;
  ifstream := fun _ => None
|}.

Definition configured : Machine := {|
  getHomeDirectory := Some "/home/ada/";
  checkPermissions := fun path =>
    if String.eqb path "/home/ada/.slate/endpoint" then Some INVALID
    else Some DOES_NOT_EXIST;
  ifstream := fun path =>
    if String.eqb path "/home/ada/.slate/endpoint"
    then Some (" https://api.slateci.io:443" +:+ String Utilities.newline "")
    else None
|}.

Definition unset : Client := {| endpointPath := ""; apiEndpoint := "" |}.

Definition proxied : Parts := {|
  scheme := "https";
  user := Some "example.org/api/v1";
  name := "";
  port := Some "443"
|}.

End ClientEndpoint.

(** ** client/Client.cpp: the request that creates a secret *)

Module ClientSecrets.

Record SecretCreateOptions := {
  name : string;
  group : string;
  cluster : string;
  data : list string
}.

Section WithEncoding.

(** [encodeBase64] is defined outside the sources at hand. *)
Variable encodeBase64 : string -> string.

(** The loop of [createSecret] over [opt.data]: the members of [contents]
    in the order in which they are added, or the line written to standard
    output by the iteration that returns. The steps of the progress
    display are left out. *)
Fixpoint contents (items : list string) : string + list (string * JSON) :=
  match items with
  | [] => inr []
  | item :: items' =>
      match Str.find item "=" with
      | Some pos =>
          let keystr := Str.take pos item in
          if String.eqb keystr "" then
            inl ("Failed to create secret: No key given with value " +:+ item)
          else
            let val := Str.drop (pos + 1) item in
            if String.eqb val "" then
              inl ("Failed to create secret: No value given with key " +:+ keystr)
            else
              match contents items' with
              | inl line => inl line
              | inr members => inr ((keystr, JString (encodeBase64 val)) :: members)
              end
      | None =>
          inl ("Failed to create secret: The key, value pair " +:+ item
               +:+ " is not in the required form key=val")
      end
  end.

(** [Client::createSecret] up to the request: the line written when an
    item is refused, after which the function returns, or the document
    that is posted to [secrets]. *)
Definition createSecret (opt : SecretCreateOptions) : string + JSON :=
  match contents (data opt) with
  | inl line => inl line
  | inr members =>
      inr (JObject [("apiVersion", JString "v1alpha3");
                    ("metadata", JObject [("name", JString (name opt));
                                          ("group", JString (group opt));
                                          ("cluster", JString (cluster opt))]);
                    ("contents", JObject members)])
  end.

End WithEncoding.

(** An item of the form [key=value]. *)
Definition item (pair : string * string) : string := pair.1 +:+ "=" +:+ pair.2.

(** The pairs that can be given as items and found again: the key is not
    empty and holds no [=], the value is not empty. *)
Definition proper (pair : string * string) : Prop :=
  pair.1 <> "" /\ Str.find_char "=" pair.1 = None /\ pair.2 <> "".

Definition member (encodeBase64 : string -> string) (pair : string * string) : string * JSON :=
  (pair.1, JString (encodeBase64 pair.2)).

End ClientSecrets.

(** ** test/DBServer.cpp: the ports of the database instances *)

Module DBServer.

(** A [ProcessHandle]: the process ID of the child, [None] for the empty
    handle that reserves a port. *)
Definition ProcessHandle : Type := option Z.

Definition minPort : Z := 52001.
Definition maxPort : Z := 53000.

(** The loop of [allocatePort] from [port] on, over the table
    [soManyDynamos]; one unit of fuel per iteration, [None] when the fuel
    runs out. [upsert] inserts the empty handle where the port has no
    entry and leaves an entry that it finds as it is. The ports stay below
    [maxPort], so that the [unsigned int] does not wrap. *)
Fixpoint allocateLoop (fuel : nat) (soManyDynamos : gmap Z ProcessHandle) (port : Z)
    : option (Z * gmap Z ProcessHandle) :=
  match fuel with
  | O => None
  | S fuel' =>
      match soManyDynamos !! port with
      | None => Some (port, <[port := None]> soManyDynamos)
      | Some _ =>
          let port := port + 1 in
          let port := if port =? maxPort then minPort else port in
          allocateLoop fuel' soManyDynamos port
      end
  end.

(** The lambda [allocatePort] of [main]: the port returned and the table
    as it is left. *)
Definition allocatePort (fuel : nat) (soManyDynamos : gmap Z ProcessHandle)
    : option (Z * gmap Z ProcessHandle) :=
  allocateLoop fuel soManyDynamos minPort.

(** The ports that [allocatePort] goes through. *)
Definition inRange (port : Z) : Prop := minPort <= port < maxPort.

(** A table in which the first two ports are taken. *)
Definition busy : gmap Z ProcessHandle := <[52001 := Some 4711]> (<[52002 := None]> ∅).

(** A table in which every port of the range is taken. *)
Definition full : gmap Z ProcessHandle :=
  list_to_map (List.map (fun i => (minPort + Z.of_nat i, None)) (seq 0 999)).

End DBServer.

(** * Properties *)

(** Unfolds the statements of a function down to the worlds they pass
    along. *)
Ltac unfold_stmt :=
  cbv [mbind M_bind mret M_ret Stmt.bind Stmt.pure Stmt.return_ Stmt.get Stmt.run
       Stmt.call Stmt.emit Stmt.set_store Stmt.diverge read write exec kubectl helm
       runCommand log_error authenticateUser
       ClusterCommands.require ClusterCommands.reject_if].

(** ** The ID generator *)

Module IDGeneratorFacts.
Import IDGenerator.

Lemma of_list_length (l : list ascii) : String.length (Str.of_list l) = length l.
Proof. induction l as [|c l IH]; simpl; congruence. Qed.

Lemma map_length (f : ascii -> ascii) (s : string) :
  String.length (Str.map f s) = String.length s.
Proof. induction s as [|c s IH]; simpl; congruence. Qed.

Lemma forallb_map_of_list (p : ascii -> bool) (f : ascii -> ascii) (l : list ascii) :
  Forall (fun c => p (f c) = true) l ->
  Str.forallb p (Str.map f (Str.of_list l)) = true.
Proof.
  induction 1 as [|c l Hc _ IH]; simpl; [reflexivity|].
  rewrite Hc, IH. reflexivity.
Qed.

Lemma take_append (pre s : string) : Str.take (String.length pre) (pre +:+ s) = pre.
Proof. induction pre as [|c pre IH]; simpl; [destruct s; reflexivity | congruence]. Qed.

Lemma drop_append (pre s : string) : Str.drop (String.length pre) (pre +:+ s) = s.
Proof. induction pre as [|c pre IH]; simpl; [reflexivity | exact IH]. Qed.

(** Every group that [regroup] delivers has six bits. *)
Lemma regroup_six (bits acc : list bool) :
  (length acc < 6)%nat ->
  Forall (fun g => length g = 6%nat) (regroup acc bits).
Proof.
  revert acc. induction bits as [|b bits IH]; intros acc Hacc; simpl.
  - destruct acc as [|a acc]; constructor; [|constructor].
    rewrite length_app, repeat_length. lia.
  - destruct (Nat.eqb_spec (length acc) 5) as [H5|H5].
    + constructor; [rewrite length_app; simpl; lia|]. apply IH. simpl. lia.
    + apply IH. rewrite length_app. simpl. lia.
Qed.

(** The groups cover the bits, with fewer than six bits of padding. *)
Lemma regroup_count (bits acc : list bool) :
  (length acc < 6)%nat ->
  exists pad, (pad < 6)%nat /\
    (6 * length (regroup acc bits) = length acc + length bits + pad)%nat.
Proof.
  revert acc. induction bits as [|b bits IH]; intros acc Hacc; simpl.
  - destruct acc as [|a acc]; simpl.
    + exists 0%nat. lia.
    + exists (5 - length acc)%nat. simpl in Hacc. lia.
  - destruct (Nat.eqb_spec (length acc) 5) as [H5|H5].
    + destruct (IH [] ltac:(simpl; lia)) as [pad [Hpad Heq]].
      exists pad. simpl in *. lia.
    + destruct (IH (acc ++ [b])) as [pad [Hpad Heq]].
      { rewrite length_app. simpl. lia. }
      exists pad. rewrite length_app in Heq. simpl in *. lia.
Qed.

Lemma value_of_bits_from (g : list bool) (n : nat) :
  (fold_left (fun n (b : bool) => 2 * n + (if b then 1 else 0)) g n
   < (n + 1) * 2 ^ length g)%nat.
Proof.
  revert n. induction g as [|b g IH]; intros n; simpl; [lia|].
  specialize (IH (2 * n + (if b then 1 else 0))%nat).
  destruct b; simpl in *; nia.
Qed.

Lemma value_of_bits_bound (g : list bool) :
  length g = 6%nat -> (value_of_bits g < 64)%nat.
Proof.
  intros H. unfold value_of_bits.
  pose proof (value_of_bits_from g 0) as Hb. rewrite H in Hb.
  change (2 ^ 6)%nat with 64%nat in Hb. lia.
Qed.

(** Each of the 64 characters of the table is in the URL-safe class once
    [+] and [/] have been replaced. *)
Lemma base64_char_url_safe (v : nat) :
  (v < 64)%nat -> in_url_alphabet (url_safe_char (base64_char v)) = true.
Proof.
  intros H.
  assert (Hall : List.forallb (fun v => in_url_alphabet (url_safe_char (base64_char v)))
                   (seq 0 64) = true) by (vm_compute; reflexivity).
  rewrite forallb_forall in Hall. apply Hall, in_seq. lia.
Qed.

Lemma bits_of_uint64_length (value : Z) :
  length (concat (List.map bits_of_byte (bytes_of_uint64 value))) = 64%nat.
Proof. reflexivity. Qed.

Lemma generateRawID_length (value : Z) : String.length (generateRawID value) = 11%nat.
Proof.
  unfold generateRawID, base64_text, transform_width_6_8.
  rewrite map_length, of_list_length, !length_map.
  pose proof (bits_of_uint64_length value) as Hbits.
  set (bits := concat (List.map bits_of_byte (bytes_of_uint64 value))) in *.
  destruct (regroup_count bits []) as [pad [Hpad Heq]]; [simpl; lia|].
  rewrite Hbits in Heq. change (length (@nil bool)) with 0%nat in Heq. lia.
Qed.

Lemma generateRawID_alphabet (value : Z) :
  Str.forallb in_url_alphabet (generateRawID value) = true.
Proof.
  unfold generateRawID, base64_text, transform_width_6_8.
  apply forallb_map_of_list.
  rewrite List.map_map. apply Forall_map.
  eapply Forall_impl; [apply regroup_six; simpl; lia|].
  intros g Hg. simpl. apply base64_char_url_safe, value_of_bits_bound, Hg.
Qed.

Lemma bytes_are_octets (value : Z) : bytes_of_uint64 value = RFC4648.octets_of_uint64 value.
Proof.
  unfold bytes_of_uint64, RFC4648.octets_of_uint64.
  apply map_ext_in. intros i Hi.
  assert (0 <= i) by (cbn in Hi; lia).
  rewrite Z.shiftr_div_pow2 by lia.
  change 255 with (Z.ones 8). rewrite Z.land_ones by lia.
  rewrite Z.pow_mul_r by lia. reflexivity.
Qed.


(** An octet is the sum of its bits. *)
Lemma octet_bits (x : Z) :
  0 <= x < 256 ->
  x = 128 * Z.b2z (Z.testbit x 7) + 64 * Z.b2z (Z.testbit x 6)
      + 32 * Z.b2z (Z.testbit x 5) + 16 * Z.b2z (Z.testbit x 4)
      + 8 * Z.b2z (Z.testbit x 3) + 4 * Z.b2z (Z.testbit x 2)
      + 2 * Z.b2z (Z.testbit x 1) + Z.b2z (Z.testbit x 0).
Proof.
  intros Hx.
  assert (Hall : List.forallb (fun n =>
            let x := Z.of_nat n in
            x =? 128 * Z.b2z (Z.testbit x 7) + 64 * Z.b2z (Z.testbit x 6)
                 + 32 * Z.b2z (Z.testbit x 5) + 16 * Z.b2z (Z.testbit x 4)
                 + 8 * Z.b2z (Z.testbit x 3) + 4 * Z.b2z (Z.testbit x 2)
                 + 2 * Z.b2z (Z.testbit x 1) + Z.b2z (Z.testbit x 0))
            (seq 0 256) = true) by (vm_compute; reflexivity).
  rewrite forallb_forall in Hall.
  specialize (Hall (Z.to_nat x) ltac:(apply in_seq; lia)).
  cbv zeta in Hall. rewrite Z2Nat.id in Hall by lia. apply Z.eqb_eq, Hall.
Qed.

Lemma b2z_range (b : bool) : 0 <= Z.b2z b <= 1.
Proof. destruct b; cbn; lia. Qed.

Lemma value_of_bits_sum (g : list bool) (n : nat) :
  Z.of_nat (fold_left (fun n (b : bool) => (2 * n + (if b then 1 else 0))%nat) g n)
  = fold_left (fun n b => 2 * n + Z.b2z b) g (Z.of_nat n).
Proof.
  revert n. induction g as [|b g IH]; intros n; cbn [fold_left]; [reflexivity|].
  rewrite IH. f_equal. destruct b; cbn [Z.b2z]; lia.
Qed.

(** The characters of boost's table, once [+] and [/] have been
    replaced, are the digits of the URL-safe alphabet. *)
Lemma url_safe_char_digit (v : nat) :
  (v < 64)%nat -> url_safe_char (base64_char v) = RFC4648.digit (Z.of_nat v).
Proof.
  intros H.
  assert (Hall : List.forallb (fun v =>
            Ascii.eqb (url_safe_char (base64_char v)) (RFC4648.digit (Z.of_nat v)))
            (seq 0 64) = true) by (vm_compute; reflexivity).
  rewrite forallb_forall in Hall. apply Ascii.eqb_eq, Hall, in_seq. lia.
Qed.

Lemma group_digit (g : list bool) (v : Z) :
  length g = 6%nat ->
  fold_left (fun n b => 2 * n + Z.b2z b) g 0 = v ->
  url_safe_char (base64_char (value_of_bits g)) = RFC4648.digit v.
Proof.
  intros Hg <-.
  rewrite url_safe_char_digit by (apply IDGeneratorFacts.value_of_bits_bound, Hg).
  unfold value_of_bits. rewrite value_of_bits_sum. reflexivity.
Qed.

Ltac bits_of x :=
  let H := fresh "H" in
  pose proof (octet_bits x ltac:(assumption)) as H;
  repeat match type of H with
         | context [Z.b2z (Z.testbit x ?i)] =>
             let b := fresh "b" in
             pose proof (b2z_range (Z.testbit x i));
             set (b := Z.b2z (Z.testbit x i)) in *; clearbody b
         end.

Lemma render_octets (b0 b1 b2 b3 b4 b5 b6 b7 : Z) :
  0 <= b0 < 256 -> 0 <= b1 < 256 -> 0 <= b2 < 256 -> 0 <= b3 < 256 ->
  0 <= b4 < 256 -> 0 <= b5 < 256 -> 0 <= b6 < 256 -> 0 <= b7 < 256 ->
  Str.map url_safe_char (base64_text [b0; b1; b2; b3; b4; b5; b6; b7])
  = RFC4648.encode [b0; b1; b2; b3; b4; b5; b6; b7].
Proof.
  intros H0 H1 H2 H3 H4 H5 H6 H7.
  unfold base64_text, transform_width_6_8.
  cbv [List.map bits_of_byte concat app regroup length Nat.eqb repeat Nat.sub
       Str.of_list Str.map RFC4648.encode].
  repeat (f_equal; [apply group_digit; [reflexivity|]; cbn [fold_left Z.b2z]|]).
  all: cycle -1.
  1: f_equal; apply group_digit; [reflexivity|]; cbn [fold_left Z.b2z].
  all: bits_of b0; bits_of b1; bits_of b2; bits_of b3; bits_of b4; bits_of b5;
       bits_of b6; bits_of b7.
  all: Z.div_mod_to_equations; lia.
Qed.

(** C9. Whatever value of 64 bits the random source delivers: the raw ID
    is the text that RFC 4648 gives, in its URL- and filename-safe
    alphabet and without padding, for the eight octets of that value (as
    they lie in memory, the least significant first); whatever prefix is
    put in front of it, the result is that prefix followed by exactly
    eleven characters of that alphabet, so that it matches
    [^<prefix>[A-Za-z0-9_-]{11}$]; and so does the ID of every kind,
    which is the kind's prefix followed by the raw ID. *)
Theorem generated_ids_match_pattern (value : Z) :
  generateRawID value = RFC4648.encode (RFC4648.octets_of_uint64 value)
  /\ (forall pre : string, matches_id_pattern pre (pre +:+ generateRawID value) = true)
  /\ (forall k : Kind,
        generateID k value = prefix_of k +:+ generateRawID value
        /\ matches_id_pattern (prefix_of k) (generateID k value) = true).
Proof.
  assert (Hpattern : forall pre, matches_id_pattern pre (pre +:+ generateRawID value) = true).
  { intros pre. unfold matches_id_pattern.
    rewrite take_append, drop_append, String.eqb_refl.
    rewrite generateRawID_length, generateRawID_alphabet. reflexivity. }
  split; [|split; [exact Hpattern | intros k; split; [reflexivity | apply Hpattern]]].
  unfold generateRawID. rewrite bytes_are_octets.
  unfold RFC4648.octets_of_uint64. cbn [List.map].
  apply render_octets; apply Z.mod_pos_bound; lia.
Qed.

End IDGeneratorFacts.

(** ** Grants and revocations of the owning group *)

Module AccessFacts.
Import ClusterCommands Spec.

Lemma mayAdminister_inv st req cluster :
  mayAdminister st req cluster = true ->
  exists token user,
    url_param req "token" = Some token /\
    Store.findUserByToken st token = Some user /\
    negb (user_admin user)
    && negb (Store.userInGroup st (user_id user) (cluster_owningGroup cluster)) = false.
Proof.
  unfold mayAdminister, requester.
  destruct (url_param req "token") as [token|] eqn:Ht; [|discriminate].
  destruct (Store.findUserByToken st token) as [user|] eqn:Hu; [|discriminate].
  intros H. exists token, user. split; [reflexivity|]. split; [exact Hu|].
  destruct (user_admin user); [reflexivity|]. simpl in H |- *. rewrite H. reflexivity.
Qed.

(** C10. When a requester who may administer cluster C (an administrator
    or a member of the owning group) asks to grant access to C's own
    owning group, named by ID or by name, the answer is 200 and the world
    is left exactly as it was: no access record is written, the store and
    the trace are unchanged. *)
Theorem grant_to_owning_group_is_noop
    (req : Request) (clusterID groupID : string) (w : World)
    (cluster : Cluster) (group : Group) :
  Store.getCluster (store w) clusterID = Some cluster ->
  mayAdminister (store w) req cluster = true ->
  isWildcard groupID = false ->
  Store.getGroup (store w) groupID = Some group ->
  group_id group = cluster_owningGroup cluster ->
  Stmt.run (grantGroupClusterAccess req clusterID groupID) w
  = (Some (response 200 JNull), w).
Proof.
  intros Hc Hauth Hw Hg Hown.
  destruct (mayAdminister_inv _ _ _ Hauth) as (token & user & Ht & Hu & Hok).
  unfold grantGroupClusterAccess. unfold_stmt.
  rewrite Ht, Hu, Hc, Hok, Hw, Hg, Hown, String.eqb_refl. reflexivity.
Qed.

(** The same request on the deployment of [Example], by name. *)
Lemma grant_to_owning_group_witness :
  Stmt.run (grantGroupClusterAccess (Example.asAlice [] JNull) "c1" "owner")
           (Example.world Example.populated)
  = (Some (response 200 JNull), Example.world Example.populated).
Proof.
  apply (grant_to_owning_group_is_noop _ _ _ _ Example.c1 Example.owner);
    vm_compute; reflexivity.
Defined.

Lemma revoke_owning_group
    (req : Request) (clusterID groupID : string) (w : World)
    (cluster : Cluster) (group : Group) :
  Store.getCluster (store w) clusterID = Some cluster ->
  mayAdminister (store w) req cluster = true ->
  isWildcard groupID = false ->
  Store.getGroup (store w) groupID = Some group ->
  group_id group = cluster_owningGroup cluster ->
  Stmt.run (revokeGroupClusterAccess req clusterID groupID) w
  = (Some (response 400 (generateError "Cannot deny cluster access to owning Group")), w).
Proof.
  intros Hc Hauth Hw Hg Hown.
  destruct (mayAdminister_inv _ _ _ Hauth) as (token & user & Ht & Hu & Hok).
  unfold revokeGroupClusterAccess. unfold_stmt.
  rewrite Ht, Hu, Hc, Hok, Hw, Hg, Hown, String.eqb_refl. reflexivity.
Qed.

Lemma revoke_other_group
    (req : Request) (clusterID groupID : string) (w : World)
    (cluster : Cluster) (group : Group) :
  Store.getCluster (store w) clusterID = Some cluster ->
  mayAdminister (store w) req cluster = true ->
  isWildcard groupID = false ->
  Store.getGroup (store w) groupID = Some group ->
  group_id group <> cluster_owningGroup cluster ->
  online (store w) = true ->
  Stmt.run (revokeGroupClusterAccess req clusterID groupID) w
  = (Some (response 200 JNull),
     {| store := Store.with_access
                   (fun a => a ∖ {[ (cluster_id cluster, group_id group) ]}) (store w);
        now := now w; draws := draws w;
        trace := trace w ++ [Wrote (RemoveGroupFromCluster (group_id group)
                                                           (cluster_id cluster))] |}).
Proof.
  intros Hc Hauth Hw Hg Hown Hon.
  destruct (mayAdminister_inv _ _ _ Hauth) as (token & user & Ht & Hu & Hok).
  apply String.eqb_neq in Hown.
  unfold revokeGroupClusterAccess. unfold_stmt.
  rewrite Ht, Hu, Hc, Hok, Hw, Hg, Hown.
  cbv [Store.removeGroupFromCluster Store.write id]. rewrite Hon. reflexivity.
Qed.

(** A revocation of the owning group's access is refused whoever asks,
    before anything is written: 403 for a requester who may not
    administer the cluster, 400 for one who may. *)
Lemma revoke_owning_group_refused
    (req : Request) (clusterID groupID : string) (w : World)
    (cluster : Cluster) (group : Group) :
  Store.getCluster (store w) clusterID = Some cluster ->
  isWildcard groupID = false ->
  Store.getGroup (store w) groupID = Some group ->
  group_id group = cluster_owningGroup cluster ->
  Stmt.run (revokeGroupClusterAccess req clusterID groupID) w
  = (Some (if mayAdminister (store w) req cluster
           then response 400 (generateError "Cannot deny cluster access to owning Group")
           else notAuthorized), w).
Proof.
  intros Hc Hw Hg Hown.
  destruct (mayAdminister (store w) req cluster) eqn:Hauth.
  - eapply revoke_owning_group; eassumption.
  - unfold mayAdminister, requester in Hauth.
    unfold revokeGroupClusterAccess. unfold_stmt.
    destruct (url_param req "token") as [token|]; [|reflexivity].
    destruct (Store.findUserByToken (store w) token) as [user|]; [|reflexivity].
    rewrite Hc. apply orb_false_iff in Hauth as [-> ->]. reflexivity.
Qed.

(** C5. A request to revoke the access of cluster C's owning group,
    named by ID or by name, is refused and leaves the world, the access
    relation included, as it was: with 400 (BadRequest) when the
    requester may administer C, with 403 otherwise. A requester who may
    administer C and revokes the access of any other existing group, not
    the wildcard, is answered 200 on a store that accepts writes, and
    exactly that group's grant is removed. *)
Theorem revoke_owning_group_rejected
    (req : Request) (clusterID groupID : string) (w : World)
    (cluster : Cluster) (group : Group) :
  Store.getCluster (store w) clusterID = Some cluster ->
  isWildcard groupID = false ->
  Store.getGroup (store w) groupID = Some group ->
  (group_id group = cluster_owningGroup cluster ->
   Stmt.run (revokeGroupClusterAccess req clusterID groupID) w
   = (Some (if mayAdminister (store w) req cluster
            then response 400 (generateError "Cannot deny cluster access to owning Group")
            else notAuthorized), w))
  /\ (group_id group <> cluster_owningGroup cluster ->
      mayAdminister (store w) req cluster = true ->
      online (store w) = true ->
      exists w',
        Stmt.run (revokeGroupClusterAccess req clusterID groupID) w
        = (Some (response 200 JNull), w')
        /\ access (store w')
           = access (store w) ∖ {[ (cluster_id cluster, group_id group) ]}).
Proof.
  intros Hc Hw Hg. split.
  - intros Hown. eapply revoke_owning_group_refused; eassumption.
  - intros Hown Hauth Hon. eexists. split.
    + eapply revoke_other_group; eassumption.
    + reflexivity.
Qed.

(** On the deployment of [Example] where the guest group has been
    granted access: the owner's access cannot be revoked, the guest's
    can. *)
Lemma revoke_owning_group_witness :
  Stmt.run (revokeGroupClusterAccess (Example.asAlice [] JNull) "c1" "group_owner")
           (Example.world Example.shared)
  = (Some (response 400 (generateError "Cannot deny cluster access to owning Group")),
     Example.world Example.shared)
  /\ exists w',
       Stmt.run (revokeGroupClusterAccess (Example.asAlice [] JNull) "c1" "guest")
                (Example.world Example.shared)
       = (Some (response 200 JNull), w')
       /\ access (store w')
          = access Example.shared ∖ {[ ("cluster_1", "group_guest") ]}.
Proof.
  assert (Hc : Store.getCluster (store (Example.world Example.shared)) "c1"
               = Some Example.c1) by (vm_compute; reflexivity).
  split.
  - pose proof (proj1 (revoke_owning_group_rejected (Example.asAlice [] JNull) "c1"
                         "group_owner" (Example.world Example.shared) Example.c1
                         Example.owner Hc eq_refl
                         ltac:(vm_compute; reflexivity))
                  eq_refl) as H.
    rewrite H. vm_compute. reflexivity.
  - apply (proj2 (revoke_owning_group_rejected (Example.asAlice [] JNull) "c1" "guest"
                    (Example.world Example.shared) Example.c1 Example.guest
                    Hc eq_refl ltac:(vm_compute; reflexivity))).
    + discriminate.
    + vm_compute. reflexivity.
    + reflexivity.
Defined.

End AccessFacts.

(** ** Updates *)

Module UpdateFacts.
Import ClusterCommands Spec AccessFacts.

Lemma member_object key v x : Json.member key v = Some x -> Json.IsObject v = true.
Proof. destruct v; simpl; congruence. Qed.

Lemma member_not_null key v x : Json.member key v = Some x -> Json.IsNull v = false.
Proof. destruct v; simpl; congruence. Qed.

Lemma has_member key v x : Json.member key v = Some x -> Json.HasMember key v = true.
Proof. unfold Json.HasMember. intros ->. reflexivity. Qed.

Lemma configPath_after_update (st : PersistentStore) (c : Cluster) :
  Store.configPathForCluster (Store.with_clusters <[cluster_id c := c]> st) (cluster_id c)
  = cluster_config c.
Proof.
  unfold Store.configPathForCluster. cbn [clusters Store.with_clusters].
  rewrite lookup_insert_eq. reflexivity.
Qed.

(** An update that carries a kubeconfig: the record is written, then the
    probe runs on the new kubeconfig, and its failure does not undo the
    write. *)
Lemma update_kubeconfig_persisted_before_probe
    (env : Env) (req : Request) (clusterID : string) (w : World)
    (cluster : Cluster) (metadata : JSON) (newConfig : string) :
  Store.getCluster (store w) clusterID = Some cluster ->
  mayAdminister (store w) req cluster = true ->
  online (store w) = true ->
  Json.member "metadata" (body req) = Some metadata ->
  Json.member "kubeconfig" metadata = Some (JString newConfig) ->
  match Json.member "owningOrganization" metadata with
  | Some org => Json.IsString org
  | None => true
  end = true ->
  match Json.member "location" metadata with
  | Some location =>
      Json.IsArray location && bool_decide (is_Some (parseLocations (Json.GetArray location)))
  | None => true
  end = true ->
  let cid := cluster_id cluster in
  let probe := Kubectl newConfig internal.getServiceAccounts in
  exists (between : list Event) (r : Response) (w' : World),
    Stmt.run (updateCluster env req clusterID) w = (Some r, w') /\
    Forall (fun e => e = Wrote (SetLocationsForCluster cid)) between /\
    let answer := execute env (trace w ++ Wrote (UpdateCluster cid) :: between) probe in
    trace w' = trace w ++ Wrote (UpdateCluster cid) :: between ++ Ran probe
                 :: (if probeFails answer
                     then [LoggedError ("Error was: " +:+ error answer)] else []) /\
    cluster_config <$> clusters (store w') !! cid = Some newConfig /\
    r = if probeFails answer
        then response 400 (generateError
               "Unable to contact cluster with kubectl after configuration update")
        else response 200 JNull.
Proof.
  intros Hc Hauth Hon Hm Hk Horg Hloc cid probe.
  destruct (mayAdminister_inv _ _ _ Hauth) as (token & user & Ht & Hu & Hok).
  unfold updateCluster. unfold_stmt.
  rewrite Ht, Hu, Hc, Hok, (member_not_null _ _ _ Hm), (has_member _ _ _ Hm), Hm.
  change (default JNull (Some metadata)) with metadata.
  rewrite (member_object _ _ _ Hk), Hk. cbn [negb Json.IsString Json.GetString].
  destruct (Json.member "owningOrganization" metadata) as [org|];
    [rewrite Horg|];
    (destruct (Json.member "location" metadata) as [location|];
     [apply andb_true_iff in Hloc as [Harr Hparse];
      apply bool_decide_eq_true in Hparse as [ls Hls];
      rewrite Harr, Hls;
      exists [Wrote (SetLocationsForCluster cid)]
     |exists []]);
    cbv [Store.updateCluster Store.setLocationsForCluster Store.write];
    cbn [negb andb store online Store.with_clusters Store.with_locations]; rewrite Hon;
    cbn [negb andb store now draws trace clusters online cluster_id set_config
         set_owningOrganization app Store.with_clusters]; rewrite ?Hon;
    cbn [negb andb store now draws trace clusters online cluster_id set_config
         set_owningOrganization app];
    fold cid;
    rewrite <- ?app_assoc; cbn [app];
    unfold Store.configPathForCluster;
    cbn [clusters Store.with_clusters Store.with_locations];
    rewrite lookup_insert_eq; cbn [cluster_config set_config set_owningOrganization]; fold probe;
    match goal with
    | |- context [execute env ?h probe] => set (answer := execute env h probe)
    end;
    fold (probeFails answer);
    destruct (probeFails answer);
    (eexists; eexists; split; [reflexivity|]);
    cbn [trace store clusters Store.with_clusters Store.with_locations];
    rewrite <- ?app_assoc; cbn [app];
    (split; [repeat constructor|]);
    (split; [reflexivity|]);
    (split; [rewrite lookup_insert_eq; reflexivity | reflexivity]).
Qed.

(** An update whose metadata names none of the three fields. *)
Lemma update_without_changes_is_noop
    (env : Env) (req : Request) (clusterID : string) (w : World)
    (cluster : Cluster) (metadata : JSON) :
  Store.getCluster (store w) clusterID = Some cluster ->
  mayAdminister (store w) req cluster = true ->
  Json.member "metadata" (body req) = Some metadata ->
  Json.IsObject metadata = true ->
  Json.member "kubeconfig" metadata = None ->
  Json.member "owningOrganization" metadata = None ->
  Json.member "location" metadata = None ->
  Stmt.run (updateCluster env req clusterID) w = (Some (response 200 JNull), w).
Proof.
  intros Hc Hauth Hm Hobj Hk Horg Hloc.
  destruct (mayAdminister_inv _ _ _ Hauth) as (token & user & Ht & Hu & Hok).
  unfold updateCluster. unfold_stmt.
  rewrite Ht, Hu, Hc, Hok, (member_not_null _ _ _ Hm), (has_member _ _ _ Hm), Hm.
  change (default JNull (Some metadata)) with metadata.
  rewrite Hobj, Hk, Horg, Hloc. reflexivity.
Qed.

(** C7, as the code has it. For an update of cluster C by a requester who
    may administer it, on a store that accepts writes: when the metadata
    name a kubeconfig, be it the one that the store holds already or
    another one (and the other optional fields, if present, are
    well-typed), the trace of the request is the write of the record,
    then the write of the locations if any, then the ServiceAccount probe
    run with the submitted kubeconfig; the record in the store afterwards
    holds the submitted kubeconfig whether the probe succeeds or not; and
    the answer is 400 when the probe fails, 200 otherwise. Only when the
    metadata name none of kubeconfig, owningOrganization and location is
    the request answered 200 with the world unchanged, whatever the
    probe would answer. *)
Theorem update_persists_then_probes
    (env : Env) (req : Request) (clusterID : string) (w : World)
    (cluster : Cluster) (metadata : JSON) :
  Store.getCluster (store w) clusterID = Some cluster ->
  mayAdminister (store w) req cluster = true ->
  Json.member "metadata" (body req) = Some metadata ->
  let cid := cluster_id cluster in
  (forall newConfig : string,
     online (store w) = true ->
     Json.member "kubeconfig" metadata = Some (JString newConfig) ->
     match Json.member "owningOrganization" metadata with
     | Some org => Json.IsString org
     | None => true
     end = true ->
     match Json.member "location" metadata with
     | Some location =>
         Json.IsArray location
         && bool_decide (is_Some (parseLocations (Json.GetArray location)))
     | None => true
     end = true ->
     let probe := Kubectl newConfig internal.getServiceAccounts in
     exists (between : list Event) (r : Response) (w' : World),
       Stmt.run (updateCluster env req clusterID) w = (Some r, w') /\
       Forall (fun e => e = Wrote (SetLocationsForCluster cid)) between /\
       let answer := execute env (trace w ++ Wrote (UpdateCluster cid) :: between) probe in
       trace w' = trace w ++ Wrote (UpdateCluster cid) :: between ++ Ran probe
                    :: (if probeFails answer
                        then [LoggedError ("Error was: " +:+ error answer)] else []) /\
       cluster_config <$> clusters (store w') !! cid = Some newConfig /\
       r = if probeFails answer
           then response 400 (generateError
                  "Unable to contact cluster with kubectl after configuration update")
           else response 200 JNull)
  /\ (Json.IsObject metadata = true ->
      Json.member "kubeconfig" metadata = None ->
      Json.member "owningOrganization" metadata = None ->
      Json.member "location" metadata = None ->
      Stmt.run (updateCluster env req clusterID) w = (Some (response 200 JNull), w)).
Proof.
  intros Hc Hauth Hm cid. split.
  - intros newConfig Hon Hk Horg Hloc.
    exact (update_kubeconfig_persisted_before_probe env req clusterID w cluster metadata
             newConfig Hc Hauth Hon Hm Hk Horg Hloc).
  - intros Hobj Hk Horg Hloc.
    exact (update_without_changes_is_noop env req clusterID w cluster metadata
             Hc Hauth Hm Hobj Hk Horg Hloc).
Qed.

(** On the deployment of [Example]: a new kubeconfig with which the
    cluster cannot be reached is answered 400 and stays in the store; an
    update with empty metadata changes nothing. *)
Lemma update_persists_then_probes_witness :
  (exists (r : Response) (w' : World),
     Stmt.run (updateCluster Example.unreachableWithNew Example.reconfiguration "c1")
              (Example.world Example.populated) = (Some r, w')
     /\ code r = 400
     /\ cluster_config <$> clusters (store w') !! "cluster_1" = Some "kubeconfig-2"
     /\ trace w' = [Wrote (UpdateCluster "cluster_1");
                    Ran (Kubectl "kubeconfig-2" internal.getServiceAccounts);
                    LoggedError "Error was: connection refused"])
  /\ Stmt.run (updateCluster Example.healthy (Example.asAlice [] Example.noChanges) "c1")
              (Example.world Example.populated)
     = (Some (response 200 JNull), Example.world Example.populated).
Proof.
  split.
  - destruct (proj1 (update_persists_then_probes Example.unreachableWithNew
                       Example.reconfiguration "c1" (Example.world Example.populated)
                       Example.c1 _ eq_refl eq_refl eq_refl)
                "kubeconfig-2" eq_refl eq_refl eq_refl eq_refl)
      as (between & r & w' & Hrun & Hbetween & Htrace & Hconfig & Hr).
    exists r, w'. split; [exact Hrun|].
    assert (Hnone : between = []).
    { vm_compute in Hrun. inversion Hrun as [[Hr' Hw']]. rewrite <- Hw' in Htrace.
      destruct between as [|e between]; [reflexivity|].
      inversion Hbetween as [|? ? He _]. subst e. vm_compute in Htrace. discriminate. }
    subst between. split; [rewrite Hr; reflexivity|]. split; [exact Hconfig|].
    exact Htrace.
  - apply (proj2 (update_persists_then_probes Example.healthy
                    (Example.asAlice [] Example.noChanges) "c1"
                    (Example.world Example.populated) Example.c1 _
                    eq_refl eq_refl eq_refl));
      reflexivity.
Defined.

(** A request that changes nothing is not always a success that leaves
    the store alone: on the deployment of [Example], when the kubeconfig
    that the store holds for [c1] is submitted again while the cluster
    cannot be reached with it, the record is written (the store is the
    same afterwards), the probe is run, and the answer is 400. *)
Lemma unchanged_kubeconfig_is_written_and_probed :
  Json.member "kubeconfig" (default JNull (Json.member "metadata" (body Example.resubmission)))
  = Some (JString (cluster_config Example.c1))
  /\ exists w',
       Stmt.run (updateCluster Example.unreachableWithOld Example.resubmission "c1")
                (Example.world Example.populated)
       = (Some (response 400 (generateError
                  "Unable to contact cluster with kubectl after configuration update")), w')
       /\ store w' = Example.populated
       /\ trace w' = [Wrote (UpdateCluster "cluster_1");
                      Ran (Kubectl "kubeconfig-1" internal.getServiceAccounts);
                      LoggedError "Error was: connection refused"].
Proof.
  split; [reflexivity|]. eexists. split; [vm_compute; reflexivity|].
  split; vm_compute; reflexivity.
Qed.

End UpdateFacts.

(** ** Reachability and its cache *)

Module PingFacts.
Import ClusterCommands Spec.


Lemma requester_inv st req :
  is_Some (requester st req) ->
  exists token user,
    url_param req "token" = Some token /\ Store.findUserByToken st token = Some user.
Proof.
  unfold requester. intros [user Hu].
  destruct (url_param req "token") as [token|]; [|discriminate].
  exists token, user. split; [reflexivity | exact Hu].
Qed.

Lemma ping_fresh (env : Env) (req : Request) (clusterID : string) (w : World)
    (cluster : Cluster) :
  is_Some (requester (store w) req) ->
  Store.getCluster (store w) clusterID = Some cluster ->
  url_param req "cache" = None
  \/ Store.getCachedClusterReachability (store w) (now w) (cluster_id cluster) = None ->
  let probe := probeOf (store w) cluster in
  let reachable := negb (probeFails (execute env (trace w) probe)) in
  Stmt.run (pingCluster env req clusterID) w
  = (Some (pingResponse reachable),
     {| store := Store.cacheClusterReachability (store w) (now w)
                   (clusterCacheValidity env) (cluster_id cluster) reachable;
        now := now w; draws := draws w; trace := trace w ++ [Ran probe] |}).
Proof.
  intros Hreq Hc Hmiss probe reachable.
  destruct (requester_inv _ _ Hreq) as (token & user & Ht & Hu).
  unfold pingCluster. unfold_stmt. rewrite Ht, Hu, Hc.
  assert (Hcache :
    (if match url_param req "cache" with Some _ => true | None => false end
     then Store.getCachedClusterReachability (store w) (now w) (cluster_id cluster)
     else None) = None).
  { destruct Hmiss as [-> | ->]; [reflexivity|]. destruct (url_param req "cache"); reflexivity. }
  rewrite Hcache. unfold internal.pingCluster. unfold_stmt.
  fold (probeOf (store w) cluster). fold probe.
  fold (probeFails (execute env (trace w) probe)).
  subst reachable. destruct (probeFails (execute env (trace w) probe)); reflexivity.
Qed.

Lemma ping_cached (env : Env) (req : Request) (clusterID : string) (w : World)
    (cluster : Cluster) (v : string) (record : bool) :
  is_Some (requester (store w) req) ->
  Store.getCluster (store w) clusterID = Some cluster ->
  url_param req "cache" = Some v ->
  Store.getCachedClusterReachability (store w) (now w) (cluster_id cluster) = Some record ->
  Stmt.run (pingCluster env req clusterID) w = (Some (pingResponse record), w).
Proof.
  intros Hreq Hc Hcache Hhit.
  destruct (requester_inv _ _ Hreq) as (token & user & Ht & Hu).
  unfold pingCluster. unfold_stmt. rewrite Ht, Hu, Hc, Hcache, Hhit. reflexivity.
Qed.

Lemma cached_after_refresh st t ttl cID reachable t' :
  t' <= t + ttl ->
  Store.getCachedClusterReachability
    (Store.cacheClusterReachability st t ttl cID reachable) t' cID = Some reachable.
Proof.
  intros Ht. unfold Store.getCachedClusterReachability, Store.cacheClusterReachability.
  cbn [reachability Store.with_reachability]. rewrite lookup_insert_eq.
  destruct (Z.leb_spec t' (t + ttl)); [reflexivity | lia].
Qed.

(** C8. For an authenticated requester and a cluster C of the store: a
    ping without [cache] runs the ServiceAccount probe (one kubectl
    command, nothing else) and answers its outcome; a ping with [cache]
    at any later reading of the clock up to the time to live of the cache
    then answers the same value and leaves the world as it is, so no
    command is run; and a ping with [cache] that finds no usable entry
    runs the probe, answers its outcome and stores it with a fresh expiry
    time. *)
Theorem ping_refreshes_cache_then_serves_from_it
    (env : Env) (fresh cached : Request) (clusterID v : string) (w : World)
    (cluster : Cluster) :
  is_Some (requester (store w) fresh) ->
  is_Some (requester (store w) cached) ->
  Store.getCluster (store w) clusterID = Some cluster ->
  url_param fresh "cache" = None ->
  url_param cached "cache" = Some v ->
  let probe := probeOf (store w) cluster in
  let reachable := negb (probeFails (execute env (trace w) probe)) in
  let w1 := snd (Stmt.run (pingCluster env fresh clusterID) w) in
  (fst (Stmt.run (pingCluster env fresh clusterID) w) = Some (pingResponse reachable)
   /\ trace w1 = trace w ++ [Ran probe]
   /\ forall t : Z, t <= now w + clusterCacheValidity env ->
        Stmt.run (pingCluster env cached clusterID) (at_time t w1)
        = (Some (pingResponse reachable), at_time t w1))
  /\ (Store.getCachedClusterReachability (store w) (now w) (cluster_id cluster) = None ->
      let w2 := snd (Stmt.run (pingCluster env cached clusterID) w) in
      fst (Stmt.run (pingCluster env cached clusterID) w) = Some (pingResponse reachable)
      /\ trace w2 = trace w ++ [Ran probe]
      /\ reachability (store w2) !! cluster_id cluster
         = Some (reachable, now w + clusterCacheValidity env)).
Proof.
  intros Hfresh Hcached Hc Hno Hyes probe reachable w1. split.
  - subst w1. rewrite (ping_fresh env fresh clusterID w cluster Hfresh Hc (or_introl Hno)).
    cbn [fst snd trace]. split; [reflexivity|]. split; [reflexivity|].
    intros t Ht. eapply ping_cached; cbn [at_time store now]; eauto.
    apply cached_after_refresh, Ht.
  - intros Hmiss w2. subst w2.
    rewrite (ping_fresh env cached clusterID w cluster Hcached Hc (or_intror Hmiss)).
    cbn [fst snd trace store]. split; [reflexivity|]. split; [reflexivity|].
    unfold Store.cacheClusterReachability. cbn [reachability Store.with_reachability].
    apply lookup_insert_eq.
Qed.


(** On the deployment of [Example]: the cluster answers, the ping is
    cached, and a minute later the cached ping runs no command. *)
Lemma ping_cache_witness :
  fst (Stmt.run (pingCluster Example.healthy (Example.asAlice [] JNull) "c1")
         (Example.world Example.populated)) = Some (pingResponse true)
  /\ Stmt.run (pingCluster Example.healthy (Example.asAlice [("cache", "1")] JNull) "c1")
       (at_time 60000
          (snd (Stmt.run (pingCluster Example.healthy (Example.asAlice [] JNull) "c1")
                  (Example.world Example.populated))))
     = (Some (pingResponse true),
        at_time 60000
          (snd (Stmt.run (pingCluster Example.healthy (Example.asAlice [] JNull) "c1")
                  (Example.world Example.populated)))).
Proof.
  pose proof (ping_refreshes_cache_then_serves_from_it Example.healthy
                (Example.asAlice [] JNull) (Example.asAlice [("cache", "1")] JNull)
                "c1" "1" (Example.world Example.populated) Example.c1) as H.
  assert (H1 : is_Some (requester (store (Example.world Example.populated))
                          (Example.asAlice [] JNull)))
    by (vm_compute; eexists; reflexivity).
  assert (H2 : is_Some (requester (store (Example.world Example.populated))
                          (Example.asAlice [("cache", "1")] JNull)))
    by (vm_compute; eexists; reflexivity).
  assert (H3 : Store.getCluster (store (Example.world Example.populated)) "c1"
               = Some Example.c1)
    by (vm_compute; reflexivity).
  specialize (H H1 H2 H3 eq_refl eq_refl).
  destruct H as [(Hfirst & _ & Hcached) _].
  specialize (Hcached 60000). split.
  - rewrite Hfirst. vm_compute. reflexivity.
  - rewrite Hcached.
    + vm_compute. reflexivity.
    + vm_compute. discriminate.
Defined.

End PingFacts.

(** ** The consistency check *)

Module ConsistencyFacts.
Import ClusterConsistencyResult Spec.






End ConsistencyFacts.

(** ** The deletion cascade *)

Module CascadeFacts.
Import internal Spec Tasks.

Lemma events_app P l1 l2 : events P l1 -> events P l2 -> events P (l1 ++ l2).
Proof. unfold events. intros. apply Forall_app. auto. Qed.

Lemma events_nil P : events P [].
Proof. constructor. Qed.

Lemma markers_app l1 l2 : markers (l1 ++ l2) = markers l1 ++ markers l2.
Proof. apply List.filter_app. Qed.

Lemma commandsRun_app l1 l2 : commandsRun (l1 ++ l2) = commandsRun l1 ++ commandsRun l2.
Proof. apply omap_app. Qed.

(** *** The instance stage *)

Lemma deleteApplicationInstance_summary (env : Env) (i : ApplicationInstance)
    (force : bool) (w : World) :
  exists res w' evs,
    Stmt.run (deleteApplicationInstance env i force) w = (Some res, w')
    /\ trace w' = trace w ++ evs
    /\ events instanceEvent evs
    /\ commandsRun evs = [helmDelete (store w) i]
    /\ (store w' = store w /\ res <> ""
        \/ store w' = Store.with_instances (delete (instance_id i)) (store w)
           /\ res = "" /\ online (store w) = true)
    /\ (force = true -> online (store w) = true -> res = "").
Proof.
  unfold deleteApplicationInstance. unfold_stmt.
  destruct (failed _) eqn:Hfail; cbn [negb]; [destruct force; cbn [negb]|];
    cbv [Store.removeApplicationInstance Store.write];
    cbn [store]; try (destruct (online (store w)) eqn:Hon; cbn [negb]);
    (eexists; eexists; eexists; split; [reflexivity|]);
    cbn [trace store]; rewrite <- ?app_assoc;
    (split; [reflexivity|]);
    (split; [repeat constructor|]);
    (split; [reflexivity|]);
    (split; [first [left; split; [reflexivity | discriminate]
                   | right; split; [reflexivity | split; reflexivity ] ] |]);
    intros; congruence.
Qed.

Lemma instancesOnly_refl st : instancesOnly st st.
Proof. exists (instances st). destruct st; reflexivity. Qed.

Lemma instancesOnly_trans st1 st2 st3 :
  instancesOnly st1 st2 -> instancesOnly st2 st3 -> instancesOnly st1 st3.
Proof. intros [m1 ->] [m2 ->]. exists m2. reflexivity. Qed.

Lemma instancesOnly_online st st' : instancesOnly st st' -> online st' = online st.
Proof. intros [m ->]. reflexivity. Qed.

Lemma helmDelete_unchanged st st' (l : list ApplicationInstance) :
  instancesOnly st st' -> helmDelete st' <$> l = helmDelete st <$> l.
Proof. intros [m ->]. reflexivity. Qed.

Lemma deleteInstances_cons (env : Env) (cluster : Cluster) (force : bool)
    (i : ApplicationInstance) (l : list ApplicationInstance) (w : World) :
  deleteInstances env cluster force (i :: l) w
  = if String.eqb (instance_cluster i) (cluster_id cluster) then
      match Stmt.run (deleteApplicationInstance env i force) w with
      | (Some res, w1) =>
          if negb force && negb (String.eqb res "")
          then (Returned ("Failed to delete cluster due to failure deleting instance: "
                          +:+ res), w1)
          else deleteInstances env cluster force l w1
      | (None, w1) => (OutOfFuel, w1)
      end
    else deleteInstances env cluster force l w.
Proof.
  unfold deleteInstances. cbn [for_each]. unfold_stmt.
  destruct (String.eqb (instance_cluster i) (cluster_id cluster)); [|reflexivity].
  destruct (deleteApplicationInstance env i force w) as [[r|r|] w1]; try reflexivity.
  all: destruct (negb force && negb (String.eqb r "")); reflexivity.
Qed.

Lemma deleteInstances_summary (env : Env) (cluster : Cluster) (force : bool)
    (l : list ApplicationInstance) (w : World) :
  exists o w' evs attempted,
    deleteInstances env cluster force l w = (o, w')
    /\ trace w' = trace w ++ evs
    /\ events instanceEvent evs
    /\ instancesOnly (store w) (store w')
    /\ commandsRun evs = helmDelete (store w) <$> attempted
    /\ (o = Continue tt /\ attempted = instancesOn (cluster_id cluster) l
        \/ force = false
           /\ attempted `prefix_of` instancesOn (cluster_id cluster) l
           /\ exists msg, o = Returned msg /\ msg <> "")
    /\ (force = true -> online (store w) = true ->
        o = Continue tt
        /\ instances (store w')
           = fold_left (removeOnCluster (cluster_id cluster)) l (instances (store w))).
Proof.
  revert w. induction l as [|i l IH]; intros w.
  - exists (Continue tt), w, [], []. cbn. rewrite app_nil_r.
    repeat split; auto using events_nil, instancesOnly_refl.
  - rewrite deleteInstances_cons. cbn [fold_left]. unfold removeOnCluster at 2.
    unfold instancesOn. cbn [List.filter].
    destruct (String.eqb (instance_cluster i) (cluster_id cluster)).
    + destruct (deleteApplicationInstance_summary env i force w)
        as (res & w1 & evs1 & Hrun & Htr & Hev & Hcmd & Hst & Hforce).
      rewrite Hrun.
      assert (Hfr : instancesOnly (store w) (store w1)).
      { destruct Hst as [[-> _]|[-> _]]; [apply instancesOnly_refl | eexists; reflexivity]. }
      destruct (negb force && negb (String.eqb res "")) eqn:Hstop.
      * apply andb_true_iff in Hstop as [Hf Hres].
        apply negb_true_iff in Hf, Hres. apply String.eqb_neq in Hres.
        eexists; exists w1, evs1, [i].
        split; [reflexivity|]. split; [exact Htr|]. split; [exact Hev|].
        split; [exact Hfr|]. split; [exact Hcmd|].
        split; [right; split; [exact Hf|]; split;
                [apply prefix_cons, prefix_nil
                |eexists; split; [reflexivity|]; discriminate]|].
        intros ->; discriminate.
      * destruct (IH w1)
          as (o & w2 & evs2 & attempted & Hrun2 & Htr2 & Hev2 & Hst2 & Hcmd2 & Ho & Hforce2).
        exists o, w2, (evs1 ++ evs2), (i :: attempted). rewrite Hrun2.
        split; [reflexivity|].
        split; [rewrite Htr2, Htr, app_assoc; reflexivity|].
        split; [apply events_app; assumption|].
        split; [eapply instancesOnly_trans; eassumption|].
        split.
        { rewrite commandsRun_app, Hcmd, Hcmd2, (helmDelete_unchanged _ _ _ Hfr).
          reflexivity. }
        split.
        { destruct Ho as [[-> ->]|(Hf & Hpre & Hmsg)]; [left; split; reflexivity|].
          right. split; [exact Hf|]. split; [apply prefix_cons, Hpre | exact Hmsg]. }
        intros Hf Hon. specialize (Hforce Hf Hon). subst res.
        destruct Hst as [[_ Hne]|[Hst [_ _]]]; [congruence|].
        destruct Hforce2 as [Ho2 Hinst]; [exact Hf | rewrite Hst; exact Hon |].
        split; [exact Ho2|]. rewrite Hinst, Hst. reflexivity.
    + destruct (IH w)
        as (o & w2 & evs2 & attempted & Hrun2 & Htr2 & Hev2 & Hst2 & Hcmd2 & Ho & Hforce2).
      exists o, w2, evs2, attempted. rewrite Hrun2.
      split; [reflexivity|]. split; [exact Htr2|]. split; [exact Hev2|].
      split; [exact Hst2|]. split; [exact Hcmd2|]. split; [exact Ho|]. exact Hforce2.
Qed.

(** *** Stages of tasks *)

Section Passing.

Variable P : Event -> bool.
Variable Fr : PersistentStore -> PersistentStore -> Prop.
Hypothesis Fr_refl : forall st, Fr st st.
Hypothesis Fr_trans : forall a b c, Fr a b -> Fr b c -> Fr a c.

Lemma passes_refl w : passes P Fr [] w w.
Proof.
  exists []. rewrite app_nil_r. repeat split; auto using events_nil.
Qed.

Lemma passes_trans ms1 ms2 w1 w2 w3 :
  passes P Fr ms1 w1 w2 -> passes P Fr ms2 w2 w3 -> passes P Fr (ms1 ++ ms2) w1 w3.
Proof.
  intros (es1 & Ht1 & He1 & Hm1 & Hf1) (es2 & Ht2 & He2 & Hm2 & Hf2).
  exists (es1 ++ es2). rewrite Ht2, Ht1, app_assoc, markers_app, Hm1, Hm2.
  repeat split; eauto using events_app.
Qed.

Lemma passes_quiet ms w1 w2 w3 :
  passes P Fr ms w1 w2 -> passes P Fr [] w2 w3 -> passes P Fr ms w1 w3.
Proof. intros H1 H2. rewrite <- (app_nil_r ms). eapply passes_trans; eassumption. Qed.

Lemma passes_record e w : P e = true -> passes P Fr (markers [e]) w (record e w).
Proof.
  intros He. exists [e]. repeat split; auto. constructor; [exact He | constructor].
Qed.

Lemma reached_refl w : reached P Fr w w.
Proof. exists []. apply passes_refl. Qed.

Lemma reached_passes w0 w w' ms : reached P Fr w0 w -> passes P Fr ms w w' -> reached P Fr w0 w'.
Proof. intros [ms0 H0] H. exists (ms0 ++ ms). eapply passes_trans; eassumption. Qed.

End Passing.

Section Stage.

Context {A X : Type}.
Variable P : Event -> bool.
Variable Fr : PersistentStore -> PersistentStore -> Prop.
Hypothesis Fr_refl : forall st, Fr st st.
Hypothesis Fr_trans : forall a b c, Fr a b -> Fr b c -> Fr a c.

Variable w0 : World.
Variable J : X -> World -> Thread A -> Prop.
Variable E : X -> World -> Prop.
Variable task : X -> Task.
Variable body : X -> Thread A.

Hypothesis P_launched : forall x, P (Launched (task x)) = true.
Hypothesis P_joined : forall x, P (Joined (task x)) = true.
Hypothesis J_stable : forall x w w' ms t,
  reached P Fr w0 w -> passes P Fr ms w w' -> J x w t -> J x w' t.
Hypothesis J_step : forall x w effect next,
  reached P Fr w0 w -> J x w (Step effect next) ->
  passes P Fr [] w (effect w) /\ J x (effect w) (next w).
Hypothesis J_launch : forall x w,
  reached P Fr w0 w -> J x (record (Launched (task x)) w) (body x).
Hypothesis J_join : forall x w a,
  reached P Fr w0 w -> J x w (Finished a) -> E x (record (Joined (task x)) w).
Hypothesis E_stable : forall x w w' ms,
  reached P Fr w0 w -> passes P Fr ms w w' -> E x w -> E x w'.

Lemma held_stable xs ts w w' ms :
  reached P Fr w0 w -> passes P Fr ms w w' ->
  Forall2 (fun x t => J x w t) xs ts -> Forall2 (fun x t => J x w' t) xs ts.
Proof.
  intros Hw Hp H. eapply Forall2_impl; [exact H|]. intros x t. eapply J_stable; eassumption.
Qed.

Lemma step_at_passes xs ts w i :
  reached P Fr w0 w -> Forall2 (fun x t => J x w t) xs ts ->
  exists ts' w',
    Thread.step_at i ts w = (ts', w')
    /\ passes P Fr [] w w' /\ Forall2 (fun x t => J x w' t) xs ts'.
Proof.
  intros Hw H. revert i. induction H as [|x t xs ts Hx Hxs IH]; intros i.
  - exists [], w. split; [destruct i; reflexivity|]. split; [apply passes_refl, Fr_refl|].
    constructor.
  - destruct i as [|i].
    + destruct t as [a|effect next].
      * exists (Finished a :: ts), w. split; [reflexivity|].
        split; [apply passes_refl, Fr_refl|]. constructor; assumption.
      * destruct (J_step x w effect next Hw Hx) as [Hp Hn].
        exists (next w :: ts), (effect w). split; [reflexivity|]. split; [exact Hp|].
        constructor; [exact Hn|]. eapply held_stable; eassumption.
    + destruct (IH i) as (ts' & w' & Heq & Hp & Hts).
      exists (t :: ts'), w'. cbn [Thread.step_at]. rewrite Heq.
      split; [reflexivity|]. split; [exact Hp|].
      constructor; [|exact Hts]. eapply J_stable; eassumption.
Qed.

Lemma interleave_passes picks : forall xs ts w,
  reached P Fr w0 w -> Forall2 (fun x t => J x w t) xs ts ->
  exists ts' w',
    Thread.interleave picks ts w = (ts', w')
    /\ passes P Fr [] w w' /\ Forall2 (fun x t => J x w' t) xs ts'.
Proof.
  induction picks as [|i picks IH]; intros xs ts w Hw H.
  - exists ts, w. split; [reflexivity|]. split; [apply passes_refl, Fr_refl | exact H].
  - destruct (step_at_passes xs ts w i Hw H) as (ts1 & w1 & Heq1 & Hp1 & H1).
    destruct (IH xs ts1 w1 (reached_passes P Fr Fr_trans _ _ _ _ Hw Hp1) H1)
      as (ts2 & w2 & Heq2 & Hp2 & H2).
    exists ts2, w2. cbn [Thread.interleave]. rewrite Heq1, Heq2.
    split; [reflexivity|]. split; [|exact H2].
    eapply passes_quiet; eassumption.
Qed.

Lemma finish_passes x t : forall w,
  reached P Fr w0 w -> J x w t ->
  exists a w',
    Thread.finish t w = (a, w') /\ passes P Fr [] w w' /\ J x w' (Finished a).
Proof.
  induction t as [a|effect next IH]; intros w Hw Ht.
  - exists a, w. split; [reflexivity|]. split; [apply passes_refl, Fr_refl | exact Ht].
  - destruct (J_step x w effect next Hw Ht) as [Hp Hn].
    destruct (IH w (effect w) (reached_passes P Fr Fr_trans _ _ _ _ Hw Hp) Hn)
      as (a & w' & Heq & Hp' & Ha).
    exists a, w'. cbn [Thread.finish]. rewrite Heq.
    split; [reflexivity|]. split; [|exact Ha]. eapply passes_quiet; eassumption.
Qed.

Lemma yield_passes {R} plan (pool : Pool A) xs w :
  reached P Fr w0 w -> Forall2 (fun x t => J x w t) xs (tasks pool) ->
  exists pool' w',
    yield (R := R) plan pool w = (Continue pool', w')
    /\ passes P Fr [] w w' /\ Forall2 (fun x t => J x w' t) xs (tasks pool').
Proof.
  intros Hw H.
  destruct (interleave_passes (plan (yields pool)) xs (tasks pool) w Hw H)
    as (ts' & w' & Heq & Hp & H').
  unfold yield. rewrite Heq. eexists; exists w'. split; [reflexivity|].
  split; [exact Hp | exact H'].
Qed.

Lemma launch_passes {R} plan x (pool : Pool A) xs w :
  reached P Fr w0 w -> Forall2 (fun x t => J x w t) xs (tasks pool) ->
  exists pool' w',
    launch (R := R) plan (task x) (body x) pool w = (Continue pool', w')
    /\ passes P Fr [Launched (task x)] w w'
    /\ Forall2 (fun x t => J x w' t) (xs ++ [x]) (tasks pool').
Proof.
  intros Hw H.
  destruct (yield_passes (R := R) plan pool xs w Hw H) as (pool1 & w1 & Heq & Hp & H1).
  pose proof (reached_passes P Fr Fr_trans _ _ _ _ Hw Hp) as Hw1.
  pose proof (passes_record P Fr Fr_refl (Launched (task x)) w1 (P_launched x)) as Hr.
  unfold launch. unfold_stmt. rewrite Heq.
  eexists; exists (record (Launched (task x)) w1). split; [reflexivity|].
  split; [exact (passes_trans P Fr Fr_trans _ _ _ _ _ Hp Hr)|].
  cbn [tasks]. apply Forall2_app.
  - exact (held_stable _ _ _ _ _ Hw1 Hr H1).
  - constructor; [|constructor]. apply J_launch, Hw1.
Qed.

Lemma launchAll_passes {R} plan l : forall (pool : Pool A) xs w,
  reached P Fr w0 w -> Forall2 (fun x t => J x w t) xs (tasks pool) ->
  exists pool' w',
    launchAll (R := R) plan task body l pool w = (Continue pool', w')
    /\ passes P Fr ((fun x => Launched (task x)) <$> l) w w'
    /\ Forall2 (fun x t => J x w' t) (xs ++ l) (tasks pool').
Proof.
  induction l as [|x l IH]; intros pool xs w Hw H.
  - exists pool, w. split; [reflexivity|]. split; [apply passes_refl, Fr_refl|].
    rewrite app_nil_r. exact H.
  - destruct (launch_passes (R := R) plan x pool xs w Hw H) as (pool1 & w1 & Heq & Hp & H1).
    destruct (IH pool1 (xs ++ [x]) w1 (reached_passes P Fr Fr_trans _ _ _ _ Hw Hp) H1)
      as (pool2 & w2 & Heq2 & Hp2 & H2).
    exists pool2, w2. cbn [launchAll]. unfold_stmt. rewrite Heq, Heq2.
    split; [reflexivity|].
    split; [exact (passes_trans P Fr Fr_trans _ _ _ _ _ Hp Hp2)|].
    rewrite <- app_assoc in H2. exact H2.
Qed.

Lemma join_passes {R} plan x (pool : Pool A) xs w :
  reached P Fr w0 w -> Forall2 (fun x t => J x w t) (x :: xs) (tasks pool) ->
  exists a pool' w',
    join (R := R) plan (task x) pool w = (Continue (Some a, pool'), w')
    /\ passes P Fr [Joined (task x)] w w'
    /\ Forall2 (fun x t => J x w' t) xs (tasks pool')
    /\ E x w'.
Proof.
  intros Hw H.
  destruct (yield_passes (R := R) plan pool (x :: xs) w Hw H)
    as (pool1 & w1 & Heq1 & Hp1 & H1).
  pose proof (reached_passes P Fr Fr_trans _ _ _ _ Hw Hp1) as Hw1.
  destruct (tasks pool1) as [|t rest] eqn:Htasks; inversion H1 as [|? ? ? ? Ht Hrest]; subst.
  destruct (finish_passes x t w1 Hw1 Ht) as (a & w2 & Heq2 & Hp2 & Ha).
  pose proof (reached_passes P Fr Fr_trans _ _ _ _ Hw1 Hp2) as Hw2.
  assert (Hrest2 : Forall2 (fun x t => J x w2 t) xs
                     (tasks {| tasks := rest; yields := yields pool1 |})).
  { exact (held_stable _ _ _ _ _ Hw1 Hp2 Hrest). }
  destruct (yield_passes (R := R) plan _ xs w2 Hw2 Hrest2)
    as (pool3 & w3 & Heq3 & Hp3 & H3).
  pose proof (reached_passes P Fr Fr_trans _ _ _ _ Hw2 Hp3) as Hw3.
  pose proof (passes_record P Fr Fr_refl (Joined (task x)) w3 (P_joined x)) as Hr.
  exists a, pool3, (record (Joined (task x)) w3).
  unfold join. unfold_stmt. rewrite Heq1, Htasks, Heq2, Heq3.
  split; [reflexivity|].
  split.
  { change [Joined (task x)] with ([] ++ markers [Joined (task x)]).
    eapply passes_trans; [exact Fr_trans| |exact Hr].
    eapply passes_quiet; [exact Fr_trans| |exact Hp3].
    eapply passes_quiet; eassumption. }
  split; [exact (held_stable _ _ _ _ _ Hw3 Hr H3)|].
  apply (J_join x w3 a Hw3). exact (J_stable _ _ _ _ _ Hw2 Hp3 Ha).
Qed.


Lemma joinAll_passes {R} plan xs : forall (pool : Pool A) w,
  reached P Fr w0 w -> Forall2 (fun x t => J x w t) xs (tasks pool) ->
  exists w',
    joinAll (R := R) plan (task <$> xs) pool w = (Continue tt, w')
    /\ passes P Fr ((fun x => Joined (task x)) <$> xs) w w'
    /\ Forall (fun x => E x w') xs.
Proof.
  induction xs as [|x xs IH]; intros pool w Hw H.
  - exists w. split; [reflexivity|]. split; [apply passes_refl, Fr_refl | constructor].
  - destruct (join_passes (R := R) plan x pool xs w Hw H)
      as (a & pool1 & w1 & Heq & Hp & H1 & Hx).
    pose proof (reached_passes P Fr Fr_trans _ _ _ _ Hw Hp) as Hw1.
    destruct (IH pool1 w1 Hw1 H1) as (w2 & Heq2 & Hp2 & H2).
    exists w2. cbn [joinAll fmap list_fmap]. unfold_stmt. rewrite Heq, Heq2.
    split; [reflexivity|].
    split; [exact (passes_trans P Fr Fr_trans _ _ _ _ _ Hp Hp2)|].
    constructor; [exact (E_stable _ _ _ _ Hw1 Hp2 Hx) | exact H2].
Qed.

End Stage.

(** *** The secret stage *)

Lemma secretsOnly_refl st : secretsOnly st st.
Proof. exists (secrets st). split; [destruct st; reflexivity | reflexivity]. Qed.

Lemma secretsOnly_trans st1 st2 st3 :
  secretsOnly st1 st2 -> secretsOnly st2 st3 -> secretsOnly st1 st3.
Proof.
  intros (m1 & -> & H1) (m2 & -> & H2). exists m2. split; [reflexivity|].
  cbn [secrets Store.with_secrets] in H2. etrans; eassumption.
Qed.

Lemma secretsOnly_gone st st' k :
  secretsOnly st st' -> secrets st !! k = None -> secrets st' !! k = None.
Proof.
  intros (m & -> & Hm) Hk. cbn [secrets Store.with_secrets].
  eapply lookup_weaken_None; eassumption.
Qed.

Lemma sublist_singleton {T} (x : T) (l : list T) : In x l -> sublist [x] l.
Proof.
  intros H. apply in_split in H as (l1 & l2 & ->).
  apply (sublist_inserts_l l1), sublist_skip, sublist_nil_l.
Qed.

Lemma sublist_snoc {T} (k l : list T) (x : T) : sublist k l -> sublist (k ++ [x]) (l ++ [x]).
Proof. intros H. apply sublist_app; [exact H | reflexivity]. Qed.

Ltac thread_steps :=
  cbn [mbind Thread_bind mret Thread_ret Thread.bind Thread.read Thread.write Thread.exec
       Thread.log_error Thread.kubectl Thread.atomic fst snd].

(** A step that adds one event, or none, to the trace. *)
Ltac one_event refl :=
  first [ apply passes_refl, refl
        | eexists; split; [reflexivity|];
          split; [repeat constructor|]; split; [reflexivity | apply refl] ].

Section Secrets.

Variable env : Env.
Variable w0 : World.

Lemma secretStage_store w : Stages.inSecretStage w0 w -> secretsOnly (store w0) (store w).
Proof. intros (ms & es & _ & _ & _ & H). exact H. Qed.

Lemma secretStage_trace w : Stages.inSecretStage w0 w -> exists es, trace w = trace w0 ++ es.
Proof. intros (ms & es & H & _). exists es. exact H. Qed.

Lemma removeSecret_confined (id : string) (rest : bool -> Thread string) :
  (forall ok, Confined (Stages.inSecretStage w0) Stages.secretStep (rest ok)) ->
  Confined (Stages.inSecretStage w0) Stages.secretStep
    (Thread.write (fun st => Store.removeSecret st id) (RemoveSecret id) ≫= rest).
Proof.
  intros Hrest. thread_steps. unfold Store.removeSecret, Store.write.
  apply confined_step; intros w Hw; [|apply Hrest].
  destruct (online (store w)); cbn [snd].
  - eexists. split; [reflexivity|]. split; [repeat constructor|]. split; [reflexivity|].
    eexists. split; [reflexivity|]. apply delete_subseteq.
  - exists []. split; [symmetry; apply app_nil_r|]. split; [constructor|].
    split; [reflexivity | apply secretsOnly_refl].
Qed.

Lemma deleteSecret_confined s :
  Confined (Stages.inSecretStage w0) Stages.secretStep (deleteSecret env s true).
Proof.
  pose (rest := fun removed : bool =>
          if negb removed then
            Thread.log_error ("Failed to delete " +:+ secret_id s
                              +:+ " from persistent store") ;;
            mret "Failed to delete secret from database"
          else mret "").
  assert (Hremove : forall ok, Confined (Stages.inSecretStage w0) Stages.secretStep (rest ok)).
  { intros [|]; unfold rest; cbn [negb]; thread_steps; [apply confined_finished|].
    apply confined_step; intros w Hw; [|apply confined_finished].
    one_event secretsOnly_refl. }
  unfold deleteSecret.
  apply confined_step; intros w Hw; [one_event secretsOnly_refl|].
  apply confined_step; intros w1 Hw1; [one_event secretsOnly_refl|].
  apply confined_step; intros w2 Hw2; [one_event secretsOnly_refl|].
  thread_steps. destruct (failed _); cbn [negb].
  - apply confined_step; intros w3 Hw3; [one_event secretsOnly_refl|].
    exact (removeSecret_confined (secret_id s) rest Hremove).
  - exact (removeSecret_confined (secret_id s) rest Hremove).
Qed.


Lemma deleteSecret_runs s :
  Owes (Stages.inSecretStage w0) (Stages.runsSecretDelete env w0 s) (deleteSecret env s true).
Proof.
  unfold deleteSecret. thread_steps.
  apply owes_later; intros w Hw. apply owes_later; intros w1 Hw1.
  apply owes_now; intros w2 Hw2. unfold Stages.runsSecretDelete. cbn [trace].
  destruct (secretStage_store w Hw) as (m & Hst & _).
  destruct (secretStage_store w1 Hw1) as (m1 & Hst1 & _).
  rewrite Hst, Hst1. reflexivity.
Qed.

Lemma deleteSecret_removes s :
  Owes (Stages.inSecretStage w0) (Stages.removesSecret s) (deleteSecret env s true).
Proof.
  pose (rest := fun removed : bool =>
          if negb removed then
            Thread.log_error ("Failed to delete " +:+ secret_id s
                              +:+ " from persistent store") ;;
            mret "Failed to delete secret from database"
          else mret "").
  assert (Hremove : Owes (Stages.inSecretStage w0) (Stages.removesSecret s)
                      (Thread.write (fun st => Store.removeSecret st (secret_id s))
                         (RemoveSecret (secret_id s)) ≫= rest)).
  { thread_steps. apply owes_now; intros w Hw Hon.
    unfold Store.removeSecret, Store.write. rewrite Hon. cbn. apply lookup_delete_eq. }
  unfold deleteSecret.
  apply owes_later; intros w Hw. apply owes_later; intros w1 Hw1.
  apply owes_later; intros w2 Hw2.
  thread_steps. destruct (failed _); cbn [negb].
  - apply owes_later; intros w3 Hw3. exact Hremove.
  - exact Hremove.
Qed.

Lemma secretPending_stable s w w' ms t :
  Stages.inSecretStage w0 w -> passes secretEvent secretsOnly ms w w' ->
  Stages.secretPending env w0 s w t -> Stages.secretPending env w0 s w' t.
Proof.
  intros Hw (es' & Htr & _ & _ & Hst) (Hc & (es & Hes & Hrun) & Hrem).
  split; [exact Hc|]. split.
  - exists (es ++ es'). split; [rewrite Htr, Hes, app_assoc; reflexivity|].
    destruct Hrun as [[Hl Ho]|Hs].
    + left. split; [apply in_app_iff; auto | exact Ho].
    + right. apply sublist_inserts_r, Hs.
  - destruct Hrem as [Ho|Hgone]; [left; exact Ho|].
    right. intros Hon. eapply secretsOnly_gone; [exact Hst | apply Hgone, Hon].
Qed.

Lemma secretPending_step s w effect next :
  Stages.inSecretStage w0 w -> Stages.secretPending env w0 s w (Step effect next) ->
  passes secretEvent secretsOnly [] w (effect w)
  /\ Stages.secretPending env w0 s (effect w) (next w).
Proof.
  intros Hw (Hc & (es & Hes & Hrun) & Hrem).
  inversion Hc as [|? ? Hstep Hnext]; subst.
  pose proof (Hstep w Hw) as Hp. split; [exact Hp|].
  destruct Hp as (es' & Htr & _ & _ & Hst).
  split; [apply Hnext, Hw|]. split.
  - exists (es ++ es'). split; [rewrite Htr, Hes, app_assoc; reflexivity|].
    destruct Hrun as [[Hl Ho]|Hs].
    + inversion Ho as [? ? Hnow|? ? Hlater]; subst.
      * right. specialize (Hnow w Hw). unfold Stages.runsSecretDelete in Hnow.
        rewrite Htr in Hnow. apply app_inv_head in Hnow. subst es'.
        apply (sublist_snoc [_]), sublist_singleton, Hl.
      * left. split; [apply in_app_iff; auto | apply Hlater, Hw].
    + right. apply sublist_inserts_r, Hs.
  - destruct Hrem as [Ho|Hgone].
    + inversion Ho as [? ? Hnow|? ? Hlater]; subst.
      * right. intros Hon. apply (Hnow w Hw).
        destruct (secretStage_store w Hw) as (m & -> & _). exact Hon.
      * left. apply Hlater, Hw.
    + right. intros Hon. eapply secretsOnly_gone; [exact Hst | apply Hgone, Hon].
Qed.

Lemma secretPending_launch s w :
  Stages.inSecretStage w0 w ->
  Stages.secretPending env w0 s (record (Launched (secretTask s)) w)
    (deleteSecret env s true).
Proof.
  intros Hw. destruct (secretStage_trace w Hw) as [es Hes].
  split; [apply deleteSecret_confined|]. split.
  - exists (es ++ [Launched (secretTask s)]).
    split; [cbn [record trace]; rewrite Hes, app_assoc; reflexivity|].
    left. split; [apply in_app_iff; right; left; reflexivity | apply deleteSecret_runs].
  - left. apply deleteSecret_removes.
Qed.

Lemma secretPending_join s w a :
  Stages.inSecretStage w0 w -> Stages.secretPending env w0 s w (Finished a) ->
  Stages.secretDone env w0 s (record (Joined (secretTask s)) w).
Proof.
  intros Hw (_ & (es & Hes & Hrun) & Hrem). split.
  - exists (es ++ [Joined (secretTask s)]).
    split; [cbn [record trace]; rewrite Hes, app_assoc; reflexivity|].
    destruct Hrun as [[_ Ho]|Hs]; [inversion Ho|].
    apply (sublist_snoc [_; _]), Hs.
  - destruct Hrem as [Ho|Hgone]; [inversion Ho | exact Hgone].
Qed.

Lemma secretDone_stable s w w' ms :
  Stages.inSecretStage w0 w -> passes secretEvent secretsOnly ms w w' ->
  Stages.secretDone env w0 s w -> Stages.secretDone env w0 s w'.
Proof.
  intros Hw (es' & Htr & _ & _ & Hst) ((es & Hes & Hdone) & Hgone). split.
  - exists (es ++ es'). split; [rewrite Htr, Hes, app_assoc; reflexivity|].
    apply sublist_inserts_r, Hdone.
  - intros Hon. eapply secretsOnly_gone; [exact Hst | apply Hgone, Hon].
Qed.

Lemma secretStage_launch plan l :
  exists pool w1,
    launchAll (R := string) plan secretTask (fun s => deleteSecret env s true) l
      {| tasks := []; yields := 0 |} w0 = (Continue pool, w1)
    /\ passes secretEvent secretsOnly (launchedSecrets l) w0 w1
    /\ Forall2 (fun s t => Stages.secretPending env w0 s w1 t) l (tasks pool).
Proof.
  apply (launchAll_passes secretEvent secretsOnly secretsOnly_refl secretsOnly_trans w0
           (Stages.secretPending env w0) secretTask (fun s => deleteSecret env s true)
           (fun _ => eq_refl) secretPending_stable secretPending_step secretPending_launch
           plan l {| tasks := []; yields := 0 |} [] w0).
  - apply reached_refl, secretsOnly_refl.
  - constructor.
Qed.

Lemma secretStage_join plan s pool xs w :
  Stages.inSecretStage w0 w ->
  Forall2 (fun s t => Stages.secretPending env w0 s w t) (s :: xs) (tasks pool) ->
  exists a pool' w',
    join (R := string) plan (secretTask s) pool w = (Continue (Some a, pool'), w')
    /\ passes secretEvent secretsOnly [Joined (secretTask s)] w w'
    /\ Forall2 (fun s t => Stages.secretPending env w0 s w' t) xs (tasks pool')
    /\ Stages.secretDone env w0 s w'.
Proof.
  apply (join_passes secretEvent secretsOnly secretsOnly_refl secretsOnly_trans w0
           (Stages.secretPending env w0) (Stages.secretDone env w0) secretTask
           (fun _ => eq_refl) secretPending_stable secretPending_step secretPending_join).
Qed.

Lemma secretStage_joinAll plan xs pool w :
  Stages.inSecretStage w0 w ->
  Forall2 (fun s t => Stages.secretPending env w0 s w t) xs (tasks pool) ->
  exists w',
    joinAll (R := string) plan (secretTask <$> xs) pool w = (Continue tt, w')
    /\ passes secretEvent secretsOnly (joinedSecrets xs) w w'
    /\ Forall (fun s => Stages.secretDone env w0 s w') xs.
Proof.
  apply (joinAll_passes secretEvent secretsOnly secretsOnly_refl secretsOnly_trans w0
           (Stages.secretPending env w0) (Stages.secretDone env w0) secretTask
           (fun _ => eq_refl) secretPending_stable secretPending_step secretPending_join
           secretDone_stable).
Qed.

Lemma awaitSecretDeletions_passes plan force xs : forall pool w,
  Stages.inSecretStage w0 w ->
  Forall2 (fun s t => Stages.secretPending env w0 s w t) xs (tasks pool) ->
  exists o w',
    awaitSecretDeletions plan force xs pool w = (o, w')
    /\ passes secretEvent secretsOnly (joinedSecrets xs) w w'
    /\ Forall (fun s => Stages.secretDone env w0 s w') xs
    /\ (o = Continue tt \/ force = false /\ exists msg, o = Returned msg /\ msg <> "").
Proof.
  induction xs as [|s xs IH]; intros pool w Hw H.
  - exists (Continue tt), w. split; [reflexivity|].
    split; [apply passes_refl, secretsOnly_refl|]. split; [constructor | left; reflexivity].
  - destruct (secretStage_join plan s pool xs w Hw H) as (a & pool1 & w1 & Heq & Hp & H1 & Hs).
    pose proof (reached_passes _ _ secretsOnly_trans _ _ _ _ Hw Hp) as Hw1.
    cbn [awaitSecretDeletions]. unfold_stmt. rewrite Heq.
    destruct (negb force && negb (String.eqb a "")) eqn:Hstop.
    + apply andb_true_iff in Hstop as [Hf _]. apply negb_true_iff in Hf.
      destruct (secretStage_joinAll plan xs pool1 w1 Hw1 H1) as (w2 & Heq2 & Hp2 & H2).
      rewrite Heq2. eexists; exists w2. split; [reflexivity|].
      split; [exact (passes_trans _ _ secretsOnly_trans _ _ _ _ _ Hp Hp2)|].
      split; [constructor; [exact (secretDone_stable _ _ _ _ Hw1 Hp2 Hs) | exact H2]|].
      right. split; [exact Hf|]. eexists. split; [reflexivity | discriminate].
    + destruct (IH pool1 w1 Hw1 H1) as (o & w2 & Heq2 & Hp2 & H2 & Ho).
      rewrite Heq2. exists o, w2. split; [reflexivity|].
      split; [exact (passes_trans _ _ secretsOnly_trans _ _ _ _ _ Hp Hp2)|].
      split; [constructor; [exact (secretDone_stable _ _ _ _ Hw1 Hp2 Hs) | exact H2]|].
      exact Ho.
Qed.

End Secrets.

(** What the secret stage comes to, whatever the schedule. *)
Lemma secretStage_summary (env : Env) (plan : nat -> list nat) (force : bool)
    (l : list Secret) (w0 : World) :
  exists pool w1 o w' t2,
    launchAll (R := string) plan secretTask (fun s => deleteSecret env s true) l
      {| tasks := []; yields := 0 |} w0 = (Continue pool, w1)
    /\ awaitSecretDeletions plan force l pool w1 = (o, w')
    /\ trace w' = trace w0 ++ t2
    /\ events secretEvent t2
    /\ markers t2 = launchedSecrets l ++ joinedSecrets l
    /\ secretsOnly (store w0) (store w')
    /\ Forall (fun s => secretDeleted env (store w0) s t2) l
    /\ (online (store w0) = true ->
        Forall (fun s => secrets (store w') !! secret_id s = None) l)
    /\ (o = Continue tt \/ force = false /\ exists msg, o = Returned msg /\ msg <> "").
Proof.
  destruct (secretStage_launch env w0 plan l) as (pool & w1 & Heq1 & Hp1 & H1).
  pose proof (reached_passes _ _ secretsOnly_trans _ _ _ _
                (reached_refl _ _ secretsOnly_refl w0) Hp1) as Hw1.
  destruct (awaitSecretDeletions_passes env w0 plan force l pool w1 Hw1 H1)
    as (o & w' & Heq2 & Hp2 & H2 & Ho).
  destruct (passes_trans _ _ secretsOnly_trans _ _ _ _ _ Hp1 Hp2)
    as (t2 & Htr & Hev & Hm & Hst).
  exists pool, w1, o, w', t2. repeat (split; [assumption|]).
  split; [|split; [|exact Ho]].
  - eapply Forall_impl; [exact H2|]. intros s [(es & Hes & Hd) _].
    rewrite Htr in Hes. apply app_inv_head in Hes. subst es. exact Hd.
  - intros Hon. eapply Forall_impl; [exact H2|]. intros s [_ Hgone]. apply Hgone, Hon.
Qed.

(** *** The namespace stage *)

Section Namespaces.

Variable env : Env.
Variable w0 : World.
Variable cluster : Cluster.
Variable configPath : string.

Lemma namespaceStage_trace w :
  Stages.inNamespaceStage w0 w -> exists es, trace w = trace w0 ++ es.
Proof. intros (ms & es & H & _). exists es. exact H. Qed.

Lemma namespaceDeletionTask_confined g :
  Confined (Stages.inNamespaceStage w0) Stages.namespaceStep
    (namespaceDeletionTask env cluster configPath g).
Proof.
  unfold namespaceDeletionTask, kubectl_delete_namespace.
  apply confined_step; intros w Hw; [one_event (@eq_refl PersistentStore)|].
  thread_steps. destruct (failed _); thread_steps; [|apply confined_finished].
  apply confined_step; intros w1 Hw1; [one_event (@eq_refl PersistentStore)|].
  apply confined_finished.
Qed.

Lemma namespaceDeletionTask_runs g :
  Owes (Stages.inNamespaceStage w0) (Stages.runsNamespaceDelete env w0 cluster configPath g)
    (namespaceDeletionTask env cluster configPath g).
Proof.
  unfold namespaceDeletionTask, kubectl_delete_namespace.
  apply owes_now; intros w Hw. split; [reflexivity|].
  intros Hfailed. thread_steps. unfold namespaceDelete in Hfailed. rewrite Hfailed.
  thread_steps. apply owes_now; intros w1 Hw1. reflexivity.
Qed.

Lemma namespacePending_stable g w w' ms t :
  Stages.inNamespaceStage w0 w -> passes namespaceEvent eq ms w w' ->
  Stages.namespacePending env w0 cluster configPath g w t ->
  Stages.namespacePending env w0 cluster configPath g w' t.
Proof.
  intros Hw (es' & Htr & _) (Hc & es & Hes & Hrun).
  split; [exact Hc|]. exists (es ++ es').
  split; [rewrite Htr, Hes, app_assoc; reflexivity|].
  destruct Hrun as [[Hl Ho]|(pre & post & -> & Hl & Hlog)].
  - left. split; [apply in_app_iff; auto | exact Ho].
  - right. exists pre, (post ++ es'). split; [rewrite <- app_assoc; reflexivity|].
    split; [exact Hl|]. cbv zeta in Hlog |- *. intros Hfailed.
    destruct (Hlog Hfailed) as [Ho|Hin]; [left; exact Ho | right; apply in_app_iff; auto].
Qed.

Lemma namespacePending_step g w effect next :
  Stages.inNamespaceStage w0 w ->
  Stages.namespacePending env w0 cluster configPath g w (Step effect next) ->
  passes namespaceEvent eq [] w (effect w)
  /\ Stages.namespacePending env w0 cluster configPath g (effect w) (next w).
Proof.
  intros Hw (Hc & es & Hes & Hrun).
  inversion Hc as [|? ? Hstep Hnext]; subst.
  pose proof (Hstep w Hw) as Hp. split; [exact Hp|].
  destruct Hp as (es' & Htr & _).
  split; [apply Hnext, Hw|]. exists (es ++ es').
  split; [rewrite Htr, Hes, app_assoc; reflexivity|].
  destruct Hrun as [[Hl Ho]|(pre & post & -> & Hl & Hlog)].
  - inversion Ho as [? ? Hnow|? ? Hlater]; subst.
    + right. destruct (Hnow w Hw) as [Hran Hlog].
      rewrite Htr in Hran. apply app_inv_head in Hran. subst es'.
      exists es, []. split; [reflexivity|]. split; [exact Hl|].
      cbv zeta in Hlog |- *. rewrite <- Hes. intros Hfailed. left. apply Hlog, Hfailed.
    + left. split; [apply in_app_iff; auto | apply Hlater, Hw].
  - right. exists pre, (post ++ es'). split; [rewrite <- app_assoc; reflexivity|].
    split; [exact Hl|]. cbv zeta in Hlog |- *. intros Hfailed.
    destruct (Hlog Hfailed) as [Ho|Hin]; [|right; apply in_app_iff; auto].
    inversion Ho as [? ? Hnow|? ? Hlater]; subst.
    + right. specialize (Hnow w Hw). unfold Stages.logsFailure in Hnow.
      rewrite Htr in Hnow. apply app_inv_head in Hnow. subst es'.
      apply in_app_iff. right. left. reflexivity.
    + left. apply Hlater, Hw.
Qed.

Lemma namespacePending_launch g w :
  Stages.inNamespaceStage w0 w ->
  Stages.namespacePending env w0 cluster configPath g (record (Launched (namespaceTask g)) w)
    (namespaceDeletionTask env cluster configPath g).
Proof.
  intros Hw. destruct (namespaceStage_trace w Hw) as [es Hes].
  split; [apply namespaceDeletionTask_confined|].
  exists (es ++ [Launched (namespaceTask g)]).
  split; [cbn [record trace]; rewrite Hes, app_assoc; reflexivity|].
  left. split; [apply in_app_iff; right; left; reflexivity | apply namespaceDeletionTask_runs].
Qed.

Lemma namespacePending_join g w a :
  Stages.inNamespaceStage w0 w ->
  Stages.namespacePending env w0 cluster configPath g w (Finished a) ->
  Stages.namespaceDone env w0 cluster configPath g (record (Joined (namespaceTask g)) w).
Proof.
  intros Hw (_ & es & Hes & Hrun).
  exists (es ++ [Joined (namespaceTask g)]).
  split; [cbn [record trace]; rewrite Hes, app_assoc; reflexivity|].
  destruct Hrun as [[_ Ho]|(pre & post & -> & Hl & Hlog)]; [inversion Ho|].
  exists pre, (post ++ [Joined (namespaceTask g)]).
  split; [rewrite <- app_assoc; reflexivity|]. split; [exact Hl|].
  cbv zeta in Hlog |- *.
  destruct (failed (execute env (trace w0 ++ pre) (namespaceDelete env configPath g))).
  - destruct (Hlog eq_refl) as [Ho|Hin]; [inversion Ho|].
    apply (sublist_snoc [_]), sublist_singleton, Hin.
  - apply in_app_iff. right. left. reflexivity.
Qed.

Lemma namespaceDone_stable g w w' ms :
  Stages.inNamespaceStage w0 w -> passes namespaceEvent eq ms w w' ->
  Stages.namespaceDone env w0 cluster configPath g w ->
  Stages.namespaceDone env w0 cluster configPath g w'.
Proof.
  intros Hw (es' & Htr & _) (es & Hes & pre & post & -> & Hl & Hdone).
  exists ((pre ++ Ran (namespaceDelete env configPath g) :: post) ++ es').
  split; [rewrite Htr, Hes, <- !app_assoc; reflexivity|].
  exists pre, (post ++ es'). split; [rewrite <- app_assoc; reflexivity|].
  split; [exact Hl|]. cbv zeta in Hdone |- *.
  destruct (failed (execute env (trace w0 ++ pre) (namespaceDelete env configPath g))).
  - apply sublist_inserts_r, Hdone.
  - apply in_app_iff. auto.
Qed.

End Namespaces.

(** What the namespace stage comes to, whatever the schedule. *)
Lemma namespaceStage_summary (env : Env) (plan : nat -> list nat) (cluster : Cluster)
    (configPath : string) (l : list Group) (w0 : World) :
  exists pool w1 w' t3,
    launchAll (R := string) plan namespaceTask (namespaceDeletionTask env cluster configPath) l
      {| tasks := []; yields := 0 |} w0 = (Continue pool, w1)
    /\ joinAll (R := string) plan (namespaceTask <$> l) pool w1 = (Continue tt, w')
    /\ trace w' = trace w0 ++ t3
    /\ events namespaceEvent t3
    /\ markers t3 = launchedNamespaces l ++ joinedNamespaces l
    /\ store w' = store w0
    /\ Forall (fun g => namespaceDeleted env (trace w0) cluster configPath g t3) l.
Proof.
  destruct (launchAll_passes (R := string) namespaceEvent eq (@eq_refl _) (@eq_trans _) w0
              (Stages.namespacePending env w0 cluster configPath) namespaceTask
              (namespaceDeletionTask env cluster configPath) (fun _ => eq_refl)
              (namespacePending_stable env w0 cluster configPath)
              (namespacePending_step env w0 cluster configPath)
              (namespacePending_launch env w0 cluster configPath)
              plan l {| tasks := []; yields := 0 |} [] w0
              (reached_refl _ _ (@eq_refl _) w0) (Forall2_nil_2 _ _ _))
    as (pool & w1 & Heq1 & Hp1 & H1).
  pose proof (reached_passes _ _ (@eq_trans _) _ _ _ _
                (reached_refl _ _ (@eq_refl _) w0) Hp1) as Hw1.
  destruct (joinAll_passes (R := string) namespaceEvent eq (@eq_refl _) (@eq_trans _) w0
              (Stages.namespacePending env w0 cluster configPath)
              (Stages.namespaceDone env w0 cluster configPath) namespaceTask
              (fun _ => eq_refl)
              (namespacePending_stable env w0 cluster configPath)
              (namespacePending_step env w0 cluster configPath)
              (namespacePending_join env w0 cluster configPath)
              (namespaceDone_stable env w0 cluster configPath)
              plan l pool w1 Hw1 H1)
    as (w' & Heq2 & Hp2 & H2).
  destruct (passes_trans _ _ (@eq_trans _) _ _ _ _ _ Hp1 Hp2) as (t3 & Htr & Hev & Hm & Hst).
  exists pool, w1, w', t3. repeat (split; [first [assumption | symmetry; assumption]|]).
  eapply Forall_impl; [exact H2|]. intros g (es & Hes & Hd).
  rewrite Htr in Hes. apply app_inv_head in Hes. subst es. exact Hd.
Qed.

(** *** The cascade *)

Lemma bind_read {R A B} (f : PersistentStore -> A) (k : A -> M R B) (w : World) :
  (read f ≫= k) w = k (f (store w)) w.
Proof. reflexivity. Qed.

Lemma bind_get {R B} (k : World -> M R B) (w : World) : (Stmt.get ≫= k) w = k w w.
Proof. reflexivity. Qed.

Lemma bind_run {R A B} (m : M R A) (k : A -> M R B) (w : World) :
  (m ≫= k) w
  = match m w with
    | (Continue a, w1) => k a w1
    | (Returned r, w1) => (Returned r, w1)
    | (OutOfFuel, w1) => (OutOfFuel, w1)
    end.
Proof. unfold_stmt. destruct (m w) as [[r|a|] w1]; reflexivity. Qed.

Lemma secretDeleted_unchanged env st st' s evs :
  instancesOnly st st' -> secretDeleted env st' s evs -> secretDeleted env st s evs.
Proof. intros [m ->] H. exact H. Qed.

Lemma deleteCluster_summary (env : Env) (cluster : Cluster) (force : bool) (w : World) :
  let cid := cluster_id cluster in
  let st := store w in
  let configPath := Store.configPathForCluster st cid in
  let onCluster := Store.listSecrets st "" cid in
  let allGroups := Store.listgroups st in
  exists (res : string) (w' : World) (t1 t2 t3 t4 : list Event)
         (attempted : list ApplicationInstance),
    Stmt.run (deleteCluster env cluster force) w = (Some res, w')
    /\ trace w' = trace w ++ t1 ++ t2 ++ t3 ++ t4
    /\ events instanceEvent t1 /\ events secretEvent t2 /\ events namespaceEvent t3
    /\ commandsRun t1 = helmDelete st <$> attempted
    /\ attempted `prefix_of` instancesOn cid (Store.listApplicationInstances st)
    /\ ((force = false /\ res <> "" /\ t2 = [] /\ t3 = [] /\ t4 = [])
        \/ attempted = instancesOn cid (Store.listApplicationInstances st)
           /\ markers t2 = launchedSecrets onCluster ++ joinedSecrets onCluster
           /\ Forall (fun s => secretDeleted env st s t2) onCluster
           /\ ((force = false /\ res <> "" /\ t3 = [] /\ t4 = [])
               \/ markers t3 = launchedNamespaces allGroups ++ joinedNamespaces allGroups
                  /\ Forall (fun g => namespaceDeleted env (trace w ++ t1 ++ t2) cluster
                                        configPath g t3) allGroups
                  /\ (t4 = [Wrote (RemoveCluster cid)] /\ res = ""
                      /\ clusters (store w') !! cid = None
                      \/ t4 = [] /\ res = "Cluster deletion failed")))
    /\ (force = true -> online st = true ->
        res = ""
        /\ clusters (store w') = delete cid (clusters st)
        /\ instances (store w')
           = fold_left (removeOnCluster cid) (Store.listApplicationInstances st)
               (instances st)
        /\ secrets (store w') ⊆ secrets st
        /\ Forall (fun s => secrets (store w') !! secret_id s = None) onCluster).
Proof.
  intros cid st configPath onCluster allGroups. subst st configPath.
  unfold deleteCluster, Stmt.run.
  rewrite bind_read, bind_read, bind_run.
  destruct (deleteInstances_summary env cluster force (Store.listApplicationInstances (store w)) w)
    as (o1 & w1 & t1 & attempted & Hrun1 & Htr1 & Hev1 & Hst1 & Hcmd1 & Ho1 & Hforce1).
  rewrite Hrun1.
  destruct Ho1 as [[-> ->] | (Hf & Hpre & msg & -> & Hmsg)].
  2: { exists msg, w1, t1, [], [], [], attempted. rewrite !app_nil_r.
       repeat (split; [first [reflexivity | assumption | apply events_nil]|]).
       split; [left; repeat split; assumption|]. intros ->; discriminate. }
  rewrite bind_read, bind_get, bind_run.
  assert (Hsecrets : Store.listSecrets (store w1) "" (cluster_id cluster) = onCluster).
  { destruct Hst1 as [m1 ->]. reflexivity. }
  rewrite Hsecrets.
  destruct (secretStage_summary env (schedule env (trace w1)) force onCluster w1)
    as (pool2 & w2 & o3 & w3 & t2 & Hrun2 & Hrun3 & Htr3 & Hev3 & Hm3 & Hst3 & Hdel3
        & Hgone3 & Ho3).
  rewrite Hrun2, bind_run, Hrun3.
  assert (Hdel : Forall (fun s => secretDeleted env (store w) s t2) onCluster).
  { eapply Forall_impl; [exact Hdel3|]. intros s. apply secretDeleted_unchanged, Hst1. }
  destruct Ho3 as [-> | (Hf & msg & -> & Hmsg)].
  2: { exists msg, w3, t1, t2, [], [], (instancesOn cid (Store.listApplicationInstances (store w))).
       rewrite !app_nil_r.
       split; [reflexivity|].
       split; [rewrite Htr3, Htr1, <- !app_assoc; reflexivity|].
       repeat (split; [first [reflexivity | assumption | apply events_nil]|]).
       split; [|intros ->; discriminate].
       right. repeat (split; [first [reflexivity | assumption]|]).
       left. repeat split; assumption. }
  rewrite bind_read, bind_get, bind_run.
  assert (Hgroups : Store.listgroups (store w3) = allGroups).
  { destruct Hst3 as (m3 & -> & _). destruct Hst1 as [m1 ->]. reflexivity. }
  rewrite Hgroups.
  destruct (namespaceStage_summary env (schedule env (trace w3)) cluster
              (Store.configPathForCluster (store w) (cluster_id cluster)) allGroups w3)
    as (pool4 & w4 & w5 & t3 & Hrun4 & Hrun5 & Htr5 & Hev5 & Hm5 & Hst5 & Hdel5).
  rewrite Hrun4, bind_run, Hrun5.
  assert (Hbefore : trace w3 = trace w ++ t1 ++ t2).
  { rewrite Htr3, Htr1, <- app_assoc. reflexivity. }
  rewrite Hbefore in Hdel5.
  unfold write. unfold_stmt. cbv [Store.removeCluster Store.write].
  destruct (online (store w5)) eqn:Hon; cbn [negb].
  - eexists; eexists;
      exists t1, t2, t3, [Wrote (RemoveCluster cid)],
        (instancesOn cid (Store.listApplicationInstances (store w))).
    split; [reflexivity|]. cbn [trace store].
    split; [rewrite Htr5, Htr3, Htr1, <- !app_assoc; reflexivity|].
    repeat (split; [first [reflexivity | assumption]|]).
    split.
    { right. repeat (split; [first [reflexivity | assumption]|]).
      right. repeat (split; [first [reflexivity | assumption]|]).
      left. split; [reflexivity|]. split; [reflexivity|].
      cbn [clusters Store.with_clusters]. apply lookup_delete_eq. }
    intros Hf Hon0. split; [reflexivity|].
    destruct (Hforce1 Hf Hon0) as [_ Hinst].
    assert (Hon1 : online (store w1) = true).
    { rewrite (instancesOnly_online _ _ Hst1). exact Hon0. }
    specialize (Hgone3 Hon1).
    rewrite Hst5. destruct Hst3 as (m3 & Hst3 & Hsub). rewrite Hst3.
    cbn [clusters instances secrets Store.with_clusters Store.with_secrets].
    destruct Hst1 as [m1 Hst1].
    split; [rewrite Hst1; reflexivity|].
    split; [exact Hinst|].
    split; [rewrite Hst1 in Hsub; exact Hsub|].
    rewrite Hst3 in Hgone3. exact Hgone3.
  - eexists; eexists;
      exists t1, t2, t3, [], (instancesOn cid (Store.listApplicationInstances (store w))).
    split; [reflexivity|]. cbn [trace store]. rewrite app_nil_r.
    split; [rewrite Htr5, Htr3, Htr1, <- !app_assoc; reflexivity|].
    repeat (split; [first [reflexivity | assumption]|]).
    split.
    { right. repeat (split; [first [reflexivity | assumption]|]).
      right. repeat (split; [first [reflexivity | assumption]|]).
      right. split; reflexivity. }
    intros Hf Hon0. exfalso.
    rewrite Hst5 in Hon. destruct Hst3 as (m3 & Hst3 & _). destruct Hst1 as [m1 Hst1].
    rewrite Hst3, Hst1 in Hon. cbn in Hon. congruence.
Qed.

(** On the deployment of [Example] with the schedule of [interleaved]:
    the tasks of a stage take their steps beside each other and beside
    the calling thread. *)
Lemma tasks_run_beside_each_other :
  let '(res, w') := Stmt.run (deleteCluster Example.interleaved Example.c1 true)
                             (Example.world Example.populated) in
  res = Some ""
  /\ trace w'
     = [Ran (Helm "kubeconfig-1" "kube-system" ["delete"; "--purge"; "guest-nginx"]);
        Wrote (RemoveApplicationInstance "instance_1");
        Launched (SecretDeletion "secret_1");
        Ran (Kubectl "kubeconfig-1"
               ["delete"; "secret"; "db-password"; "--namespace"; "slate-group-guest"]);
        Launched (SecretDeletion "secret_2");
        Ran (Kubectl "kubeconfig-1"
               ["delete"; "secret"; "api-key"; "--namespace"; "slate-group-owner"]);
        Wrote (RemoveSecret "secret_1");
        Wrote (RemoveSecret "secret_2");
        Joined (SecretDeletion "secret_1");
        Joined (SecretDeletion "secret_2");
        Launched (NamespaceDeletion "group_owner");
        Ran (KubectlDeleteNamespace "kubeconfig-1" "slate-group-owner");
        LoggedError ("Failed to delete namespace slate-group-owner from cluster_1 (c1): "
                     +:+ "connection refused");
        Launched (NamespaceDeletion "group_guest");
        Ran (KubectlDeleteNamespace "kubeconfig-1" "slate-group-guest");
        LoggedError ("Failed to delete namespace slate-group-guest from cluster_1 (c1): "
                     +:+ "connection refused");
        Joined (NamespaceDeletion "group_owner");
        Joined (NamespaceDeletion "group_guest");
        Wrote (RemoveCluster "cluster_1")].
Proof. vm_compute. split; reflexivity. Qed.


End CascadeFacts.

(** ** Forced and unforced deletion *)

Module StoreFacts.
Import Spec.

Lemma keyed_lookup {V} (key : V -> string) (table : gmap string V) (k : string) (v : V) :
  keyed key table = true -> table !! k = Some v -> key v = k.
Proof.
  unfold keyed. rewrite forallb_forall. intros Hall Hk.
  apply elem_of_map_to_list, list_elem_of_In in Hk.
  apply Hall in Hk. apply String.eqb_eq in Hk. exact Hk.
Qed.

Lemma select_elem {V} (p : V -> bool) (table : gmap string V) (v : V) :
  In v (Store.select p table) <-> exists k, table !! k = Some v /\ p v = true.
Proof.
  unfold Store.select. rewrite filter_In, <- list_elem_of_In, list_elem_of_fmap. split.
  - intros [([k v'] & -> & Hkv) Hp]. exists k. split; [|exact Hp].
    apply elem_of_map_to_list in Hkv. exact Hkv.
  - intros (k & Hk & Hp). split; [|exact Hp]. exists (k, v). split; [reflexivity|].
    apply elem_of_map_to_list. exact Hk.
Qed.

Lemma find_in_Some {V} (p : V -> bool) (table : gmap string V) (v : V) :
  Store.find_in p table = Some v -> exists k, table !! k = Some v /\ p v = true.
Proof.
  unfold Store.find_in. intros H. apply find_some in H as [Hin Hp].
  apply list_elem_of_In, list_elem_of_fmap in Hin as ([k v'] & -> & Hkv).
  exists k. split; [|exact Hp]. apply elem_of_map_to_list in Hkv. exact Hkv.
Qed.

Lemma getCluster_lookup (st : PersistentStore) (idOrName : string) (c : Cluster) :
  wellFormed st = true ->
  Store.getCluster st idOrName = Some c ->
  clusters st !! cluster_id c = Some c.
Proof.
  unfold wellFormed. rewrite !andb_true_iff. intros [[[[Hk _] _] _] _].
  unfold Store.getCluster, Store.findClusterByID, Store.findClusterByName.
  destruct (Str.starts_with idOrName IDGenerator.clusterIDPrefix); intros H.
  - rewrite (keyed_lookup _ _ _ _ Hk H). exact H.
  - apply find_in_Some in H as (k & Hl & _).
    rewrite (keyed_lookup _ _ _ _ Hk Hl). exact Hl.
Qed.

(** What is left of a table after the records picked by [p] have been
    deleted under their own keys. *)
Lemma fold_delete_lookup {V} (key : V -> string) (p : V -> bool) (l : list V)
    (m : gmap string V) (k : string) (v : V) :
  fold_left (fun m x => if p x then delete (key x) m else m) l m !! k = Some v ->
  m !! k = Some v /\ forall x, In x l -> p x = true -> key x <> k.
Proof.
  revert m. induction l as [|x l IH]; intros m; cbn [fold_left].
  - intros H. split; [exact H|]. intros x [].
  - intros H. apply IH in H as [Hm Hl]. destruct (p x) eqn:Hp.
    + destruct (decide (key x = k)) as [Heq|Hne].
      * rewrite Heq, lookup_delete_eq in Hm. discriminate.
      * rewrite lookup_delete_ne in Hm by exact Hne. split; [exact Hm|].
        intros y [<-|Hy] Hpy; [exact Hne | apply Hl; assumption].
    + split; [exact Hm|]. intros y [<-|Hy] Hpy; [congruence | apply Hl; assumption].
Qed.

End StoreFacts.

Module ForceFacts.
Import ClusterCommands Spec CascadeFacts StoreFacts AccessFacts.

Lemma isOwner_inv st req cluster :
  isOwner st req cluster = true ->
  exists token user,
    url_param req "token" = Some token /\
    Store.findUserByToken st token = Some user /\
    Store.userInGroup st (user_id user) (cluster_owningGroup cluster) = true.
Proof.
  unfold isOwner, requester.
  destruct (url_param req "token") as [token|] eqn:Ht; [|discriminate].
  destruct (Store.findUserByToken st token) as [user|] eqn:Hu; [|discriminate].
  intros H. exists token, user. auto.
Qed.

(** The handler, once the request has passed its checks. *)
Lemma deleteCluster_handler (env : Env) (req : Request) (clusterID : string)
    (w : World) (cluster : Cluster) (err : string) (w' : World) :
  Store.getCluster (store w) clusterID = Some cluster ->
  isOwner (store w) req cluster = true ->
  Stmt.run (internal.deleteCluster env cluster
              (match url_param req "force" with Some _ => true | None => false end)) w
  = (Some err, w') ->
  Stmt.run (deleteCluster env req clusterID) w
  = (Some (if String.eqb err "" then response 200 JNull
           else response 500 (generateError err)), w').
Proof.
  intros Hc Hown Hrun.
  destruct (isOwner_inv _ _ _ Hown) as (token & user & Ht & Hu & Hmember).
  unfold deleteCluster. unfold_stmt. rewrite Ht, Hu, Hc, Hmember. cbn [negb].
  unfold Stmt.run in Hrun.
  destruct (internal.deleteCluster env cluster _ w) as [[r|r|] w1];
    inversion Hrun; subst; destruct (String.eqb err ""); reflexivity.
Qed.

Lemma deleteInstances_app (env : Env) (cluster : Cluster) (force : bool)
    (pre l : list ApplicationInstance) (w : World) :
  internal.deleteInstances env cluster force (pre ++ l) w
  = match internal.deleteInstances env cluster force pre w with
    | (Continue _, w1) => internal.deleteInstances env cluster force l w1
    | (Returned r, w1) => (Returned r, w1)
    | (OutOfFuel, w1) => (OutOfFuel, w1)
    end.
Proof.
  revert w. induction pre as [|i pre IH]; intros w; [reflexivity|].
  rewrite <- app_comm_cons, !deleteInstances_cons.
  destruct (String.eqb (instance_cluster i) (cluster_id cluster)); [|apply IH].
  destruct (Stmt.run (internal.deleteApplicationInstance env i force) w) as [[res|] w1];
    [|reflexivity].
  destruct (negb force && negb (String.eqb res "")); [reflexivity | apply IH].
Qed.

(** C4. For the deletion of cluster C requested by a member of its owning
    group, on a well-formed store. Without [force]: when the deletions of
    the instances listed before instance [i] of C went through and the
    deletion of [i] fails with [err], the cascade stops there (the world
    is the one that failed deletion left), the answer is 500 with the
    message "Failed to delete cluster due to failure deleting instance:
    <err>", and the record of C is still in the store. With [force], on a
    store that accepts writes and whatever helm and kubectl answer: the
    answer is 200, the record of C is gone, and no instance and no secret
    of C is left in the store. *)
Theorem cluster_deletion_force_semantics
    (env : Env) (req : Request) (clusterID : string) (w : World) (cluster : Cluster) :
  Store.getCluster (store w) clusterID = Some cluster ->
  isOwner (store w) req cluster = true ->
  wellFormed (store w) = true ->
  let cid := cluster_id cluster in
  (url_param req "force" = None ->
   forall (pre post : list ApplicationInstance) (i : ApplicationInstance)
          (w1 w2 : World) (err : string),
     Store.listApplicationInstances (store w) = pre ++ i :: post ->
     internal.deleteInstances env cluster false pre w = (Continue tt, w1) ->
     instance_cluster i = cid ->
     Stmt.run (internal.deleteApplicationInstance env i false) w1 = (Some err, w2) ->
     err <> "" ->
     Stmt.run (deleteCluster env req clusterID) w
     = (Some (response 500 (generateError
                ("Failed to delete cluster due to failure deleting instance: " +:+ err))),
        w2)
     /\ clusters (store w2) !! cid = Some cluster)
  /\ (is_Some (url_param req "force") ->
      online (store w) = true ->
      exists w',
        Stmt.run (deleteCluster env req clusterID) w = (Some (response 200 JNull), w')
        /\ clusters (store w') !! cid = None
        /\ (forall k i, instances (store w') !! k = Some i -> instance_cluster i <> cid)
        /\ (forall k s, secrets (store w') !! k = Some s -> secret_cluster s <> cid)).
Proof.
  intros Hc Hown Hwf cid. split.
  - intros Hforce pre post i w1 w2 err Hlist Hpre Hi Hdel Herr.
    assert (Hrun : Stmt.run (internal.deleteCluster env cluster false) w
                   = (Some ("Failed to delete cluster due to failure deleting instance: "
                            +:+ err), w2)).
    { unfold internal.deleteCluster, Stmt.run.
      rewrite bind_read, bind_read, bind_run, Hlist, deleteInstances_app, Hpre,
        deleteInstances_cons.
      fold cid. rewrite Hi, String.eqb_refl, Hdel.
      apply String.eqb_neq in Herr. rewrite Herr. reflexivity. }
    pose proof (deleteCluster_handler env req clusterID w cluster
                  ("Failed to delete cluster due to failure deleting instance: " +:+ err)
                  w2 Hc Hown) as Hh.
    rewrite Hforce in Hh. specialize (Hh Hrun). rewrite Hh. split; [reflexivity|].
    destruct (deleteInstances_summary env cluster false pre w)
      as (o & w1' & evs & attempted & Hrun1 & _ & _ & [m1 Hst1] & _).
    rewrite Hpre in Hrun1. inversion Hrun1; subst o w1'.
    destruct (deleteApplicationInstance_summary env i false w1)
      as (res & w2' & evs2 & Hrun2 & _ & _ & _ & Hst2 & _).
    rewrite Hdel in Hrun2. inversion Hrun2; subst res w2'.
    destruct Hst2 as [[-> _]|[-> _]]; rewrite Hst1;
      cbn [clusters Store.with_instances]; eapply getCluster_lookup; eassumption.
  - intros [v Hforce] Hon.
    destruct (deleteCluster_summary env cluster true w)
      as (res & w' & t1 & t2 & t3 & t4 & attempted & Hrun & _ & _ & _ & _ & _ & _ & _
          & Hforced).
    destruct (Hforced eq_refl Hon) as (-> & Hcl & Hinst & Hsub & Hgone).
    pose proof (deleteCluster_handler env req clusterID w cluster "" w' Hc Hown) as Hh.
    rewrite Hforce in Hh. specialize (Hh Hrun). cbn in Hh.
    exists w'. split; [exact Hh|].
    unfold wellFormed in Hwf. rewrite !andb_true_iff in Hwf.
    destruct Hwf as [[[[_ Hki] Hks] _] _].
    split; [rewrite Hcl; apply lookup_delete_eq|]. split.
    + intros k i Hk Hi. rewrite Hinst in Hk.
      apply (fold_delete_lookup instance_id
               (fun i => String.eqb (instance_cluster i) cid)) in Hk as [Hk Hl].
      apply (Hl i).
      * apply select_elem. exists k. auto.
      * apply String.eqb_eq, Hi.
      * eapply keyed_lookup; eassumption.
    + intros k s Hk Hs.
      pose proof (lookup_weaken _ _ _ _ Hk Hsub) as Hk0.
      rewrite Forall_forall in Hgone. specialize (Hgone s).
      rewrite (keyed_lookup _ _ _ _ Hks Hk0), Hk in Hgone.
      enough (Some s = None) by discriminate. apply Hgone.
      apply list_elem_of_In, select_elem. exists k. split; [exact Hk0|].
      rewrite Hs. fold cid. rewrite !String.eqb_refl.
      destruct (String.eqb cid ""); reflexivity.
Qed.

(** On the deployment of [Example] with helm out of order: the unforced
    deletion stops at the instance and keeps the cluster, the forced one
    clears the store. *)
Lemma cluster_deletion_force_witness :
  (Stmt.run (deleteCluster Example.helmDown (Example.asAlice [] JNull) "c1")
            (Example.world Example.populated)
   = (Some (response 500 (generateError
              ("Failed to delete cluster due to failure deleting instance: "
               +:+ "helm delete failed: connection refused"))),
      Example.afterHelmFailure)
   /\ clusters (store Example.afterHelmFailure) !! "cluster_1" = Some Example.c1)
  /\ exists w',
       Stmt.run (deleteCluster Example.helmDown (Example.asAlice [("force", "")] JNull) "c1")
                (Example.world Example.populated)
       = (Some (response 200 JNull), w')
       /\ clusters (store w') !! "cluster_1" = None
       /\ (forall k i, instances (store w') !! k = Some i -> instance_cluster i <> "cluster_1")
       /\ (forall k s, secrets (store w') !! k = Some s -> secret_cluster s <> "cluster_1").
Proof.
  assert (Hc : Store.getCluster (store (Example.world Example.populated)) "c1"
               = Some Example.c1) by (vm_compute; reflexivity).
  assert (Hwf : wellFormed (store (Example.world Example.populated)) = true)
    by (vm_compute; reflexivity).
  split.
  - assert (Hown : isOwner (store (Example.world Example.populated))
                     (Example.asAlice [] JNull) Example.c1 = true)
      by (vm_compute; reflexivity).
    apply (proj1 (cluster_deletion_force_semantics Example.helmDown
                    (Example.asAlice [] JNull) "c1" (Example.world Example.populated)
                    Example.c1 Hc Hown Hwf)
             eq_refl [] [] Example.i1 (Example.world Example.populated)).
    + vm_compute. reflexivity.
    + reflexivity.
    + reflexivity.
    + vm_compute. reflexivity.
    + discriminate.
  - assert (Hown : isOwner (store (Example.world Example.populated))
                     (Example.asAlice [("force", "")] JNull) Example.c1 = true)
      by (vm_compute; reflexivity).
    apply (proj2 (cluster_deletion_force_semantics Example.helmDown
                    (Example.asAlice [("force", "")] JNull) "c1"
                    (Example.world Example.populated) Example.c1 Hc Hown Hwf)).
    + eexists. reflexivity.
    + reflexivity.
Defined.

End ForceFacts.

(** ** Listing the allowed groups *)

Module ListingFacts.
Import ClusterCommands Spec StoreFacts AccessFacts.

(** *** What the store lists for a cluster *)

Lemma allowed_elem (st : PersistentStore) (cID g : string) :
  In g (Store.listgroupsAllowedOnCluster st cID) <-> (cID, g) ∈ access st.
Proof.
  unfold Store.listgroupsAllowedOnCluster.
  rewrite <- list_elem_of_In, list_elem_of_fmap. split.
  - intros ([c g'] & -> & Hin). apply list_elem_of_In, filter_In in Hin as [Hin Hc].
    cbn in Hc. apply String.eqb_eq in Hc. subst c.
    apply list_elem_of_In, elem_of_elements in Hin. exact Hin.
  - intros Hin. exists (cID, g). split; [reflexivity|].
    apply list_elem_of_In, filter_In. split.
    + apply list_elem_of_In, elem_of_elements, Hin.
    + cbn. apply String.eqb_refl.
Qed.

(** *** The loop over the listed IDs *)


Lemma listedGroups_summary (cluster : Cluster) (groupIDs : list string) (w : World) :
  exists items w',
    listedGroups cluster groupIDs w = (Continue items, w')
    /\ store w' = store w
    /\ idOf <$> items
       = List.filter (fun id => bool_decide (is_Some (groups (store w) !! id))) groupIDs.
Proof.
  revert w. induction groupIDs as [|id ids IH]; intros w.
  - exists [], w. auto.
  - cbn [listedGroups List.filter]. unfold_stmt. unfold Store.findGroupByID.
    destruct (groups (store w) !! id) as [g|] eqn:Hg.
    + destruct (IH w) as (items & w' & Hrun & Hst & Hids). rewrite Hrun.
      eexists; exists w'. split; [reflexivity|]. split; [exact Hst|].
      rewrite bool_decide_eq_true_2 by eauto. cbn. rewrite <- Hids. reflexivity.
    + match goal with
      | |- context [listedGroups cluster ids ?w1] =>
          destruct (IH w1) as (items & w' & Hrun & Hst & Hids)
      end.
      rewrite Hrun. exists items, w'. split; [reflexivity|]. split; [exact Hst|].
      rewrite bool_decide_eq_false_2 by (intros [? ?]; congruence). exact Hids.
Qed.


Lemma listing_run (req : Request) (clusterID : string) (cluster : Cluster) (w : World) :
  is_Some (requester (store w) req) ->
  Store.getCluster (store w) clusterID = Some cluster ->
  let grants := Store.listgroupsAllowedOnCluster (store w) (cluster_id cluster) in
  exists r w',
    Stmt.run (listClusterAllowedgroups req clusterID) w = (Some r, w')
    /\ store w' = store w
    /\ code r = 200
    /\ listedIDs r
       = if decide (grants = [Store.wildcard]) then [Store.wildcard]
         else List.filter (fun id => bool_decide (is_Some (groups (store w) !! id)))
                (grants ++ [cluster_owningGroup cluster]).
Proof.
  intros Hreq Hc grants.
  destruct (PingFacts.requester_inv _ _ Hreq) as (token & user & Ht & Hu).
  unfold listClusterAllowedgroups. unfold_stmt. rewrite Ht, Hu, Hc. fold grants.
  destruct (listedGroups_summary cluster (grants ++ [cluster_owningGroup cluster]) w)
    as (items & w' & Hrun & Hst & Hids).
  clearbody grants.
  destruct grants as [|g [|g' rest]];
    [|destruct (String.eqb_spec g Store.wildcard) as [->|Hne]|];
    try rewrite Hrun;
    (eexists; eexists; split; [reflexivity|]);
    try (split; [exact Hst|]; split; [reflexivity|];
         rewrite decide_False by congruence; exact Hids).
  split; [reflexivity|]. split; [reflexivity|].
  rewrite decide_True by reflexivity. reflexivity.
Qed.


(** *** Grants and revocations *)


Lemma with_access_id (st : PersistentStore) : Store.with_access (fun a => a) st = st.
Proof. destruct st; reflexivity. Qed.

Lemma serve_store (req : Request) (clusterID : string) (cluster : Cluster) (w : World)
    (a : AccessRequest) :
  Store.getCluster (store w) clusterID = Some cluster ->
  mayAdminister (store w) req cluster = true ->
  online (store w) = true ->
  store (serve req clusterID w a)
  = Store.with_access (accessStep (store w) cluster a) (store w).
Proof.
  intros Hc Hauth Hon.
  destruct (mayAdminister_inv _ _ _ Hauth) as (token & user & Ht & Hu & Hok).
  destruct a as [groupID|groupID]; unfold serve, accessStep;
    [unfold grantGroupClusterAccess | unfold revokeGroupClusterAccess];
    unfold_stmt; rewrite Ht, Hu, Hc, Hok;
    (destruct (isWildcard groupID);
     [|destruct (Store.getGroup (store w) groupID) as [group|];
       [destruct (String.eqb (group_id group) (cluster_owningGroup cluster))|]]);
    cbv [Store.addGroupToCluster Store.removeGroupFromCluster Store.write];
    rewrite ?Hon; cbn [snd store negb]; rewrite ?with_access_id; reflexivity.
Qed.

Lemma getGroup_prefixed (st : PersistentStore) (idOrName : string) (g : Group) :
  wellFormed st = true ->
  Store.getGroup st idOrName = Some g ->
  Str.starts_with (group_id g) IDGenerator.groupIDPrefix = true.
Proof.
  unfold wellFormed. rewrite !andb_true_iff. intros [[_ Hk] Hp] H.
  assert (Hin : exists k, groups st !! k = Some g).
  { unfold Store.getGroup, Store.findGroupByID, Store.findGroupByName in H.
    destruct (Str.starts_with idOrName IDGenerator.groupIDPrefix).
    - eauto.
    - apply find_in_Some in H as (k & Hl & _). eauto. }
  destruct Hin as [k Hl].
  rewrite (keyed_lookup _ _ _ _ Hk Hl).
  rewrite forallb_forall in Hp.
  apply elem_of_map_to_list, list_elem_of_In in Hl. apply (Hp _ Hl).
Qed.

Lemma prefixed_not_wildcard (id : string) :
  Str.starts_with id IDGenerator.groupIDPrefix = true -> id <> Store.wildcard.
Proof. intros H ->. vm_compute in H. discriminate. Qed.


Lemma serve_ready (req : Request) (clusterID : string) (cluster : Cluster)
    (w : World) (a : AccessRequest) :
  Ready req clusterID cluster w ->
  Ready req clusterID cluster (serve req clusterID w a)
  /\ groups (store (serve req clusterID w a)) = groups (store w).
Proof.
  intros (Hwf & Hon & Hc & Hauth). unfold Ready.
  rewrite (serve_store req clusterID cluster w a Hc Hauth Hon).
  split; [|reflexivity].
  split; [exact Hwf|]. split; [exact Hon|]. split; [exact Hc | exact Hauth].
Qed.


(** *** Requests of any requester, for any cluster *)

Lemma grant_outcome (req : Request) (clusterID groupID : string) (w : World) :
  exists r w',
    Stmt.run (grantGroupClusterAccess req clusterID groupID) w = (Some r, w')
    /\ (store w' = store w /\ (code r <> 200 \/ isWildcard groupID = false)
        \/ exists found g',
             Store.getCluster (store w) clusterID = Some found
             /\ code r = 200
             /\ store w'
                = Store.with_access (fun a => {[ (cluster_id found, g') ]} ∪ a) (store w)
             /\ (isWildcard groupID = true /\ g' = Store.wildcard
                 \/ isWildcard groupID = false
                    /\ exists g, Store.getGroup (store w) groupID = Some g
                                 /\ g' = group_id g
                                 /\ group_id g <> cluster_owningGroup found)).
Proof.
  unfold grantGroupClusterAccess. unfold_stmt.
  destruct (url_param req "token") as [token|];
    [|eexists; eexists; split; [reflexivity|]; left; split; [reflexivity|left; discriminate]].
  destruct (Store.findUserByToken (store w) token) as [user|];
    [|eexists; eexists; split; [reflexivity|]; left; split; [reflexivity|left; discriminate]].
  destruct (Store.getCluster (store w) clusterID) as [found|] eqn:Hc;
    [|eexists; eexists; split; [reflexivity|]; left; split; [reflexivity|left; discriminate]].
  destruct (negb (user_admin user)
            && negb (Store.userInGroup (store w) (user_id user) (cluster_owningGroup found)));
    [eexists; eexists; split; [reflexivity|]; left; split; [reflexivity|left; discriminate]|].
  destruct (isWildcard groupID) eqn:Hw.
  - cbv [Store.addGroupToCluster Store.write].
    destruct (online (store w)); cbn [negb store];
      (eexists; eexists; split; [reflexivity|]); cbn [store code response].
    + right. exists found, Store.wildcard. repeat split. left. split; reflexivity.
    + left. split; [reflexivity | left; discriminate].
  - destruct (Store.getGroup (store w) groupID) as [g|] eqn:Hg;
      [|eexists; eexists; split; [reflexivity|]; left; split; [reflexivity|left; discriminate]].
    destruct (String.eqb_spec (group_id g) (cluster_owningGroup found)) as [Heq|Hne];
      [eexists; eexists; split; [reflexivity|]; left; split; [reflexivity|right; reflexivity]|].
    cbv [Store.addGroupToCluster Store.write].
    destruct (online (store w)); cbn [negb store];
      (eexists; eexists; split; [reflexivity|]); cbn [store code response].
    + right. exists found, (group_id g). repeat split. right. split; [reflexivity|].
      exists g. auto.
    + left. split; [reflexivity | left; discriminate].
Qed.

Lemma revoke_outcome (req : Request) (clusterID groupID : string) (w : World) :
  exists r w',
    Stmt.run (revokeGroupClusterAccess req clusterID groupID) w = (Some r, w')
    /\ (store w' = store w /\ code r <> 200
        \/ exists found g',
             Store.getCluster (store w) clusterID = Some found
             /\ code r = 200
             /\ store w'
                = Store.with_access (fun a => a ∖ {[ (cluster_id found, g') ]}) (store w)
             /\ (isWildcard groupID = true /\ g' = Store.wildcard
                 \/ isWildcard groupID = false
                    /\ exists g, Store.getGroup (store w) groupID = Some g
                                 /\ g' = group_id g
                                 /\ group_id g <> cluster_owningGroup found)).
Proof.
  unfold revokeGroupClusterAccess. unfold_stmt.
  destruct (url_param req "token") as [token|];
    [|eexists; eexists; split; [reflexivity|]; left; split; [reflexivity|discriminate]].
  destruct (Store.findUserByToken (store w) token) as [user|];
    [|eexists; eexists; split; [reflexivity|]; left; split; [reflexivity|discriminate]].
  destruct (Store.getCluster (store w) clusterID) as [found|] eqn:Hc;
    [|eexists; eexists; split; [reflexivity|]; left; split; [reflexivity|discriminate]].
  destruct (negb (user_admin user)
            && negb (Store.userInGroup (store w) (user_id user) (cluster_owningGroup found)));
    [eexists; eexists; split; [reflexivity|]; left; split; [reflexivity|discriminate]|].
  destruct (isWildcard groupID) eqn:Hw.
  - cbv [Store.removeGroupFromCluster Store.write].
    destruct (online (store w)); cbn [negb store];
      (eexists; eexists; split; [reflexivity|]); cbn [store code response].
    + right. exists found, Store.wildcard. repeat split. left. split; reflexivity.
    + left. split; [reflexivity | discriminate].
  - destruct (Store.getGroup (store w) groupID) as [g|] eqn:Hg;
      [|eexists; eexists; split; [reflexivity|]; left; split; [reflexivity|discriminate]].
    destruct (String.eqb_spec (group_id g) (cluster_owningGroup found)) as [Heq|Hne];
      [eexists; eexists; split; [reflexivity|]; left; split; [reflexivity|discriminate]|].
    cbv [Store.removeGroupFromCluster Store.write].
    destruct (online (store w)); cbn [negb store];
      (eexists; eexists; split; [reflexivity|]); cbn [store code response].
    + right. exists found, (group_id g). repeat split. right. split; [reflexivity|].
      exists g. auto.
    + left. split; [reflexivity | discriminate].
Qed.

Lemma found_is (st : PersistentStore) (target : string) (cluster found : Cluster) :
  wellFormed st = true ->
  clusters st !! cluster_id cluster = Some cluster ->
  Store.getCluster st target = Some found ->
  cluster_id found = cluster_id cluster -> found = cluster.
Proof.
  intros Hwf Hcluster Hfound Hid.
  pose proof (getCluster_lookup _ _ _ Hwf Hfound) as Hl. rewrite Hid in Hl. congruence.
Qed.

Section Policy.

Variable cluster : Cluster.

Let cid := cluster_id cluster.
Let owner := cluster_owningGroup cluster.

(** What one request keeps of a world: the tables other than the grants,
    that the owning group is not among the grants of the cluster, and
    that the wildcard is among them exactly when universal access has
    been granted and not revoked. *)
Lemma policyStep_invariant (standing : bool) (w : World) (c : AccessCall) :
  wellFormed (store w) = true ->
  clusters (store w) !! cid = Some cluster ->
  (owner <> Store.wildcard -> (cid, owner) ∉ access (store w)) ->
  ((cid, Store.wildcard) ∈ access (store w) <-> standing = true) ->
  let s' := policyStep cluster (standing, w) c in
  (exists f, store (snd s') = Store.with_access f (store w))
  /\ (owner <> Store.wildcard -> (cid, owner) ∉ access (store (snd s')))
  /\ ((cid, Store.wildcard) ∈ access (store (snd s')) <-> fst s' = true).
Proof.
  intros Hwf Hcluster Hout Hst.
  unfold policyStep, answerTo, isOn, accepted. cbn [fst snd].
  destruct c as [req tgt [groupID|groupID]]; cbn [Spec.caller Spec.target Spec.asked].
  - destruct (grant_outcome req tgt groupID w)
      as (r & w' & Hrun & [[Hsame Hcode]|(found & g' & Hfound & Hcode & Hstore & Hg')]);
      rewrite Hrun; cbn [fst snd].
    + rewrite Hsame. split; [exists (fun a => a); symmetry; apply with_access_id|].
      split; [exact Hout|].
      destruct (Store.getCluster (store w) tgt) as [found|]; [|exact Hst].
      destruct (String.eqb (cluster_id found) (cluster_id cluster)); [|exact Hst].
      destruct Hcode as [Hcode|Hnw].
      * apply Z.eqb_neq in Hcode. rewrite Hcode. exact Hst.
      * destruct (code r =? 200); [|exact Hst]. cbn [andb standingStep]. rewrite Hnw.
        exact Hst.
    + rewrite Hstore, Hfound. cbn [access Store.with_access].
      split; [eexists; reflexivity|].
      apply Z.eqb_eq in Hcode. rewrite Hcode, andb_true_r.
      destruct (String.eqb_spec (cluster_id found) (cluster_id cluster)) as [Hid|Hid].
      * pose proof (found_is _ _ _ _ Hwf Hcluster Hfound Hid) as ->. fold cid.
        destruct Hg' as [[Hw ->]|(Hw & g & Hg & -> & Hgo)]; cbn [standingStep]; rewrite Hw.
        -- split; [intros Hne; specialize (Hout Hne); set_solver|].
           split; [reflexivity | intros _; set_solver].
        -- pose proof (prefixed_not_wildcard _ (getGroup_prefixed _ _ _ Hwf Hg)) as Hnw.
           fold owner in Hgo.
           split; [intros Hne; specialize (Hout Hne); set_solver|].
           rewrite <- Hst. set_solver.
      * fold cid in Hid. split; [intros Hne; specialize (Hout Hne); set_solver|].
        rewrite <- Hst. set_solver.
  - destruct (revoke_outcome req tgt groupID w)
      as (r & w' & Hrun & [[Hsame Hcode]|(found & g' & Hfound & Hcode & Hstore & Hg')]);
      rewrite Hrun; cbn [fst snd].
    + rewrite Hsame. split; [exists (fun a => a); symmetry; apply with_access_id|].
      split; [exact Hout|].
      destruct (Store.getCluster (store w) tgt) as [found|]; [|exact Hst].
      destruct (String.eqb (cluster_id found) (cluster_id cluster)); [|exact Hst].
      apply Z.eqb_neq in Hcode. rewrite Hcode. exact Hst.
    + rewrite Hstore, Hfound. cbn [access Store.with_access].
      split; [eexists; reflexivity|].
      apply Z.eqb_eq in Hcode. rewrite Hcode, andb_true_r.
      destruct (String.eqb_spec (cluster_id found) (cluster_id cluster)) as [Hid|Hid].
      * pose proof (found_is _ _ _ _ Hwf Hcluster Hfound Hid) as ->. fold cid.
        destruct Hg' as [[Hw ->]|(Hw & g & Hg & -> & Hgo)]; cbn [standingStep]; rewrite Hw.
        -- split; [intros Hne; specialize (Hout Hne); set_solver|].
           split; [set_solver | discriminate].
        -- pose proof (prefixed_not_wildcard _ (getGroup_prefixed _ _ _ Hwf Hg)) as Hnw.
           split; [intros Hne; specialize (Hout Hne); set_solver|].
           rewrite <- Hst. set_solver.
      * fold cid in Hid. split; [intros Hne; specialize (Hout Hne); set_solver|].
        rewrite <- Hst. set_solver.
Qed.

Lemma policyAfter_invariant (history : list AccessCall) (standing : bool) (w : World) :
  wellFormed (store w) = true ->
  clusters (store w) !! cid = Some cluster ->
  (owner <> Store.wildcard -> (cid, owner) ∉ access (store w)) ->
  ((cid, Store.wildcard) ∈ access (store w) <-> standing = true) ->
  let s' := fold_left (policyStep cluster) history (standing, w) in
  (exists f, store (snd s') = Store.with_access f (store w))
  /\ (owner <> Store.wildcard -> (cid, owner) ∉ access (store (snd s')))
  /\ ((cid, Store.wildcard) ∈ access (store (snd s')) <-> fst s' = true).
Proof.
  revert standing w. induction history as [|c history IH]; intros standing w Hwf Hc Ho Hw.
  - cbn. split; [exists (fun a => a); symmetry; apply with_access_id | auto].
  - cbn [fold_left].
    destruct (policyStep_invariant standing w c Hwf Hc Ho Hw) as ([f Hf] & Ho1 & Hw1).
    destruct (policyStep cluster (standing, w) c) as [standing1 w1]. cbn [fst snd] in *.
    destruct (IH standing1 w1) as ([f' Hf'] & Ho2 & Hw2);
      try assumption; try (rewrite Hf; assumption).
    split; [|auto]. exists (fun a => f' (f a)). rewrite Hf', Hf. reflexivity.
Qed.

End Policy.

(** C3, as the code has it. Cluster C is in a well-formed store and has
    no grants; then any grants and revocations are requested, by any
    requesters and for any clusters; then an authenticated requester
    lists the groups allowed on C. The listing is answered 200. The
    wildcard is among the grants that the store holds for C exactly when
    universal access to C has been granted and not revoked since. When
    the wildcard is the only grant that the store holds for C, the result
    is the wildcard entry alone, without the owning group. Otherwise the
    owning group is listed exactly once, provided that the store holds
    its record. The wildcard entry is listed only if universal access has
    been granted and not revoked since. In no case is the owning group
    listed twice. *)
Theorem allowed_groups_listing
    (cluster : Cluster) (clusterID : string) (w0 : World) (history : list AccessCall)
    (req : Request) :
  wellFormed (store w0) = true ->
  Store.getCluster (store w0) clusterID = Some cluster ->
  (forall g, (cluster_id cluster, g) ∉ access (store w0)) ->
  is_Some (requester (store w0) req) ->
  let granted := fst (policyAfter cluster history w0) in
  let w := snd (policyAfter cluster history w0) in
  let grants := Store.listgroupsAllowedOnCluster (store w) (cluster_id cluster) in
  let owner := cluster_owningGroup cluster in
  exists (r : Response) (w' : World),
    Stmt.run (listClusterAllowedgroups req clusterID) w = (Some r, w')
    /\ code r = 200
    /\ (In Store.wildcard grants <-> granted = true)
    /\ (grants = [Store.wildcard] -> listedIDs r = [Store.wildcard])
    /\ (grants <> [Store.wildcard] ->
        is_Some (Store.findGroupByID (store w0) owner) ->
        count_occ String.string_dec (listedIDs r) owner = 1%nat)
    /\ (In Store.wildcard (listedIDs r) -> granted = true)
    /\ (count_occ String.string_dec (listedIDs r) owner <= 1)%nat.
Proof.
  intros Hwf Hc Hfresh Hreq granted w grants owner. subst owner.
  pose proof (getCluster_lookup _ _ _ Hwf Hc) as Hcl.
  destruct (policyAfter_invariant cluster history false w0 Hwf Hcl)
    as ([f Hf] & Hout & Hwild).
  { intros _. apply Hfresh. }
  { split; [intros H; exfalso; exact (Hfresh _ H) | discriminate]. }
  fold (policyAfter cluster history w0) in Hf, Hout, Hwild.
  fold w in Hf, Hout, Hwild. fold granted in Hwild.
  assert (Hgroups : groups (store w) = groups (store w0)) by (rewrite Hf; reflexivity).
  assert (Hnowild : ~ is_Some (groups (store w) !! Store.wildcard)).
  { rewrite Hgroups. intros [g Hg]. unfold wellFormed in Hwf. rewrite !andb_true_iff in Hwf.
    destruct Hwf as [_ Hp]. rewrite forallb_forall in Hp.
    apply elem_of_map_to_list, list_elem_of_In in Hg. apply Hp in Hg.
    vm_compute in Hg. discriminate. }
  destruct (listing_run req clusterID cluster w) as (r & w' & Hrun & _ & Hcode & Hids).
  { rewrite Hf. exact Hreq. }
  { rewrite Hf. exact Hc. }
  fold grants in Hids.
  assert (Hlisted : forall id, In id (listedIDs r) ->
            id = Store.wildcard /\ grants = [Store.wildcard]
            \/ grants <> [Store.wildcard] /\ is_Some (groups (store w) !! id)).
  { intros id Hin. rewrite Hids in Hin. destruct (decide (grants = [Store.wildcard])).
    - left. destruct Hin as [<-|[]]. auto.
    - right. apply filter_In in Hin as [_ Hex]. apply bool_decide_eq_true in Hex. auto. }
  assert (Hcount : grants <> [Store.wildcard] ->
            count_occ String.string_dec (listedIDs r) (cluster_owningGroup cluster)
            = if bool_decide (is_Some (groups (store w) !! (cluster_owningGroup cluster))) then 1%nat else 0%nat).
  { intros Hg. rewrite Hids, decide_False by exact Hg.
    case_bool_decide as Hex.
    - assert (Hne : (cluster_owningGroup cluster) <> Store.wildcard) by (intros Heq; rewrite Heq in Hex; auto).
      rewrite List.filter_app, count_occ_app.
      assert (Hzero : count_occ String.string_dec
                        (List.filter (fun id => bool_decide (is_Some (groups (store w) !! id)))
                           grants) (cluster_owningGroup cluster) = 0%nat).
      { apply count_occ_not_In. intros Hin. apply filter_In in Hin as [Hin _].
        apply allowed_elem in Hin. exact (Hout Hne Hin). }
      rewrite Hzero. cbn [List.filter].
      rewrite bool_decide_eq_true_2 by exact Hex.
      cbn [count_occ]. destruct (String.string_dec _ _); [reflexivity | congruence].
    - apply count_occ_not_In. intros Hin. apply filter_In in Hin as [_ Hin].
      apply bool_decide_eq_true in Hin. auto. }
  exists r, w'. split; [exact Hrun|]. split; [exact Hcode|].
  split; [rewrite <- Hwild; apply allowed_elem|].
  split; [intros Hg; rewrite Hids, decide_True by exact Hg; reflexivity|].
  split.
  { intros Hg Howner. rewrite (Hcount Hg), bool_decide_eq_true_2; [reflexivity|].
    rewrite Hgroups. exact Howner. }
  split.
  { intros Hin. apply Hlisted in Hin as [[_ Hw]|[_ Hex]]; [|contradiction].
    apply Hwild, allowed_elem. fold grants. rewrite Hw. left. reflexivity. }
  destruct (decide (grants = [Store.wildcard])) as [Hg|Hg].
  - rewrite Hids. cbn [count_occ]. destruct (String.string_dec _ _); lia.
  - rewrite (Hcount Hg). case_bool_decide; lia.
Qed.


(** C3 as stated fails: once the wildcard has been granted on a cluster
    without other grants, the listing is the wildcard entry alone and the
    owning group does not appear in it. *)
Lemma wildcard_listing_omits_owner :
  exists r : Response,
    fst (Stmt.run (listClusterAllowedgroups (Example.asAlice [] JNull) "c1")
           (after (Example.asAlice [] JNull) "c1" [GrantAccess "*"]
              (Example.world Example.populated)))
    = Some r
    /\ listedIDs r = [Store.wildcard]
    /\ ~ In (cluster_owningGroup Example.c1) (listedIDs r).
Proof.
  eexists. split; [vm_compute; reflexivity|]. split; [reflexivity|].
  vm_compute. intros [H|[]]. discriminate.
Qed.

(** On the deployment of [Example]: when the wildcard has been granted
    and the guest group as well, the listing takes the wildcard for the ID
    of a group, finds no such group, logs this and goes on: the guest and
    the owner are listed, the wildcard entry is not. *)
Lemma wildcard_beside_another_grant_is_not_listed :
  let w := after (Example.asAlice [] JNull) "c1" [GrantAccess "*"; GrantAccess "guest"]
             (Example.world Example.populated) in
  exists (r : Response) (w' : World),
    Stmt.run (listClusterAllowedgroups (Example.asAlice [] JNull) "c1") w = (Some r, w')
    /\ Store.listgroupsAllowedOnCluster (store w) "cluster_1" = ["group_guest"; "*"]
    /\ listedIDs r = ["group_guest"; "group_owner"]
    /\ trace w'
       = trace w ++ [LoggedError ("Apparently invalid Group ID * listed for access to "
                                  +:+ "cluster_1 (c1)")].
Proof.
  intros w. eexists; eexists. split; [vm_compute; reflexivity|].
  repeat split; vm_compute; reflexivity.
Qed.

(** On the deployment of [Example]: Alice grants the wildcard and then
    the guest group, somebody without a token asks for the wildcard to be
    revoked and is refused, and Alice revokes it; the guest and the owner
    are listed. *)
Lemma allowed_groups_listing_witness :
  let alice := Example.asAlice [] JNull in
  let nobody := {| url_params := []; body := JNull |} in
  let history :=
    [{| caller := alice; target := "c1"; asked := GrantAccess "*" |};
     {| caller := alice; target := "cluster_1"; asked := GrantAccess "guest" |};
     {| caller := nobody; target := "c1"; asked := RevokeAccess "*" |};
     {| caller := alice; target := "c1"; asked := RevokeAccess "<all>" |}] in
  let w := snd (policyAfter Example.c1 history (Example.world Example.populated)) in
  fst (policyAfter Example.c1 history (Example.world Example.populated)) = false
  /\ exists (r : Response) (w' : World),
       Stmt.run (listClusterAllowedgroups alice "c1") w = (Some r, w')
       /\ code r = 200
       /\ listedIDs r = ["group_guest"; "group_owner"]
       /\ count_occ String.string_dec (listedIDs r) "group_owner" = 1%nat.
Proof.
  intros alice nobody history w.
  split; [vm_compute; reflexivity|].
  destruct (allowed_groups_listing Example.c1 "c1" (Example.world Example.populated)
              history alice)
    as (r & w' & Hrun & Hcode & _ & _ & Hcount & _).
  - vm_compute. reflexivity.
  - vm_compute. reflexivity.
  - intros g. apply not_elem_of_empty.
  - exists Example.alice. vm_compute. reflexivity.
  - exists r, w'. split; [exact Hrun|]. split; [exact Hcode|].
    fold w in Hrun. vm_compute in Hrun. inversion Hrun. split; [reflexivity|].
    subst r. vm_compute. reflexivity.
Defined.

End ListingFacts.

(** ** Registration *)

Module RegistrationFacts.
Import ClusterCommands Spec.

Lemma returns_bind {R A B} (m : M R A) (k : A -> M R B) :
  returns m -> (forall a, returns (k a)) -> returns (m ≫= k).
Proof.
  intros Hm Hk w. specialize (Hm w). unfold_stmt.
  destruct (m w) as [[r|a|] w1]; cbn in *; [discriminate | apply Hk | congruence].
Qed.

Lemma returns_mret {R A} (a : A) : returns (mret a : M R A).
Proof. intros w. discriminate. Qed.

Lemma returns_return {R A} (r : R) : returns (Stmt.return_ r : M R A).
Proof. intros w. discriminate. Qed.

Lemma returns_read {R A} (f : PersistentStore -> A) : returns (read f : M R A).
Proof. intros w. discriminate. Qed.

Lemma returns_emit {R} (e : Event) : returns (Stmt.emit e : M R unit).
Proof. intros w. discriminate. Qed.

Lemma returns_write {R} (f : PersistentStore -> bool * PersistentStore) (e : StoreWrite) :
  returns (write f e : M R bool).
Proof.
  intros w. unfold write. unfold_stmt. destruct (f (store w)) as [[|] st]; discriminate.
Qed.

Lemma returns_exec {R} (env : Env) (c : Command) : returns (exec env c : M R CommandResult).
Proof. intros w. discriminate. Qed.

Lemma returns_sleep {R} (ms : Z) : returns (sleep_for ms : M R unit).
Proof. intros w. discriminate. Qed.

Lemma returns_draw {R} (env : Env) : returns (draw env : M R Z).
Proof. intros w. discriminate. Qed.

Lemma returns_authenticate {R} (token : option string) :
  returns (authenticateUser token : M R (option User)).
Proof. destruct token; [apply returns_read | apply returns_mret]. Qed.

Lemma returns_reject_if (cond : bool) (r : Response) : returns (reject_if cond r).
Proof. destruct cond; [apply returns_return | apply returns_mret]. Qed.

Lemma returns_require {A} (o : option A) (r : Response) : returns (require o r).
Proof. destruct o; [apply returns_mret | apply returns_return]. Qed.

Lemma returns_for_each {R A} (l : list A) (body : A -> M R unit) :
  (forall x, returns (body x)) -> returns (for_each l body).
Proof.
  intros Hbody. induction l as [|x l IH]; [apply returns_mret|].
  cbn [for_each]. apply returns_bind; [apply Hbody | intros _; exact IH].
Qed.

Ltac returns_step :=
  cbv beta;
  lazymatch goal with
  | |- returns (mbind _ _) => apply returns_bind; [|intros]
  | |- returns (mret _) => apply returns_mret
  | |- returns (Stmt.return_ _) => apply returns_return
  | |- returns (read _) => apply returns_read
  | |- returns (Stmt.emit _) => apply returns_emit
  | |- returns (log_error _) => apply returns_emit
  | |- returns (write _ _) => apply returns_write
  | |- returns (exec _ _) => apply returns_exec
  | |- returns (kubectl _ _ _) => apply returns_exec
  | |- returns (runCommand _ _ _ _) => apply returns_exec
  | |- returns (sleep_for _) => apply returns_sleep
  | |- returns (draw _) => apply returns_draw
  | |- returns (authenticateUser _) => apply returns_authenticate
  | |- returns (reject_if _ _) => apply returns_reject_if
  | |- returns (require _ _) => apply returns_require
  | |- returns (for_each _ _) => apply returns_for_each; intros
  | |- returns (if ?b then _ else _) => destruct b
  | |- returns (match ?x with _ => _ end) => destruct x
  end.

(** The poll leaves its loop before the fuel is used up when the fuel
    covers the sleeps that remain until [maxDelay]. *)
Lemma waitForTiller_returns (env : Env) (configPath : string) (cluster : Cluster)
    (fuel : nat) (delaySoFar : Z) :
  (1 <= fuel)%nat ->
  maxDelay - delaySoFar <= delay * (Z.of_nat fuel - 1) ->
  returns (waitForTiller env fuel configPath cluster delaySoFar).
Proof.
  revert delaySoFar. induction fuel as [|fuel IH]; intros d Hpos Hfuel; [lia|].
  cbn [waitForTiller].
  apply returns_bind; [apply returns_exec|]. intros commandResult.
  destruct (failed commandResult); [repeat returns_step|].
  destruct (tillerReady _); [repeat returns_step|].
  destruct (Z.ltb_spec d maxDelay); [|repeat returns_step].
  apply returns_bind; [apply returns_sleep|]. intros _.
  unfold maxDelay, delay in *. apply IH; lia.
Qed.

(** Registration always answers: its only loop is the poll, and
    [tillerFuel] covers it. *)
Lemma createCluster_returns (env : Env) (req : Request) (w : World) :
  is_Some (fst (Stmt.run (createCluster env req) w)).
Proof.
  assert (H : returns (createCluster env req)).
  { unfold createCluster.
    repeat returns_step.
    apply waitForTiller_returns; [unfold tillerFuel; lia | vm_compute; discriminate]. }
  specialize (H w). unfold Stmt.run.
  destruct (createCluster env req w) as [[r|r|] w1]; cbn in *; eauto. congruence.
Qed.

(** C1. The code at two bootstrap failures, on the deployment of
    [Example]. When the tiller pod never gets ready, the poll sleeps 240
    times 500 ms, logs the timeout after 120 s, and registration still
    answers 200 with the cluster record left in the store. When the
    ServiceAccounts of the default namespace do not include the system
    namespace, registration answers 500 and the record is left in the
    store as well. The claim asks for a failure answer and no record in
    both cases. *)
Theorem registration_keeps_record_after_failed_bootstrap :
  (let r := Stmt.run (createCluster Example.stuck Example.registration)
              (Example.world Example.registry) in
   code <$> fst r = Some 200
   /\ is_Some (clusters (store (snd r)) !! "cluster_AAAAAAAAAAA")
   /\ now (snd r) = 120000
   /\ last (trace (snd r))
      = Some (LoggedError ("Waiting for tiller readiness on cluster_AAAAAAAAAAA (c1)"
                           +:+ "(kube-system) timed out")))
  /\ (let r := Stmt.run (createCluster Example.unmatched Example.registration)
                 (Example.world Example.registry) in
      fst r = Some (registrationFailed
                      "Unable to find matching service account in default namespace")
      /\ is_Some (clusters (store (snd r)) !! "cluster_AAAAAAAAAAA")).
Proof.
  split; cbv zeta.
  - split; [vm_compute; reflexivity|]. split; [vm_compute; eexists; reflexivity|].
    split; vm_compute; reflexivity.
  - split; [vm_compute; reflexivity|]. vm_compute. eexists. reflexivity.
Qed.

(** Where the bootstrap fails as the code provides for: the cluster does
    not answer, the record is removed and the answer is 500; and where it
    succeeds. *)
Example registration_of_unreachable_cluster :
  let r := Stmt.run (createCluster (Example.cluster "" "" (fun _ => true))
                       Example.registration) (Example.world Example.registry) in
  fst r = Some (registrationFailed "Unable to contact cluster with kubectl")
  /\ clusters (store (snd r)) = ∅.
Proof. cbv zeta. split; vm_compute; reflexivity. Qed.

Example registration_of_healthy_cluster :
  let r := Stmt.run (createCluster Example.healthy Example.registration)
             (Example.world Example.registry) in
  code <$> fst r = Some 200
  /\ is_Some (clusters (store (snd r)) !! "cluster_AAAAAAAAAAA").
Proof. cbv zeta. split; [vm_compute; reflexivity|]. vm_compute. eexists. reflexivity. Qed.

End RegistrationFacts.

(** ** The ID generator: nothing of the value is lost *)

Module RawIDFacts.
Import IDGenerator.

(** A group of six bits is recovered from its value. *)
Lemma value_of_bits_inj (g g' : list bool) :
  length g = 6%nat -> length g' = 6%nat ->
  value_of_bits g = value_of_bits g' -> g = g'.
Proof.
  intros Hg Hg'.
  do 7 (destruct g as [|? g]; try discriminate).
  do 7 (destruct g' as [|? g']; try discriminate).
  repeat match goal with b : bool |- _ => destruct b end;
    vm_compute; intros H; first [reflexivity | discriminate H].
Qed.

Lemma map_value_of_bits_inj (l l' : list (list bool)) :
  Forall (fun g => length g = 6%nat) l ->
  Forall (fun g => length g = 6%nat) l' ->
  List.map value_of_bits l = List.map value_of_bits l' -> l = l'.
Proof.
  intros Hl. revert l'. induction Hl as [|g l Hg _ IH]; intros l' Hl' Heq.
  - destruct l'; [reflexivity | discriminate].
  - destruct Hl' as [|g' l' Hg' Hl']; [discriminate|].
    simpl in Heq. injection Heq as H1 H2.
    f_equal; [apply value_of_bits_inj; assumption | apply IH; assumption].
Qed.

(** The 64 characters of the URL-safe alphabet are distinct. *)
Lemma url_safe_base64_char_inj (v v' : nat) :
  (v < 64)%nat -> (v' < 64)%nat ->
  url_safe_char (base64_char v) = url_safe_char (base64_char v') -> v = v'.
Proof.
  intros Hv Hv' Heq.
  assert (Hall : List.forallb (fun v =>
            List.forallb (fun v' =>
              implb (Ascii.eqb (url_safe_char (base64_char v)) (url_safe_char (base64_char v')))
                    (Nat.eqb v v')) (seq 0 64)) (seq 0 64) = true)
    by (vm_compute; reflexivity).
  rewrite forallb_forall in Hall.
  specialize (Hall v ltac:(apply in_seq; lia)).
  rewrite forallb_forall in Hall.
  specialize (Hall v' ltac:(apply in_seq; lia)).
  rewrite Heq, Ascii.eqb_refl in Hall. simpl in Hall.
  apply Nat.eqb_eq, Hall.
Qed.

Lemma text_inj (l l' : list nat) :
  Forall (fun v => (v < 64)%nat) l -> Forall (fun v => (v < 64)%nat) l' ->
  Str.map url_safe_char (Str.of_list (List.map base64_char l))
  = Str.map url_safe_char (Str.of_list (List.map base64_char l')) ->
  l = l'.
Proof.
  intros Hl. revert l'. induction Hl as [|v l Hv _ IH]; intros l' Hl' Heq.
  - destruct l'; [reflexivity | discriminate].
  - destruct Hl' as [|v' l' Hv' Hl']; [discriminate|].
    simpl in Heq. injection Heq as H1 H2.
    f_equal; [apply url_safe_base64_char_inj; assumption | apply IH; assumption].
Qed.

(** The bits of a value, as [transform_width] reads them. *)
Definition bits (value : Z) : list bool :=
  concat (List.map bits_of_byte (bytes_of_uint64 value)).

Lemma regroup_concat (l acc : list bool) :
  exists pad, concat (regroup acc l) = acc ++ l ++ repeat false pad.
Proof.
  revert acc. induction l as [|b l IH]; intros acc; simpl.
  - destruct acc as [|a acc].
    + exists 0%nat. reflexivity.
    + exists (6 - length (a :: acc))%nat. simpl. rewrite app_nil_r. reflexivity.
  - destruct (Nat.eqb (length acc) 5).
    + destruct (IH []) as [pad Hpad]. exists pad. simpl. rewrite Hpad.
      rewrite <- app_assoc. reflexivity.
    + destruct (IH (acc ++ [b])) as [pad Hpad]. exists pad. rewrite Hpad.
      rewrite <- app_assoc. reflexivity.
Qed.

Lemma regroup_inj (l l' : list bool) :
  length l = length l' -> regroup [] l = regroup [] l' -> l = l'.
Proof.
  intros Hlen Heq.
  destruct (regroup_concat l []) as [pad Hpad].
  destruct (regroup_concat l' []) as [pad' Hpad'].
  rewrite Heq, Hpad' in Hpad. simpl in Hpad.
  symmetry in Hlen. destruct (app_inj_1 _ _ _ _ Hlen Hpad) as [H _]. symmetry. exact H.
Qed.

Lemma byte_bit (v k j : Z) :
  0 <= k -> 0 <= j < 8 ->
  Z.testbit (Z.land (Z.shiftr v k) 255) j = Z.testbit v (j + k).
Proof.
  intros Hk Hj. rewrite Z.land_spec, Z.shiftr_spec by lia.
  change 255 with (Z.ones 8). rewrite Z.ones_spec_low by lia.
  apply andb_true_r.
Qed.

(** Bit [j] of byte [i], counted from the most significant bit of the
    byte, is bit [8 i + (7 - j)] of the value. *)
Lemma bits_nth (v : Z) (i j : nat) :
  (i < 8)%nat -> (j < 8)%nat ->
  nth (8 * i + j) (bits v) false = Z.testbit v (Z.of_nat (8 * i + (7 - j))).
Proof.
  intros Hi Hj.
  destruct i as [|[|[|[|[|[|[|[|i]]]]]]]]; try lia;
    destruct j as [|[|[|[|[|[|[|[|j]]]]]]]]; try lia;
    cbv [bits bytes_of_uint64 bits_of_byte List.map concat app nth Nat.mul Nat.add Nat.sub];
    rewrite byte_bit by lia; f_equal; lia.
Qed.

Lemma bits_inj (v v' : Z) : bits v = bits v' -> v mod 2 ^ 64 = v' mod 2 ^ 64.
Proof.
  intros H. apply Z.bits_inj'. intros n Hn.
  destruct (Z.ltb_spec n 64) as [Hlt|Hge];
    [rewrite !Z.mod_pow2_bits_low by lia | rewrite !Z.mod_pow2_bits_high by lia; reflexivity].
  set (i := Z.to_nat (n / 8)). set (j := (7 - Z.to_nat (n mod 8))%nat).
  assert (Hi : (i < 8)%nat) by (subst i; apply Nat2Z.inj_lt; rewrite Z2Nat.id; [|apply Z.div_pos; lia]; apply Z.div_lt_upper_bound; lia).
  pose proof (Z.mod_pos_bound n 8 ltac:(lia)) as Hmod.
  assert (Hj : (j < 8)%nat) by (subst j; lia).
  assert (Hn' : n = Z.of_nat (8 * i + (7 - j))).
  { subst i j. pose proof (Z.div_mod n 8 ltac:(lia)) as Hdm.
    assert (0 <= n / 8) by (apply Z.div_pos; lia). lia. }
  rewrite Hn', <- !bits_nth by assumption. rewrite H. reflexivity.
Qed.

Lemma value_bound (g : list bool) : length g = 6%nat -> (value_of_bits g < 64)%nat.
Proof. apply IDGeneratorFacts.value_of_bits_bound. Qed.

Lemma generateRawID_inj (v v' : Z) :
  generateRawID v = generateRawID v' -> v mod 2 ^ 64 = v' mod 2 ^ 64.
Proof.
  unfold generateRawID, base64_text, transform_width_6_8. intros H.
  fold (bits v) in H. fold (bits v') in H.
  assert (H6 : forall x, Forall (fun g => length g = 6%nat) (regroup [] (bits x))).
  { intros x. apply IDGeneratorFacts.regroup_six. simpl. lia. }
  apply text_inj in H.
  - apply map_value_of_bits_inj in H; [|apply H6..].
    apply regroup_inj in H; [apply bits_inj, H | reflexivity].
  - apply Forall_map. eapply Forall_impl; [apply H6|]. intros g Hg. apply value_bound, Hg.
  - apply Forall_map. eapply Forall_impl; [apply H6|]. intros g Hg. apply value_bound, Hg.
Qed.

(** X1. Two different 64-bit values never give the same raw ID: the
    rendering loses nothing of the value drawn. *)
Theorem distinct_values_give_distinct_ids (v v' : Z) :
  0 <= v < 2 ^ 64 -> 0 <= v' < 2 ^ 64 -> v <> v' ->
  generateRawID v <> generateRawID v'.
Proof.
  intros Hv Hv' Hne Heq. apply generateRawID_inj in Heq.
  rewrite !Z.mod_small in Heq by assumption. contradiction.
Qed.

Lemma distinct_values_witness : generateRawID 0 <> generateRawID (2 ^ 63).
Proof. apply distinct_values_give_distinct_ids; [lia | lia | discriminate]. Defined.


End RawIDFacts.

(** ** The client's checks of IDs *)

Module ClientIDFacts.
Import IDGenerator Client.

Lemma starts_with_prefix (s pre : string) : Str.starts_with s pre = String.prefix pre s.
Proof.
  unfold Str.starts_with, Str.find.
  destruct s as [|b s]; simpl.
  - destruct pre; reflexivity.
  - destruct pre as [|a pre]; [reflexivity|].
    destruct (Ascii.ascii_dec a b); simpl.
    + destruct (String.prefix pre s); [reflexivity|].
      destruct (String.index 0 (String a pre) s); reflexivity.
    + destruct (String.index 0 (String a pre) s); reflexivity.
Qed.

Lemma prefix_take (pre s : string) :
  String.prefix pre s = String.eqb (Str.take (String.length pre) s) pre.
Proof.
  revert s. induction pre as [|a pre IH]; intros s; simpl.
  - destruct s; reflexivity.
  - destruct s as [|b s]; simpl; [reflexivity|].
    destruct (Ascii.ascii_dec a b) as [->|Hne].
    + rewrite Ascii.eqb_refl. apply IH.
    + destruct (Ascii.eqb_spec b a); [congruence | reflexivity].
Qed.

Lemma take_length_eq (pre s : string) :
  Str.take (String.length pre) s = pre ->
  String.length s = (String.length pre + String.length (Str.drop (String.length pre) s))%nat.
Proof.
  revert s. induction pre as [|a pre IH]; intros s; simpl.
  - reflexivity.
  - destruct s as [|b s]; simpl; [discriminate|].
    intros H. injection H as _ H. rewrite (IH s H) at 1. reflexivity.
Qed.

Lemma find_first_not_of_forallb (chars : string) (pos : nat) (s : string) :
  (match find_first_not_of chars pos s with Some _ => true | None => false end)
  = negb (Str.forallb (fun c => match Str.find_char c chars with Some _ => true | None => false end)
            (Str.drop pos s)).
Proof.
  revert pos. induction s as [|c s IH]; intros pos.
  - destruct pos; reflexivity.
  - destruct pos as [|pos]; simpl.
    + destruct (Str.find_char c chars); simpl; [|reflexivity].
      specialize (IH 0%nat). simpl in IH.
      destruct (find_first_not_of chars 0 s); simpl; exact IH.
    + specialize (IH pos). destruct (find_first_not_of chars pos s); simpl; exact IH.
Qed.

(** The characters of [base64Chars] are those of the class
    [[A-Za-z0-9_-]]. *)
Lemma base64Chars_alphabet (c : ascii) :
  (match Str.find_char c base64Chars with Some _ => true | None => false end)
  = in_url_alphabet c.
Proof.
  destruct c as [b0 b1 b2 b3 b4 b5 b6 b7].
  destruct b0, b1, b2, b3, b4, b5, b6, b7; vm_compute; reflexivity.
Qed.

Lemma forallb_ext (p q : ascii -> bool) (s : string) :
  (forall c, p c = q c) -> Str.forallb p s = Str.forallb q s.
Proof. intros H. induction s as [|c s IH]; simpl; [reflexivity|]. rewrite H, IH. reflexivity. Qed.

Lemma verify_pattern (pre id : string) (total : nat) :
  total = (String.length pre + 11)%nat ->
  (if negb (Nat.eqb (String.length id) total) then false
   else if negb (Str.starts_with id pre) then false
   else if (match find_first_not_of base64Chars (String.length pre) id with
            | Some _ => true | None => false end)
   then false else true)
  = matches_id_pattern pre id.
Proof.
  intros ->. unfold matches_id_pattern.
  rewrite starts_with_prefix, prefix_take, find_first_not_of_forallb.
  rewrite (forallb_ext _ _ _ base64Chars_alphabet).
  destruct (String.eqb_spec (Str.take (String.length pre) id) pre) as [Hpre|Hpre]; simpl.
  - rewrite (take_length_eq _ _ Hpre).
    destruct (Nat.eqb_spec (String.length pre + String.length (Str.drop (String.length pre) id))
                (String.length pre + 11)) as [H|H];
      destruct (Nat.eqb_spec (String.length (Str.drop (String.length pre) id)) 11) as [H'|H'];
      try lia; simpl; [|reflexivity].
    destruct (Str.forallb _ _); reflexivity.
  - destruct (negb _); reflexivity.
Qed.

Lemma append_length (a b : string) :
  String.length (a +:+ b) = (String.length a + String.length b)%nat.
Proof. induction a as [|c a IH]; simpl; [reflexivity | rewrite IH; reflexivity]. Qed.

Lemma verifyInstanceID_pattern (id : string) :
  verifyInstanceID id = matches_id_pattern instanceIDPrefix id.
Proof. apply (verify_pattern instanceIDPrefix id 20). reflexivity. Qed.

Lemma verifySecretID_pattern (id : string) :
  verifySecretID id = matches_id_pattern secretIDPrefix id.
Proof. apply (verify_pattern secretIDPrefix id 18). reflexivity. Qed.

Lemma generateID_matches (k : Kind) (value : Z) :
  matches_id_pattern (prefix_of k) (generateID k value) = true.
Proof.
  unfold matches_id_pattern, generateID.
  rewrite IDGeneratorFacts.take_append, IDGeneratorFacts.drop_append, String.eqb_refl.
  rewrite IDGeneratorFacts.generateRawID_length, IDGeneratorFacts.generateRawID_alphabet.
  reflexivity.
Qed.

(** X3. The client accepts as an instance ID exactly the strings that
    match [^instance_[A-Za-z0-9_-]{11}$], and as a secret ID exactly those
    that match [^secret_[A-Za-z0-9_-]{11}$]. *)
Theorem client_id_checks_are_the_id_patterns (id : string) :
  verifyInstanceID id = matches_id_pattern instanceIDPrefix id
  /\ verifySecretID id = matches_id_pattern secretIDPrefix id.
Proof. split; [apply verifyInstanceID_pattern | apply verifySecretID_pattern]. Qed.

(** X4. Whatever value the server's generator draws, the client accepts
    the instance ID and the secret ID made from it; an ID of the other
    kind is refused. *)
Theorem client_accepts_generated_ids (value : Z) :
  verifyInstanceID (generateID InstanceKind value) = true
  /\ verifySecretID (generateID SecretKind value) = true
  /\ verifyInstanceID (generateID SecretKind value) = false
  /\ verifySecretID (generateID InstanceKind value) = false.
Proof.
  pose proof (IDGeneratorFacts.generateRawID_length value) as Hlen.
  split; [|split; [|split]].
  - rewrite verifyInstanceID_pattern. apply (generateID_matches InstanceKind).
  - rewrite verifySecretID_pattern. apply (generateID_matches SecretKind).
  - unfold verifyInstanceID, generateID, prefix_of, secretIDPrefix.
    rewrite append_length, Hlen. reflexivity.
  - unfold verifySecretID, generateID, prefix_of, instanceIDPrefix.
    rewrite append_length, Hlen. reflexivity.
Qed.

End ClientIDFacts.

(** ** The client's wrapping of text *)

Module ClientTextFacts.
Import ClientText.

Lemma append_cons (c : ascii) (a b : string) : String c a +:+ b = String c (a +:+ b).
Proof. reflexivity. Qed.

Lemma append_assoc (a b c : string) : (a +:+ b) +:+ c = a +:+ (b +:+ c).
Proof.
  induction a as [|x a IH]; [reflexivity|].
  rewrite !append_cons. f_equal. exact IH.
Qed.

Lemma append_nil_r (a : string) : a +:+ "" = a.
Proof.
  induction a as [|x a IH]; [reflexivity|].
  rewrite append_cons. f_equal. exact IH.
Qed.

Lemma take_drop (n : nat) (s : string) : Str.take n s +:+ Str.drop n s = s.
Proof.
  revert s. induction n as [|n IH]; intros s; simpl.
  - destruct s; reflexivity.
  - destruct s as [|c s]; simpl; [reflexivity|].
    rewrite append_cons, IH. reflexivity.
Qed.

Lemma drop_drop (n m : nat) (s : string) : Str.drop m (Str.drop n s) = Str.drop (n + m) s.
Proof.
  revert s. induction n as [|n IH]; intros s; simpl.
  - reflexivity.
  - destruct s as [|c s]; simpl; [destruct m; reflexivity | apply IH].
Qed.

Lemma drop_length (n : nat) (s : string) :
  String.length (Str.drop n s) = (String.length s - n)%nat.
Proof.
  revert s. induction n as [|n IH]; intros s; simpl.
  - lia.
  - destruct s as [|c s]; simpl; [reflexivity | apply IH].
Qed.

Lemma take_length (n : nat) (s : string) :
  String.length (Str.take n s) = Nat.min n (String.length s).
Proof.
  revert s. induction n as [|n IH]; intros s; simpl.
  - reflexivity.
  - destruct s as [|c s]; simpl; [reflexivity | rewrite IH; reflexivity].
Qed.

Lemma drop_all (n : nat) (s : string) : (String.length s <= n)%nat -> Str.drop n s = "".
Proof.
  intros H. pose proof (drop_length n s) as Hl.
  destruct (Str.drop n s); [reflexivity | simpl in Hl; lia].
Qed.

Section Wrapping.

Variables (orig indent : string) (maxWidth : Z).

Let indentWidth : Z := Z.of_nat (String.length indent).
Let size : Z := Z.of_nat (String.length orig).

(** The lines after the first, when the indent leaves room on a line. *)
Lemma wrapLoop_continues (fuel : nat) (pos remaining : Z) (result : string) :
  indentWidth < maxWidth < SIZE_MODULUS ->
  0 <= pos -> 0 <= remaining -> pos + remaining = size ->
  remaining < Z.of_nat fuel ->
  exists chunks,
    wrapLoop fuel orig indent maxWidth pos remaining result false
    = Some (result +:+ continued indent chunks)
    /\ joined chunks = Str.drop (Z.to_nat pos) orig
    /\ Forall (fun c => 0 < Z.of_nat (String.length c) <= maxWidth - indentWidth) chunks.
Proof.
  intros Hw. revert pos remaining result.
  induction fuel as [|fuel IH]; intros pos remaining result Hpos Hrem Hsum Hfuel; [lia|].
  simpl. destruct (Z.eqb_spec remaining 0) as [H0|H0].
  - exists []. simpl. rewrite append_nil_r. split; [reflexivity|]. split; [|constructor].
    symmetry. apply drop_all. subst size. lia.
  - fold indentWidth. unfold SIZE_MODULUS in *.
    rewrite (Z.mod_small (maxWidth - indentWidth)) by lia.
    set (chunkSize := if remaining <? maxWidth - indentWidth then remaining
                      else maxWidth - indentWidth).
    assert (Hchunk : 0 < chunkSize <= remaining /\ chunkSize <= maxWidth - indentWidth).
    { subst chunkSize. destruct (Z.ltb_spec remaining (maxWidth - indentWidth)); lia. }
    destruct (IH (pos + chunkSize) (remaining - chunkSize)
                ((result +:+ newline +:+ indent) +:+ substr orig pos chunkSize))
      as (chunks & Hrun & Hjoin & Hall); try lia.
    exists (substr orig pos chunkSize :: chunks).
    split; [|split].
    + rewrite Hrun. simpl. f_equal. rewrite !append_assoc. reflexivity.
    + simpl. rewrite Hjoin. unfold substr.
      rewrite Z2Nat.inj_add by lia. rewrite <- drop_drop. apply take_drop.
    + constructor; [|exact Hall].
      unfold substr. rewrite take_length, drop_length. subst size. lia.
Qed.

End Wrapping.

(** X21. When the indent is narrower than the maximum width, wrapping a
    text ends, and its result is the text cut into chunks, the indent
    written before every chunk but the first: no character is lost or
    added, no chunk is empty, the first chunk is at most [maxWidth]
    characters long and every other one at most [maxWidth] less the
    indent. *)
Theorem wrapping_lays_out_the_text (orig indent : string) (maxWidth : Z) (fuel : nat) :
  Z.of_nat (String.length indent) < maxWidth < SIZE_MODULUS ->
  (String.length orig < fuel)%nat ->
  exists chunks,
    wrapWithIndent fuel orig indent maxWidth = Some (laidOut indent chunks)
    /\ joined chunks = orig
    /\ Forall (fun c => (0 < String.length c)%nat) chunks
    /\ Z.of_nat (String.length (hd "" chunks)) <= maxWidth
    /\ Forall (fun c => Z.of_nat (String.length indent + String.length c) <= maxWidth)
              (tl chunks).
Proof.
  intros Hw Hfuel. unfold wrapWithIndent.
  destruct fuel as [|fuel]; [lia|]. simpl.
  destruct (Z.eqb_spec (Z.of_nat (String.length orig)) 0) as [H0|H0].
  - exists []. destruct orig; [|simpl in H0; lia].
    simpl. repeat split; try constructor. lia.
  - set (size := Z.of_nat (String.length orig)) in *.
    set (chunkSize := if size <? maxWidth then size else maxWidth).
    assert (Hchunk : 0 < chunkSize <= size /\ chunkSize <= maxWidth).
    { subst chunkSize. destruct (Z.ltb_spec size maxWidth); lia. }
    destruct (wrapLoop_continues orig indent maxWidth fuel (0 + chunkSize) (size - chunkSize)
                ("" +:+ substr orig 0 chunkSize))
      as (chunks & Hrun & Hjoin & Hall); try (subst size; lia).
    exists (substr orig 0 chunkSize :: chunks).
    assert (Hlen : Z.of_nat (String.length (substr orig 0 chunkSize)) = chunkSize).
    { unfold substr. rewrite take_length. simpl. subst size. lia. }
    split; [|split; [|split; [|split]]].
    + rewrite Hrun. reflexivity.
    + simpl. rewrite Hjoin. unfold substr. simpl Z.to_nat. simpl Str.drop at 1.
      rewrite Z.add_0_l. apply take_drop.
    + constructor; [lia|]. eapply Forall_impl; [exact Hall|]. simpl. intros c Hc. lia.
    + simpl hd. lia.
    + simpl tl. eapply Forall_impl; [exact Hall|]. simpl. intros c Hc. lia.
Qed.

Lemma wrapping_witness :
  exists chunks,
    wrapWithIndent 12 "hello world" "  " 5 = Some (laidOut "  " chunks)
    /\ joined chunks = "hello world"
    /\ Forall (fun c => (0 < String.length c)%nat) chunks
    /\ Z.of_nat (String.length (hd "" chunks)) <= 5
    /\ Forall (fun c => Z.of_nat (String.length "  " + String.length c) <= 5) (tl chunks).
Proof.
  apply wrapping_lays_out_the_text; [vm_compute; split; reflexivity | simpl; lia].
Defined.

(** Once the first line is written, a chunk size of zero leaves
    [remaining] as it is: the loop does not end. *)
Lemma wrapLoop_stuck (orig indent : string) (maxWidth : Z) (fuel : nat)
    (pos remaining : Z) (result : string) :
  (maxWidth - Z.of_nat (String.length indent)) mod SIZE_MODULUS = 0 ->
  0 < remaining ->
  wrapLoop fuel orig indent maxWidth pos remaining result false = None.
Proof.
  intros Hzero Hrem. revert pos result.
  induction fuel as [|fuel IH]; intros pos result; [reflexivity|].
  simpl. destruct (Z.eqb_spec remaining 0) as [H0|_]; [lia|].
  rewrite Hzero.
  destruct (Z.ltb_spec remaining 0) as [Hneg|Hpos]; [lia|].
  rewrite Z.sub_0_r. apply IH.
Qed.

(** X22. When the indent is exactly as wide as the maximum width and the
    text does not fit on the first line, wrapping never ends: after the
    first line every chunk is empty, so whatever the number of
    iterations allowed, no result is reached. *)
Theorem wrapping_with_full_width_indent_never_ends
    (orig indent : string) (maxWidth : Z) (fuel : nat) :
  Z.of_nat (String.length indent) = maxWidth ->
  maxWidth < Z.of_nat (String.length orig) ->
  wrapWithIndent fuel orig indent maxWidth = None.
Proof.
  intros Hindent Hlong. unfold wrapWithIndent.
  destruct fuel as [|fuel]; [reflexivity|]. simpl.
  destruct (Z.eqb_spec (Z.of_nat (String.length orig)) 0) as [H0|_]; [lia|].
  destruct (Z.ltb_spec (Z.of_nat (String.length orig)) maxWidth) as [Hlt|_]; [lia|].
  apply wrapLoop_stuck; [|lia].
  rewrite Hindent, Z.sub_diag. reflexivity.
Qed.

Lemma wrapping_never_ends_witness : wrapWithIndent 1000 "hello world" "    " 4 = None.
Proof.
  apply wrapping_with_full_width_indent_never_ends; [reflexivity | vm_compute; reflexivity].
Defined.

(** X23. When the indent is wider than the maximum width, the unsigned
    subtraction [maxWidth-indentWidth] wraps around to a huge chunk
    size: the text beyond the first [maxWidth] characters is written on
    one second line, however long it is. *)
Theorem wrapping_with_wide_indent_writes_one_long_line
    (orig indent : string) (maxWidth : Z) (fuel : nat) :
  0 < maxWidth < Z.of_nat (String.length indent) ->
  maxWidth < Z.of_nat (String.length orig) ->
  Z.of_nat (String.length indent) + Z.of_nat (String.length orig) < SIZE_MODULUS ->
  (3 <= fuel)%nat ->
  wrapWithIndent fuel orig indent maxWidth
  = Some (Str.take (Z.to_nat maxWidth) orig +:+ newline +:+ indent
          +:+ Str.drop (Z.to_nat maxWidth) orig).
Proof.
  intros Hw Hlong Hsize Hfuel. unfold wrapWithIndent, SIZE_MODULUS in *.
  destruct fuel as [|[|[|fuel]]]; try lia.
  set (size := Z.of_nat (String.length orig)) in *.
  set (indentWidth := Z.of_nat (String.length indent)) in *.
  assert (Hwrap : (maxWidth - indentWidth) mod 2 ^ 64 = 2 ^ 64 - (indentWidth - maxWidth)).
  { replace (maxWidth - indentWidth) with (2 ^ 64 - (indentWidth - maxWidth) + (-1) * 2 ^ 64)
      by lia.
    rewrite Z.mod_add by lia. apply Z.mod_small. lia. }
  cbn [wrapLoop]. fold size indentWidth. unfold SIZE_MODULUS. rewrite Hwrap.
  destruct (Z.eqb_spec size 0) as [H0|_]; [lia|].
  destruct (Z.ltb_spec size maxWidth) as [Hlt|_]; [lia|].
  rewrite Z.add_0_l.
  destruct (Z.eqb_spec (size - maxWidth) 0) as [H0|_]; [lia|].
  destruct (Z.ltb_spec (size - maxWidth) (2 ^ 64 - (indentWidth - maxWidth))) as [_|Hge]; [|lia].
  rewrite Z.sub_diag. cbn [Z.eqb].
  assert (Hall : Str.take (Z.to_nat (size - maxWidth)) (Str.drop (Z.to_nat maxWidth) orig)
                 = Str.drop (Z.to_nat maxWidth) orig).
  { pose proof (take_drop (Z.to_nat (size - maxWidth)) (Str.drop (Z.to_nat maxWidth) orig)) as Htd.
    rewrite (drop_all (Z.to_nat (size - maxWidth))) in Htd.
    - rewrite append_nil_r in Htd. exact Htd.
    - rewrite drop_length. subst size. lia. }
  unfold substr. rewrite Hall. cbn [Z.to_nat Str.drop].
  rewrite !append_assoc. reflexivity.
Qed.

Lemma wrapping_with_wide_indent_witness :
  wrapWithIndent 3 "hello world" "        " 5
  = Some ("hello" +:+ newline +:+ "         world").
Proof.
  apply (wrapping_with_wide_indent_writes_one_long_line "hello world" "        " 5 3);
    [vm_compute; split; reflexivity | vm_compute; reflexivity
     | vm_compute; reflexivity | lia].
Defined.

End ClientTextFacts.

(** ** Rules for statements *)

Module WpFacts.
Import ClusterCommands.

Section Rules.

Context {R : Type}.
Implicit Types (Qr : R -> World -> Prop) (w : World) (cut : Prop).

Lemma wp_bind cut {A B} (m : M R A) (k : A -> M R B) Qc Qr w :
  wpc cut m (fun a => wpc cut (k a) Qc Qr) Qr w -> wpc cut (m ≫= k) Qc Qr w.
Proof.
  unfold wpc. cbv [mbind M_bind Stmt.bind].
  destruct (m w) as [[r|a|] w']; auto.
Qed.

Lemma wp_ret cut {A} (a : A) (Qc : A -> World -> Prop) Qr w :
  Qc a w -> wpc cut (mret a) Qc Qr w.
Proof. exact (fun H => H). Qed.

Lemma wp_return cut {A} (r : R) (Qc : A -> World -> Prop) Qr w :
  Qr r w -> wpc cut (Stmt.return_ r) Qc Qr w.
Proof. exact (fun H => H). Qed.

Lemma wp_reject_if cut (c : bool) (r : Response) (Qc : unit -> World -> Prop)
    (Qr : Response -> World -> Prop) w :
  (c = true -> Qr r w) -> (c = false -> Qc tt w) -> wpc cut (reject_if c r) Qc Qr w.
Proof. destruct c; unfold reject_if; [intros H _ | intros _ H]; apply H; reflexivity. Qed.

Lemma wp_require cut {A} (o : option A) (r : Response) (Qc : A -> World -> Prop)
    (Qr : Response -> World -> Prop) w :
  (o = None -> Qr r w) -> (forall a, o = Some a -> Qc a w) -> wpc cut (require o r) Qc Qr w.
Proof. destruct o; unfold require; [intros _ H | intros H _]; apply H; reflexivity. Qed.

Lemma wp_get cut (Qc : World -> World -> Prop) Qr w : Qc w w -> wpc cut Stmt.get Qc Qr w.
Proof. exact (fun H => H). Qed.

Lemma wp_read cut {A} (f : PersistentStore -> A) (Qc : A -> World -> Prop) Qr w :
  Qc (f (store w)) w -> wpc cut (read f) Qc Qr w.
Proof. exact (fun H => H). Qed.

Lemma wp_authenticateUser cut (token : option string) (Qc : option User -> World -> Prop) Qr w :
  Qc (match token with
      | Some t => Store.findUserByToken (store w) t
      | None => None
      end) w ->
  wpc cut (authenticateUser token) Qc Qr w.
Proof. destruct token; exact (fun H => H). Qed.

Lemma wp_emit cut (e : Event) (Qc : unit -> World -> Prop) Qr w :
  Qc tt (record e w) -> wpc cut (Stmt.emit e) Qc Qr w.
Proof. exact (fun H => H). Qed.

Lemma wp_log_error cut (msg : string) (Qc : unit -> World -> Prop) Qr w :
  Qc tt (record (LoggedError msg) w) -> wpc cut (log_error msg) Qc Qr w.
Proof. exact (fun H => H). Qed.

Lemma wp_set_store cut (st : PersistentStore) (Qc : unit -> World -> Prop) Qr w :
  Qc tt (with_store st w) -> wpc cut (Stmt.set_store st) Qc Qr w.
Proof. exact (fun H => H). Qed.

Lemma wp_exec cut (env : Env) (c : Command) (Qc : CommandResult -> World -> Prop) Qr w :
  Qc (execute env (trace w) c) (record (Ran c) w) -> wpc cut (exec env c) Qc Qr w.
Proof. exact (fun H => H). Qed.

(** A write that the store accepts is recorded; one that it refuses
    changes nothing. *)
Lemma wp_write cut (f : PersistentStore -> PersistentStore) (e : StoreWrite)
    (Qc : bool -> World -> Prop) Qr w :
  (online (store w) = true -> Qc true (record (Wrote e) (with_store (f (store w)) w))) ->
  (online (store w) = false -> Qc false w) ->
  wpc cut (write (fun st => Store.write st f) e) Qc Qr w.
Proof.
  unfold wpc, write, Store.write, read.
  cbv [mbind M_bind mret M_ret Stmt.bind Stmt.pure Stmt.get Stmt.set_store Stmt.emit].
  destruct w as [st t d tr]. cbn [store]. destruct (online st) eqn:Hon; cbn.
  - intros H _. apply H. reflexivity.
  - intros _ H. apply H. reflexivity.
Qed.

Lemma wp_sleep_for cut (ms : Z) (Qc : unit -> World -> Prop) Qr w :
  Qc tt {| store := store w; now := now w + ms; draws := draws w;
           trace := trace w ++ [Slept ms] |} ->
  wpc cut (sleep_for ms) Qc Qr w.
Proof. exact (fun H => H). Qed.

Lemma wp_draw cut (env : Env) (Qc : Z -> World -> Prop) Qr w :
  Qc (idSource env (draws w))
     {| store := store w; now := now w; draws := S (draws w); trace := trace w |} ->
  wpc cut (draw env) Qc Qr w.
Proof. exact (fun H => H). Qed.

(** A call: whatever the callee returns or falls through with is the
    value of the call. *)
Lemma wp_call cut {A} (m : M A A) (Qc : A -> World -> Prop) Qr w :
  wpc cut m Qc Qc w -> wpc cut (Stmt.call m) Qc Qr w.
Proof.
  unfold wpc, Stmt.call, Stmt.run. destruct (m w) as [[r|a|] w']; auto.
Qed.

Lemma wp_mono cut {A} (m : M R A) (Qc Qc' : A -> World -> Prop) Qr Qr' w :
  wpc cut m Qc Qr w ->
  (forall a w', Qc a w' -> Qc' a w') -> (forall r w', Qr r w' -> Qr' r w') ->
  wpc cut m Qc' Qr' w.
Proof. unfold wpc. destruct (m w) as [[r|a|] w']; auto. Qed.

Lemma wp_for_each cut {A} (l : list A) (body : A -> M R unit) (I : World -> Prop) Qr w :
  I w ->
  (forall x w', In x l -> I w' -> wpc cut (body x) (fun _ => I) Qr w') ->
  wpc cut (for_each l body) (fun _ => I) Qr w.
Proof.
  revert w. induction l as [|x l IH]; intros w Hw Hbody; simpl.
  - exact Hw.
  - apply wp_bind. eapply wp_mono; [apply Hbody; [left; reflexivity | exact Hw] | | auto].
    intros [] w' Hw'. apply IH; [exact Hw'|]. intros y w'' Hy. apply Hbody. right. exact Hy.
Qed.

(** The result of a function body, from what holds after it. *)
Lemma wp_run cut (m : M R R) (Q : R -> World -> Prop) w :
  wpc cut m Q Q w ->
  match Stmt.run m w with
  | (Some r, w') => Q r w'
  | (None, _) => cut
  end.
Proof. unfold wpc, Stmt.run. destruct (m w) as [[r|a|] w']; auto. Qed.

End Rules.

End WpFacts.

(** One step through a statement. *)
Ltac wp_step :=
  cbv beta;
  lazymatch goal with
  | |- wpc _ (mbind _ _) _ _ _ => apply WpFacts.wp_bind
  | |- wpc _ (mret _) _ _ _ => apply WpFacts.wp_ret
  | |- wpc _ (Stmt.return_ _) _ _ _ => apply WpFacts.wp_return
  | |- wpc _ (ClusterCommands.reject_if _ _) _ _ _ =>
      apply WpFacts.wp_reject_if; intros ?
  | |- wpc _ (ClusterCommands.require _ _) _ _ _ =>
      apply WpFacts.wp_require; [intros ? | intros ? ?]
  | |- wpc _ (authenticateUser _) _ _ _ => apply WpFacts.wp_authenticateUser
  | |- wpc _ (read _) _ _ _ => apply WpFacts.wp_read
  | |- wpc _ Stmt.get _ _ _ => apply WpFacts.wp_get
  | |- wpc _ (Stmt.set_store _) _ _ _ => apply WpFacts.wp_set_store
  | |- wpc _ (Stmt.emit _) _ _ _ => apply WpFacts.wp_emit
  | |- wpc _ (log_error _) _ _ _ => apply WpFacts.wp_log_error
  | |- wpc _ (kubectl _ _ _) _ _ _ => apply WpFacts.wp_exec
  | |- wpc _ (helm _ _ _ _) _ _ _ => apply WpFacts.wp_exec
  | |- wpc _ (runCommand _ _ _ _) _ _ _ => apply WpFacts.wp_exec
  | |- wpc _ (exec _ _) _ _ _ => apply WpFacts.wp_exec
  | |- wpc _ (sleep_for _) _ _ _ => apply WpFacts.wp_sleep_for
  | |- wpc _ (draw _) _ _ _ => apply WpFacts.wp_draw
  | |- wpc _ (write (fun st => Store.write st _) _) _ _ _ =>
      apply WpFacts.wp_write; intros ?
  | |- wpc _ (if ?b then _ else _) _ _ _ => destruct b eqn:?
  | |- wpc _ (match ?x with _ => _ end) _ _ _ => destruct x eqn:?
  end.

(** ** Registration, path by path *)

Module RegistrationSummary.
Import ClusterCommands Spec Registration.

Lemma onlyAt_refl id st : onlyAt id st st.
Proof. exists (clusters st). split; [destruct st; reflexivity | reflexivity]. Qed.

Lemma onlyAt_insert id c st st' :
  onlyAt id st st' -> onlyAt id st (Store.with_clusters (insert id c) st').
Proof.
  intros (m & -> & Hm). exists (<[id := c]> m). split; [reflexivity|].
  intros k Hk. rewrite lookup_insert_ne by congruence. apply Hm, Hk.
Qed.

Lemma onlyAt_delete id st st' :
  onlyAt id st st' -> onlyAt id st (Store.with_clusters (delete id) st').
Proof.
  intros (m & -> & Hm). exists (delete id m). split; [reflexivity|].
  intros k Hk. rewrite lookup_delete_ne by congruence. apply Hm, Hk.
Qed.

(** The poll for tiller only runs commands, sleeps and logs; it never
    returns from the registration, and it sleeps for what is left of
    [maxDelay] at most. *)
Lemma wp_waitForTiller (env : Env) (fuel : nat) (configPath : string) (cluster : Cluster)
    (delaySoFar : Z) (w : World) :
  0 <= delaySoFar <= maxDelay -> (delay | maxDelay - delaySoFar) ->
  wpc True (waitForTiller env fuel configPath cluster delaySoFar)
     (fun _ w' => store w' = store w /\ draws w' = draws w
                  /\ now w <= now w' <= now w + (maxDelay - delaySoFar))
     (fun _ _ => False) w.
Proof.
  revert delaySoFar w. induction fuel as [|fuel IH]; intros d w Hd Hdiv; [exact I|].
  cbn [waitForTiller].
  repeat wp_step; cbn [store now draws trace record]; try (repeat split; lia).
  assert (Hstep : d + delay <= maxDelay).
  { destruct Hdiv as [q Hq]. unfold delay, maxDelay in *.
    apply Z.ltb_lt in Heqb1. lia. }
  eapply WpFacts.wp_mono; [apply IH | | auto].
  - unfold delay in *. lia.
  - destruct Hdiv as [q Hq]. exists (q - 1). lia.
  - cbn [store now draws trace]. intros _ w' (Hs & Hdr & Hn). unfold delay in *.
    repeat split; try assumption; lia.
Qed.

Lemma wp_for_each_log {R} (lines : list string) (Qc : unit -> World -> Prop)
    (Qr : R -> World -> Prop) (w : World) :
  Qc tt (logged lines w) -> wpc True (for_each lines log_error) Qc Qr w.
Proof.
  revert w. induction lines as [|l lines IH]; intros w H.
  - unfold logged in H. cbn in H. rewrite app_nil_r in H. destruct w. exact H.
  - cbn [for_each]. apply WpFacts.wp_bind, WpFacts.wp_log_error. apply IH.
    unfold logged, record in *. cbn in *. rewrite <- app_assoc. exact H.
Qed.

Ltac worlds :=
  cbn [store now draws trace record with_store logged online clusters
       Store.with_clusters code payload response] in *.

Ltac leaf :=
  split; unfold notAuthorized, registrationFailed; worlds;
  [ auto
  | unfold maxDelay in *; lia
  | first [ intros [?|?]; discriminate | auto ]
  | repeat first [apply onlyAt_insert | apply onlyAt_delete]; apply onlyAt_refl
  | try (intros ?; discriminate) ].

Ltac step :=
  lazymatch goal with
  | |- outcome _ _ _ _ _ => leaf
  | |- wpc True (write _ _) _ _ _ =>
      apply WpFacts.wp_write;
      let H := fresh "Hw" in intros H; worlds; try congruence; clear H
  | |- wpc True (for_each _ log_error) _ _ _ => apply wp_for_each_log
  | |- wpc True (let _ := _ in _) _ _ _ => cbv zeta
  | |- wpc True (if negb true then _ else _) _ _ _ => cbn [negb]
  | |- wpc True (if negb false then _ else _) _ _ _ => cbn [negb]
  | |- _ => wp_step
  end.

Lemma negb_false (b : bool) : negb b = false -> b = true.
Proof. destruct b; [reflexivity | discriminate]. Qed.

Lemma found_false {A} (o : option A) :
  match o with Some _ => true | None => false end = false -> o = None.
Proof. destruct o; [discriminate | reflexivity]. Qed.

Ltac registered user Hs :=
  split; worlds;
  [ auto
  | unfold maxDelay in *; lia
  | intros [?|?]; discriminate
  | rewrite Hs; repeat first [apply onlyAt_insert | apply onlyAt_delete]; apply onlyAt_refl
  | intros _; eexists user, _; rewrite Hs; worlds;
    split; [unfold requester; eassumption|];
    split; [unfold nextID; cbn [cluster_id]; apply lookup_insert_eq|];
    repeat (split; [reflexivity|]);
    split; [apply negb_false; assumption|];
    split; [apply found_false; assumption|];
    split; [apply found_false; assumption|];
    split; [assumption | reflexivity] ].

Lemma createCluster_summary (env : Env) (req : Request) (w : World) :
  wpc True (createCluster env req) (outcome env req w) (outcome env req w) w.
Proof.
  unfold createCluster.
  destruct (online (store w)) eqn:Hon.
  - repeat step.
    all: cbv zeta.
    all: eapply WpFacts.wp_mono;
      [apply wp_waitForTiller; [unfold maxDelay; lia | exists 240; reflexivity]
      | | intros ? ? []].
    all: intros ? w2 (Hs & Hd & Hn); worlds.
    all: match goal with a : User |- _ => registered a Hs end.
  - repeat step.
Qed.

End RegistrationSummary.

Module RegistrationOutcomes.
Import ClusterCommands Spec Registration RegistrationSummary.

Lemma createCluster_outcome (env : Env) (req : Request) (w : World) (r : Response) :
  fst (Stmt.run (createCluster env req) w) = Some r ->
  outcome env req w r (snd (Stmt.run (createCluster env req) w)).
Proof.
  intros H. pose proof (WpFacts.wp_run _ _ _ _ (createCluster_summary env req w)) as Hrun.
  destruct (Stmt.run (createCluster env req) w) as [[r'|] w']; [|discriminate].
  injection H as ->. exact Hrun.
Qed.

(** X5. A registration that is refused with 400 or 403 has changed
    nothing in the store and has run no command: every check of the
    request comes before the first write. *)
Theorem refused_registration_changes_nothing
    (env : Env) (req : Request) (w : World) (r : Response) :
  let after := Stmt.run (createCluster env req) w in
  fst after = Some r ->
  code r = 400 \/ code r = 403 ->
  store (snd after) = store w /\ trace (snd after) = trace w.
Proof. intros after Hr Hcode. exact (refusal _ _ _ _ _ (createCluster_outcome _ _ _ _ Hr) Hcode). Qed.

Lemma refused_registration_witness :
  let after := Stmt.run (createCluster Example.healthy (Example.asAlice [] JNull))
                 (Example.world Example.registry) in
  store (snd after) = Example.registry /\ trace (snd after) = [].
Proof.
  apply (refused_registration_changes_nothing Example.healthy (Example.asAlice [] JNull)
           (Example.world Example.registry)
           (response 400 (generateError "Invalid JSON in request body")));
    [vm_compute; reflexivity | left; reflexivity].
Defined.

(** X6. A registration that is answered 200 has filed the cluster under
    the ID that was generated for it, which matches the pattern of
    cluster IDs; the record carries the name, the unescaped kubeconfig
    and the organization of the request; the requester is a member of
    the owning group; the name contains no slash, does not begin with the
    prefix of cluster IDs, and was not the name of a cluster before; and
    the answer reports the ID and the name. *)
Theorem registered_cluster_is_recorded
    (env : Env) (req : Request) (w : World) (r : Response) :
  let after := Stmt.run (createCluster env req) w in
  fst after = Some r ->
  code r = 200 ->
  exists user cluster,
    requester (store w) req = Some user
    /\ clusters (store (snd after)) !! cluster_id cluster = Some cluster
    /\ cluster_id cluster
       = IDGenerator.generateID IDGenerator.ClusterKind (idSource env (draws w))
    /\ IDGenerator.matches_id_pattern IDGenerator.clusterIDPrefix (cluster_id cluster) = true
    /\ cluster_name cluster = sentName req
    /\ cluster_config cluster = unescape env (sentConfig req)
    /\ cluster_owningOrganization cluster = sentOrganization req
    /\ Store.userInGroup (store w) (user_id user) (cluster_owningGroup cluster) = true
    /\ Store.findClusterByName (store w) (sentName req) = None
    /\ Str.find_char "/" (sentName req) = None
    /\ Str.starts_with (sentName req) IDGenerator.clusterIDPrefix = false
    /\ payload r
       = JObject [apiVersion; ("kind", JString "Cluster");
                  ("metadata", JObject [("id", JString (cluster_id cluster));
                                        ("name", JString (sentName req))])].
Proof.
  intros after Hr Hcode.
  destruct (success _ _ _ _ _ (createCluster_outcome _ _ _ _ Hr) Hcode)
    as (user & cluster & Hu & Hl & Hid & Hn & Hc & Ho & Hm & Hf & Hs & Hp & Hpay).
  exists user, cluster. rewrite Hid. unfold nextID in *.
  split; [assumption|]. split; [assumption|]. split; [reflexivity|].
  split; [apply (ClientIDFacts.generateID_matches IDGenerator.ClusterKind)|].
  repeat (split; [assumption|]). assumption.
Qed.

Lemma registered_cluster_witness :
  let after := Stmt.run (createCluster Example.healthy Example.registration)
                 (Example.world Example.registry) in
  exists cluster,
    clusters (store (snd after)) !! "cluster_AAAAAAAAAAA" = Some cluster
    /\ cluster_name cluster = "c1"
    /\ cluster_config cluster = "kubeconfig-1"
    /\ cluster_owningOrganization cluster = "Department of Labor".
Proof.
  intros after.
  assert (Hr : fst after
               = Some (response 200
                         (JObject [apiVersion; ("kind", JString "Cluster");
                                   ("metadata",
                                    JObject [("id", JString "cluster_AAAAAAAAAAA");
                                             ("name", JString "c1")])])))
    by (vm_compute; reflexivity).
  destruct (registered_cluster_is_recorded Example.healthy Example.registration
              (Example.world Example.registry) _ Hr eq_refl)
    as (user & cluster & _ & Hl & Hid & _ & Hn & Hc & Ho & _).
  exists cluster. rewrite Hid in Hl.
  split; [exact Hl|]. split; [exact Hn|]. split; [exact Hc | exact Ho].
Defined.

(** X7. Registration always answers, with 200, 400, 403 or 500, and the
    only time it spends asleep is in the poll for tiller: at most
    [maxDelay], 120 seconds, in all. *)
Theorem registration_waits_at_most_two_minutes (env : Env) (req : Request) (w : World) :
  let after := Stmt.run (createCluster env req) w in
  exists r,
    fst after = Some r
    /\ (code r = 200 \/ code r = 400 \/ code r = 403 \/ code r = 500)
    /\ now w <= now (snd after) <= now w + 120000.
Proof.
  intros after.
  destruct (RegistrationFacts.createCluster_returns env req w) as [r Hr].
  exists r. split; [exact Hr|].
  pose proof (createCluster_outcome _ _ _ _ Hr) as Hout.
  split; [exact (codes _ _ _ _ _ Hout) | exact (duration _ _ _ _ _ Hout)].
Qed.

(** X8. Whatever its answer, a registration leaves every table of the
    store but the clusters as it was, and every cluster record but the
    one under the generated ID. *)
Theorem registration_touches_one_cluster_record (env : Env) (req : Request) (w : World) :
  let st := store w in
  let st' := store (snd (Stmt.run (createCluster env req) w)) in
  let id := IDGenerator.generateID IDGenerator.ClusterKind (idSource env (draws w)) in
  (forall k, k <> id -> clusters st' !! k = clusters st !! k)
  /\ online st' = online st /\ users st' = users st /\ groups st' = groups st
  /\ instances st' = instances st /\ secrets st' = secrets st
  /\ memberships st' = memberships st /\ access st' = access st
  /\ locations st' = locations st /\ reachability st' = reachability st.
Proof.
  intros st st' id.
  destruct (RegistrationFacts.createCluster_returns env req w) as [r Hr].
  destruct (frame _ _ _ _ _ (createCluster_outcome _ _ _ _ Hr)) as (m & Hst & Hm).
  subst st'. rewrite Hst. cbn. auto 12.
Qed.

End RegistrationOutcomes.

(** ** The line scans of registration *)

Module ScanFacts.
Import ClusterCommands Scans.

(** X9. Tiller is taken to be ready only if some line of the listing of
    pods shows a tiller pod with all of its containers ready. A line of
    a tiller pod whose ready column cannot be read ends the scan: tiller
    is then taken not to be ready, whatever the lines after it show. *)
Theorem tiller_is_ready_only_by_a_ready_line :
  (forall lines, tillerReady lines = true -> exists line, In line lines /\ readyLine line)
  /\ (forall line rest, unreadableLine line -> tillerReady (line :: rest) = false).
Proof.
  split.
  - induction lines as [|line lines IH]; cbn [tillerReady]; [discriminate|].
    intros H.
    assert (Hrest : tillerReady lines = true -> exists l, In l (line :: lines) /\ readyLine l).
    { intros Hr. destruct (IH Hr) as (l & Hin & Hl). exists l. split; [right; exact Hin | exact Hl]. }
    destruct (Utilities.string_split_columns line " " false)
      as [|token0 [|token1 [|token2 rest]]] eqn:Hsplit; try (apply Hrest, H).
    destruct (Str.contains token0 "tiller-deploy") eqn:Htiller; cbn [negb] in H;
      [|apply Hrest, H].
    destruct (Str.find_char "/" token1) as [slashPos|] eqn:Hslash; [|discriminate].
    destruct (Nat.eqb slashPos 0 || Nat.eqb (slashPos + 1) (String.length token1));
      [discriminate|].
    destruct (Utilities.stoul (Str.take slashPos token1)) as [numer|] eqn:Hn; [|discriminate].
    destruct (Utilities.stoul (Str.drop (slashPos + 1) token1)) as [denom|] eqn:Hd;
      [|discriminate].
    destruct ((0 <? numer) && (numer =? denom)) eqn:Hready; [|apply Hrest, H].
    apply andb_true_iff in Hready as [Hpos Heq].
    apply Z.ltb_lt in Hpos. apply Z.eqb_eq in Heq. subst denom.
    exists line. split; [left; reflexivity|].
    exists token0, token1, token2, rest, slashPos, numer. auto 10.
  - intros line rest (token0 & token1 & token2 & tokens & Hsplit & Htiller & Hbad).
    cbn [tillerReady]. rewrite Hsplit, Htiller. cbn [negb].
    destruct Hbad as [->|(slashPos & -> & Hbad)]; [reflexivity|].
    destruct Hbad as [->|[Hlast|[Hn|Hd]]].
    + reflexivity.
    + apply Nat.eqb_eq in Hlast. rewrite Hlast, orb_true_r. reflexivity.
    + destruct (_ || _); [reflexivity|]. rewrite Hn. reflexivity.
    + destruct (_ || _); [reflexivity|].
      destruct (Utilities.stoul (Str.take slashPos token1)); [rewrite Hd|]; reflexivity.
Qed.

Lemma checkNamespaceLines_okay (ns : string) (lines : list string) (okay : bool)
    (badline : string) :
  (checkNamespaceLines ns lines okay badline).1.1 = true
  <-> okay = true \/ exists line, In line lines /\ namespaceLine ns line.
Proof.
  revert okay badline. induction lines as [|line lines IH]; intros okay badline;
    cbn [checkNamespaceLines].
  - cbn. split; [auto | intros [H|(l & [] & _)]; exact H].
  - assert (Hskip : forall items, Utilities.string_split_columns line " " false = items ->
                      items <> ["Namespace:"; ns] ->
                      (okay = true \/ (exists l, In l lines /\ namespaceLine ns l))
                      <-> (okay = true \/ exists l, In l (line :: lines) /\ namespaceLine ns l)).
    { intros items Hitems Hne. split.
      - intros [H|(l & Hin & Hl)]; [left; exact H | right; exists l; split; [right|]; assumption].
      - intros [H|(l & [<-|Hin] & Hl)]; [left; exact H | | right; exists l; auto].
        unfold namespaceLine in Hl. congruence. }
    destruct (Utilities.string_split_columns line " " false)
      as [|item0 [|item1 [|item2 items]]] eqn:Hsplit;
      try (rewrite IH; apply (Hskip _ eq_refl); discriminate).
    destruct (String.eqb_spec item0 "Namespace:") as [->|Hne0].
    + destruct (String.eqb_spec item1 ns) as [->|Hne1].
      * rewrite IH. split; [intros _|auto].
        right. exists line. split; [left; reflexivity | exact Hsplit].
      * destruct (checkNamespaceLines ns lines okay line) as [[o b] logged] eqn:Hrec.
        cbn [fst]. specialize (IH okay line). rewrite Hrec in IH. cbn [fst] in IH.
        rewrite IH. apply (Hskip _ eq_refl). congruence.
    + rewrite IH. apply (Hskip _ eq_refl). congruence.
Qed.

(** X10. The check of the namespace against the description of the
    ServiceAccount passes exactly if some line of the description has
    the two columns [Namespace:] and the system namespace; lines that
    give another namespace do not undo a line that matches, whether they
    come before it or after it. *)
Theorem namespace_check_passes_iff_a_line_matches (ns : string) (lines : list string) :
  (checkNamespaceLines ns lines false "").1.1 = true
  <-> exists line, In line lines /\ namespaceLine ns line.
Proof.
  rewrite checkNamespaceLines_okay. split; [intros [H|H]; [discriminate | exact H] | auto].
Qed.

End ScanFacts.

(** ** Queries, permitted applications, verification and repair *)

Module QueryFacts.
Import ClusterCommands ClusterQueries Spec ClusterConsistencyResult.

Ltac worlds :=
  cbn [store now draws trace record with_store online] in *.

(** The listing of the secrets of the namespaces changes nothing in the
    store and always comes to its end. *)
Lemma wp_observedSecrets (env : Env) (configPath : string) (namespaceNames : list string)
    (names : gset string) (w : World) :
  wpc False (observedSecrets env configPath namespaceNames names)
    (fun _ w' => store w' = store w) (fun _ _ => False) w.
Proof.
  revert names w. induction namespaceNames as [|n rest IH]; intros names w.
  - reflexivity.
  - cbn [observedSecrets]. repeat wp_step.
    + eapply WpFacts.wp_mono; [apply IH | | auto]. intros ? ? H. exact H.
    + eapply WpFacts.wp_mono; [apply IH | | auto]. intros ? ? H. exact H.
Qed.

Lemma emplace_keys {V} (key : V -> string) (l : list V) (m : gmap string V) (k : string) :
  is_Some (fold_left (fun m v => emplace (key v) v m) l m !! k)
  <-> is_Some (m !! k) \/ In k (key <$> l).
Proof.
  revert m. induction l as [|v l IH]; intros m; cbn [fold_left fmap list_fmap In].
  - tauto.
  - rewrite IH. unfold emplace.
    destruct (m !! key v) as [v'|] eqn:Hv.
    + split; [tauto|]. intros [H|[<-|H]]; auto.
    + destruct (decide (key v = k)) as [<-|Hne].
      * rewrite lookup_insert_eq. split; [auto|]. intros _. left. eauto.
      * rewrite lookup_insert_ne by exact Hne. tauto.
Qed.

(** What [toJSON] relies on: every missing instance has its entry in
    [expectedInstancesByName]. *)
Definition resolvable (r : ClusterConsistencyResult.t) : Prop :=
  forall name, name ∈ missingInstances r -> is_Some (expectedInstancesByName r !! name).

Lemma resolvable_initial (s : ClusterConsistencyState) : resolvable (initial s).
Proof. intros name H. cbn in H. set_solver. Qed.

Lemma resolvable_made (expected : list ApplicationInstance) (existing : gset string)
    (r : ClusterConsistencyResult.t) :
  missingInstances r = list_to_set (instance_name <$> expected) ∖ existing ->
  expectedInstancesByName r
  = fold_left (fun m instance => emplace (instance_name instance) instance m) expected ∅ ->
  resolvable r.
Proof.
  intros Hm Hb name H. rewrite Hm in H. rewrite Hb.
  apply emplace_keys. right.
  apply elem_of_difference in H as [H _].
  apply elem_of_list_to_set in H. apply list_elem_of_In. exact H.
Qed.

Lemma wp_make (env : Env) (cluster : Cluster) (w : World) :
  wpc False (make env cluster)
    (fun r w' => store w' = store w /\ resolvable r)
    (fun r w' => store w' = store w /\ resolvable r) w.
Proof.
  unfold make.
  do 3 wp_step. apply WpFacts.wp_call. unfold internal.pingCluster.
  repeat first
    [ wp_step
    | eapply WpFacts.wp_mono;
      [apply wp_observedSecrets | intros ? ? ? | intros ? ? []] ];
    worlds.
  all: split; [congruence || reflexivity|].
  all: first [apply resolvable_initial | eapply resolvable_made; reflexivity].
Qed.

Lemma make_runs (env : Env) (cluster : Cluster) (w : World) :
  exists result w',
    Stmt.run (make env cluster) w = (Some result, w')
    /\ store w' = store w /\ resolvable result.
Proof.
  pose proof (WpFacts.wp_run _ _ _ _ (wp_make env cluster w)) as H.
  destruct (Stmt.run (make env cluster) w) as [[result|] w']; [|contradiction].
  exists result, w'. split; [reflexivity | exact H].
Qed.

Lemma insert_sorted_In (x y : string) (l : list string) :
  In x (insert_sorted y l) <-> x = y \/ In x l.
Proof.
  induction l as [|z l IH]; cbn [insert_sorted In].
  - intuition congruence.
  - destruct (String.leb y z); cbn [In]; [intuition congruence|].
    rewrite IH. intuition congruence.
Qed.

Lemma sorted_In (l : list string) (x : string) :
  In x (foldr insert_sorted [] l) <-> In x l.
Proof.
  induction l as [|y l IH]; cbn [foldr In]; [reflexivity|].
  rewrite insert_sorted_In, IH. intuition congruence.
Qed.

Lemma ordered_In (s : gset string) (x : string) : In x (ordered s) <-> x ∈ s.
Proof.
  unfold ordered. rewrite sorted_In, <- list_elem_of_In. apply elem_of_elements.
Qed.

Lemma insert_sorted_length (y : string) (l : list string) :
  length (insert_sorted y l) = S (length l).
Proof.
  induction l as [|z l IH]; cbn [insert_sorted length]; [reflexivity|].
  destruct (String.leb y z); cbn [length]; [reflexivity | rewrite IH; reflexivity].
Qed.

Lemma ordered_length (s : gset string) : length (ordered s) = size s.
Proof.
  unfold ordered, size, set_size. cbn.
  induction (elements s) as [|y l IH]; cbn [foldr length]; [reflexivity|].
  rewrite insert_sorted_length, IH. reflexivity.
Qed.

Lemma missingResults_defined (byName : gmap string ApplicationInstance) (l : list string) :
  (forall name, In name l -> is_Some (byName !! name)) ->
  exists items, missingResults byName l = Some items /\ length items = length l.
Proof.
  induction l as [|name l IH]; intros H; cbn [missingResults].
  - exists []. split; reflexivity.
  - destruct (H name (or_introl eq_refl)) as [instance ->].
    destruct IH as (items & -> & Hlen); [intros n Hn; apply H; right; exact Hn|].
    eexists. split; [reflexivity|]. cbn. rewrite Hlen. reflexivity.
Qed.

(** The JSON of a result whose missing instances all resolve: its
    status and the number of missing instances it lists. *)
Lemma toJSON_defined (r : ClusterConsistencyResult.t) :
  resolvable r ->
  exists j missing,
    toJSON r = Some j
    /\ Json.member "status" j = Some (JString (statusName (status r)))
    /\ Json.member "missingInstances" j = Some (JArray missing)
    /\ length missing = size (missingInstances r).
Proof.
  intros Hr. unfold toJSON.
  destruct (missingResults_defined (expectedInstancesByName r) (ordered (missingInstances r)))
    as (items & -> & Hlen).
  { intros name Hn. apply Hr, ordered_In, Hn. }
  eexists _, items. split; [reflexivity|]. split; [reflexivity|]. split; [reflexivity|].
  rewrite Hlen. apply ordered_length.
Qed.

Ltac run_stmt :=
  cbv [mbind M_bind mret M_ret Stmt.bind Stmt.pure Stmt.return_ Stmt.get Stmt.run
       Stmt.call Stmt.emit Stmt.set_store read authenticateUser
       ClusterCommands.require ClusterCommands.reject_if update].

Section Handlers.

Variable env : Env.
Variable catalogue : Catalogue.t.

(** X16. A verification asked for by any authenticated user, of a cluster
    that the store knows, is always answered: 200 with the JSON of the
    result of the consistency check, which gives the status by its name
    and one entry for every missing instance. The unchecked look-up of
    the missing instances in [toJSON] finds each of them. The store is
    as it was. *)
Theorem verification_always_has_an_answer
    (req : Request) (clusterID : string) (w : World) (user : User) (cluster : Cluster) :
  requester (store w) req = Some user ->
  Store.getCluster (store w) clusterID = Some cluster ->
  exists result j missing w',
    fst (Stmt.run (make env cluster) w) = Some result
    /\ toJSON result = Some j
    /\ Stmt.run (verifyCluster env req clusterID) w = (Some (Some (response 200 j)), w')
    /\ store w' = store w
    /\ Json.member "status" j = Some (JString (statusName (status result)))
    /\ Json.member "missingInstances" j = Some (JArray missing)
    /\ length missing = size (missingInstances result).
Proof.
  intros Hu Hc.
  destruct (make_runs env cluster w) as (result & w' & Hrun & Hs & Hres).
  destruct (toJSON_defined result Hres) as (j & missing & Hj & Hstatus & Hmissing & Hlen).
  exists result, j, missing, w'.
  split; [rewrite Hrun; reflexivity|]. split; [exact Hj|].
  split; [|auto].
  unfold requester in Hu. unfold verifyCluster. run_stmt.
  destruct (url_param req "token") as [token|]; [|discriminate].
  cbv [read]. run_stmt. rewrite Hu, Hc.
  unfold Stmt.run in Hrun. destruct (make env cluster w) as [[r|r|] w2]; try discriminate;
    injection Hrun as -> ->; rewrite Hj; reflexivity.
Qed.

Ltac refuse H :=
  unfold requester in H; run_stmt;
  destruct (url_param _ "token") as [?|]; run_stmt; rewrite ?H; reflexivity.

(** X11. A request without a token, or with a token that no user holds,
    is answered 403 by every cluster command before anything is read of
    the request, written to the store or run on a cluster. *)
Theorem unauthenticated_requests_are_refused (req : Request) (w : World) :
  requester (store w) req = None ->
  Stmt.run (ClusterQueries.listClusters catalogue req) w = (Some notAuthorized, w)
  /\ Stmt.run (createCluster env req) w = (Some notAuthorized, w)
  /\ (forall clusterID,
        Stmt.run (getClusterInfo req clusterID) w = (Some notAuthorized, w)
        /\ Stmt.run (deleteCluster env req clusterID) w = (Some notAuthorized, w)
        /\ Stmt.run (updateCluster env req clusterID) w = (Some notAuthorized, w)
        /\ Stmt.run (listClusterAllowedgroups req clusterID) w = (Some notAuthorized, w)
        /\ Stmt.run (ClusterCommands.pingCluster env req clusterID) w
           = (Some notAuthorized, w)
        /\ Stmt.run (verifyCluster env req clusterID) w = (Some (Some notAuthorized), w)
        /\ Stmt.run (repairCluster env req clusterID) w = (Some notAuthorized, w))
  /\ (forall clusterID groupID,
        Stmt.run (grantGroupClusterAccess req clusterID groupID) w = (Some notAuthorized, w)
        /\ Stmt.run (revokeGroupClusterAccess req clusterID groupID) w
           = (Some notAuthorized, w)
        /\ Stmt.run (listClusterGroupAllowedApplications catalogue req clusterID groupID) w
           = (Some notAuthorized, w))
  /\ (forall clusterID groupID applicationName,
        Stmt.run (allowGroupUseOfApplication catalogue req clusterID groupID applicationName) w
        = (Some notAuthorized, w)
        /\ Stmt.run (ClusterQueries.denyGroupUseOfApplication catalogue req clusterID groupID
                       applicationName) w
           = (Some notAuthorized, w)).
Proof.
  intros H.
  split; [unfold ClusterQueries.listClusters; refuse H|].
  split; [unfold createCluster; refuse H|].
  split; [intros clusterID | split; [intros clusterID groupID
                                    | intros clusterID groupID applicationName]].
  - split; [unfold getClusterInfo; refuse H|].
    split; [unfold deleteCluster; refuse H|].
    split; [unfold updateCluster; refuse H|].
    split; [unfold listClusterAllowedgroups; refuse H|].
    split; [unfold ClusterCommands.pingCluster; refuse H|].
    split; [unfold verifyCluster; refuse H|].
    unfold repairCluster; refuse H.
  - split; [unfold grantGroupClusterAccess; refuse H|].
    split; [unfold revokeGroupClusterAccess; refuse H|].
    unfold listClusterGroupAllowedApplications; refuse H.
  - split; [unfold allowGroupUseOfApplication; refuse H|].
    unfold ClusterQueries.denyGroupUseOfApplication; refuse H.
Qed.

(** The world after lines have been logged. *)
Lemma wp_listedGroups {cut} (cluster : Cluster) (groupIDs : list string)
    (Qr : Response -> World -> Prop) (w : World) :
  wpc cut (listedGroups cluster groupIDs)
    (fun _ w' => store w' = store w /\ now w' = now w /\ draws w' = draws w
                 /\ exists msgs, trace w' = trace w ++ (LoggedError <$> msgs))
    Qr w.
Proof.
  revert w. induction groupIDs as [|g rest IH]; intros w.
  - cbn [listedGroups]. wp_step. repeat split. exists []. cbn. rewrite app_nil_r. reflexivity.
  - cbn [listedGroups]. repeat wp_step;
      (eapply WpFacts.wp_mono; [apply IH | | auto]);
      intros items w' (Hs & Hn & Hd & msgs & Ht); worlds; repeat wp_step.
    + repeat split; try assumption. exists msgs. exact Ht.
    + repeat split; try assumption. eexists (_ :: msgs). rewrite Ht, <- app_assoc. reflexivity.
Qed.

Lemma run_eq {R} (m : M R R) (Q : R -> World -> Prop) (w : World) :
  wpc False m Q Q w ->
  exists r, fst (Stmt.run m w) = Some r /\ Q r (snd (Stmt.run m w)).
Proof.
  intros H. pose proof (WpFacts.wp_run _ _ _ _ H) as Hrun.
  destruct (Stmt.run m w) as [[r|] w']; [|contradiction]. exists r. split; [reflexivity | exact Hrun].
Qed.

(** X12. The queries read only: listing the clusters, the information on
    one cluster and the applications permitted to a group leave the
    world as it was; listing the groups allowed on a cluster only logs
    errors; a verification and a repair run commands on the cluster and
    leave the store as it was. *)
Theorem queries_leave_the_store_as_it_is (req : Request) (w : World) :
  snd (Stmt.run (ClusterQueries.listClusters catalogue req) w) = w
  /\ (forall clusterID, snd (Stmt.run (getClusterInfo req clusterID) w) = w)
  /\ (forall clusterID groupID,
        snd (Stmt.run (listClusterGroupAllowedApplications catalogue req clusterID groupID) w)
        = w)
  /\ (forall clusterID,
        let w' := snd (Stmt.run (listClusterAllowedgroups req clusterID) w) in
        store w' = store w /\ now w' = now w /\ draws w' = draws w
        /\ exists msgs, trace w' = trace w ++ (LoggedError <$> msgs))
  /\ (forall clusterID, store (snd (Stmt.run (verifyCluster env req clusterID) w)) = store w)
  /\ (forall clusterID, store (snd (Stmt.run (repairCluster env req clusterID) w)) = store w).
Proof.
  split; [|split; [|split; [|split; [|split]]]].
  - destruct (run_eq (ClusterQueries.listClusters catalogue req) (fun _ w' => w' = w) w)
      as (r & _ & H); [|exact H].
    unfold ClusterQueries.listClusters. repeat wp_step; reflexivity.
  - intros clusterID.
    destruct (run_eq (getClusterInfo req clusterID) (fun _ w' => w' = w) w)
      as (r & _ & H); [|exact H].
    unfold getClusterInfo. repeat wp_step; reflexivity.
  - intros clusterID groupID.
    destruct (run_eq (listClusterGroupAllowedApplications catalogue req clusterID groupID)
                (fun _ w' => w' = w) w) as (r & _ & H); [|exact H].
    unfold listClusterGroupAllowedApplications. repeat wp_step; reflexivity.
  - intros clusterID w'. subst w'.
    destruct (run_eq (listClusterAllowedgroups req clusterID)
                (fun _ w' => store w' = store w /\ now w' = now w /\ draws w' = draws w
                             /\ exists msgs, trace w' = trace w ++ (LoggedError <$> msgs)) w)
      as (r & _ & H); [|exact H].
    assert (Hsame : store w = store w /\ now w = now w /\ draws w = draws w
                    /\ exists msgs, trace w = trace w ++ (LoggedError <$> msgs)).
    { repeat split. exists []. cbn. rewrite app_nil_r. reflexivity. }
    unfold listClusterAllowedgroups.
    repeat first
      [ wp_step
      | eapply WpFacts.wp_mono;
        [apply (wp_listedGroups _ _ (fun _ _ => False))
        | intros ? ? Hpost; wp_step; exact Hpost
        | intros ? ? []] ];
      exact Hsame.
  - intros clusterID.
    destruct (run_eq (verifyCluster env req clusterID) (fun _ w' => store w' = store w) w)
      as (r & _ & H); [|exact H].
    unfold verifyCluster. repeat wp_step; try reflexivity.
    apply WpFacts.wp_call.
    eapply WpFacts.wp_mono; [apply wp_make | intros ? ? [Hs _] | intros ? ? [Hs _]];
      wp_step; exact Hs.
  - intros clusterID.
    destruct (run_eq (repairCluster env req clusterID) (fun _ w' => store w' = store w) w)
      as (r & _ & H); [|exact H].
    unfold repairCluster. repeat wp_step; try reflexivity.
    apply WpFacts.wp_call.
    eapply WpFacts.wp_mono; [apply wp_make | intros ? ? [Hs _] | intros ? ? [Hs _]];
      wp_step; exact Hs.
Qed.

(** X13. A cluster is deleted by members of its owning group only: an
    authenticated requester who is not a member, administrator or not,
    is answered 403, and nothing is deleted, run or logged. *)
Theorem cluster_deletion_is_for_members_only
    (req : Request) (clusterID : string) (w : World) (user : User) (cluster : Cluster) :
  requester (store w) req = Some user ->
  Store.getCluster (store w) clusterID = Some cluster ->
  Store.userInGroup (store w) (user_id user) (cluster_owningGroup cluster) = false ->
  Stmt.run (deleteCluster env req clusterID) w = (Some notAuthorized, w).
Proof.
  intros Hu Hc Hm. unfold requester in Hu. unfold deleteCluster. run_stmt.
  destruct (url_param req "token") as [token|]; [|discriminate].
  run_stmt. rewrite Hu, Hc, Hm. reflexivity.
Qed.

(** X14. A repair is for administrators: any other requester, a member of
    the owning group included, is answered 403 before anything is done.
    For an administrator and a cluster that the store knows, the
    consistency check is run, the answer is 200, and nothing is repaired:
    the store is as it was. *)
Theorem repair_is_for_administrators_and_repairs_nothing
    (req : Request) (clusterID : string) (w : World) (user : User) :
  requester (store w) req = Some user ->
  (user_admin user = false ->
   Stmt.run (repairCluster env req clusterID) w = (Some notAuthorized, w))
  /\ (user_admin user = true ->
      forall cluster, Store.getCluster (store w) clusterID = Some cluster ->
      exists w',
        Stmt.run (repairCluster env req clusterID) w = (Some (response 200 JNull), w')
        /\ store w' = store w
        /\ w' = snd (Stmt.run (make env cluster) w)).
Proof.
  intros Hu. unfold requester in Hu. unfold repairCluster.
  destruct (url_param req "token") as [token|] eqn:Ht; [|discriminate].
  split.
  - intros Hadmin. run_stmt. rewrite Hu, Hadmin. reflexivity.
  - intros Hadmin cluster Hc.
    destruct (make_runs env cluster w) as (result & w' & Hrun & Hs & _).
    exists w'. rewrite Hrun. split; [|auto].
    run_stmt. rewrite Hu, Hadmin. cbn [negb]. rewrite Hc.
    unfold Stmt.run in Hrun. destruct (make env cluster w) as [[r|r|] w2]; try discriminate;
      injection Hrun as -> ->; reflexivity.
Qed.

(** X15. The applications that a group may use on a cluster are listed for
    the members of that group, and set by administrators and members of
    the group that owns the cluster only: a requester who is a member of
    the group, but neither an administrator nor a member of the owning
    group, gets the list with 200, and 403 when asking to allow or to
    deny an application, with the store untouched. *)
Theorem permitted_applications_are_set_by_owners_only
    (req : Request) (clusterID groupID applicationName : string) (w : World)
    (user : User) (cluster : Cluster) (group : Group) :
  requester (store w) req = Some user ->
  Store.getCluster (store w) clusterID = Some cluster ->
  Store.getGroup (store w) groupID = Some group ->
  user_admin user = false ->
  Store.userInGroup (store w) (user_id user) (cluster_owningGroup cluster) = false ->
  Store.userInGroup (store w) (user_id user) (group_id group) = true ->
  Stmt.run (listClusterGroupAllowedApplications catalogue req clusterID groupID) w
  = (Some (response 200
             (JObject [apiVersion;
                       ("items",
                        JArray (JString
                                <$> Catalogue.listApplicationsGroupMayUseOnCluster catalogue
                                      (store w) (group_id group) (cluster_id cluster)))])), w)
  /\ Stmt.run (allowGroupUseOfApplication catalogue req clusterID groupID applicationName) w
     = (Some notAuthorized, w)
  /\ Stmt.run (ClusterQueries.denyGroupUseOfApplication catalogue req clusterID groupID
                 applicationName) w
     = (Some notAuthorized, w).
Proof.
  intros Hu Hc Hg Hadmin Howner Hmember. unfold requester in Hu.
  destruct (url_param req "token") as [token|] eqn:Ht; [|discriminate].
  split; [|split].
  - unfold listClusterGroupAllowedApplications. run_stmt.
    rewrite Ht. run_stmt. rewrite Hu, Hc, Hg, Hadmin, Howner, Hmember. reflexivity.
  - unfold allowGroupUseOfApplication. run_stmt.
    rewrite Ht. run_stmt. rewrite Hu, Hc, Hg, Hadmin, Howner. reflexivity.
  - unfold ClusterQueries.denyGroupUseOfApplication. run_stmt.
    rewrite Ht. run_stmt. rewrite Hu, Hc, Hg, Hadmin, Howner. reflexivity.
Qed.

End Handlers.



End QueryFacts.

(** ** Updates, path by path *)

Module UpdateSummary.
Import ClusterCommands Spec Updating.

Lemma updatedAt_refl c st : updatedAt c st st.
Proof. unfold updatedAt. auto 15. Qed.

Lemma updatedAt_cluster c c' st st' :
  updatedAt c st st' -> sameIdentity c c' ->
  updatedAt c st (Store.with_clusters (insert (cluster_id c') c') st').
Proof.
  unfold updatedAt. intros (?&?&?&?&?&?&?&?&Hc&Hl&_) Hid. cbn.
  destruct Hid as (Hid & Hrest). rewrite Hid.
  repeat (split; [assumption|]).
  split; [intros k Hk; rewrite lookup_insert_ne by congruence; apply Hc, Hk|].
  split; [assumption|].
  right. exists c'. split; [apply lookup_insert_eq | split; assumption].
Qed.

Lemma updatedAt_locations c ls st st' :
  updatedAt c st st' ->
  updatedAt c st (Store.with_locations (insert (cluster_id c) ls) st').
Proof.
  unfold updatedAt. intros (?&?&?&?&?&?&?&?&Hc&Hl&Hident). cbn.
  repeat (split; [assumption|]).
  split; [intros k Hk; rewrite lookup_insert_ne by congruence; apply Hl, Hk|].
  assumption.
Qed.

Lemma sameIdentity_refl c : sameIdentity c c.
Proof. unfold sameIdentity. auto. Qed.

Lemma sameIdentity_config c c' config :
  sameIdentity c c' -> sameIdentity c (set_config config c').
Proof. unfold sameIdentity. cbn. auto. Qed.

Lemma sameIdentity_organization c c' org :
  sameIdentity c c' -> sameIdentity c (set_owningOrganization org c').
Proof. unfold sameIdentity. cbn. auto. Qed.

Ltac worlds :=
  cbn [store now draws trace record with_store online clusters locations
       Store.with_clusters Store.with_locations code payload response
       cluster_id set_config set_owningOrganization] in *.

Ltac identity :=
  repeat first [apply sameIdentity_config | apply sameIdentity_organization];
  apply sameIdentity_refl.

Ltac framed :=
  repeat first
    [ apply updatedAt_refl
    | apply (updatedAt_locations _ _ _ _)
    | match goal with
      | |- updatedAt ?c _ (Store.with_clusters (insert _ ?c') _) =>
          apply (updatedAt_cluster c c'); [|identity]
      end ].

Ltac located :=
  first
    [ intros ?; discriminate
    | intros _ ? Hloc; unfold sentLocation in Hloc;
      match goal with
      | H : Json.member "location" _ = _ |- _ =>
          rewrite H in Hloc;
          first
            [ discriminate
            | injection Hloc as <-; eexists; split; [eassumption | apply lookup_insert_eq] ]
      end ].

Ltac leaf :=
  split; unfold notAuthorized, probeFailure; worlds;
  [ auto
  | intros [?|[?|[? ?]]]; first [discriminate | congruence | reflexivity]
  | intros [?|[? ?]]; first [discriminate | congruence | reflexivity]
  | framed
  | located ].

Ltac step Hc :=
  rewrite ?Hc;
  lazymatch goal with
  | |- wpc _ (write _ _) _ _ _ =>
      apply WpFacts.wp_write;
      let H := fresh "Hw" in intros H; worlds; try congruence; clear H
  | |- wpc _ (let _ := _ in _) _ _ _ => cbv zeta
  | |- wpc _ (if negb true then _ else _) _ _ _ => cbn [negb]
  | |- wpc _ (if negb false then _ else _) _ _ _ => cbn [negb]
  | |- wpc _ (if negb (_ && _) then _ else _) _ _ _ => cbn [negb andb]
  | |- wpc _ (require (Some _) _) _ _ _ => apply WpFacts.wp_ret
  | |- wpc _ _ _ _ _ => wp_step
  | |- _ => leaf
  end.

Lemma updateCluster_summary (env : Env) (req : Request) (clusterID : string) (w : World)
    (cluster : Cluster) :
  Store.getCluster (store w) clusterID = Some cluster ->
  wpc False (updateCluster env req clusterID) (outcome req cluster w) (outcome req cluster w) w.
Proof.
  intros Hc. unfold updateCluster.
  destruct (online (store w)) eqn:Hon; repeat step Hc.
Qed.

Lemma updateCluster_outcome (env : Env) (req : Request) (clusterID : string) (w : World)
    (cluster : Cluster) :
  Store.getCluster (store w) clusterID = Some cluster ->
  exists r,
    fst (Stmt.run (updateCluster env req clusterID) w) = Some r
    /\ outcome req cluster w r (snd (Stmt.run (updateCluster env req clusterID) w)).
Proof.
  intros Hc.
  pose proof (WpFacts.wp_run _ _ _ _ (updateCluster_summary env req clusterID w cluster Hc))
    as Hrun.
  destruct (Stmt.run (updateCluster env req clusterID) w) as [[r|] w']; [|contradiction].
  exists r. split; [reflexivity | exact Hrun].
Qed.

End UpdateSummary.

Module UpdateOutcomes.
Import ClusterCommands ClusterQueries Spec Updating UpdateSummary.

(** X17. The request for an update is checked as a whole before anything
    is written: when the answer is 403, or 400 for another reason than
    the failure of the probe after the update, the world is as it was,
    even when other members of the request were well formed. *)
Theorem invalid_update_changes_nothing
    (env : Env) (req : Request) (clusterID : string) (w : World) (cluster : Cluster) :
  Store.getCluster (store w) clusterID = Some cluster ->
  let after := Stmt.run (updateCluster env req clusterID) w in
  exists r,
    fst after = Some r
    /\ (code r = 403 \/ (code r = 400 /\ r <> probeFailure) -> snd after = w).
Proof.
  intros Hc after. destruct (updateCluster_outcome env req clusterID w cluster Hc) as (r & Hr & Ho).
  exists r. split; [exact Hr | exact (silent _ _ _ _ _ Ho)].
Qed.

(** X18. Whatever its answer, an update of a cluster changes nothing in
    the store but the record and the locations of that cluster, and the
    record keeps its ID, its name, its owning group and its system
    namespace: only the kubeconfig and the organization can be new. *)
Theorem update_keeps_the_identity_of_the_cluster
    (env : Env) (req : Request) (clusterID : string) (w : World) (cluster : Cluster) :
  Store.getCluster (store w) clusterID = Some cluster ->
  updatedAt cluster (store w) (store (snd (Stmt.run (updateCluster env req clusterID) w))).
Proof.
  intros Hc. destruct (updateCluster_outcome env req clusterID w cluster Hc) as (r & Hr & Ho).
  exact (frame _ _ _ _ _ Ho).
Qed.

(** X19. The locations that an update has stored are the ones that the
    information on the cluster reports afterwards, to any authenticated
    user, in the order of the request. *)
Theorem updated_location_is_reported
    (env : Env) (req req' : Request) (w : World) (cluster : Cluster) (location : JSON)
    (r : Response) :
  Str.starts_with (cluster_id cluster) IDGenerator.clusterIDPrefix = true ->
  Store.getCluster (store w) (cluster_id cluster) = Some cluster ->
  sentLocation req = Some location ->
  is_Some (requester (store w) req') ->
  let after := Stmt.run (updateCluster env req (cluster_id cluster)) w in
  fst after = Some r ->
  code r = 200 ->
  exists ls info,
    parseLocations (Json.GetArray location) = Some ls
    /\ Stmt.run (getClusterInfo req' (cluster_id cluster)) (snd after) = (Some info, snd after)
    /\ code info = 200
    /\ Json.at2 "metadata" "location" (payload info) = JArray (locationEntry <$> ls).
Proof.
  intros Hprefix Hc Hloc [user Huser] after Hr Hcode.
  destruct (updateCluster_outcome env req (cluster_id cluster) w cluster Hc) as (r' & Hr' & Ho).
  fold after in Hr', Ho. rewrite Hr in Hr'. injection Hr' as <-.
  destruct (located _ _ _ _ _ Ho Hcode location Hloc) as (ls & Hls & Hstored).
  destruct (frame _ _ _ _ _ Ho) as (_ & Husers & _ & _ & _ & _ & _ & _ & _ & _ & Hident).
  assert (Hfound : exists c', Store.getCluster (store (snd after)) (cluster_id cluster) = Some c'
                              /\ cluster_id c' = cluster_id cluster).
  { unfold Store.getCluster, Store.findClusterByID in *. rewrite Hprefix in *.
    destruct Hident as [Hsame | (c' & Hc' & Hid & _)].
    - exists cluster. rewrite Hsame. auto.
    - exists c'. auto. }
  destruct Hfound as (c' & Hfound & Hid).
  exists ls. eexists. split; [exact Hls|].
  unfold requester in Huser. unfold getClusterInfo.
  cbv [mbind M_bind mret M_ret Stmt.bind Stmt.pure Stmt.return_ Stmt.get Stmt.run
       read authenticateUser require].
  destruct (url_param req' "token") as [token|]; [|discriminate].
  cbv [mbind M_bind mret M_ret Stmt.bind Stmt.pure Stmt.return_ Stmt.get Stmt.run read].
  unfold Store.findUserByToken in *. rewrite Husers, Huser, Hfound.
  split; [reflexivity|]. split; [reflexivity|].
  cbn. unfold Store.getLocationsForCluster. rewrite Hid, Hstored. reflexivity.
Qed.

End UpdateOutcomes.

(** ** Grants and the listing *)

Module GrantFacts.
Import ClusterCommands Spec.

Lemma getGroup_lookup (st : PersistentStore) (idOrName : string) (g : Group) :
  wellFormed st = true ->
  Store.getGroup st idOrName = Some g ->
  groups st !! group_id g = Some g.
Proof.
  unfold wellFormed. rewrite !andb_true_iff. intros [[_ Hk] _].
  unfold Store.getGroup, Store.findGroupByID, Store.findGroupByName.
  destruct (Str.starts_with idOrName IDGenerator.groupIDPrefix); intros H.
  - rewrite (StoreFacts.keyed_lookup _ _ _ _ Hk H). exact H.
  - apply StoreFacts.find_in_Some in H as (k & Hl & _).
    rewrite (StoreFacts.keyed_lookup _ _ _ _ Hk Hl). exact Hl.
Qed.

(** X20. A group that has been granted access to a cluster is listed
    among the groups allowed on it, and is not listed any more once its
    access has been revoked: for a requester who may administer the
    cluster, a well-formed store that accepts writes, and an existing
    group that is not the owner. *)
Theorem granted_group_is_listed_until_revoked
    (req : Request) (clusterID groupID : string) (cluster : Cluster) (group : Group)
    (w : World) :
  Ready req clusterID cluster w ->
  isWildcard groupID = false ->
  Store.getGroup (store w) groupID = Some group ->
  group_id group <> cluster_owningGroup cluster ->
  let granted := serve req clusterID w (GrantAccess groupID) in
  let revoked := serve req clusterID granted (RevokeAccess groupID) in
  exists r1 r2,
    fst (Stmt.run (listClusterAllowedgroups req clusterID) granted) = Some r1
    /\ In (group_id group) (listedIDs r1)
    /\ fst (Stmt.run (listClusterAllowedgroups req clusterID) revoked) = Some r2
    /\ ~ In (group_id group) (listedIDs r2).
Proof.
  intros Hready Hwild Hgroup Hne granted revoked.
  pose proof Hready as (Hwf & Hon & Hc & Hauth).
  pose proof (ListingFacts.prefixed_not_wildcard _
                (ListingFacts.getGroup_prefixed _ _ _ Hwf Hgroup)) as Hnw.
  pose proof (getGroup_lookup _ _ _ Hwf Hgroup) as Hlookup.
  apply String.eqb_neq in Hne.
  (* after the grant *)
  destruct (ListingFacts.serve_ready req clusterID cluster w (GrantAccess groupID) Hready)
    as [Hready1 Hgroups1]. fold granted in Hready1, Hgroups1.
  assert (Hst1 : access (store granted)
                 = {[ (cluster_id cluster, group_id group) ]} ∪ access (store w)).
  { subst granted. rewrite (ListingFacts.serve_store req clusterID cluster w _ Hc Hauth Hon).
    cbn [access Store.with_access accessStep]. rewrite Hwild, Hgroup, Hne. reflexivity. }
  pose proof Hready1 as (Hwf1 & Hon1 & Hc1 & Hauth1).
  assert (Hgroup1 : Store.getGroup (store granted) groupID = Some group).
  { unfold Store.getGroup, Store.findGroupByID, Store.findGroupByName in *.
    rewrite Hgroups1. exact Hgroup. }
  (* after the revocation *)
  destruct (ListingFacts.serve_ready req clusterID cluster granted (RevokeAccess groupID)
              Hready1) as [Hready2 Hgroups2]. fold revoked in Hready2, Hgroups2.
  assert (Hst2 : access (store revoked)
                 = access (store granted) ∖ {[ (cluster_id cluster, group_id group) ]}).
  { subst revoked.
    rewrite (ListingFacts.serve_store req clusterID cluster granted _ Hc1 Hauth1 Hon1).
    cbn [access Store.with_access accessStep]. rewrite Hwild, Hgroup1, Hne. reflexivity. }
  pose proof Hready2 as (Hwf2 & Hon2 & Hc2 & Hauth2).
  assert (Hreq : forall w', mayAdminister (store w') req cluster = true ->
                            is_Some (requester (store w') req)).
  { intros w' H. unfold mayAdminister in H. destruct (requester (store w') req); [eauto|discriminate]. }
  destruct (ListingFacts.listing_run req clusterID cluster granted (Hreq _ Hauth1) Hc1)
    as (r1 & w1 & Hrun1 & _ & _ & Hids1).
  destruct (ListingFacts.listing_run req clusterID cluster revoked (Hreq _ Hauth2) Hc2)
    as (r2 & w2 & Hrun2 & _ & _ & Hids2).
  exists r1, r2. rewrite Hrun1, Hrun2. split; [reflexivity|]. split; [|split; [reflexivity|]].
  - rewrite Hids1.
    assert (Hin : In (group_id group)
                    (Store.listgroupsAllowedOnCluster (store granted) (cluster_id cluster))).
    { apply ListingFacts.allowed_elem. rewrite Hst1. set_solver. }
    destruct (decide (Store.listgroupsAllowedOnCluster (store granted) (cluster_id cluster)
                      = [Store.wildcard])) as [Heq|_].
    + rewrite Heq in Hin. destruct Hin as [Hin|[]]. congruence.
    + apply filter_In. split; [apply in_or_app; left; exact Hin|].
      apply bool_decide_eq_true_2. rewrite Hgroups1, Hlookup. eauto.
  - rewrite Hids2.
    destruct (decide (Store.listgroupsAllowedOnCluster (store revoked) (cluster_id cluster)
                      = [Store.wildcard])) as [_|_].
    + intros Hin. destruct Hin as [Hin|[]]. congruence.
    + intros Hin. apply filter_In in Hin as [Hin _].
      apply in_app_or in Hin as [Hin|[Hin|[]]].
      * apply ListingFacts.allowed_elem in Hin. rewrite Hst2 in Hin. set_solver.
      * apply String.eqb_neq in Hne. congruence.
Qed.

Lemma granted_group_witness :
  let req := Example.asAlice [] JNull in
  let granted := serve req "c1" (Example.world Example.populated) (GrantAccess "guest") in
  let revoked := serve req "c1" granted (RevokeAccess "guest") in
  exists r1 r2,
    fst (Stmt.run (listClusterAllowedgroups req "c1") granted) = Some r1
    /\ In "group_guest" (listedIDs r1)
    /\ fst (Stmt.run (listClusterAllowedgroups req "c1") revoked) = Some r2
    /\ ~ In "group_guest" (listedIDs r2).
Proof.
  apply (granted_group_is_listed_until_revoked (Example.asAlice [] JNull) "c1" "guest"
           Example.c1 Example.guest (Example.world Example.populated)).
  - repeat split; vm_compute; reflexivity.
  - reflexivity.
  - vm_compute. reflexivity.
  - discriminate.
Defined.

End GrantFacts.

(** ** The commands on the deployment of [Visitors] *)

Module VisitorFacts.
Import ClusterCommands ClusterQueries Spec ClusterConsistencyResult Updating.

Lemma verification_witness :
  exists result j missing w',
    fst (Stmt.run (make Example.healthy Example.c1) (Example.world Visitors.staffed))
    = Some result
    /\ toJSON result = Some j
    /\ Stmt.run (verifyCluster Example.healthy (Visitors.asBob [] JNull) "c1")
         (Example.world Visitors.staffed)
       = (Some (Some (response 200 j)), w')
    /\ store w' = Visitors.staffed
    /\ Json.member "status" j = Some (JString (statusName (status result)))
    /\ Json.member "missingInstances" j = Some (JArray missing)
    /\ length missing = size (missingInstances result).
Proof.
  apply (QueryFacts.verification_always_has_an_answer Example.healthy
           (Visitors.asBob [] JNull) "c1" (Example.world Visitors.staffed)
           Visitors.bob Example.c1); vm_compute; reflexivity.
Defined.

Lemma unauthenticated_witness :
  Stmt.run (createCluster Example.healthy Visitors.anonymous) (Example.world Visitors.staffed)
  = (Some notAuthorized, Example.world Visitors.staffed)
  /\ Stmt.run (deleteCluster Example.healthy Visitors.anonymous "c1")
       (Example.world Visitors.staffed)
     = (Some notAuthorized, Example.world Visitors.staffed).
Proof.
  destruct (QueryFacts.unauthenticated_requests_are_refused Example.healthy Visitors.catalogue
              Visitors.anonymous (Example.world Visitors.staffed) eq_refl)
    as (_ & Hcreate & Hcluster & _).
  split; [exact Hcreate | exact (proj1 (proj2 (Hcluster "c1")))].
Defined.

Lemma cluster_deletion_witness :
  Stmt.run (deleteCluster Example.healthy (Visitors.asRoot [("force", "")] JNull) "c1")
    (Example.world Visitors.staffed)
  = (Some notAuthorized, Example.world Visitors.staffed).
Proof.
  apply (QueryFacts.cluster_deletion_is_for_members_only Example.healthy
           (Visitors.asRoot [("force", "")] JNull) "c1" (Example.world Visitors.staffed)
           Visitors.root Example.c1); vm_compute; reflexivity.
Defined.

Lemma repair_witness :
  Stmt.run (repairCluster Example.healthy (Example.asAlice [] JNull) "c1")
    (Example.world Visitors.staffed)
  = (Some notAuthorized, Example.world Visitors.staffed)
  /\ exists w',
       Stmt.run (repairCluster Example.healthy (Visitors.asRoot [] JNull) "c1")
         (Example.world Visitors.staffed)
       = (Some (response 200 JNull), w')
       /\ store w' = Visitors.staffed
       /\ w' = snd (Stmt.run (make Example.healthy Example.c1) (Example.world Visitors.staffed)).
Proof.
  split.
  - apply (proj1 (QueryFacts.repair_is_for_administrators_and_repairs_nothing Example.healthy
                    (Example.asAlice [] JNull) "c1" (Example.world Visitors.staffed)
                    Example.alice ltac:(vm_compute; reflexivity))).
    reflexivity.
  - apply (proj2 (QueryFacts.repair_is_for_administrators_and_repairs_nothing Example.healthy
                    (Visitors.asRoot [] JNull) "c1" (Example.world Visitors.staffed)
                    Visitors.root ltac:(vm_compute; reflexivity)) eq_refl Example.c1).
    vm_compute. reflexivity.
Defined.

Lemma permitted_applications_witness :
  Stmt.run (listClusterGroupAllowedApplications Visitors.catalogue (Visitors.asBob [] JNull)
              "c1" "guest") (Example.world Visitors.staffed)
  = (Some (response 200 (JObject [apiVersion; ("items", JArray [JString "nginx"])])),
     Example.world Visitors.staffed)
  /\ Stmt.run (allowGroupUseOfApplication Visitors.catalogue (Visitors.asBob [] JNull)
                 "c1" "guest" "nginx") (Example.world Visitors.staffed)
     = (Some notAuthorized, Example.world Visitors.staffed)
  /\ Stmt.run (ClusterQueries.denyGroupUseOfApplication Visitors.catalogue
                 (Visitors.asBob [] JNull) "c1" "guest" "nginx")
       (Example.world Visitors.staffed)
     = (Some notAuthorized, Example.world Visitors.staffed).
Proof.
  apply (QueryFacts.permitted_applications_are_set_by_owners_only Visitors.catalogue
           (Visitors.asBob [] JNull) "c1" "guest" "nginx" (Example.world Visitors.staffed)
           Visitors.bob Example.c1 Example.guest); vm_compute; reflexivity.
Defined.

Lemma invalid_update_witness :
  let after := Stmt.run (updateCluster Example.healthy
                           (Example.asAlice [] Visitors.misplaced) "c1")
                 (Example.world Visitors.staffed) in
  fst after = Some (response 400 (generateError "Incorrect type for location"))
  /\ snd after = Example.world Visitors.staffed.
Proof.
  intros after.
  destruct (UpdateOutcomes.invalid_update_changes_nothing Example.healthy
              (Example.asAlice [] Visitors.misplaced) "c1" (Example.world Visitors.staffed)
              Example.c1 ltac:(vm_compute; reflexivity)) as (r & Hr & Hsame).
  fold after in Hr, Hsame.
  assert (Hrun : fst after = Some (response 400 (generateError "Incorrect type for location")))
    by (vm_compute; reflexivity).
  split; [exact Hrun|].
  rewrite Hrun in Hr. injection Hr as <-.
  apply Hsame. right. split; [reflexivity | discriminate].
Defined.

Lemma update_identity_witness :
  updatedAt Example.c1 Visitors.staffed
    (store (snd (Stmt.run (updateCluster Example.unreachableWithNew Example.reconfiguration "c1")
                   (Example.world Visitors.staffed)))).
Proof.
  apply (UpdateOutcomes.update_keeps_the_identity_of_the_cluster Example.unreachableWithNew
           Example.reconfiguration "c1" (Example.world Visitors.staffed) Example.c1).
  vm_compute. reflexivity.
Defined.

Lemma updated_location_witness :
  let after := Stmt.run (updateCluster Example.healthy
                           (Example.asAlice [] Visitors.relocation) "cluster_1")
                 (Example.world Visitors.staffed) in
  exists ls info,
    parseLocations (Json.GetArray
                      (JArray [JObject [("lat", JNumber (lat Visitors.chicago));
                                        ("lon", JNumber (lon Visitors.chicago))]]))
    = Some ls
    /\ Stmt.run (getClusterInfo (Visitors.asBob [] JNull) "cluster_1") (snd after)
       = (Some info, snd after)
    /\ code info = 200
    /\ Json.at2 "metadata" "location" (payload info) = JArray (locationEntry <$> ls).
Proof.
  apply (UpdateOutcomes.updated_location_is_reported Example.healthy
           (Example.asAlice [] Visitors.relocation) (Visitors.asBob [] JNull)
           (Example.world Visitors.staffed) Example.c1 _ (response 200 JNull));
    try (vm_compute; reflexivity).
  vm_compute. eexists. reflexivity.
Defined.

End VisitorFacts.

(** ** The endpoint that the client accepts *)

Module ClientEndpointFacts.
Import ClientEndpoint ClientTextFacts.
Local Open Scope nat_scope.

Lemma get_drop (pos i : nat) (s : string) :
  String.get i (Str.drop pos s) = String.get (pos + i) s.
Proof.
  revert s. induction pos as [|pos IH]; intros s; [reflexivity|].
  destruct s as [|c s]; simpl; [destruct i; reflexivity | apply IH].
Qed.

Lemma get_take (j k : nat) (s : string) :
  String.get j (Str.take k s) = if j <? k then String.get j s else None.
Proof.
  revert j s. induction k as [|k IH]; intros j s; simpl.
  - destruct j; reflexivity.
  - destruct s as [|c s]; simpl; [destruct (j <? S k); reflexivity|].
    destruct j as [|j]; [reflexivity|]. simpl. rewrite IH.
    change (S j <? S k) with (j <? k). reflexivity.
Qed.

Lemma get_some_length (i : nat) (s : string) (c : ascii) :
  String.get i s = Some c -> i < String.length s.
Proof.
  revert i. induction s as [|d s IH]; intros i; simpl; [discriminate|].
  destruct i as [|i]; [lia | intros H; apply IH in H; lia].
Qed.

Lemma get_split (i : nat) (s : string) (c : ascii) :
  String.get i s = Some c -> s = Str.take i s +:+ String c (Str.drop (S i) s).
Proof.
  revert i. induction s as [|d s IH]; intros i H; [discriminate H|].
  destruct i as [|i]; simpl in H.
  - injection H as <-. destruct s; reflexivity.
  - cbn [Str.take Str.drop]. rewrite ClientTextFacts.append_cons. f_equal. apply IH, H.
Qed.

Lemma forallb_get (p : ascii -> bool) (s : string) :
  Str.forallb p s = true <-> forall j c, String.get j s = Some c -> p c = true.
Proof.
  induction s as [|d s IH]; simpl.
  - split; [intros _ j c; discriminate | reflexivity].
  - rewrite andb_true_iff, IH. split.
    + intros [Hd Hs] [|j] c; [intros [= <-]; exact Hd | apply Hs].
    + intros H. split; [apply (H 0); reflexivity | intros j c; apply (H (S j))].
Qed.

Lemma forallb_append (p : ascii -> bool) (a b : string) :
  Str.forallb p (a +:+ b) = Str.forallb p a && Str.forallb p b.
Proof.
  induction a as [|c a IH]; [reflexivity|].
  rewrite ClientTextFacts.append_cons. simpl. rewrite IH. apply andb_assoc.
Qed.

(** [find_char] gives the first place of the character. *)
Lemma find_char_some (c : ascii) (s : string) (i : nat) :
  Str.find_char c s = Some i ->
  String.get i s = Some c /\ forall j, j < i -> String.get j s <> Some c.
Proof.
  revert i. induction s as [|d s IH]; intros i; simpl; [discriminate|].
  destruct (Ascii.eqb_spec c d) as [->|Hne].
  - intros [= <-]. split; [reflexivity | intros j Hj; lia].
  - destruct (Str.find_char c s) as [k|]; [|discriminate].
    intros [= <-]. destruct (IH k eq_refl) as [Hk Hfirst]. split; [exact Hk|].
    intros [|j] Hj; simpl; [congruence | apply Hfirst; lia].
Qed.

Lemma find_char_none (c : ascii) (s : string) :
  Str.find_char c s = None <-> forall j, String.get j s <> Some c.
Proof.
  induction s as [|d s IH]; simpl.
  - split; [intros _ j; discriminate | reflexivity].
  - destruct (Ascii.eqb_spec c d) as [->|Hne].
    + split; [discriminate | intros H; destruct (H 0); reflexivity].
    + destruct (Str.find_char c s) as [k|].
      * split; [discriminate|]. intros H. exfalso.
        destruct IH as [_ IH]. discriminate IH. intros j. apply (H (S j)).
      * split; [|reflexivity]. intros _ [|j]; simpl; [congruence|].
        destruct IH as [IH _]. apply IH. reflexivity.
Qed.

Lemma find_char_append (c : ascii) (a b : string) :
  Str.find_char c (a +:+ b)
  = match Str.find_char c a with
    | Some i => Some i
    | None => (fun i => String.length a + i) <$> Str.find_char c b
    end.
Proof.
  induction a as [|d a IH].
  - change ("" +:+ b) with b. simpl. destruct (Str.find_char c b); reflexivity.
  - rewrite ClientTextFacts.append_cons. simpl. destruct (Ascii.eqb c d); [reflexivity|].
    rewrite IH. destruct (Str.find_char c a); [reflexivity|].
    destruct (Str.find_char c b); reflexivity.
Qed.

Lemma find_from_some (c : ascii) (pos : nat) (s : string) (i : nat) :
  find_from c pos s = Some i ->
  pos <= i /\ String.get i s = Some c
  /\ forall j, pos <= j -> j < i -> String.get j s <> Some c.
Proof.
  unfold find_from. destruct (Str.find_char c (Str.drop pos s)) as [k|] eqn:Hk; [|discriminate].
  intros [= <-]. apply find_char_some in Hk as [Hk Hfirst]. rewrite get_drop in Hk.
  split; [lia|]. split; [exact Hk|]. intros j Hj Hlt.
  specialize (Hfirst (j - pos) ltac:(lia)). rewrite get_drop in Hfirst.
  replace (pos + (j - pos)) with j in Hfirst by lia. exact Hfirst.
Qed.

Lemma find_from_none (c : ascii) (pos : nat) (s : string) :
  find_from c pos s = None <-> forall j, pos <= j -> String.get j s <> Some c.
Proof.
  unfold find_from. destruct (Str.find_char c (Str.drop pos s)) as [k|] eqn:Hk.
  - split; [discriminate|]. intros H. apply find_char_some in Hk as [Hk _].
    rewrite get_drop in Hk. destruct (H (pos + k) ltac:(lia) Hk).
  - split; [|reflexivity]. intros _ j Hj. rewrite find_char_none in Hk.
    specialize (Hk (j - pos)). rewrite get_drop in Hk.
    replace (pos + (j - pos)) with j in Hk by lia. exact Hk.
Qed.

(** Where [find_first_not_of] finds nothing, every character from [pos]
    on is one of [chars]. *)
Lemma find_first_not_of_none (chars : string) (pos : nat) (s : string) (j : nat) (c : ascii) :
  Client.find_first_not_of chars pos s = None ->
  pos <= j -> String.get j s = Some c -> found (Str.find_char c chars) = true.
Proof.
  revert pos j. induction s as [|d s IH]; intros pos j; simpl; [discriminate|].
  destruct pos as [|pos].
  - destruct (Str.find_char d chars) as [k|] eqn:Hd; [|discriminate].
    destruct (Client.find_first_not_of chars 0 s) eqn:Hrest; [discriminate|].
    intros _ _. destruct j as [|j]; simpl.
    + intros [= <-]. rewrite Hd. reflexivity.
    + apply (IH 0); [exact Hrest | lia].
  - destruct (Client.find_first_not_of chars pos s) eqn:Hrest; [discriminate|].
    intros _ Hj. destruct j as [|j]; [lia|]. simpl. apply (IH pos); [exact Hrest | lia].
Qed.

(** Where [find_first_not_of] finds a place, the places before it and from
    [pos] on hold characters of [chars]. *)
Lemma find_first_not_of_some (chars : string) (pos : nat) (s : string) (i j : nat) (c : ascii) :
  Client.find_first_not_of chars pos s = Some i ->
  pos <= j -> j < i -> String.get j s = Some c -> found (Str.find_char c chars) = true.
Proof.
  revert pos i j. induction s as [|d s IH]; intros pos i j; simpl; [discriminate|].
  destruct pos as [|pos].
  - destruct (Str.find_char d chars) as [k|] eqn:Hd; [|intros [= <-]; lia].
    destruct (Client.find_first_not_of chars 0 s) as [i'|] eqn:Hrest; [|discriminate].
    intros [= <-] _ Hlt. destruct j as [|j]; simpl.
    + intros [= <-]. rewrite Hd. reflexivity.
    + apply (IH 0 i'); [exact Hrest | lia | lia].
  - destruct (Client.find_first_not_of chars pos s) as [i'|] eqn:Hrest; [|discriminate].
    intros [= <-] Hj Hlt. destruct j as [|j]; [lia|]. simpl.
    apply (IH pos i'); [exact Hrest | lia | lia].
Qed.

(** What the checks up to the one of the port establish: beyond the start
    of the host there is no slash. *)
Lemma no_slash_from_host (s : string) (hostPos : nat) :
  before (find_from "/" hostPos s) (find_from ":" hostPos s) = false ->
  match find_from ":" hostPos s with
  | Some portPos =>
      S portPos < String.length s
      /\ Client.find_first_not_of "0123456789" (S portPos) s = None
  | None => True
  end ->
  find_from "/" hostPos s = None.
Proof.
  intros Hbefore Hport.
  destruct (find_from "/" hostPos s) as [i|] eqn:Hslash; [|reflexivity].
  exfalso. apply find_from_some in Hslash as (Hi & Hget & _).
  destruct (find_from ":" hostPos s) as [p|] eqn:Hcolon; [|discriminate Hbefore].
  simpl in Hbefore. apply Nat.ltb_ge in Hbefore.
  apply find_from_some in Hcolon as (_ & Hp & _).
  assert (i <> p) by (intros ->; rewrite Hget in Hp; discriminate).
  destruct Hport as [_ Hdigits].
  pose proof (find_first_not_of_none _ _ _ i _ Hdigits ltac:(lia) Hget) as Habs.
  vm_compute in Habs. discriminate.
Qed.

(** The last character is looked at after checks that leave no slash for
    it to be. *)
Lemma last_is_no_slash (s : string) (hostPos : nat) :
  hostPos < String.length s -> find_from "/" hostPos s = None ->
  match String.get (String.length s - 1) s with
  | Some c => if Ascii.eqb c "/" then Some TrailingSlash else None
  | None => None
  end = None.
Proof.
  intros Hhost Hslash. rewrite find_from_none in Hslash.
  specialize (Hslash (String.length s - 1) ltac:(lia)).
  destruct (String.get (String.length s - 1) s) as [c|]; [|reflexivity].
  destruct (Ascii.eqb_spec c "/"); [subst; congruence | reflexivity].
Qed.

Ltac through_checks p hostPos :=
  unfold checks;
  destruct (Str.find _ "://") as [p|] eqn:Hsep; [|discriminate];
  destruct (Nat.eqb_spec p 0) as [|Hp]; [discriminate|];
  destruct (before _ (Some p)) eqn:Hscheme; [discriminate|];
  match goal with |- context [(String.length ?s <=? p + 3)%nat] =>
    destruct (Nat.leb_spec (String.length s) (p + 3)) as [|Hlen]; [discriminate|];
    destruct (Str.find_char "?" s) eqn:Hq; [discriminate|];
    destruct (Str.find_char "#" s) eqn:Hf; [discriminate|];
    cbn [found];
    set (hostPos := match find_from "@" (p + 3) s with Some at_ => at_ + 1 | None => p + 3 end);
    destruct (Nat.leb_spec (String.length s) hostPos) as [|Hhost]; [discriminate|];
    destruct (before (find_from "/" hostPos s) (find_from ":" hostPos s)) eqn:Hbefore;
      [discriminate|];
    assert (Hport : match find_from ":" hostPos s with
                    | Some portPos =>
                        S portPos < String.length s
                        /\ Client.find_first_not_of "0123456789" (S portPos) s = None
                    | None => True
                    end -> find_from "/" hostPos s = None)
      by (apply no_slash_from_host; exact Hbefore)
  end.

Lemma checks_passed (s : string) :
  checks s = None <-> exists schemeSepPos hostPos, passed s schemeSepPos hostPos.
Proof.
  split.
  - through_checks p hostPos.
    destruct (find_from ":" hostPos s) as [q|] eqn:Hcolon.
    + destruct (Nat.leb_spec (String.length s) (S q)) as [|Hq']; [discriminate|].
      destruct (Client.find_first_not_of "0123456789" (S q) s) eqn:Hd; [discriminate|].
      intros _. exists p, hostPos.
      split; try assumption; try reflexivity; try lia; try (apply Hport; tauto).
      rewrite Hcolon. tauto.
    + intros _. exists p, hostPos.
      split; try assumption; try reflexivity; try lia; try (apply Hport; tauto).
      rewrite Hcolon. tauto.
  - intros (p & hostPos & [Hsep Hp Hscheme Hlen Hq Hf -> Hhost Hslash Hport]).
    unfold checks. rewrite Hsep.
    destruct (Nat.eqb_spec p 0); [lia|]. rewrite Hscheme.
    destruct (Nat.leb_spec (String.length s) (p + 3)); [lia|]. rewrite Hq, Hf. cbn [found].
    set (hostPos := match find_from "@" (p + 3) s with Some at_ => at_ + 1 | None => p + 3 end) in *.
    destruct (Nat.leb_spec (String.length s) hostPos); [lia|].
    rewrite Hslash. cbn [before].
    destruct (find_from ":" hostPos s) as [q|].
    + destruct Hport as [Hq' Hd]. destruct (Nat.leb_spec (String.length s) (S q)); [lia|].
      rewrite Hd. cbn [found]. apply (last_is_no_slash s hostPos); assumption.
    + apply (last_is_no_slash s hostPos); assumption.
Qed.

(** The check of the last character comes after checks that leave it
    nothing to find. *)
Lemma checks_never_reach_the_last (s : string) : checks s <> Some TrailingSlash.
Proof.
  through_checks p hostPos.
  destruct (find_from ":" hostPos s) as [q|].
  - destruct (Nat.leb_spec (String.length s) (S q)) as [|Hq']; [discriminate|].
    destruct (Client.find_first_not_of "0123456789" (S q) s); [discriminate|].
    rewrite (last_is_no_slash s hostPos); [discriminate | assumption | apply Hport; tauto].
  - rewrite (last_is_no_slash s hostPos); [discriminate | assumption | apply Hport; tauto].
Qed.

Lemma free_of_cons (x : ascii) (chars s : string) :
  free_of (String x chars) s = negb (found (Str.find_char x s)) && free_of chars s.
Proof.
  unfold free_of. induction s as [|d s IH]; [reflexivity|].
  cbn [Str.forallb]. rewrite IH. cbn [Str.find_char].
  rewrite (Ascii.eqb_sym x d).
  destruct (Ascii.eqb d x); [reflexivity|].
  destruct (Str.find_char d chars), (Str.find_char x s); reflexivity.
Qed.

Lemma free_of_nil (s : string) : free_of "" s = true.
Proof. unfold free_of. induction s as [|d s IH]; [reflexivity | exact IH]. Qed.

Lemma lacks_append (x : ascii) (a b : string) :
  Str.find_char x a = None -> Str.find_char x b = None -> Str.find_char x (a +:+ b) = None.
Proof. intros Ha Hb. rewrite find_char_append, Ha, Hb. reflexivity. Qed.

Lemma lacks_append_inv (x : ascii) (a b : string) :
  Str.find_char x (a +:+ b) = None -> Str.find_char x a = None /\ Str.find_char x b = None.
Proof.
  rewrite find_char_append. destruct (Str.find_char x a); [discriminate|].
  destruct (Str.find_char x b); [discriminate | tauto].
Qed.

(** A text made of some characters has none of the others. *)
Lemma made_of_lacks (chars s : string) (x : ascii) :
  made_of chars s = true -> Str.find_char x chars = None -> Str.find_char x s = None.
Proof.
  unfold made_of. rewrite forallb_get. intros H Hx. apply find_char_none. intros j Hj.
  apply H in Hj. rewrite Hx in Hj. discriminate.
Qed.

Lemma lacks_take_drop (x : ascii) (pos k : nat) (s : string) :
  (forall j, pos <= j -> j < pos + k -> String.get j s <> Some x) ->
  Str.find_char x (Str.take k (Str.drop pos s)) = None.
Proof.
  intros H. apply find_char_none. intros j. rewrite get_take.
  destruct (Nat.ltb_spec j k); [|discriminate]. rewrite get_drop. apply H; lia.
Qed.

Lemma lacks_drop (x : ascii) (pos : nat) (s : string) :
  (forall j, pos <= j -> String.get j s <> Some x) ->
  Str.find_char x (Str.drop pos s) = None.
Proof.
  intros H. apply find_char_none. intros j. rewrite get_drop. apply H; lia.
Qed.

Lemma substring_take_drop (m n : nat) (s : string) :
  String.substring m n s = Str.take n (Str.drop m s).
Proof.
  revert m n. induction s as [|c s IH]; intros m n.
  - destruct m, n; reflexivity.
  - destruct m as [|m].
    + destruct n as [|n]; [reflexivity|]. simpl. rewrite (IH 0 n). destruct s; reflexivity.
    + simpl. apply IH.
Qed.

(** The text around the separator that [find] has found. *)
Lemma find_separator_split (s : string) (p : nat) :
  Str.find s "://" = Some p -> s = Str.take p s +:+ "://" +:+ Str.drop (p + 3) s.
Proof.
  intros H. apply String.index_correct1 in H. rewrite substring_take_drop in H.
  rewrite <- (take_drop p s) at 1. f_equal.
  rewrite <- (take_drop 3 (Str.drop p s)) at 1. simpl String.length in H. rewrite H.
  rewrite drop_drop. reflexivity.
Qed.

Lemma made_of_take (chars s : string) (p : nat) :
  before (Client.find_first_not_of chars 0 s) (Some p) = false ->
  made_of chars (Str.take p s) = true.
Proof.
  intros H. unfold made_of. apply forallb_get. intros j c. rewrite get_take.
  destruct (Nat.ltb_spec j p) as [Hj|]; [|discriminate]. intros Hget.
  destruct (Client.find_first_not_of chars 0 s) as [i|] eqn:Hi.
  - simpl in H. apply Nat.ltb_ge in H.
    apply (find_first_not_of_some chars 0 s i j c Hi); [lia | lia | exact Hget].
  - apply (find_first_not_of_none chars 0 s j c Hi); [lia | exact Hget].
Qed.

Lemma made_of_drop (chars s : string) (pos : nat) :
  Client.find_first_not_of chars pos s = None <-> made_of chars (Str.drop pos s) = true.
Proof.
  pose proof (ClientIDFacts.find_first_not_of_forallb chars pos s) as H.
  unfold made_of, found. destruct (Client.find_first_not_of chars pos s).
  - split; [discriminate|]. intros Hm. rewrite Hm in H. discriminate.
  - split; [|reflexivity]. intros _. symmetry in H. apply negb_false_iff in H. exact H.
Qed.

Lemma nonempty_length (s : string) : nonempty s = true <-> 0 < String.length s.
Proof.
  unfold nonempty. destruct s; simpl; split; intros H; try reflexivity; try discriminate; lia.
Qed.

Lemma drop_at (n : nat) (pre suf : string) :
  n = String.length pre -> Str.drop n (pre +:+ suf) = suf.
Proof. intros ->. apply IDGeneratorFacts.drop_append. Qed.

(** The separator is found where the scheme ends. *)
Lemma find_separator (sch rest : string) :
  Str.find_char ":" sch = None ->
  Str.find (sch +:+ "://" +:+ rest) "://" = Some (String.length sch).
Proof.
  unfold Str.find. induction sch as [|c sch IH]; intros H.
  - change ("" +:+ "://" +:+ rest) with (String ":" (String "/" (String "/" rest))).
    cbn [String.index String.prefix String.length].
    repeat (match goal with |- context [Ascii.ascii_dec ?a ?b] =>
              destruct (Ascii.ascii_dec a b); [|congruence] end).
    destruct rest; reflexivity.
  - cbn [Str.find_char] in H. destruct (Ascii.eqb ":" c) eqn:Hc; [discriminate|].
    apply Ascii.eqb_neq in Hc.
    destruct (Str.find_char ":" sch) eqn:Hrest; [discriminate|].
    rewrite append_cons. cbn [String.index String.prefix String.length].
    destruct (Ascii.ascii_dec ":" c) as [|_]; [congruence|].
    rewrite (IH eq_refl). reflexivity.
Qed.

Lemma find_first_not_of_scheme (chars sch rest : string) (x : ascii) :
  made_of chars sch = true -> Str.find_char x chars = None ->
  Client.find_first_not_of chars 0 (sch +:+ String x rest) = Some (String.length sch).
Proof.
  intros Hm Hx. induction sch as [|c sch IH].
  - change ("" +:+ String x rest) with (String x rest). simpl. rewrite Hx. reflexivity.
  - unfold made_of in Hm. simpl in Hm. apply andb_true_iff in Hm as [Hc Hm].
    rewrite append_cons. simpl. destruct (Str.find_char c chars); [|discriminate].
    rewrite (IH Hm). reflexivity.
Qed.

(** The characters of schemes and of ports are none of those that the
    checks look for. *)
Lemma scheme_lacks (sch : string) (x : ascii) :
  made_of schemeChars sch = true -> In x [":"; "/"; "?"; "#"; "@"]%char ->
  Str.find_char x sch = None.
Proof.
  intros Hm Hx. apply (made_of_lacks _ _ _ Hm).
  simpl in Hx. intuition subst; reflexivity.
Qed.

Lemma digits_lack (p : string) (x : ascii) :
  made_of "0123456789" p = true -> In x [":"; "/"; "?"; "#"; "@"]%char ->
  Str.find_char x p = None.
Proof.
  intros Hm Hx. apply (made_of_lacks _ _ _ Hm).
  simpl in Hx. intuition subst; reflexivity.
Qed.

Lemma free_of_name (nm : string) :
  Str.find_char "/" nm = None -> Str.find_char ":" nm = None ->
  Str.find_char "?" nm = None -> Str.find_char "#" nm = None ->
  free_of "/:?#" nm = true.
Proof. intros H1 H2 H3 H4. rewrite !free_of_cons, H1, H2, H3, H4. apply free_of_nil. Qed.

Lemma free_of_name_inv (nm : string) :
  free_of "/:?#" nm = true ->
  Str.find_char "/" nm = None /\ Str.find_char ":" nm = None
  /\ Str.find_char "?" nm = None /\ Str.find_char "#" nm = None.
Proof.
  rewrite !free_of_cons, !andb_true_iff.
  destruct (Str.find_char "/" nm), (Str.find_char ":" nm), (Str.find_char "?" nm),
    (Str.find_char "#" nm); simpl; intuition discriminate.
Qed.

(** The host and the port of a text that has passed the checks. *)
Lemma passed_host (s : string) (hostPos : nat) :
  hostPos < String.length s ->
  Str.find_char "?" s = None -> Str.find_char "#" s = None ->
  find_from "/" hostPos s = None ->
  match find_from ":" hostPos s with
  | Some portPos =>
      S portPos < String.length s
      /\ Client.find_first_not_of "0123456789" (S portPos) s = None
  | None => True
  end ->
  exists nm prt,
    Str.drop hostPos s = nm +:+ match prt with Some p => ":" +:+ p | None => "" end
    /\ free_of "/:?#" nm = true
    /\ match prt with
       | Some p => nonempty p && made_of "0123456789" p
       | None => nonempty nm
       end = true
    /\ forall x, find_from x hostPos s = None -> Str.find_char x nm = None.
Proof.
  intros Hhost Hq Hf Hslash Hport.
  rewrite find_char_none in Hq, Hf. pose proof Hslash as Hslash'.
  rewrite find_from_none in Hslash'.
  destruct (find_from ":" hostPos s) as [q|] eqn:Hcolon.
  - destruct Hport as [Hq' Hd].
    pose proof Hcolon as (Hle & Hget & Hfirst)%find_from_some.
    exists (Str.take (q - hostPos) (Str.drop hostPos s)), (Some (Str.drop (S q) s)).
    split; [|split; [|split]].
    + pose proof (get_split (q - hostPos) (Str.drop hostPos s) ":") as H.
      rewrite get_drop in H. replace (hostPos + (q - hostPos)) with q in H by lia.
      specialize (H Hget). rewrite drop_drop in H.
      replace (hostPos + S (q - hostPos)) with (S q) in H by lia. exact H.
    + apply free_of_name; apply lacks_take_drop; intros j Hj1 Hj2;
        [apply Hslash' | apply Hfirst | apply Hq | apply Hf]; lia.
    + apply andb_true_iff. split.
      * apply nonempty_length. rewrite drop_length. lia.
      * apply made_of_drop, Hd.
    + intros x Hx. rewrite find_from_none in Hx.
      apply lacks_take_drop. intros j Hj _. apply Hx, Hj.
  - exists (Str.drop hostPos s), None. split; [|split; [|split]].
    + rewrite append_nil_r. reflexivity.
    + rewrite find_from_none in Hcolon.
      apply free_of_name; apply lacks_drop; intros j Hj;
        [apply Hslash' | apply Hcolon | apply Hq | apply Hf]; lia.
    + apply nonempty_length. rewrite drop_length. lia.
    + intros x Hx. rewrite find_from_none in Hx. apply lacks_drop, Hx.
Qed.

(** A text that passes the checks is made of well-formed parts. *)
Lemma passed_parts (s : string) (p hostPos : nat) :
  passed s p hostPos -> exists u, well_formed u = true /\ s = text u.
Proof.
  intros [Hsep Hp Hscheme Hlen Hq Hf Hstart Hhost Hslash Hport].
  pose proof (find_separator_split _ _ Hsep) as Hs.
  pose proof (made_of_take _ _ _ Hscheme) as Hsch.
  assert (Hne : nonempty (Str.take p s) = true)
    by (apply nonempty_length; rewrite take_length; lia).
  destruct (passed_host s hostPos Hhost Hq Hf Hslash Hport) as (nm & prt & Hd & Hnm & Hprt & Hx).
  rewrite find_char_none in Hq, Hf.
  destruct (find_from "@" (p + 3) s) as [a|] eqn:Hat.
  - pose proof Hat as (Hle & Hget & Hfirst)%find_from_some.
    exists {| scheme := Str.take p s;
              user := Some (Str.take (a - (p + 3)) (Str.drop (p + 3) s));
              name := nm; port := prt |}.
    unfold well_formed, text, userPart, portPart. cbn [scheme user name port]. split.
    + rewrite Hne, Hsch, Hnm, Hprt, !andb_true_r. cbn [andb].
      rewrite !free_of_cons, free_of_nil, !lacks_take_drop; [reflexivity | ..];
        intros j Hj1 Hj2; [apply Hf | apply Hq | apply Hfirst; lia].
    + rewrite Hs at 1. do 2 f_equal. rewrite append_assoc, <- Hd.
      pose proof (get_split (a - (p + 3)) (Str.drop (p + 3) s) "@") as H.
      rewrite get_drop in H. replace (p + 3 + (a - (p + 3))) with a in H by lia.
      specialize (H Hget). rewrite drop_drop in H.
      replace (p + 3 + S (a - (p + 3))) with hostPos in H by lia. exact H.
  - exists {| scheme := Str.take p s; user := None; name := nm; port := prt |}.
    unfold well_formed, text, userPart, portPart. cbn [scheme user name port]. subst hostPos. split.
    + rewrite Hne, Hsch, Hnm, Hprt, !andb_true_r. cbn [andb].
      rewrite free_of_cons, free_of_nil, (Hx "@"%char Hat). reflexivity.
    + rewrite Hs at 1. do 2 f_equal. exact Hd.
Qed.

Lemma parts_lack (u : Parts) (x : ascii) :
  well_formed u = true -> In x ["?"; "#"]%char -> Str.find_char x (text u) = None.
Proof.
  unfold well_formed, text, userPart, portPart. rewrite !andb_true_iff.
  intros ((((_ & Hsch) & Husr) & Hnm) & Hprt) Hx.
  apply free_of_name_inv in Hnm as (_ & _ & Hnq & Hnf).
  apply lacks_append; [apply scheme_lacks; [exact Hsch | simpl in *; tauto]|].
  apply lacks_append; [simpl in Hx; intuition subst; reflexivity|].
  apply lacks_append.
  { destruct (user u) as [w|]; [|reflexivity].
    rewrite !free_of_cons, !andb_true_iff, !negb_true_iff in Husr.
    destruct Husr as (_ & Hwq & Hwf & _).
    apply lacks_append; [|simpl in Hx; intuition subst; reflexivity].
    simpl in Hx. destruct Hx as [<-|[<-|[]]];
      [destruct (Str.find_char "?" w) | destruct (Str.find_char "#" w)];
      first [reflexivity | discriminate]. }
  apply lacks_append; [simpl in Hx; intuition subst; assumption|].
  destruct (port u) as [pt|]; [|reflexivity].
  apply andb_true_iff in Hprt as [_ Hprt].
  apply lacks_append; [simpl in Hx; intuition subst; reflexivity|].
  apply digits_lack; [exact Hprt | simpl in *; tauto].
Qed.

Lemma text_rest (u : Parts) :
  text u = (scheme u +:+ "://") +:+ (userPart u +:+ name u +:+ portPart u).
Proof. unfold text. rewrite !append_assoc. reflexivity. Qed.

Lemma text_host (u : Parts) :
  text u = (scheme u +:+ "://" +:+ userPart u) +:+ (name u +:+ portPart u).
Proof. unfold text. rewrite !append_assoc. reflexivity. Qed.

Lemma text_port (u : Parts) (p : string) :
  port u = Some p ->
  text u = (scheme u +:+ "://" +:+ userPart u +:+ name u +:+ ":") +:+ p.
Proof. intros H. unfold text, portPart. rewrite H, !append_assoc. reflexivity. Qed.

Lemma text_length (u : Parts) :
  String.length (text u)
  = String.length (scheme u) + 3 + String.length (userPart u)
    + String.length (name u) + String.length (portPart u).
Proof.
  unfold text. rewrite !ClientIDFacts.append_length. simpl. lia.
Qed.

(** Well-formed parts make a text that passes the checks. *)
Lemma parts_passed (u : Parts) :
  well_formed u = true ->
  passed (text u) (String.length (scheme u))
         (String.length (scheme u) + 3 + String.length (userPart u)).
Proof.
  intros Hwf. pose proof Hwf as Hwf'. unfold well_formed in Hwf'.
  rewrite !andb_true_iff in Hwf'. destruct Hwf' as ((((Hne & Hsch) & Husr) & Hnm) & Hprt).
  apply free_of_name_inv in Hnm as (Hn1 & Hn2 & Hn3 & Hn4).
  apply nonempty_length in Hne.
  pose proof (text_length u) as Hlen.
  assert (Hhostlen : 0 < String.length (name u) + String.length (portPart u)).
  { unfold portPart. destruct (port u) as [p|].
    - rewrite ClientIDFacts.append_length. simpl. lia.
    - apply nonempty_length in Hprt. lia. }
  assert (Hhost : Str.drop (String.length (scheme u) + 3 + String.length (userPart u)) (text u)
                  = name u +:+ portPart u).
  { rewrite text_host. apply drop_at. rewrite !ClientIDFacts.append_length. simpl. lia. }
  assert (Hports : forall x, In x ["/"; "@"]%char -> Str.find_char x (portPart u) = None).
  { intros x Hx. unfold portPart. destruct (port u) as [p|]; [|reflexivity].
    apply andb_true_iff in Hprt as [_ Hprt].
    apply lacks_append; [simpl in Hx; intuition subst; reflexivity|].
    apply digits_lack; [exact Hprt | simpl in *; tauto]. }
  split.
  - apply find_separator, scheme_lacks; [exact Hsch | simpl; tauto].
  - exact Hne.
  - change (text u) with (scheme u +:+ String ":" ("//" +:+ userPart u +:+ name u +:+ portPart u)).
    rewrite (find_first_not_of_scheme schemeChars _ _ ":"%char Hsch eq_refl).
    simpl. apply Nat.ltb_irrefl.
  - lia.
  - apply parts_lack; [exact Hwf | simpl; tauto].
  - apply parts_lack; [exact Hwf | simpl; tauto].
  - unfold find_from. rewrite text_rest at 1.
    rewrite (drop_at _ (scheme u +:+ "://"))
      by (rewrite ClientIDFacts.append_length; reflexivity).
    unfold userPart in *. destruct (user u) as [w|].
    + rewrite !free_of_cons, !andb_true_iff, !negb_true_iff in Husr.
      destruct Husr as (Hw & _).
      assert (Hw' : Str.find_char "@" w = None) by (destruct (Str.find_char "@" w); [discriminate | reflexivity]).
      rewrite !find_char_append, Hw'. cbn. rewrite ClientIDFacts.append_length. simpl. lia.
    + rewrite free_of_cons, andb_true_iff, negb_true_iff in Husr. destruct Husr as [Hw _].
      assert (Hw' : Str.find_char "@" (name u) = None)
        by (destruct (Str.find_char "@" (name u)); [discriminate | reflexivity]).
      change ("" +:+ name u +:+ portPart u) with (name u +:+ portPart u).
      rewrite (lacks_append _ _ _ Hw' (Hports "@"%char ltac:(simpl; tauto))). simpl. lia.
  - lia.
  - unfold find_from. rewrite Hhost.
    rewrite (lacks_append _ _ _ Hn1 (Hports "/"%char ltac:(simpl; tauto))). reflexivity.
  - unfold find_from. rewrite Hhost. rewrite find_char_append, Hn2.
    destruct (port u) as [p|] eqn:Hp; unfold portPart; rewrite Hp; [|exact I].
    cbn. apply andb_true_iff in Hprt as [Hpne Hpd]. apply nonempty_length in Hpne.
    unfold portPart in Hlen. rewrite Hp in Hlen.
    rewrite ClientIDFacts.append_length in Hlen. simpl in Hlen.
    split; [lia|]. apply made_of_drop. rewrite (text_port u p Hp).
    rewrite drop_at; [exact Hpd|]. rewrite !ClientIDFacts.append_length. simpl. lia.
Qed.

(** The texts that pass the checks are those of well-formed parts. *)
Lemma checks_accept (s : string) :
  checks s = None <-> exists u, well_formed u = true /\ s = text u.
Proof.
  rewrite checks_passed. split.
  - intros (p & hostPos & H). eapply passed_parts, H.
  - intros (u & Hwf & ->). eexists _, _. apply parts_passed, Hwf.
Qed.

(** [getEndpoint] either fails to take a text in, or checks the text that
    the client then holds. *)
Lemma getEndpoint_cases (m : Machine) (c : Client) :
  (apiEndpoint c = "" /\ exists t c', getEndpoint m c = (inl t, c') /\ apiEndpoint c' = ""
                                       /\ In t [Passed; CannotOpen; CannotRead])
  \/ (exists c', getEndpoint m c = checked c' /\ apiEndpoint c' <> ""
                 /\ (apiEndpoint c <> "" -> c' = c)).
Proof.
  unfold getEndpoint.
  destruct (String.eqb_spec (apiEndpoint c) "") as [He|He]; [|right; exists c; tauto].
  assert (Hword : forall content w, extract content = Some w -> w <> "").
  { intros content w. unfold extract.
    destruct (word _); [discriminate | intros [= <-]; discriminate]. }
  destruct (if String.eqb (endpointPath c) "" then getDefaultEndpointFilePath m
            else Some (endpointPath c)) as [path|];
    [|left; split; [exact He|]; exists Passed, c; simpl; tauto].
  destruct (checkPermissions m path) as [[| |]|].
  1,2: destruct (ifstream m path) as [content|];
    [destruct (extract content) as [w|] eqn:Hw;
     [right; eexists; split; [reflexivity|]; simpl; split; [eapply Hword, Hw | congruence]
     |left; split; [exact He|]; eexists CannotRead, _; split; [reflexivity|]; simpl; tauto]
    |left; split; [exact He|]; eexists CannotOpen, _; split; [reflexivity|]; simpl; tauto].
  - right. eexists. split; [reflexivity|]. simpl. split; [discriminate | congruence].
  - left. split; [exact He|]. eexists Passed, _. split; [reflexivity|]. simpl. tauto.
Qed.

(** X24. Whatever [getEndpoint] returns, be it the text that the client
    held, the first word of the endpoint file or the default, is the text
    that the client holds from then on, and it is of the form
    [scheme://user@name:port] with well-formed parts: no query, no
    fragment, no slash in the name, and only digits in the port. *)
Theorem returned_endpoint_is_well_formed (m : Machine) (c c' : Client) (e : string) :
  getEndpoint m c = (inr e, c') ->
  apiEndpoint c' = e /\ exists u, well_formed u = true /\ e = text u.
Proof.
  intros H. destruct (getEndpoint_cases m c) as [(_ & t & c1 & H1 & _)|(c1 & H1 & _)];
    rewrite H1 in H; [discriminate|].
  unfold checked in H. destruct (checks (apiEndpoint c1)) eqn:Hc; [discriminate|].
  injection H as <- <-. split; [reflexivity|]. apply checks_accept, Hc.
Qed.

Lemma returned_endpoint_witness :
  apiEndpoint {| endpointPath := "/home/ada/.slate/endpoint";
                 apiEndpoint := "https://api.slateci.io:443" |}
  = "https://api.slateci.io:443"
  /\ exists u, well_formed u = true /\ "https://api.slateci.io:443" = text u.
Proof. apply (returned_endpoint_is_well_formed configured unset). reflexivity. Defined.

(** X25. A client that holds the text of well-formed parts has it accepted
    as it is, without reading any file. The part before the [@] may hold
    any character but [@], [?] and [#], slashes among them, and the name
    may be empty where a port follows. *)
Theorem well_formed_endpoint_is_accepted (m : Machine) (c : Client) (u : Parts) :
  well_formed u = true -> apiEndpoint c = text u ->
  getEndpoint m c = (inr (text u), c).
Proof.
  intros Hwf He. unfold getEndpoint.
  assert (Hne : apiEndpoint c <> "").
  { intros H. pose proof (continues _ _ _ (parts_passed u Hwf)) as Hlen.
    rewrite <- He, H in Hlen. simpl in Hlen. lia. }
  destruct (String.eqb_spec (apiEndpoint c) ""); [contradiction|].
  unfold checked. rewrite He.
  replace (checks (text u)) with (@None Thrown); [reflexivity|].
  symmetry. apply checks_accept. exists u. tauto.
Qed.

Lemma well_formed_endpoint_witness :
  getEndpoint bare {| endpointPath := ""; apiEndpoint := "https://example.org/api/v1@:443" |}
  = (inr "https://example.org/api/v1@:443",
     {| endpointPath := ""; apiEndpoint := "https://example.org/api/v1@:443" |}).
Proof.
  apply (well_formed_endpoint_is_accepted bare
           {| endpointPath := ""; apiEndpoint := "https://example.org/api/v1@:443" |} proxied);
    reflexivity.
Defined.

(** X26. The exception of the last check, on a slash at the end of the text,
    is never thrown: a text that ends with a slash is refused by an
    earlier check. *)
Theorem last_check_never_fails (m : Machine) (c : Client) :
  fst (getEndpoint m c) <> inl TrailingSlash.
Proof.
  destruct (getEndpoint_cases m c) as [(_ & t & c1 & H1 & _ & Ht)|(c1 & H1 & _)]; rewrite H1.
  - simpl in *. intros [= ->]. intuition discriminate.
  - unfold checked. pose proof (checks_never_reach_the_last (apiEndpoint c1)) as Hn.
    destruct (checks (apiEndpoint c1)); simpl; congruence.
Qed.

(** X27. Once the client holds a text, the first call has settled the
    outcome: later calls return or throw the same, whatever has become of
    the files, and leave the client as it is. An endpoint file that held a
    refused text is not read again. *)
Theorem endpoint_is_settled_by_the_first_call
    (m m' : Machine) (c c' : Client) (r : Thrown + string) :
  getEndpoint m c = (r, c') -> apiEndpoint c' <> "" ->
  getEndpoint m' c' = (r, c').
Proof.
  intros H Hne.
  destruct (getEndpoint_cases m c) as [(_ & t & c1 & H1 & He & _)|(c1 & H1 & _)];
    rewrite H1 in H.
  - injection H as <- <-. contradiction.
  - assert (c1 = c') as -> by (unfold checked in H; destruct (checks _); congruence).
    unfold getEndpoint. destruct (String.eqb_spec (apiEndpoint c') ""); [contradiction|].
    exact H.
Qed.

Lemma endpoint_is_settled_witness :
  getEndpoint bare {| endpointPath := "/home/ada/.slate/endpoint";
                      apiEndpoint := "https://api.slateci.io:443" |}
  = (inr "https://api.slateci.io:443",
     {| endpointPath := "/home/ada/.slate/endpoint";
        apiEndpoint := "https://api.slateci.io:443" |}).
Proof.
  apply (endpoint_is_settled_by_the_first_call configured bare unset);
    [reflexivity | discriminate].
Defined.

End ClientEndpointFacts.

(** ** The items of a secret *)

Module ClientSecretFacts.
Import ClientSecrets ClientEndpointFacts ClientTextFacts.
Local Open Scope nat_scope.

Lemma find_single (c : ascii) (s : string) : Str.find s (String c "") = Str.find_char c s.
Proof.
  unfold Str.find. induction s as [|d s IH]; [reflexivity|].
  cbn [String.index String.prefix Str.find_char]. rewrite IH.
  destruct (Ascii.ascii_dec c d) as [->|Hne].
  - rewrite Ascii.eqb_refl. destruct s; reflexivity.
  - apply Ascii.eqb_neq in Hne. rewrite Hne. destruct (Str.find_char c s); reflexivity.
Qed.

(** An item is split where its first [=] is. *)
Lemma split_item (it : string) (pos : nat) :
  Str.find it "=" = Some pos ->
  it = item (Str.take pos it, Str.drop (pos + 1) it)
  /\ Str.find_char "=" (Str.take pos it) = None.
Proof.
  rewrite find_single. intros (Hget & Hfirst)%find_char_some. split.
  - rewrite Nat.add_1_r. apply (get_split _ _ _ Hget).
  - apply find_char_none. intros j. rewrite get_take.
    destruct (Nat.ltb_spec j pos); [apply Hfirst; assumption | discriminate].
Qed.

Lemma find_item (pair : string * string) :
  Str.find_char "=" pair.1 = None ->
  Str.find (item pair) "=" = Some (String.length pair.1).
Proof.
  intros H. rewrite find_single. unfold item. rewrite find_char_append, H.
  change ("=" +:+ pair.2) with (String "=" pair.2). cbn [Str.find_char].
  rewrite Ascii.eqb_refl. cbn. f_equal. lia.
Qed.

Lemma contents_proper (encodeBase64 : string -> string) (pairs : list (string * string)) :
  Forall proper pairs ->
  contents encodeBase64 (List.map item pairs) = inr (List.map (member encodeBase64) pairs).
Proof.
  induction 1 as [|pair pairs (Hk & He & Hv) _ IH]; [reflexivity|].
  cbn [List.map contents]. rewrite (find_item pair He).
  assert (Ht : Str.take (String.length pair.1) (item pair) = pair.1) by apply IDGeneratorFacts.take_append.
  assert (Hd : Str.drop (String.length pair.1 + 1) (item pair) = pair.2).
  { unfold item. change (pair.1 +:+ "=" +:+ pair.2) with (pair.1 +:+ String "=" pair.2).
    rewrite <- (drop_drop (String.length pair.1) 1).
    rewrite IDGeneratorFacts.drop_append. destruct pair.2; reflexivity. }
  cbv zeta. rewrite Ht, Hd.
  destruct (String.eqb_spec pair.1 ""); [contradiction|].
  destruct (String.eqb_spec pair.2 ""); [contradiction|].
  rewrite IH. reflexivity.
Qed.

Lemma contents_pairs (encodeBase64 : string -> string) (items : list string)
    (members : list (string * JSON)) :
  contents encodeBase64 items = inr members ->
  exists pairs, Forall proper pairs /\ items = List.map item pairs
                /\ members = List.map (member encodeBase64) pairs.
Proof.
  revert members. induction items as [|it items IH]; intros members; cbn [contents].
  - intros [= <-]. exists []. split; [constructor | split; reflexivity].
  - destruct (Str.find it "=") as [pos|] eqn:Hpos; [|discriminate].
    apply split_item in Hpos as [Hit Hkey]. cbv zeta.
    destruct (String.eqb_spec (Str.take pos it) "") as [|Hk]; [discriminate|].
    destruct (String.eqb_spec (Str.drop (pos + 1) it) "") as [|Hv]; [discriminate|].
    destruct (contents encodeBase64 items) as [|members'] eqn:Hrest; [discriminate|].
    intros [= <-]. destruct (IH members' eq_refl) as (pairs & Hp & -> & ->).
    exists ((Str.take pos it, Str.drop (pos + 1) it) :: pairs).
    split; [constructor; [repeat split; assumption | exact Hp]|].
    split; [cbn [List.map]; f_equal; exact Hit | reflexivity].
Qed.

(** X28. [createSecret] builds its request exactly when every item is of
    the form [key=value] with a key and a value that are not empty, the
    key ending at the first [=]; anything else makes it write a line and
    return without a request. The request holds the items in their order,
    each split at its first [=] and its value encoded: what follows the
    first [=], further [=] included, is the value. *)
Theorem secret_request_holds_the_proper_items (encodeBase64 : string -> string)
    (opt : SecretCreateOptions) (request : JSON) :
  createSecret encodeBase64 opt = inr request
  <-> exists pairs,
        Forall proper pairs
        /\ data opt = List.map item pairs
        /\ request
           = JObject [("apiVersion", JString "v1alpha3");
                      ("metadata", JObject [("name", JString (name opt));
                                            ("group", JString (group opt));
                                            ("cluster", JString (cluster opt))]);
                      ("contents", JObject (List.map (member encodeBase64) pairs))].
Proof.
  unfold createSecret. split.
  - destruct (contents encodeBase64 (data opt)) as [|members] eqn:Hc; [discriminate|].
    intros [= <-]. apply contents_pairs in Hc as (pairs & Hp & Hd & ->).
    exists pairs. split; [exact Hp|]. split; [exact Hd | reflexivity].
  - intros (pairs & Hp & Hd & ->). rewrite Hd, (contents_proper _ _ Hp). reflexivity.
Qed.

End ClientSecretFacts.

(** ** The allocation of ports *)

Module DBServerFacts.
Import DBServer.

Lemma next_in_range (port : Z) :
  inRange port -> inRange (if port + 1 =? maxPort then minPort else port + 1).
Proof.
  unfold inRange, minPort, maxPort. intros H.
  destruct (Z.eqb_spec (port + 1) 53000); lia.
Qed.

Lemma allocateLoop_lowest (table : gmap Z ProcessHandle) (p : Z) (fuel : nat) (port : Z) :
  inRange p -> table !! p = None ->
  (forall q, port <= q < p -> is_Some (table !! q)) ->
  minPort <= port <= p -> p - port < Z.of_nat fuel ->
  allocateLoop fuel table port = Some (p, <[p := None]> table).
Proof.
  intros Hp Hfree. revert port. induction fuel as [|fuel IH]; intros port Hbelow Hport Hfuel; [lia|].
  cbn [allocateLoop]. destruct (Z.eq_dec port p) as [->|Hne].
  - rewrite Hfree. reflexivity.
  - destruct (Hbelow port ltac:(lia)) as [h ->]. cbv zeta.
    unfold inRange, minPort, maxPort in *.
    destruct (Z.eqb_spec (port + 1) 53000); [lia|].
    apply IH; [intros q Hq; apply Hbelow; lia | lia | lia].
Qed.

Lemma allocateLoop_full (table : gmap Z ProcessHandle) (fuel : nat) (port : Z) :
  (forall q, inRange q -> is_Some (table !! q)) ->
  inRange port -> allocateLoop fuel table port = None.
Proof.
  intros Hfull. revert port. induction fuel as [|fuel IH]; intros port Hport; [reflexivity|].
  cbn [allocateLoop]. destruct (Hfull port Hport) as [h ->]. cbv zeta.
  apply IH, next_in_range, Hport.
Qed.

(** X29. Where a port of 52001..52999 is free, [allocatePort] returns the
    lowest free one and reserves it with an empty handle, leaving the
    other entries of the table as they are; 53000 is never given out. *)
Theorem allocatePort_reserves_the_lowest_free_port
    (table : gmap Z ProcessHandle) (p : Z) (fuel : nat) :
  inRange p -> table !! p = None ->
  (forall q, minPort <= q < p -> is_Some (table !! q)) ->
  (999 <= fuel)%nat ->
  allocatePort fuel table = Some (p, <[p := None]> table).
Proof.
  intros Hp Hfree Hbelow Hfuel. unfold allocatePort.
  apply allocateLoop_lowest; try assumption; unfold inRange, minPort, maxPort in *; lia.
Qed.

Lemma allocatePort_witness :
  allocatePort 999 busy = Some (52003, <[52003 := None]> busy).
Proof.
  apply allocatePort_reserves_the_lowest_free_port.
  - unfold inRange, minPort, maxPort. lia.
  - reflexivity.
  - intros q Hq. unfold minPort in Hq.
    assert (q = 52001 \/ q = 52002) as [-> | ->] by lia; eexists; reflexivity.
  - lia.
Defined.

(** X30. Where every port of 52001..52999 is taken, [allocatePort] does not
    return: the loop goes round the range without end. *)
Theorem allocatePort_never_returns_when_the_range_is_taken
    (table : gmap Z ProcessHandle) (fuel : nat) :
  (forall q, inRange q -> is_Some (table !! q)) ->
  allocatePort fuel table = None.
Proof.
  intros Hfull. apply allocateLoop_full; [exact Hfull|].
  unfold inRange, minPort, maxPort. lia.
Qed.

Lemma full_is_taken (q : Z) : inRange q -> is_Some (full !! q).
Proof.
  unfold inRange, minPort, maxPort. intros Hq.
  apply (elem_of_dom (D := gset Z)). unfold full. rewrite dom_list_to_map_L.
  apply elem_of_list_to_set. rewrite List.map_map. cbn [fst].
  apply list_elem_of_In, in_map_iff. exists (Z.to_nat (q - 52001)).
  split; [unfold minPort; lia | apply in_seq; lia].
Qed.

Lemma allocatePort_never_returns_witness : allocatePort 5000 full = None.
Proof.
  apply allocatePort_never_returns_when_the_range_is_taken. exact full_is_taken.
Defined.

End DBServerFacts.
